(** * Lane detection pipeline: work queues and staged concurrency

    A shallow embedding of the producer/consumer pipeline of
    [lane_detection_openmp.cpp] and [lane_detection_openmp_v2.cpp]:

    - the [work_node] structure and the two singly linked work queues, with
      their head and tail pointers and size counters, over an explicit heap;
    - the three stages [stage_one], [stage_two], [stage_three] of
      [lane_detection_openmp.cpp], one atomic step per critical section;
    - the three blocks of [parallel_processing] of
      [lane_detection_openmp_v2.cpp];
    - the single loop of [parallel_processing] of
      [lane_detection_openmp.cpp], with its [single nowait] construct;
    - the loop of the sequential programs [lane_detection_seq.cpp] and
      [serial_LaneDetect.cpp];
    - the start-up sequence of [main].

    The image type [Mat] and the image transform computed by [process_frame]
    belong to OpenCV and are parameters of the development.

    The verification relates the heap to lists of node contents
    ([mem_view]), replays both programs on such lists in lockstep
    ([stage_step_rel], [v2_step_rel]), proves an invariant of each program
    on lists ([stage_inv], [v2_inv]) together with progress and termination,
    and carries the results back to the heap. The statements about the
    programs follow, with runs on concrete streams. The last part treats
    the single loop in the same way ([loop_step_rel], [loop_inv]) and adds
    properties of all the programs: memory safety, allocation and release of
    the nodes, the counters, and what the queue functions leave behind. *)

From stdpp Require Import gmap list sorting.
From Stdlib Require Import ZArith Lia.

Local Open Scope Z_scope.

(** ** Memory: work nodes on a heap *)

(** Addresses returned by [malloc]; the null pointer is [None]. *)
Abbreviation addr := nat.

Section Memory.
Context {Mat : Type}.

(** [struct node]: [frame] is the owned image ([NULL] is [None]),
    [next] the link to the following node of a queue. *)
Record work_node := WorkNode {
  frame : option Mat;
  frame_number : Z;
  is_the_last_node : bool;
  next : option addr
}.

(** The link-free content of a node. *)
Record item := Item {
  it_frame : option Mat;
  it_id : Z;
  it_last : bool
}.

Definition item_of (n : work_node) : item :=
  Item (frame n) (frame_number n) (is_the_last_node n).

Definition node_of (it : item) : work_node :=
  WorkNode (it_frame it) (it_id it) (it_last it) None.

Definition with_next (nx : option addr) (n : work_node) : work_node :=
  WorkNode (frame n) (frame_number n) (is_the_last_node n) nx.

Definition with_frame (f : option Mat) (n : work_node) : work_node :=
  WorkNode f (frame_number n) (is_the_last_node n) (next n).

(** The queue globals of both programs. The counters are C [int]s; they are
    kept in [Z]: each counts the nodes of its list (see [mem_view]), which
    the memory of the machine bounds. *)
Record globals := Globals {
  heap : gmap addr work_node;
  input_head : option addr;
  input_tail : option addr;
  output_head : option addr;
  output_tail : option addr;
  size_input_work_queue : Z;
  size_output_work_queue : Z
}.

(** [main] of both programs: all four pointers [NULL], both sizes 0. *)
Definition globals_init : globals :=
  Globals ∅ None None None None 0 0.

Definition set_heap (h : gmap addr work_node) (g : globals) : globals :=
  Globals h (input_head g) (input_tail g) (output_head g) (output_tail g)
          (size_input_work_queue g) (size_output_work_queue g).

Definition set_input (hd tl : option addr) (sz : Z) (g : globals) : globals :=
  Globals (heap g) hd tl (output_head g) (output_tail g)
          sz (size_output_work_queue g).

Definition set_output (hd tl : option addr) (sz : Z) (g : globals) : globals :=
  Globals (heap g) (input_head g) (input_tail g) hd tl
          (size_input_work_queue g) sz.

(** [p->next = nx]; dereferencing an address that holds no node is undefined
    behaviour and yields [None]. *)
Definition store_next (a : addr) (nx : option addr)
    (h : gmap addr work_node) : option (gmap addr work_node) :=
  n ← h !! a; Some (<[a := with_next nx n]> h).

(** [malloc] of a node followed by the initialisation of its four fields, as
    at every allocation site of the programs ([next] is always [NULL]). *)
Definition malloc (h : gmap addr work_node) : addr := fresh (dom h).

Definition new_node (it : item) (g : globals) : addr * globals :=
  let a := malloc (heap g) in (a, set_heap (<[a := node_of it]> (heap g)) g).

(** [free] of a node. *)
Definition free_node (a : addr) (g : globals) : globals :=
  set_heap (delete a (heap g)) g.

(** ** The queue functions *)

Definition get_head_id_from_input_work_queue (g : globals) : option Z :=
  a ← input_head g; n ← heap g !! a; Some (frame_number n).

Definition get_head_id_from_output_work_queue (g : globals) : option Z :=
  a ← output_head g; n ← heap g !! a; Some (frame_number n).

Definition add_to_input_work_queue (node_aux : addr) (g : globals)
    : option globals :=
  if size_input_work_queue g =? 0 then
    Some (set_input (Some node_aux) (Some node_aux)
                    (size_input_work_queue g + 1) g)
  else
    tl ← input_tail g;
    h ← store_next tl (Some node_aux) (heap g);
    Some (set_input (input_head g) (Some node_aux)
                    (size_input_work_queue g + 1) (set_heap h g)).

(** The [while] loop of [add_to_output_work_queue], entered with
    [current_node]. The loop follows [next] links, so it is driven by fuel;
    [add_to_output_scan_spec] shows that the fuel given by
    [add_to_output_work_queue] is enough on every null-terminated list. The
    result is the new heap and whether [node_aux] became the last node. *)
Fixpoint add_to_output_scan (fuel : nat) (node_aux : addr) (node_aux_id : Z)
    (current_node : addr) (h : gmap addr work_node)
    : option (gmap addr work_node * bool) :=
  match fuel with
  | O => None
  | S fuel' =>
      cur ← h !! current_node;
      match next cur with
      | Some nx =>
          nxt ← h !! nx;
          if node_aux_id <=? frame_number nxt then
            h1 ← store_next node_aux (Some nx) h;
            h2 ← store_next current_node (Some node_aux) h1;
            Some (h2, false)
          else add_to_output_scan fuel' node_aux node_aux_id nx h
      | None =>
          h1 ← store_next node_aux None h;
          h2 ← store_next current_node (Some node_aux) h1;
          Some (h2, true)
      end
  end.

Definition add_to_output_work_queue (node_aux : addr) (g : globals)
    : option globals :=
  if size_output_work_queue g =? 0 then
    Some (set_output (Some node_aux) (Some node_aux)
                     (size_output_work_queue g + 1) g)
  else
    na ← heap g !! node_aux;
    let node_aux_id := frame_number na in
    current_node ← output_head g;
    cur ← heap g !! current_node;
    if node_aux_id <=? frame_number cur then
      h ← store_next node_aux (Some current_node) (heap g);
      Some (set_output (Some node_aux) (output_tail g)
                       (size_output_work_queue g + 1) (set_heap h g))
    else
      '(h, at_end) ← add_to_output_scan (size (heap g)) node_aux node_aux_id
                                        current_node (heap g);
      Some (set_output (output_head g)
                       (if at_end : bool then Some node_aux else output_tail g)
                       (size_output_work_queue g + 1) (set_heap h g)).

Definition remove_from_input_work_queue (g : globals)
    : option (addr * globals) :=
  node_to_remove ← input_head g;
  n ← heap g !! node_to_remove;
  Some (node_to_remove,
        set_input (next n) (input_tail g) (size_input_work_queue g - 1)
                  (set_heap (<[node_to_remove := with_next None n]> (heap g)) g)).

Definition remove_from_output_work_queue (g : globals)
    : option (addr * globals) :=
  node_to_remove ← output_head g;
  n ← heap g !! node_to_remove;
  Some (node_to_remove,
        set_output (next n) (output_tail g) (size_output_work_queue g - 1)
                   (set_heap (<[node_to_remove := with_next None n]> (heap g)) g)).

End Memory.

Arguments work_node : clear implicits.
Arguments item : clear implicits.
Arguments globals : clear implicits.

(** ** A client of the queue functions

    Every use the programs make of the four queue functions, as one
    operation each; a sequence of operations is any interleaving of
    critical sections. *)

Section QueueClient.
Context {Mat : Type}.

Inductive queue_op :=
  | QPush (it : item Mat)     (* a fresh node is appended to the input queue *)
  | QPop                      (* [if (size_input_work_queue > 0)] remove the head *)
  | QForward (k : nat)        (* the k-th node in hand goes to the output queue *)
  | QInsert (it : item Mat)   (* a fresh node goes to the output queue *)
  | QEmit (expected_id : Z)   (* remove the output head if it is the expected one *)
  | QDrain.                   (* [if (size_output_work_queue > 0)] remove and free *)

Record client := Client {
  cl_mem : globals Mat;
  cl_hand : list addr;               (* nodes removed from the input queue *)
  cl_arrived : list (item Mat);      (* contents pushed, in push order *)
  cl_removed : list (item Mat);      (* contents popped, in pop order *)
  cl_emitted : list (item Mat)       (* contents released by [QEmit], in order *)
}.

Definition client_init : client := Client globals_init [] [] [] [].

(** The guard and removal of block three in [parallel_processing]:
    nothing happens unless the queue is non-empty and its head carries
    [expected_id]. *)
Definition try_remove (expected_id : Z) (g : globals Mat)
    : option (option addr * globals Mat) :=
  if 0 <? size_output_work_queue g then
    id_of_the_head_of_the_queue ← get_head_id_from_output_work_queue g;
    if id_of_the_head_of_the_queue =? expected_id then
      '(node_aux, g') ← remove_from_output_work_queue g;
      Some (Some node_aux, g')
    else Some (None, g)
  else Some (None, g).

Definition client_step (op : queue_op) (c : client) : option client :=
  match op with
  | QPush it =>
      let '(a, g) := new_node it (cl_mem c) in
      g' ← add_to_input_work_queue a g;
      Some (Client g' (cl_hand c) (cl_arrived c ++ [it]) (cl_removed c)
                   (cl_emitted c))
  | QPop =>
      if 0 <? size_input_work_queue (cl_mem c) then
        '(a, g') ← remove_from_input_work_queue (cl_mem c);
        n ← heap g' !! a;
        Some (Client g' (cl_hand c ++ [a]) (cl_arrived c)
                     (cl_removed c ++ [item_of n]) (cl_emitted c))
      else Some c
  | QForward k =>
      match cl_hand c !! k with
      | Some a =>
          g' ← add_to_output_work_queue a (cl_mem c);
          Some (Client g' (delete k (cl_hand c)) (cl_arrived c) (cl_removed c)
                       (cl_emitted c))
      | None => Some c
      end
  | QInsert it =>
      let '(a, g) := new_node it (cl_mem c) in
      g' ← add_to_output_work_queue a g;
      Some (Client g' (cl_hand c) (cl_arrived c) (cl_removed c) (cl_emitted c))
  | QEmit expected_id =>
      '(r, g') ← try_remove expected_id (cl_mem c);
      match r with
      | Some a =>
          n ← heap g' !! a;
          Some (Client (free_node a g') (cl_hand c) (cl_arrived c)
                       (cl_removed c) (cl_emitted c ++ [item_of n]))
      | None => Some c
      end
  | QDrain =>
      if 0 <? size_output_work_queue (cl_mem c) then
        '(a, g') ← remove_from_output_work_queue (cl_mem c);
        Some (Client (free_node a g') (cl_hand c) (cl_arrived c)
                     (cl_removed c) (cl_emitted c))
      else Some c
  end.

Fixpoint client_run (ops : list queue_op) (c : client) : option client :=
  match ops with
  | [] => Some c
  | op :: ops' => c' ← client_step op c; client_run ops' c'
  end.

End QueueClient.

Arguments queue_op : clear implicits.
Arguments client : clear implicits.

(** ** Frames: [process_frame] and [send_frame_to_display] *)

Section Frames.
Context {Mat : Type}.
Variable process_image : Mat → Mat.

(** [process_frame] reads the image behind [node_aux->frame] and stores the
    transformed image back into the same node. *)
Definition process_frame (node_aux : addr) (g : globals Mat)
    : option (globals Mat) :=
  n ← heap g !! node_aux;
  image ← frame n;
  Some (set_heap (<[node_aux := with_frame (Some (process_image image)) n]>
                    (heap g)) g).

(** [send_frame_to_display] writes the image to [oVideoWriter] and frees the
    image and the node. The result is the image written. *)
Definition send_frame_to_display (node_aux : addr) (g : globals Mat)
    : option (Mat * globals Mat) :=
  n ← heap g !! node_aux;
  frame_aux ← frame n;
  Some (frame_aux, free_node node_aux g).

End Frames.

(** ** Threads, outcomes and instrumentation *)

(** A run is an interleaving of atomic steps of the threads, one step per
    critical section or per access to a shared flag, on a memory that every
    thread sees in the same state. One step of a thread either changes the
    state, or cannot be taken now (the thread waits on a condition or has
    returned), or has undefined behaviour (a null or dangling pointer is
    dereferenced). *)
Inductive outcome (S : Type) :=
  | Next (s : S)
  | Blocked
  | Undefined.
Arguments Next {S} s.
Arguments Blocked {S}.
Arguments Undefined {S}.

Definition of_option {S : Type} (o : option S) : outcome S :=
  match o with Some s => Next s | None => Undefined end.

Inductive thread :=
  | Ingest                (* the thread of the first stage, or the master *)
  | Worker (w : nat)      (* one of the threads of the second stage *)
  | Emit                  (* the thread of the third stage *)
  | Main.                 (* the code after the threads have ended *)

(** What the instrumented programs record; it has no influence on a run. *)
Inductive event :=
  | EvPush (id : Z) (last : bool)             (* [add_to_input_work_queue] *)
  | EvPop (w : nat) (id : Z) (last : bool)    (* [remove_from_input_work_queue] *)
  | EvProcess (w : nat) (id : Z)              (* [process_frame] *)
  | EvInsert (w : nat) (id : Z) (last : bool) (* [add_to_output_work_queue] *)
  | EvRelease (id : Z) (last : bool)          (* [remove_from_output_work_queue] *)
  | EvDisplay (id : Z)                        (* [send_frame_to_display] *)
  | EvDiscard (id : Z) (last : bool).         (* the final drain *)

(** Program points of the code that follows the threads. *)
Inductive main_pc :=
  | MainJoin       (* waiting for every thread to end *)
  | MainDrain      (* [while (size_output_work_queue > 0)] *)
  | MainReturn.

(** ** The three stages of [lane_detection_openmp.cpp] *)

Section Stages.
Context {Mat : Type}.
Variable process_image : Mat → Mat.

(** Program points of [stage_one]. *)
Inductive one_pc :=
  | OneCapture            (* at [capture >> image] *)
  | OneSentinel (i : Z)   (* at the test [i < threads_number] of the [for] *)
  | OneReturn.

(** Program points of [stage_two]; [node_aux] is the local variable. *)
Inductive two_pc :=
  | TwoWait                    (* at the [while (size_input_work_queue == 0)] *)
  | TwoTake (node_aux : addr)  (* at the test of [is_the_last_node] *)
  | TwoSend (node_aux : addr)  (* after [process_frame] *)
  | TwoReturn.

(** Program points of [stage_three]. *)
Inductive three_pc :=
  | ThreeNext                   (* at [current_frame++] *)
  | ThreeWait                   (* at the two waiting loops *)
  | ThreeTake (node_aux : addr) (* at the test of [is_the_last_node] *)
  | ThreeReturn.

Record stage_state := StageState {
  st_mem : globals Mat;
  st_capture : list Mat;        (* the frames [capture] has still to deliver *)
  st_writer : list Mat;         (* the frames written to [oVideoWriter] *)
  st_nframes : Z;
  st_current_frame : Z;
  st_threads_number : Z;
  st_one : one_pc;
  st_two : list two_pc;         (* one program point per stage-two thread *)
  st_three : three_pc;
  st_main : main_pc;
  st_log : list event
}.

(** Modelled from the spec: the thread creation of the three-stage program is
    not in the sources (they declare [thread_stage_one], [threads_stage_two]
    and [thread_stage_three] and describe them in the header comment): one
    thread runs [stage_one], [threads_number] threads run [stage_two], one
    runs [stage_three]; the variables are set as in [main]. *)
Definition stage_init (threads_number : Z) (video : list Mat) : stage_state :=
  StageState globals_init video [] 0 0 threads_number
             OneCapture (replicate (Z.to_nat threads_number) TwoWait)
             ThreeNext MainJoin [].

Definition stage_one (s : stage_state) : outcome stage_state :=
  match st_one s with
  | OneCapture =>
      let nframes := st_nframes s + 1 in
      match st_capture s with
      | [] =>
          Next (StageState (st_mem s) [] (st_writer s) nframes
                  (st_current_frame s) (st_threads_number s)
                  (OneSentinel 0) (st_two s) (st_three s) (st_main s)
                  (st_log s))
      | image :: rest =>
          let '(node_aux, g) :=
            new_node (Item (Some image) nframes false) (st_mem s) in
          of_option (
            g' ← add_to_input_work_queue node_aux g;
            Some (StageState g' rest (st_writer s) nframes
                    (st_current_frame s) (st_threads_number s)
                    OneCapture (st_two s) (st_three s) (st_main s)
                    (st_log s ++ [EvPush nframes false])))
      end
  | OneSentinel i =>
      if i <? st_threads_number s then
        let '(node_aux, g) :=
          new_node (Item None (st_nframes s) true) (st_mem s) in
        of_option (
          g' ← add_to_input_work_queue node_aux g;
          Some (StageState g' (st_capture s) (st_writer s) (st_nframes s)
                  (st_current_frame s) (st_threads_number s)
                  (OneSentinel (i + 1)) (st_two s) (st_three s) (st_main s)
                  (st_log s ++ [EvPush (st_nframes s) true])))
      else
        Next (StageState (st_mem s) (st_capture s) (st_writer s) (st_nframes s)
                (st_current_frame s) (st_threads_number s)
                OneReturn (st_two s) (st_three s) (st_main s) (st_log s))
  | OneReturn => Blocked
  end.

Definition stage_two_set (w : nat) (pc : two_pc) (g : globals Mat)
    (e : list event) (s : stage_state) : stage_state :=
  StageState g (st_capture s) (st_writer s) (st_nframes s)
    (st_current_frame s) (st_threads_number s)
    (st_one s) (<[w := pc]> (st_two s)) (st_three s) (st_main s)
    (st_log s ++ e).

Definition stage_two (w : nat) (s : stage_state) : outcome stage_state :=
  match st_two s !! w with
  | None => Blocked
  | Some TwoWait =>
      if size_input_work_queue (st_mem s) =? 0 then Blocked
      else of_option (
        '(node_aux, g) ← remove_from_input_work_queue (st_mem s);
        n ← heap g !! node_aux;
        Some (stage_two_set w (TwoTake node_aux) g
                [EvPop w (frame_number n) (is_the_last_node n)] s))
  | Some (TwoTake node_aux) =>
      of_option (
        n ← heap (st_mem s) !! node_aux;
        if is_the_last_node n then
          g ← add_to_output_work_queue node_aux (st_mem s);
          Some (stage_two_set w TwoReturn g
                  [EvInsert w (frame_number n) true] s)
        else
          g ← process_frame process_image node_aux (st_mem s);
          Some (stage_two_set w (TwoSend node_aux) g
                  [EvProcess w (frame_number n)] s))
  | Some (TwoSend node_aux) =>
      of_option (
        n ← heap (st_mem s) !! node_aux;
        g ← add_to_output_work_queue node_aux (st_mem s);
        Some (stage_two_set w TwoWait g
                [EvInsert w (frame_number n) false] s))
  | Some TwoReturn => Blocked
  end.

Definition stage_three_set (pc : three_pc) (g : globals Mat)
    (writer : list Mat) (current_frame : Z) (e : list event)
    (s : stage_state) : stage_state :=
  StageState g (st_capture s) writer (st_nframes s)
    current_frame (st_threads_number s)
    (st_one s) (st_two s) pc (st_main s) (st_log s ++ e).

Definition stage_three (s : stage_state) : outcome stage_state :=
  match st_three s with
  | ThreeNext =>
      Next (stage_three_set ThreeWait (st_mem s) (st_writer s)
              (st_current_frame s + 1) [] s)
  | ThreeWait =>
      if size_output_work_queue (st_mem s) =? 0 then Blocked
      else
        match get_head_id_from_output_work_queue (st_mem s) with
        | None => Undefined
        | Some id =>
            if id =? st_current_frame s then
              of_option (
                '(node_aux, g) ← remove_from_output_work_queue (st_mem s);
                n ← heap g !! node_aux;
                Some (stage_three_set (ThreeTake node_aux) g (st_writer s)
                        (st_current_frame s)
                        [EvRelease (frame_number n) (is_the_last_node n)] s))
            else Blocked
        end
  | ThreeTake node_aux =>
      of_option (
        n ← heap (st_mem s) !! node_aux;
        if is_the_last_node n then
          Some (stage_three_set ThreeReturn (st_mem s) (st_writer s)
                  (st_current_frame s) [] s)
        else
          '(image, g) ← send_frame_to_display node_aux (st_mem s);
          Some (stage_three_set ThreeNext g (st_writer s ++ [image])
                  (st_current_frame s) [EvDisplay (frame_number n)] s))
  | ThreeReturn => Blocked
  end.

Definition two_returned (pc : two_pc) : bool :=
  match pc with TwoReturn => true | _ => false end.

Definition stage_threads_ended (s : stage_state) : bool :=
  match st_one s, st_three s with
  | OneReturn, ThreeReturn => forallb two_returned (st_two s)
  | _, _ => false
  end.

Definition stage_main_set (pc : main_pc) (g : globals Mat) (e : list event)
    (s : stage_state) : stage_state :=
  StageState g (st_capture s) (st_writer s) (st_nframes s)
    (st_current_frame s) (st_threads_number s)
    (st_one s) (st_two s) (st_three s) pc (st_log s ++ e).

(** Modelled from the spec: the code that joins the three stages is not in
    the sources; the header comment says that the sentinels left in the output
    queue are freed afterwards, sequentially, which is the loop that ends
    [parallel_processing]:
    [while (size_output_work_queue > 0) free(remove_from_output_work_queue())]. *)
Definition stage_main (s : stage_state) : outcome stage_state :=
  match st_main s with
  | MainJoin =>
      if stage_threads_ended s then Next (stage_main_set MainDrain (st_mem s) [] s)
      else Blocked
  | MainDrain =>
      if 0 <? size_output_work_queue (st_mem s) then
        of_option (
          '(node_aux, g) ← remove_from_output_work_queue (st_mem s);
          n ← heap g !! node_aux;
          Some (stage_main_set MainDrain (free_node node_aux g)
                  [EvDiscard (frame_number n) (is_the_last_node n)] s))
      else Next (stage_main_set MainReturn (st_mem s) [] s)
  | MainReturn => Blocked
  end.

Definition stage_step (t : thread) (s : stage_state) : outcome stage_state :=
  match t with
  | Ingest => stage_one s
  | Worker w => stage_two w s
  | Emit => stage_three s
  | Main => stage_main s
  end.

(** A schedule is the order in which the threads take their steps. *)
Fixpoint stage_run (sched : list thread) (s : stage_state)
    : outcome stage_state :=
  match sched with
  | [] => Next s
  | t :: sched' =>
      match stage_step t s with
      | Next s' => stage_run sched' s'
      | Blocked => Blocked
      | Undefined => Undefined
      end
  end.

Inductive stage_reach (s : stage_state) : stage_state → Prop :=
  | stage_reach_refl : stage_reach s s
  | stage_reach_step s1 t s2 :
      stage_reach s s1 → stage_step t s1 = Next s2 → stage_reach s s2.

End Stages.

Arguments stage_state : clear implicits.

(** ** [parallel_processing] of [lane_detection_openmp_v2.cpp] *)

(** The value an [int] of 32 bits holds after an addition whose exact result
    is [z]: the result modulo 2^32, read as a signed number. (The overflow of
    a signed addition is undefined in C++; the [add] instruction that
    [g++] emits for [correctness = correctness + frame_number] wraps.) *)
Definition wrap_int (z : Z) : Z :=
  (z + 2147483648) mod 4294967296 - 2147483648.

Section V2.
Context {Mat : Type}.
Variable process_image : Mat → Mat.

(** Program points of the master thread (thread 0), which runs block one
    and block three and skips block two. *)
Inductive master_pc :=
  | MasterHead                    (* at the test [finished == false] *)
  | MasterBlockOne
  | MasterBlockThree
  | MasterTake (node_aux : addr)  (* after the unlock, at [is_the_last_node] *)
  | MasterExit.

(** Program points of the other threads, which run block two only. *)
Inductive team_pc :=
  | TeamHead                      (* at the test [finished == false] *)
  | TeamBlockTwo                  (* at the test [is_there_any_work == true] *)
  | TeamLock                      (* at [omp_set_lock(&input_work_queue_lock)] *)
  | TeamTake (node_aux : addr)    (* after the unlock, at [is_the_last_node] *)
  | TeamSend (node_aux : addr)    (* after [process_frame] *)
  | TeamFlag                      (* at [is_there_any_work = false] *)
  | TeamExit.

Record v2_state := V2State {
  v2_mem : globals Mat;
  v2_capture : list Mat;
  v2_writer : list Mat;
  v2_nframes : Z;
  v2_current_frame : Z;
  v2_correctness : Z;           (* an [int], see [wrap_int] *)
  v2_threads_number : Z;
  is_there_any_frame : bool;
  is_there_any_work : bool;
  finished : bool;
  v2_master : master_pc;
  v2_team : list team_pc;       (* threads 1 .. threads_number *)
  v2_main : main_pc;
  v2_log : list event
}.

(** [main] sets [current_frame = 1], [nframes = 1], [correctness = 0];
    [parallel_processing] sets the three flags and asks for
    [threads_number + 1] threads: the master and [threads_number] others.
    (What [omp_set_num_threads] does with a number below 1 is left to the
    OpenMP implementation; a negative [threads_number] is taken here as no
    other thread.) *)
Definition v2_init (threads_number : Z) (video : list Mat) : v2_state :=
  V2State globals_init video [] 1 1 0 threads_number true true false
          MasterHead (replicate (Z.to_nat threads_number) TeamHead)
          MainJoin [].

Definition v2_master_set (pc : master_pc) (s : v2_state) : v2_state :=
  V2State (v2_mem s) (v2_capture s) (v2_writer s) (v2_nframes s)
    (v2_current_frame s) (v2_correctness s) (v2_threads_number s)
    (is_there_any_frame s) (is_there_any_work s) (finished s)
    pc (v2_team s) (v2_main s) (v2_log s).

Definition v2_block_one (s : v2_state) : option v2_state :=
  if is_there_any_frame s then
    let id_of_my_frame := v2_nframes s in
    match v2_capture s with
    | [] =>
        let '(node_aux, g) :=
          new_node (Item None id_of_my_frame true) (v2_mem s) in
        g' ← add_to_input_work_queue node_aux g;
        Some (V2State g' [] (v2_writer s) (v2_nframes s + 1)
                (v2_current_frame s) (v2_correctness s) (v2_threads_number s)
                false (is_there_any_work s) (finished s)
                MasterBlockThree (v2_team s) (v2_main s)
                (v2_log s ++ [EvPush id_of_my_frame true]))
    | image :: rest =>
        let '(node_aux, g) :=
          new_node (Item (Some image) id_of_my_frame false) (v2_mem s) in
        g' ← add_to_input_work_queue node_aux g;
        Some (V2State g' rest (v2_writer s) (v2_nframes s + 1)
                (v2_current_frame s) (v2_correctness s) (v2_threads_number s)
                true (is_there_any_work s) (finished s)
                MasterBlockThree (v2_team s) (v2_main s)
                (v2_log s ++ [EvPush id_of_my_frame false]))
    end
  else Some (v2_master_set MasterBlockThree s).

Definition v2_block_three (s : v2_state) : option v2_state :=
  if 0 <? size_output_work_queue (v2_mem s) then
    id_of_the_head_of_the_queue ← get_head_id_from_output_work_queue (v2_mem s);
    if id_of_the_head_of_the_queue =? v2_current_frame s then
      '(node_aux, g) ← remove_from_output_work_queue (v2_mem s);
      n ← heap g !! node_aux;
      Some (V2State g (v2_capture s) (v2_writer s) (v2_nframes s)
              (v2_current_frame s) (v2_correctness s) (v2_threads_number s)
              (is_there_any_frame s) (is_there_any_work s) (finished s)
              (MasterTake node_aux) (v2_team s) (v2_main s)
              (v2_log s ++ [EvRelease (frame_number n) (is_the_last_node n)]))
    else Some (v2_master_set MasterHead s)
  else Some (v2_master_set MasterHead s).

Definition v2_master_take (node_aux : addr) (s : v2_state) : option v2_state :=
  n ← heap (v2_mem s) !! node_aux;
  if is_the_last_node n then
    Some (V2State (v2_mem s) (v2_capture s) (v2_writer s) (v2_nframes s)
            (v2_current_frame s) (v2_correctness s) (v2_threads_number s)
            (is_there_any_frame s) (is_there_any_work s) true
            MasterHead (v2_team s) (v2_main s) (v2_log s))
  else
    '(image, g) ← send_frame_to_display node_aux (v2_mem s);
    Some (V2State g (v2_capture s) (v2_writer s ++ [image]) (v2_nframes s)
            (v2_current_frame s + 1)
            (wrap_int (v2_correctness s + frame_number n))
            (v2_threads_number s)
            (is_there_any_frame s) (is_there_any_work s) (finished s)
            MasterHead (v2_team s) (v2_main s)
            (v2_log s ++ [EvDisplay (frame_number n)])).

Definition v2_master_step (s : v2_state) : outcome v2_state :=
  match v2_master s with
  | MasterHead =>
      Next (v2_master_set (if finished s then MasterExit else MasterBlockOne) s)
  | MasterBlockOne => of_option (v2_block_one s)
  | MasterBlockThree => of_option (v2_block_three s)
  | MasterTake node_aux => of_option (v2_master_take node_aux s)
  | MasterExit => Blocked
  end.

Definition v2_team_set (w : nat) (pc : team_pc) (g : globals Mat)
    (any_work : bool) (e : list event) (s : v2_state) : v2_state :=
  V2State g (v2_capture s) (v2_writer s) (v2_nframes s)
    (v2_current_frame s) (v2_correctness s) (v2_threads_number s)
    (is_there_any_frame s) any_work (finished s)
    (v2_master s) (<[w := pc]> (v2_team s)) (v2_main s) (v2_log s ++ e).

Definition v2_block_two (w : nat) (s : v2_state) : outcome v2_state :=
  let goto pc := v2_team_set w pc (v2_mem s) (is_there_any_work s) [] s in
  match v2_team s !! w with
  | None => Blocked
  | Some TeamHead => Next (goto (if finished s then TeamExit else TeamBlockTwo))
  | Some TeamBlockTwo =>
      Next (goto (if is_there_any_work s then TeamLock else TeamHead))
  | Some TeamLock =>
      if 0 <? size_input_work_queue (v2_mem s) then
        of_option (
          '(node_aux, g) ← remove_from_input_work_queue (v2_mem s);
          n ← heap g !! node_aux;
          Some (v2_team_set w (TeamTake node_aux) g (is_there_any_work s)
                  [EvPop w (frame_number n) (is_the_last_node n)] s))
      else Next (goto TeamHead)
  | Some (TeamTake node_aux) =>
      of_option (
        n ← heap (v2_mem s) !! node_aux;
        if is_the_last_node n then
          g ← add_to_output_work_queue node_aux (v2_mem s);
          Some (v2_team_set w TeamFlag g (is_there_any_work s)
                  [EvInsert w (frame_number n) true] s)
        else
          g ← process_frame process_image node_aux (v2_mem s);
          Some (v2_team_set w (TeamSend node_aux) g (is_there_any_work s)
                  [EvProcess w (frame_number n)] s))
  | Some (TeamSend node_aux) =>
      of_option (
        n ← heap (v2_mem s) !! node_aux;
        g ← add_to_output_work_queue node_aux (v2_mem s);
        Some (v2_team_set w TeamHead g (is_there_any_work s)
                [EvInsert w (frame_number n) false] s))
  | Some TeamFlag => Next (v2_team_set w TeamHead (v2_mem s) false [] s)
  | Some TeamExit => Blocked
  end.

Definition team_exited (pc : team_pc) : bool :=
  match pc with TeamExit => true | _ => false end.

Definition v2_threads_ended (s : v2_state) : bool :=
  match v2_master s with
  | MasterExit => forallb team_exited (v2_team s)
  | _ => false
  end.

Definition v2_main_set (pc : main_pc) (g : globals Mat) (e : list event)
    (s : v2_state) : v2_state :=
  V2State g (v2_capture s) (v2_writer s) (v2_nframes s)
    (v2_current_frame s) (v2_correctness s) (v2_threads_number s)
    (is_there_any_frame s) (is_there_any_work s) (finished s)
    (v2_master s) (v2_team s) pc (v2_log s ++ e).

(** The end of the parallel region and the loop that frees what is left in
    the output queue. *)
Definition v2_after (s : v2_state) : outcome v2_state :=
  match v2_main s with
  | MainJoin =>
      if v2_threads_ended s then Next (v2_main_set MainDrain (v2_mem s) [] s)
      else Blocked
  | MainDrain =>
      if 0 <? size_output_work_queue (v2_mem s) then
        of_option (
          '(node_aux, g) ← remove_from_output_work_queue (v2_mem s);
          n ← heap g !! node_aux;
          Some (v2_main_set MainDrain (free_node node_aux g)
                  [EvDiscard (frame_number n) (is_the_last_node n)] s))
      else Next (v2_main_set MainReturn (v2_mem s) [] s)
  | MainReturn => Blocked
  end.

(** Thread 0 is both the ingest and the emit thread: [Ingest] names it. *)
Definition v2_step (t : thread) (s : v2_state) : outcome v2_state :=
  match t with
  | Ingest => v2_master_step s
  | Worker w => v2_block_two w s
  | Emit => Blocked
  | Main => v2_after s
  end.

Fixpoint v2_run (sched : list thread) (s : v2_state) : outcome v2_state :=
  match sched with
  | [] => Next s
  | t :: sched' =>
      match v2_step t s with
      | Next s' => v2_run sched' s'
      | Blocked => Blocked
      | Undefined => Undefined
      end
  end.

Inductive v2_reach (s : v2_state) : v2_state → Prop :=
  | v2_reach_refl : v2_reach s s
  | v2_reach_step s1 t s2 :
      v2_reach s s1 → v2_step t s1 = Next s2 → v2_reach s s2.

End V2.

Arguments v2_state : clear implicits.

(** ** The start-up sequence of [main] *)

(** What [main] meets when it runs: the two numbers it reads with [atoi] and
    the state of [capture] after each attempt to open it. *)
Record command_line := CommandLine {
  threads_argument : Z;   (* [atoi(argv[2])] *)
  camera_index : Z;       (* [atoi(arg.c_str())] *)
  name_opens : bool;      (* [capture.isOpened()] after [capture.open(arg)] *)
  camera_opens : bool     (* the same after [capture.open(atoi(...))] *)
}.

(** The calls of [main] that reach the outside world. [ParallelProcessing]
    and [SequentialLoop] record the value of [threads_number] and whether
    [capture] is opened when the frames start to be read. *)
Inductive call :=
  | CaptureOpenName
  | CaptureOpenIndex (index : Z)
  | WriterOpen
  | ParallelProcessing (threads_number : Z) (is_opened : bool)
  | SequentialLoop (is_opened : bool)
  | PrintTimes.

(** [capture.open(arg); if (!capture.isOpened()) capture.open(atoi(...))],
    with the state of [capture] afterwards. *)
Definition open_capture (c : command_line) : list call * bool :=
  if name_opens c then ([CaptureOpenName], true)
  else ([CaptureOpenName; CaptureOpenIndex (camera_index c)], camera_opens c).

(** [main] of [lane_detection_openmp.cpp] and of
    [lane_detection_openmp_v2.cpp], which differ in the initial values of
    [nframes] and [current_frame] (see [stage_init] and [v2_init]), in the
    name of the output file and in one more line printed at the end. *)
Definition main (c : command_line) : list call :=
  let threads_number := threads_argument c in
  let '(opening, is_opened) := open_capture c in
  opening ++
  [WriterOpen; ParallelProcessing threads_number is_opened; PrintTimes].

(** [main] of [lane_detection_seq.cpp] and of [serial_LaneDetect.cpp]. *)
Module Sequential.
Definition main (c : command_line) : list call :=
  let '(opening, is_opened) := open_capture c in
  opening ++ [WriterOpen; SequentialLoop is_opened; PrintTimes].
End Sequential.

(** The calls made before the frames start to be read. *)
Fixpoint before_processing (calls : list call) : list call :=
  match calls with
  | [] => []
  | ParallelProcessing _ _ :: _ | SequentialLoop _ :: _ => []
  | c :: calls' => c :: before_processing calls'
  end.

(** The runs of the pipeline that [main] starts. *)
Definition pipeline_runs (calls : list call) : list (Z * bool) :=
  omap (λ c, match c with
             | ParallelProcessing n is_opened => Some (n, is_opened)
             | _ => None
             end) calls.

(** The calls that write to the standard output. *)
Definition prints (c : call) : bool :=
  match c with PrintTimes => true | _ => false end.

(** ** The loop of the sequential programs *)

Section SequentialLoop.
Context {Mat : Type}.
Variable process_image : Mat → Mat.

(** The [while (1)] loop of [main] in [lane_detection_seq.cpp] and in
    [serial_LaneDetect.cpp]: a frame is read, the loop is left when it is
    empty, else [nframes] is incremented, the frame is transformed and
    written. The statements that transform [image] are, line by line, those
    of [process_frame]. The result is what was written and [nframes]. *)
Fixpoint sequential_loop (capture : list Mat) (writer : list Mat)
    (nframes : Z) : list Mat * Z :=
  match capture with
  | [] => (writer, nframes)
  | image :: rest =>
      sequential_loop rest (writer ++ [process_image image]) (nframes + 1)
  end.

End SequentialLoop.

(** ** [parallel_processing] of [lane_detection_openmp.cpp] *)

Section Loop.
Context {Mat : Type}.
Variable process_image : Mat → Mat.

(** Program points of a thread of the team in the [while] loop. [node_aux],
    [id_of_my_frame] and [image] are its local variables. *)
Inductive loop_pc :=
  | LoopHead                     (* at the test [finished == false] *)
  | LoopSingle                   (* at [#pragma omp single nowait] *)
  | LoopEmit                     (* in the single block, at the lock *)
  | LoopTake (node_aux : addr)   (* after the unlock, at [is_the_last_node] *)
  | LoopNext                     (* at [current_frame++] *)
  | LoopWork                     (* at the test [is_there_any_work == true] *)
  | LoopCapture                  (* at [omp_set_lock(&lock_capturar_frame)] *)
  | LoopFrame (id_of_my_frame : Z) (image : Mat)  (* a frame was read *)
  | LoopSend (node_aux : addr)   (* after [process_frame] *)
  | LoopLast (id_of_my_frame : Z)                 (* the stream has ended *)
  | LoopFlag                     (* at [is_there_any_work = false] *)
  | LoopExit.

(** A thread of the team: the number of [single] regions it has met, which
    the OpenMP runtime keeps for it, and its program point. *)
Record loop_thread := LoopThread {
  lt_single_count : nat;
  lt_pc : loop_pc
}.

Record loop_state := LoopState {
  lo_mem : globals Mat;
  lo_capture : list Mat;        (* the frames [capture] has still to deliver *)
  lo_writer : list Mat;         (* the frames written to [oVideoWriter] *)
  lo_nframes : Z;
  lo_current_frame : Z;
  lo_threads_number : Z;
  lo_is_there_any_work : bool;
  lo_finished : bool;
  lo_single_count : nat;        (* the [single] regions the team has run *)
  lo_team : list loop_thread;
  lo_main : main_pc;
  lo_log : list event
}.

(** The threads of the team. [omp_set_num_threads] wants a positive number
    and leaves any other to the OpenMP implementation; libgomp, the runtime
    of the [g++ -fopenmp] of the compile command, then runs one thread. *)
Definition team_size (threads_number : Z) : nat :=
  Z.to_nat (Z.max 1 threads_number).

(** [main] sets [current_frame = 0] and [nframes = 0]; [parallel_processing]
    sets the two flags and starts the team. *)
Definition loop_init (threads_number : Z) (video : list Mat) : loop_state :=
  LoopState globals_init video [] 0 0 threads_number true false 0
            (replicate (team_size threads_number) (LoopThread 0 LoopHead))
            MainJoin [].

Definition loop_set (w : nat) (th : loop_thread) (s : loop_state)
    : loop_state :=
  LoopState (lo_mem s) (lo_capture s) (lo_writer s) (lo_nframes s)
    (lo_current_frame s) (lo_threads_number s)
    (lo_is_there_any_work s) (lo_finished s) (lo_single_count s)
    (<[w := th]> (lo_team s)) (lo_main s) (lo_log s).

Definition loop_set_mem (w : nat) (th : loop_thread) (g : globals Mat)
    (e : list event) (s : loop_state) : loop_state :=
  LoopState g (lo_capture s) (lo_writer s) (lo_nframes s)
    (lo_current_frame s) (lo_threads_number s)
    (lo_is_there_any_work s) (lo_finished s) (lo_single_count s)
    (<[w := th]> (lo_team s)) (lo_main s) (lo_log s ++ e).

(** [#pragma omp single nowait], met by threads that loop at their own
    pace: the runtime gives a region to the thread that is the first to meet
    its [single] for that many times, and the other threads skip it without
    waiting (libgomp compares the count of the thread with the count of the
    team and increments both). *)
Definition loop_single (w : nat) (c : nat) (s : loop_state) : loop_state :=
  if Nat.eqb c (lo_single_count s) then
    LoopState (lo_mem s) (lo_capture s) (lo_writer s) (lo_nframes s)
      (lo_current_frame s) (lo_threads_number s)
      (lo_is_there_any_work s) (lo_finished s) (S (lo_single_count s))
      (<[w := LoopThread (S c) LoopEmit]> (lo_team s)) (lo_main s) (lo_log s)
  else loop_set w (LoopThread (S c) LoopWork) s.

(** The critical section of the single block: the head of the output queue
    is removed when it is the frame to display. *)
Definition loop_emit (w : nat) (c : nat) (s : loop_state)
    : option loop_state :=
  if 0 <? size_output_work_queue (lo_mem s) then
    id_of_the_head_of_the_queue ← get_head_id_from_output_work_queue (lo_mem s);
    if id_of_the_head_of_the_queue =? lo_current_frame s then
      '(node_aux, g) ← remove_from_output_work_queue (lo_mem s);
      n ← heap g !! node_aux;
      Some (loop_set_mem w (LoopThread c (LoopTake node_aux)) g
              [EvRelease (frame_number n) (is_the_last_node n)] s)
    else Some (loop_set w (LoopThread c LoopWork) s)
  else Some (loop_set w (LoopThread c LoopWork) s).

(** The rest of the single block: [finished = true] on a sentinel, which is
    not freed, else [send_frame_to_display]. *)
Definition loop_take (w : nat) (c : nat) (node_aux : addr) (s : loop_state)
    : option loop_state :=
  n ← heap (lo_mem s) !! node_aux;
  if is_the_last_node n then
    Some (LoopState (lo_mem s) (lo_capture s) (lo_writer s) (lo_nframes s)
            (lo_current_frame s) (lo_threads_number s)
            (lo_is_there_any_work s) true (lo_single_count s)
            (<[w := LoopThread c LoopWork]> (lo_team s)) (lo_main s)
            (lo_log s))
  else
    '(image, g) ← send_frame_to_display node_aux (lo_mem s);
    Some (LoopState g (lo_capture s) (lo_writer s ++ [image]) (lo_nframes s)
            (lo_current_frame s) (lo_threads_number s)
            (lo_is_there_any_work s) (lo_finished s) (lo_single_count s)
            (<[w := LoopThread c LoopNext]> (lo_team s)) (lo_main s)
            (lo_log s ++ [EvDisplay (frame_number n)])).

(** The critical section of [lock_capturar_frame]: a frame is read and takes
    the value of [nframes] as its id, also when it is empty. *)
Definition loop_capture (w : nat) (c : nat) (s : loop_state) : loop_state :=
  let id_of_my_frame := lo_nframes s in
  match lo_capture s with
  | [] =>
      LoopState (lo_mem s) [] (lo_writer s) (lo_nframes s + 1)
        (lo_current_frame s) (lo_threads_number s)
        (lo_is_there_any_work s) (lo_finished s) (lo_single_count s)
        (<[w := LoopThread c (LoopLast id_of_my_frame)]> (lo_team s))
        (lo_main s) (lo_log s)
  | image :: rest =>
      LoopState (lo_mem s) rest (lo_writer s) (lo_nframes s + 1)
        (lo_current_frame s) (lo_threads_number s)
        (lo_is_there_any_work s) (lo_finished s) (lo_single_count s)
        (<[w := LoopThread c (LoopFrame id_of_my_frame image)]> (lo_team s))
        (lo_main s) (lo_log s)
  end.

(** One step of thread [w] of the team: a critical section, or one access
    to a shared variable. The source reads and writes [finished],
    [is_there_any_work] and [current_frame] outside the locks; these
    accesses are taken one at a time, like the critical sections. *)
Definition loop_thread_step (w : nat) (s : loop_state) : outcome loop_state :=
  match lo_team s !! w with
  | None => Blocked
  | Some (LoopThread c pc) =>
      match pc with
      | LoopHead =>
          Next (loop_set w (LoopThread c (if lo_finished s then LoopExit
                                          else LoopSingle)) s)
      | LoopSingle => Next (loop_single w c s)
      | LoopEmit => of_option (loop_emit w c s)
      | LoopTake node_aux => of_option (loop_take w c node_aux s)
      | LoopNext =>
          Next (LoopState (lo_mem s) (lo_capture s) (lo_writer s) (lo_nframes s)
                  (lo_current_frame s + 1) (lo_threads_number s)
                  (lo_is_there_any_work s) (lo_finished s) (lo_single_count s)
                  (<[w := LoopThread c LoopWork]> (lo_team s)) (lo_main s)
                  (lo_log s))
      | LoopWork =>
          Next (loop_set w (LoopThread c (if lo_is_there_any_work s
                                          then LoopCapture else LoopHead)) s)
      | LoopCapture => Next (loop_capture w c s)
      | LoopFrame id_of_my_frame image =>
          let '(node_aux, g) :=
            new_node (Item (Some image) id_of_my_frame false) (lo_mem s) in
          of_option (
            g' ← process_frame process_image node_aux g;
            Some (loop_set_mem w (LoopThread c (LoopSend node_aux)) g'
                    [EvProcess w id_of_my_frame] s))
      | LoopSend node_aux =>
          of_option (
            n ← heap (lo_mem s) !! node_aux;
            g ← add_to_output_work_queue node_aux (lo_mem s);
            Some (loop_set_mem w (LoopThread c LoopHead) g
                    [EvInsert w (frame_number n) false] s))
      | LoopLast id_of_my_frame =>
          let '(node_aux, g) :=
            new_node (Item None id_of_my_frame true) (lo_mem s) in
          of_option (
            g' ← add_to_output_work_queue node_aux g;
            Some (loop_set_mem w (LoopThread c LoopFlag) g'
                    [EvInsert w id_of_my_frame true] s))
      | LoopFlag =>
          Next (LoopState (lo_mem s) (lo_capture s) (lo_writer s) (lo_nframes s)
                  (lo_current_frame s) (lo_threads_number s)
                  false (lo_finished s) (lo_single_count s)
                  (<[w := LoopThread c LoopHead]> (lo_team s)) (lo_main s)
                  (lo_log s))
      | LoopExit => Blocked
      end
  end.

Definition loop_exited (th : loop_thread) : bool :=
  match lt_pc th with LoopExit => true | _ => false end.

Definition loop_main_set (pc : main_pc) (g : globals Mat) (e : list event)
    (s : loop_state) : loop_state :=
  LoopState g (lo_capture s) (lo_writer s) (lo_nframes s)
    (lo_current_frame s) (lo_threads_number s)
    (lo_is_there_any_work s) (lo_finished s) (lo_single_count s)
    (lo_team s) pc (lo_log s ++ e).

(** The end of the parallel region, where the threads wait for one another,
    and the loop that frees what is left in the output queue. *)
Definition loop_after (s : loop_state) : outcome loop_state :=
  match lo_main s with
  | MainJoin =>
      if forallb loop_exited (lo_team s)
      then Next (loop_main_set MainDrain (lo_mem s) [] s)
      else Blocked
  | MainDrain =>
      if 0 <? size_output_work_queue (lo_mem s) then
        of_option (
          '(node_aux, g) ← remove_from_output_work_queue (lo_mem s);
          n ← heap g !! node_aux;
          Some (loop_main_set MainDrain (free_node node_aux g)
                  [EvDiscard (frame_number n) (is_the_last_node n)] s))
      else Next (loop_main_set MainReturn (lo_mem s) [] s)
  | MainReturn => Blocked
  end.

(** The threads of the team are [Worker 0], [Worker 1], ... *)
Definition loop_step (t : thread) (s : loop_state) : outcome loop_state :=
  match t with
  | Worker w => loop_thread_step w s
  | Main => loop_after s
  | Ingest | Emit => Blocked
  end.

Fixpoint loop_run (sched : list thread) (s : loop_state)
    : outcome loop_state :=
  match sched with
  | [] => Next s
  | t :: sched' =>
      match loop_step t s with
      | Next s' => loop_run sched' s'
      | Blocked => Blocked
      | Undefined => Undefined
      end
  end.

Inductive loop_reach (s : loop_state) : loop_state → Prop :=
  | loop_reach_refl : loop_reach s s
  | loop_reach_step s1 t s2 :
      loop_reach s s1 → loop_step t s1 = Next s2 → loop_reach s s2.

End Loop.

Arguments loop_state : clear implicits.
Arguments loop_pc : clear implicits.
Arguments loop_thread : clear implicits.

(** * Verification *)

(** ** Linked lists on the heap *)

Section HeapLists.
Context {Mat : Type}.
Implicit Types (h : gmap addr (work_node Mat)) (g : globals Mat).
Implicit Types (l : list addr) (p : option addr) (a b : addr).

(** [chain h p l]: following [next] from [p] visits exactly the nodes [l]
    and then reaches [NULL]. *)
Fixpoint chain h p l : Prop :=
  match l with
  | [] => p = None
  | a :: l' => p = Some a ∧ ∃ n, h !! a = Some n ∧ chain h (next n) l'
  end.

Definition item_at h a : option (item Mat) := item_of <$> h !! a.

Definition id_at h a : Z := from_option frame_number 0 (h !! a).

(** The nodes [l] carry the contents [its], in order. *)
Definition holds h l (its : list (item Mat)) : Prop :=
  Forall2 (λ a it, item_at h a = Some it) l its.

(** A node that is allocated and linked to nothing. *)
Definition unlinked h a : Prop := ∃ n, h !! a = Some n ∧ next n = None.

(** [h'] differs from [h] at most in the [next] fields of the nodes [X]. *)
Definition relinked (X : list addr) h h' : Prop :=
  ∀ b, item_at h' b = item_at h b ∧ (b ∉ X → h' !! b = h !! b).

(** Where the scan of [add_to_output_work_queue] puts a node: before the
    first node whose id is not smaller. *)
Fixpoint place (id : addr → Z) a l : list addr :=
  match l with
  | [] => [a]
  | b :: l' => if id a <=? id b then a :: b :: l' else b :: place id a l'
  end.

Record input_repr g l : Prop := InputRepr {
  in_chain : chain (heap g) (input_head g) l;
  in_size : size_input_work_queue g = Z.of_nat (length l);
  in_tail : l ≠ [] → input_tail g = last l
}.

Record output_repr g l : Prop := OutputRepr {
  out_chain : chain (heap g) (output_head g) l;
  out_size : size_output_work_queue g = Z.of_nat (length l);
  out_tail : l ≠ [] → output_tail g = last l
}.

Lemma chain_functional h p l1 l2 : chain h p l1 → chain h p l2 → l1 = l2.
Proof.
  revert p l2. induction l1 as [|a l1 IH]; intros p [|b l2]; simpl; try congruence.
  - intros -> [? _]; congruence.
  - intros [? _] ->; congruence.
  - intros [-> (n & Hn & H1)] [[= <-] (n' & Hn' & H2)].
    rewrite Hn in Hn'. injection Hn' as <-. f_equal. eauto.
Qed.

Lemma chain_suffix h p l1 a l2 :
  chain h p (l1 ++ a :: l2) → chain h (Some a) (a :: l2).
Proof.
  revert p. induction l1 as [|b l1 IH]; simpl; intros p.
  - intros [-> H]. by split.
  - intros [-> (n & _ & H)]. by eapply IH.
Qed.

Lemma chain_NoDup h p l : chain h p l → NoDup l.
Proof.
  revert p. induction l as [|a l IH]; intros p; simpl.
  - constructor.
  - intros [-> (n & Hn & H)]. constructor; [|by eauto].
    intros [l1 [l2 ->]]%list_elem_of_split.
    pose proof (chain_suffix _ _ _ _ _ H) as Hs.
    assert (chain h (Some a) (a :: l1 ++ a :: l2)) as Hc by (simpl; eauto).
    pose proof (chain_functional _ _ _ _ Hs Hc) as Heq.
    apply (f_equal length) in Heq. simpl in Heq.
    rewrite length_app in Heq. simpl in Heq. lia.
Qed.

Lemma chain_allocated h p l a : chain h p l → a ∈ l → is_Some (h !! a).
Proof.
  revert p. induction l as [|b l IH]; intros p; simpl.
  - intros _ []%elem_of_nil.
  - intros [-> (n & Hn & H)] [->|Hin]%elem_of_cons; eauto.
Qed.

Lemma chain_length h p l : chain h p l → (length l ≤ size h)%nat.
Proof.
  intros H.
  assert (list_to_set l ⊆ dom h) as Hsub.
  { intros a Ha%elem_of_list_to_set. apply elem_of_dom. by eapply chain_allocated. }
  apply subseteq_size in Hsub.
  rewrite size_list_to_set in Hsub by by eapply chain_NoDup.
  by rewrite size_dom in Hsub.
Qed.

Lemma chain_agree h h' p l :
  chain h p l → (∀ a, a ∈ l → h' !! a = h !! a) → chain h' p l.
Proof.
  revert p. induction l as [|a l IH]; intros p; simpl; [done|].
  intros [-> (n & Hn & H)] Hag. split; [done|]. exists n. split.
  - rewrite Hag; [done|]. left.
  - apply IH; [done|]. intros b Hb. apply Hag. by right.
Qed.

Lemma chain_relinked X h h' p l :
  relinked X h h' → chain h p l → (∀ a, a ∈ l → a ∉ X) → chain h' p l.
Proof.
  intros Hr Hc Hd. eapply chain_agree; [done|].
  intros a Ha. apply Hr. by apply Hd.
Qed.

Lemma relinked_refl X h : relinked X h h.
Proof. by intros b. Qed.

Lemma relinked_trans X h1 h2 h3 :
  relinked X h1 h2 → relinked X h2 h3 → relinked X h1 h3.
Proof.
  intros H12 H23 b. destruct (H12 b) as [E1 F1], (H23 b) as [E2 F2].
  split; [congruence|]. intros Hb. rewrite F2, F1; done.
Qed.

Lemma relinked_weaken X Y h h' :
  relinked X h h' → (∀ b, b ∈ X → b ∈ Y) → relinked Y h h'.
Proof.
  intros H Hsub b. destruct (H b) as [E F]. split; [done|].
  intros Hb. apply F. intros HX. apply Hb. auto.
Qed.

Lemma relinked_store_next X h a nx n :
  h !! a = Some n → a ∈ X → relinked X h (<[a := with_next nx n]> h).
Proof.
  intros Hn Ha b. unfold item_at. destruct (decide (a = b)) as [<-|Hne].
  - rewrite lookup_insert_eq, Hn. split; [done|]. done.
  - rewrite lookup_insert_ne by done. done.
Qed.

Lemma holds_relinked X h h' l its : relinked X h h' → holds h l its → holds h' l its.
Proof.
  intros Hr H. eapply Forall2_impl; [exact H|]. simpl. intros a it <-. apply Hr.
Qed.

Lemma relinked_item X h h' a : relinked X h h' → item_at h' a = item_at h a.
Proof. intros Hr. apply Hr. Qed.

Lemma relinked_id X h h' a : relinked X h h' → id_at h' a = id_at h a.
Proof.
  intros Hr. pose proof (relinked_item _ _ _ a Hr) as E.
  unfold item_at, id_at, item_of in *.
  destruct (h' !! a) as [[]|], (h !! a) as [[]|]; simpl in *; congruence.
Qed.

Lemma relinked_allocated X h h' a : relinked X h h' → is_Some (h' !! a) ↔ is_Some (h !! a).
Proof.
  intros Hr. pose proof (relinked_item _ _ _ a Hr) as E. unfold item_at in E.
  rewrite <-!fmap_is_Some with (f := item_of). by rewrite E.
Qed.

Lemma relinked_dom X h h' : relinked X h h' → dom h' = dom h.
Proof.
  intros Hr. apply set_eq. intros a. rewrite !elem_of_dom. by eapply relinked_allocated.
Qed.

Lemma relinked_unlinked X h h' a :
  relinked X h h' → a ∉ X → unlinked h a → unlinked h' a.
Proof.
  intros Hr Ha (n & Hn & Hx). exists n. split; [|done].
  destruct (Hr a) as [_ F]. by rewrite F.
Qed.

End HeapLists.

(** ** The queue functions on well-formed queues *)

Section QueueSpecs.
Context {Mat : Type}.
Implicit Types (h : gmap addr (work_node Mat)) (g : globals Mat).
Implicit Types (l : list addr) (p : option addr) (a b c : addr).

(** [h'] and [h] hold the same nodes outside [X]. *)
Definition unchanged_outside (X : list addr) h h' : Prop :=
  ∀ b, b ∉ X → h' !! b = h !! b.

Definition same_input g g' : Prop :=
  input_head g' = input_head g ∧ input_tail g' = input_tail g ∧
  size_input_work_queue g' = size_input_work_queue g.

Definition same_output g g' : Prop :=
  output_head g' = output_head g ∧ output_tail g' = output_tail g ∧
  size_output_work_queue g' = size_output_work_queue g.

(** Sorted insertion on contents: what [place] does to the items. *)
Fixpoint insert_item (x : item Mat) (q : list (item Mat)) : list (item Mat) :=
  match q with
  | [] => [x]
  | y :: q' => if it_id x <=? it_id y then x :: y :: q' else y :: insert_item x q'
  end.

Lemma relinked_outside X h h' : relinked X h h' → unchanged_outside X h h'.
Proof. intros H b. apply H. Qed.

Lemma chain_outside X h h' p l :
  unchanged_outside X h h' → chain h p l → (∀ a, a ∈ l → a ∉ X) → chain h' p l.
Proof. intros Hu Hc Hd. eapply chain_agree; [done|]. intros a Ha. apply Hu. auto. Qed.

Lemma holds_outside X h h' l its :
  unchanged_outside X h h' → holds h l its → (∀ a, a ∈ l → a ∉ X) → holds h' l its.
Proof.
  intros Hu H. induction H as [|a it l its Ha H IH]; intros Hd; constructor.
  - unfold item_at. rewrite Hu; [done|]. apply Hd. left.
  - apply IH. intros b Hb. apply Hd. by right.
Qed.

Lemma unlinked_outside X h h' a :
  unchanged_outside X h h' → a ∉ X → unlinked h a → unlinked h' a.
Proof. intros Hu Ha (n & Hn & Hx). exists n. by rewrite Hu. Qed.

Lemma item_at_outside X h h' a :
  unchanged_outside X h h' → a ∉ X → item_at h' a = item_at h a.
Proof. intros Hu Ha. unfold item_at. by rewrite Hu. Qed.

Lemma input_repr_frame X g g' l :
  input_repr g l → same_input g g' → unchanged_outside X (heap g) (heap g') →
  (∀ a, a ∈ l → a ∉ X) → input_repr g' l.
Proof.
  intros [Hc Hs Ht] (E1 & E2 & E3) Hu Hd. split.
  - rewrite E1. by eapply chain_outside.
  - by rewrite E3.
  - rewrite E2. done.
Qed.

Lemma output_repr_frame X g g' l :
  output_repr g l → same_output g g' → unchanged_outside X (heap g) (heap g') →
  (∀ a, a ∈ l → a ∉ X) → output_repr g' l.
Proof.
  intros [Hc Hs Ht] (E1 & E2 & E3) Hu Hd. split.
  - rewrite E1. by eapply chain_outside.
  - by rewrite E3.
  - rewrite E2. done.
Qed.

Lemma chain_link_head h a na c l :
  chain h (Some c) l → h !! a = Some na → a ∉ l →
  chain (<[a := with_next (Some c) na]> h) (Some a) (a :: l).
Proof.
  intros Hc Ha Hn. simpl. split; [done|]. eexists. rewrite lookup_insert_eq.
  split; [done|]. simpl. eapply chain_agree; [done|].
  intros b Hb. rewrite lookup_insert_ne; [done|]. intros ->. done.
Qed.

Lemma chain_link_after h p l1 c l2 a na nc :
  chain h p (l1 ++ c :: l2) → h !! a = Some na → h !! c = Some nc →
  a ∉ l1 ++ c :: l2 →
  chain (<[c := with_next (Some a) nc]> (<[a := with_next (next nc) na]> h))
        p (l1 ++ c :: a :: l2).
Proof.
  intros Hc Ha Hcn Hn. pose proof (chain_NoDup _ _ _ Hc) as Hnd.
  revert p Hc Hn Hnd. induction l1 as [|b l1 IH]; simpl; intros p Hc Hn Hnd.
  - destruct Hc as [-> (n & Hn' & Hc)]. rewrite Hcn in Hn'. injection Hn' as <-.
    apply not_elem_of_cons in Hn as [Hac Hal2].
    apply NoDup_cons in Hnd as [Hcl2 _].
    split; [done|]. eexists. rewrite lookup_insert_eq. split; [done|].
    simpl. split; [done|]. eexists.
    rewrite lookup_insert_ne, lookup_insert_eq by done. split; [done|]. simpl.
    eapply chain_agree; [done|]. intros b Hb.
    rewrite !lookup_insert_ne; [done| |]; intros ->; done.
  - destruct Hc as [-> (n & Hn' & Hc)].
    apply not_elem_of_cons in Hn as [Hab Hal].
    apply NoDup_cons in Hnd as [Hbl Hnd].
    split; [done|]. exists n. split.
    + rewrite !lookup_insert_ne; [done| |].
      * intros ->. done.
      * intros ->. apply Hbl. apply elem_of_app. right. left.
    + by apply IH.
Qed.

Lemma add_to_input_spec g l a :
  input_repr g l → unlinked (heap g) a → a ∉ l →
  ∃ g', add_to_input_work_queue a g = Some g' ∧
        input_repr g' (l ++ [a]) ∧
        relinked l (heap g) (heap g') ∧ same_output g g' ∧
        size_input_work_queue g' = size_input_work_queue g + 1.
Proof.
  intros [Hc Hs Ht] (na & Ha & Hnx) Hn. unfold add_to_input_work_queue.
  destruct l as [|b l0 _] using rev_ind.
  - rewrite Hs. simpl. eexists. split; [done|]. split; [|split; [|done]].
    + split; simpl; [|lia|done]. split; [done|]. exists na. by rewrite Hnx.
    + apply relinked_refl.
  - rewrite Hs, length_app. simpl.
    destruct (Z.eqb_spec (Z.of_nat (length l0 + 1)) 0) as [|_]; [lia|].
    rewrite Ht by (by destruct l0). rewrite last_snoc. simpl.
    destruct (chain_allocated _ _ _ b Hc) as [nb Hb]; [set_solver|].
    unfold store_next. rewrite Hb. simpl.
    eexists. split; [done|]. split; [|split; [|split; [done|simpl; lia]]].
    + split; simpl.
      * rewrite <-(assoc_L (++)). simpl.
        pose proof (chain_link_after _ _ _ _ [] _ _ _ Hc Ha Hb Hn) as H.
        assert (next nb = None) as Hnb.
        { apply chain_suffix in Hc. simpl in Hc. destruct Hc as [_ (n & E & F)].
          congruence. }
        rewrite Hnb, <-Hnx in H.
        assert (with_next (next na) na = na) as E by by destruct na.
        rewrite E in H. by rewrite (insert_id _ a na) in H.
      * rewrite !length_app. simpl. lia.
      * intros _. by rewrite last_snoc.
    + simpl. apply relinked_store_next; [done|]. set_solver.
Qed.

Lemma remove_from_input_spec g a l :
  input_repr g (a :: l) →
  ∃ g', remove_from_input_work_queue g = Some (a, g') ∧
        input_repr g' l ∧
        relinked [a] (heap g) (heap g') ∧ unlinked (heap g') a ∧
        same_output g g' ∧
        size_input_work_queue g' = size_input_work_queue g - 1.
Proof.
  intros [Hc Hs Ht]. pose proof (chain_NoDup _ _ _ Hc) as [Hal _]%NoDup_cons.
  destruct Hc as [Hh (n & Hn & Hc)]. unfold remove_from_input_work_queue.
  rewrite Hh. simpl. rewrite Hn. simpl. eexists. split; [done|].
  split; [|split; [|split; [|split; [done|done]]]].
  - split; simpl.
    + eapply chain_agree; [done|]. intros b Hb. rewrite lookup_insert_ne; [done|].
      intros ->. done.
    + rewrite Hs. simpl. lia.
    + intros Hne. rewrite Ht by done. by destruct l.
  - simpl. apply relinked_store_next; [done|]. left.
  - exists (with_next None n). simpl. by rewrite lookup_insert_eq.
Qed.

Lemma remove_from_output_spec g a l :
  output_repr g (a :: l) →
  ∃ g', remove_from_output_work_queue g = Some (a, g') ∧
        output_repr g' l ∧
        relinked [a] (heap g) (heap g') ∧ unlinked (heap g') a ∧
        same_input g g' ∧
        size_output_work_queue g' = size_output_work_queue g - 1.
Proof.
  intros [Hc Hs Ht]. pose proof (chain_NoDup _ _ _ Hc) as [Hal _]%NoDup_cons.
  destruct Hc as [Hh (n & Hn & Hc)]. unfold remove_from_output_work_queue.
  rewrite Hh. simpl. rewrite Hn. simpl. eexists. split; [done|].
  split; [|split; [|split; [|split; [done|done]]]].
  - split; simpl.
    + eapply chain_agree; [done|]. intros b Hb. rewrite lookup_insert_ne; [done|].
      intros ->. done.
    + rewrite Hs. simpl. lia.
    + intros Hne. rewrite Ht by done. by destruct l.
  - simpl. apply relinked_store_next; [done|]. left.
  - exists (with_next None n). simpl. by rewrite lookup_insert_eq.
Qed.

Lemma place_perm (id : addr → Z) a l : place id a l ≡ₚ a :: l.
Proof.
  induction l as [|b l IH]; simpl; [done|].
  case_match; [done|]. rewrite IH. apply Permutation_swap.
Qed.

Lemma place_length (id : addr → Z) a l : length (place id a l) = S (length l).
Proof. by rewrite place_perm. Qed.

Lemma place_ext (id id' : addr → Z) a l :
  (∀ b, b ∈ a :: l → id b = id' b) → place id a l = place id' a l.
Proof.
  induction l as [|b l IH]; simpl; [done|]. intros H.
  rewrite !H by (rewrite !elem_of_cons; auto). case_match; [done|]. f_equal.
  apply IH. intros c Hc. apply H. rewrite !elem_of_cons in *. tauto.
Qed.

Lemma holds_place h a x l its :
  holds h l its → item_at h a = Some x →
  holds h (place (id_at h) a l) (insert_item x its).
Proof.
  intros H Ha. induction H as [|b y l its Hb H IH]; simpl.
  - by repeat constructor.
  - assert (id_at h a = it_id x ∧ id_at h b = it_id y) as [-> ->].
    { unfold item_at, id_at in *.
      destruct (h !! a) as [[]|], (h !! b) as [[]|]; simplify_eq/=. done. }
    case_match; repeat constructor; done.
Qed.

Lemma add_to_output_scan_spec fuel h p l1 c l2 a na :
  chain h p (l1 ++ c :: l2) → h !! a = Some na → a ∉ l1 ++ c :: l2 →
  (length l2 < fuel)%nat →
  ∃ h' at_end,
    add_to_output_scan fuel a (frame_number na) c h = Some (h', at_end) ∧
    chain h' p (l1 ++ c :: place (id_at h) a l2) ∧
    relinked (a :: l1 ++ c :: l2) h h' ∧
    last (place (id_at h) a l2) =
      (if at_end then Some a else last l2) ∧
    (at_end = false → l2 ≠ []).
Proof.
  revert fuel l1 c. induction l2 as [|d l2 IH]; intros fuel l1 c Hc Ha Hn Hf.
  - destruct fuel as [|fuel]; [simpl in Hf; lia|]. simpl.
    destruct (chain_allocated _ _ _ c Hc) as [nc Hcn]; [set_solver|].
    pose proof (chain_suffix _ _ _ _ _ Hc) as Hs. simpl in Hs.
    destruct Hs as [_ (n & E & Hnx)]. rewrite Hcn in E. injection E as <-.
    rewrite Hcn. simpl. rewrite Hnx. unfold store_next. rewrite Ha. simpl.
    rewrite lookup_insert_ne by set_solver. rewrite Hcn. simpl.
    eexists _, true. split; [done|]. split; [|split; [|done]].
    + pose proof (chain_link_after _ _ _ _ _ _ _ _ Hc Ha Hcn Hn) as H.
      by rewrite Hnx in H.
    + eapply relinked_trans.
      * apply (relinked_store_next _ h a None na); [done|]. left.
      * apply relinked_store_next; [|set_solver].
        rewrite lookup_insert_ne by set_solver. done.
  - destruct fuel as [|fuel]; [simpl in Hf; lia|]. simpl.
    destruct (chain_allocated _ _ _ c Hc) as [nc Hcn]; [set_solver|].
    destruct (chain_allocated _ _ _ d Hc) as [nd Hdn]; [set_solver|].
    pose proof (chain_suffix _ _ _ _ _ Hc) as Hs. simpl in Hs.
    destruct Hs as [_ (n & E & [Hnx _])]. rewrite Hcn in E. injection E as <-.
    rewrite Hcn. simpl. rewrite Hnx, Hdn. simpl.
    assert (id_at h a = frame_number na ∧ id_at h d = frame_number nd) as [-> ->].
    { unfold id_at. by rewrite Ha, Hdn. }
    destruct (Z.leb_spec (frame_number na) (frame_number nd)) as [Hle|Hgt].
    + unfold store_next. rewrite Ha. simpl.
      rewrite lookup_insert_ne by set_solver. rewrite Hcn. simpl.
      eexists _, false. split; [done|]. split; [|split; [|done]].
      * pose proof (chain_link_after _ _ _ _ _ _ _ _ Hc Ha Hcn Hn) as H.
        by rewrite Hnx in H.
      * eapply relinked_trans.
        -- apply (relinked_store_next _ h a (Some d) na); [done|]. left.
        -- apply relinked_store_next; [|set_solver].
           rewrite lookup_insert_ne by set_solver. done.
    + destruct (IH fuel (l1 ++ [c]) d) as (h' & at_end & E & Hc' & Hr & Hl & He).
      * by rewrite <-(assoc_L (++)).
      * done.
      * by rewrite <-(assoc_L (++)).
      * simpl in Hf. lia.
      * exists h', at_end. split; [done|]. split; [|split; [|split]].
        -- by rewrite <-(assoc_L (++)) in Hc'.
        -- by rewrite <-(assoc_L (++)) in Hr.
        -- rewrite last_cons. rewrite Hl. destruct at_end; [done|].
           rewrite last_cons. destruct (last l2) eqn:El; [done|].
           apply last_None in El. subst. by destruct He.
        -- done.
Qed.

Lemma add_to_output_spec g l a :
  output_repr g l → unlinked (heap g) a → a ∉ l →
  ∃ g', add_to_output_work_queue a g = Some g' ∧
        output_repr g' (place (id_at (heap g)) a l) ∧
        relinked (a :: l) (heap g) (heap g') ∧ same_input g g' ∧
        size_output_work_queue g' = size_output_work_queue g + 1.
Proof.
  intros [Hc Hs Ht] (na & Ha & Hnx) Hn. unfold add_to_output_work_queue.
  destruct l as [|c l].
  - rewrite Hs. simpl. eexists. split; [done|]. split; [|split; [|done]].
    + split; simpl; [|lia|done]. split; [done|]. exists na. by rewrite Hnx.
    + apply relinked_refl.
  - rewrite Hs. simpl length.
    destruct (Z.eqb_spec (Z.of_nat (S (length l))) 0) as [|_]; [lia|].
    rewrite Ha. simpl. pose proof Hc as Hc0.
    destruct Hc as [Hh (nc & Hcn & Hc)]. rewrite Hh. simpl. rewrite Hcn. simpl.
    rewrite Hh in Hc0.
    assert (id_at (heap g) a = frame_number na ∧
            id_at (heap g) c = frame_number nc) as [-> ->].
    { unfold id_at. by rewrite Ha, Hcn. }
    destruct (Z.leb_spec (frame_number na) (frame_number nc)) as [Hle|Hgt].
    + unfold store_next. rewrite Ha. simpl. eexists. split; [done|].
      split; [|split; [|split; [done|simpl; lia]]].
      * split; simpl.
        -- pose proof (chain_link_head _ _ _ _ _ Hc0 Ha Hn) as H. apply H.
        -- lia.
        -- intros _. rewrite Ht by done. done.
      * simpl. apply relinked_store_next; [done|]. left.
    + pose proof (chain_length _ _ _ Hc0) as Hlen. simpl in Hlen.
      destruct (add_to_output_scan_spec (size (heap g)) (heap g) (Some c) [] c l a na)
        as (h' & at_end & E & Hc' & Hr & Hl & He); [done|done|done|lia|].
      rewrite E. simpl. eexists. split; [done|].
      split; [|split; [|split; [done|simpl; lia]]].
      * split; simpl.
        -- exact Hc'.
        -- rewrite place_length. lia.
        -- intros _. rewrite last_cons, Hl. destruct at_end; [done|].
           rewrite Ht by done. rewrite last_cons.
           destruct (last l) eqn:El; [done|]. apply last_None in El.
           subst. by destruct He.
      * done.
Qed.

(** The effect of the four functions on the counters, on any heap. *)
Lemma add_to_input_sizes g g' a :
  add_to_input_work_queue a g = Some g' →
  size_input_work_queue g' = size_input_work_queue g + 1 ∧
  size_output_work_queue g' = size_output_work_queue g.
Proof.
  unfold add_to_input_work_queue.
  destruct (_ =? 0); [by intros [= <-]|].
  destruct (input_tail g); simpl; [|done].
  destruct (store_next _ _ _); simpl; [|done]. by intros [= <-].
Qed.

Lemma add_to_output_sizes g g' a :
  add_to_output_work_queue a g = Some g' →
  size_output_work_queue g' = size_output_work_queue g + 1 ∧
  size_input_work_queue g' = size_input_work_queue g.
Proof.
  unfold add_to_output_work_queue.
  destruct (_ =? 0); [by intros [= <-]|].
  destruct (heap g !! a); simpl; [|done].
  destruct (output_head g); simpl; [|done].
  destruct (heap g !! _); simpl; [|done].
  destruct (_ <=? _).
  - destruct (store_next _ _ _); simpl; [|done]. by intros [= <-].
  - destruct (add_to_output_scan _ _ _ _ _) as [[h b]|]; simpl; [|done].
    by intros [= <-].
Qed.

Lemma remove_from_input_sizes g g' a :
  remove_from_input_work_queue g = Some (a, g') →
  size_input_work_queue g' = size_input_work_queue g - 1 ∧
  size_output_work_queue g' = size_output_work_queue g.
Proof.
  unfold remove_from_input_work_queue.
  destruct (input_head g); simpl; [|done].
  destruct (heap g !! _); simpl; [|done]. by intros [= <- <-].
Qed.

Lemma remove_from_output_sizes g g' a :
  remove_from_output_work_queue g = Some (a, g') →
  size_output_work_queue g' = size_output_work_queue g - 1 ∧
  size_input_work_queue g' = size_input_work_queue g.
Proof.
  unfold remove_from_output_work_queue.
  destruct (output_head g); simpl; [|done].
  destruct (heap g !! _); simpl; [|done]. by intros [= <- <-].
Qed.

End QueueSpecs.

(** ** Allocation, release and the image operations *)

Section NodeSpecs.
Context {Mat : Type}.
Variable process_image : Mat → Mat.
Implicit Types (h : gmap addr (work_node Mat)) (g : globals Mat).
Implicit Types (l : list addr) (a b : addr).

Lemma new_node_spec it g a g' :
  new_node it g = (a, g') →
  heap g !! a = None ∧ heap g' = <[a := node_of it]> (heap g) ∧
  same_input g g' ∧ same_output g g'.
Proof.
  unfold new_node. intros [= <- <-]. simpl. split; [|done].
  apply not_elem_of_dom. apply is_fresh.
Qed.

Lemma new_node_outside it g a g' :
  new_node it g = (a, g') → unchanged_outside [a] (heap g) (heap g').
Proof.
  intros (_ & -> & _)%new_node_spec b Hb. rewrite lookup_insert_ne; [done|].
  set_solver.
Qed.

Lemma new_node_unlinked it g a g' :
  new_node it g = (a, g') → unlinked (heap g') a ∧ item_at (heap g') a = Some it.
Proof.
  intros (_ & -> & _)%new_node_spec. unfold unlinked, item_at.
  rewrite lookup_insert_eq. split; [by eexists|]. by destruct it.
Qed.

Lemma free_node_outside a g : unchanged_outside [a] (heap g) (heap (free_node a g)).
Proof. intros b Hb. simpl. rewrite lookup_delete_ne; [done|]. set_solver. Qed.

Lemma process_frame_spec a g it image :
  item_at (heap g) a = Some it → it_frame it = Some image →
  ∃ g', process_frame process_image a g = Some g' ∧
        unchanged_outside [a] (heap g) (heap g') ∧
        item_at (heap g') a =
          Some (Item (Some (process_image image)) (it_id it) (it_last it)) ∧
        (unlinked (heap g) a → unlinked (heap g') a) ∧
        same_input g g' ∧ same_output g g'.
Proof.
  unfold item_at, process_frame. destruct (heap g !! a) as [n|] eqn:E; [|done].
  intros [= <-]. simpl. intros ->. simpl. eexists. split; [done|].
  split; [|split; [|split; [|done]]].
  - intros b Hb. simpl. rewrite lookup_insert_ne; [done|]. set_solver.
  - simpl. by rewrite lookup_insert_eq.
  - intros (n' & Hn & Hx). simpl. eexists. rewrite lookup_insert_eq.
    split; [done|]. simpl. congruence.
Qed.

Lemma send_frame_to_display_spec a g it image :
  item_at (heap g) a = Some it → it_frame it = Some image →
  send_frame_to_display a g = Some (image, free_node a g).
Proof.
  unfold item_at, send_frame_to_display.
  destruct (heap g !! a) as [n|] eqn:E; [|done].
  intros [= <-]. simpl. by intros ->.
Qed.

Lemma chain_not_fresh h p l a : chain h p l → h !! a = None → a ∉ l.
Proof.
  intros Hc Hn Ha. destruct (chain_allocated _ _ _ _ Hc Ha) as [? ?]. congruence.
Qed.

Lemma unlinked_allocated h a : unlinked h a → is_Some (h !! a).
Proof. intros (n & -> & _). by eexists. Qed.

Lemma get_head_id_spec g a l it :
  output_repr g (a :: l) → item_at (heap g) a = Some it →
  get_head_id_from_output_work_queue g = Some (it_id it).
Proof.
  intros [[Hh (n & Hn & _)] _ _]. unfold item_at, get_head_id_from_output_work_queue.
  rewrite Hh. simpl. rewrite Hn. simpl. by intros [= <-].
Qed.

End NodeSpecs.

(** ** Sorted insertion *)

Section SortedItems.
Context {Mat : Type}.
Implicit Types (x y : item Mat) (q : list (item Mat)).

Definition id_le x y : Prop := it_id x ≤ it_id y.

Lemma insert_item_perm x q : insert_item x q ≡ₚ x :: q.
Proof.
  induction q as [|y q IH]; simpl; [done|].
  case_match; [done|]. rewrite IH. apply Permutation_swap.
Qed.

Lemma insert_item_sorted x q :
  StronglySorted id_le q → StronglySorted id_le (insert_item x q).
Proof.
  induction 1 as [|y q Hq IH Hy]; simpl.
  - by repeat constructor.
  - destruct (Z.leb_spec (it_id x) (it_id y)) as [Hle|Hgt].
    + constructor; [by constructor|]. constructor; [done|].
      eapply Forall_impl; [done|]. unfold id_le. simpl. intros z Hz. lia.
    + constructor; [done|]. rewrite insert_item_perm. constructor; [|done].
      unfold id_le. lia.
Qed.

(** The scan stops at the first item whose id is not smaller: everything in
    front of the inserted item is strictly smaller, what follows is not. *)
Lemma insert_item_position x q :
  ∃ q1 q2, q = q1 ++ q2 ∧ insert_item x q = q1 ++ x :: q2 ∧
           Forall (λ y, it_id y < it_id x) q1 ∧
           match q2 with [] => True | y :: _ => it_id x ≤ it_id y end.
Proof.
  induction q as [|y q (q1 & q2 & -> & E & H1 & H2)]; simpl.
  - by exists [], [].
  - destruct (Z.leb_spec (it_id x) (it_id y)) as [Hle|Hgt].
    + by exists [], (y :: q1 ++ q2).
    + exists (y :: q1), q2. rewrite E. repeat split; [|done].
      constructor; [lia|done].
Qed.

End SortedItems.

(** ** The memory seen as two queues of items and the nodes in private hands *)

Section MemView.
Context {Mat : Type} {T : Type}.
Variable process_image : Mat → Mat.
Implicit Types (g : globals Mat) (li lo : list addr) (qi qo : list (item Mat)).
Implicit Types (held : gmap addr (T * item Mat)) (a b : addr).

(** [mem_view g li lo qi qo held]: the input queue is the list [li] of nodes
    with contents [qi], the output queue is [lo] with contents [qo], and
    [held] records the nodes taken out of a queue, with their holder and
    contents; the three groups of nodes are apart. *)
Record mem_view g li lo qi qo held : Prop := MemView {
  mv_in : input_repr g li;
  mv_out : output_repr g lo;
  mv_in_items : holds (heap g) li qi;
  mv_out_items : holds (heap g) lo qo;
  mv_apart : ∀ a, a ∈ li → a ∉ lo;
  mv_held : ∀ a t x, held !! a = Some (t, x) →
      unlinked (heap g) a ∧ item_at (heap g) a = Some x ∧ (a ∉ li) ∧ (a ∉ lo)
}.

Lemma mem_view_init : mem_view globals_init [] [] [] [] ∅.
Proof.
  split; try done; try (by constructor).
  - intros a Ha. by apply elem_of_nil in Ha.
Qed.

Lemma mv_size_in g li lo qi qo held :
  mem_view g li lo qi qo held → size_input_work_queue g = Z.of_nat (length qi).
Proof. intros [[] ? Hi ?]. apply Forall2_length in Hi. by rewrite <-Hi. Qed.

Lemma mv_size_out g li lo qi qo held :
  mem_view g li lo qi qo held → size_output_work_queue g = Z.of_nat (length qo).
Proof. intros [? [] ? Ho]. apply Forall2_length in Ho. by rewrite <-Ho. Qed.

Lemma mv_head_id g li lo qi x qo held :
  mem_view g li lo qi (x :: qo) held →
  get_head_id_from_output_work_queue g = Some (it_id x).
Proof.
  intros [? Ho ? Hq]. apply Forall2_cons_inv_r in Hq as (a & lo' & Ha & _ & ->).
  by eapply get_head_id_spec.
Qed.

Lemma holds_in_allocated (h : gmap addr (work_node Mat)) l its a :
  holds h l its → a ∈ l → is_Some (h !! a).
Proof.
  intros H Ha. induction H as [|b it l its Hb H IH]; [by apply elem_of_nil in Ha|].
  apply elem_of_cons in Ha as [->|Ha]; [|by auto].
  unfold item_at in Hb. destruct (h !! b); [by eexists|done].
Qed.

Lemma mv_fresh g li lo qi qo held a :
  mem_view g li lo qi qo held → heap g !! a = None →
  (a ∉ li) ∧ (a ∉ lo) ∧ held !! a = None.
Proof.
  intros Hv Hn. split; [|split].
  - intros Ha. destruct (holds_in_allocated _ _ _ _ (mv_in_items _ _ _ _ _ _ Hv) Ha).
    congruence.
  - intros Ha. destruct (holds_in_allocated _ _ _ _ (mv_out_items _ _ _ _ _ _ Hv) Ha).
    congruence.
  - destruct (held !! a) as [[t x]|] eqn:E; [|done].
    destruct (mv_held _ _ _ _ _ _ Hv _ _ _ E) as ((n & ? & _) & _). congruence.
Qed.

(** A heap change outside the queues that keeps the held nodes. *)
Lemma mv_frame X g g' li lo qi qo held held' :
  mem_view g li lo qi qo held →
  same_input g g' → same_output g g' →
  unchanged_outside X (heap g) (heap g') →
  (∀ a, a ∈ X → (a ∉ li) ∧ (a ∉ lo)) →
  (∀ a t x, held' !! a = Some (t, x) →
     unlinked (heap g') a ∧ item_at (heap g') a = Some x ∧ (a ∉ li) ∧ (a ∉ lo)) →
  mem_view g' li lo qi qo held'.
Proof.
  intros [Hi Ho Hqi Hqo Hap Hh] Si So Hu HX Hh'. split; [..|done|done].
  - eapply input_repr_frame; [done..|]. intros a Ha Hx. by apply HX in Hx as [? _].
  - eapply output_repr_frame; [done..|]. intros a Ha Hx. by apply HX in Hx as [_ ?].
  - eapply holds_outside; [done..|]. intros a Ha Hx. by apply HX in Hx as [? _].
  - eapply holds_outside; [done..|]. intros a Ha Hx. by apply HX in Hx as [_ ?].
Qed.

(** A fresh node is appended to the input queue. *)
Lemma mv_push g li lo qi qo held it a g1 :
  mem_view g li lo qi qo held → new_node it g = (a, g1) →
  ∃ g2, add_to_input_work_queue a g1 = Some g2 ∧
        mem_view g2 (li ++ [a]) lo (qi ++ [it]) qo held.
Proof.
  intros Hv Hn. pose proof (new_node_spec _ _ _ _ Hn) as (Hf & Hh & Si & So).
  pose proof (new_node_outside _ _ _ _ Hn) as Hu.
  pose proof (new_node_unlinked _ _ _ _ Hn) as [Hul Hit].
  pose proof (mv_fresh _ _ _ _ _ _ _ Hv Hf) as (Hali & Halo & Hah).
  assert (mem_view g1 li lo qi qo held) as Hv1.
  { eapply mv_frame; [done..| |].
    - intros b ->%list_elem_of_singleton. done.
    - intros b t x Hb. destruct (mv_held _ _ _ _ _ _ Hv _ _ _ Hb) as (U & I & ? & ?).
      assert (b ∉ [a]) by (intros ->%list_elem_of_singleton; congruence).
      split; [by eapply unlinked_outside|]. split; [|done].
      by erewrite item_at_outside. }
  destruct Hv1 as [Hi Ho Hqi Hqo Hap Hh1].
  destruct (add_to_input_spec g1 li a Hi Hul Hali) as (g2 & E & Hi2 & Hr & So2 & _).
  exists g2. split; [done|]. split.
  - done.
  - eapply output_repr_frame; [done..|by apply relinked_outside|].
    intros b Hb Hb'. by eapply Hap.
  - apply Forall2_app.
    + by eapply holds_relinked.
    + repeat constructor. by erewrite relinked_item.
  - by eapply holds_relinked.
  - intros b [Hb|Hb]%elem_of_app; [by auto|].
    apply list_elem_of_singleton in Hb as ->. done.
  - intros b t x Hb. destruct (Hh1 _ _ _ Hb) as (U & I & Hbi & Hbo).
    split; [by eapply relinked_unlinked|]. split; [by erewrite relinked_item|].
    split; [|done]. intros [?|Hb'%list_elem_of_singleton]%elem_of_app; [done|].
    subst b. congruence.
Qed.

(** The head of the input queue is taken by [t]. *)
Lemma mv_pop g li lo x qi qo held t :
  mem_view g li lo (x :: qi) qo held →
  ∃ a li' g', li = a :: li' ∧
        remove_from_input_work_queue g = Some (a, g') ∧
        item_at (heap g') a = Some x ∧
        mem_view g' li' lo qi qo (<[a := (t, x)]> held).
Proof.
  intros [Hi Ho Hqi Hqo Hap Hh].
  apply Forall2_cons_inv_r in Hqi as (a & li' & Ha & Hqi & ->).
  pose proof (chain_NoDup _ _ _ (in_chain _ _ Hi)) as [Hnd _]%NoDup_cons.
  destruct (remove_from_input_spec g a li' Hi) as (g' & E & Hi' & Hr & Hul & So & _).
  exists a, li', g'. split; [done|]. split; [done|].
  assert (item_at (heap g') a = Some x) as Hx by by erewrite relinked_item.
  split; [done|]. split.
  - done.
  - eapply output_repr_frame; [done..|by apply relinked_outside|].
    intros b Hb ->%list_elem_of_singleton. eapply Hap; [|done]. left.
  - by eapply holds_relinked.
  - by eapply holds_relinked.
  - intros b Hb. apply Hap. by right.
  - intros b t' x' Hb. destruct (decide (a = b)) as [<-|Hne].
    + rewrite lookup_insert_eq in Hb. injection Hb as <- <-.
      repeat split; [done..|]. apply Hap. left.
    + rewrite lookup_insert_ne in Hb by done.
      destruct (Hh _ _ _ Hb) as (U & I & Hbi & Hbo).
      split; [eapply relinked_unlinked; [done| |done]|].
      * by intros ->%list_elem_of_singleton.
      * split; [by erewrite relinked_item|]. split; [|done].
        intros Hb'. apply Hbi. by right.
Qed.

(** [process_frame] on a held node. *)
Lemma mv_process g li lo qi qo held a t x image :
  mem_view g li lo qi qo held → held !! a = Some (t, x) →
  it_frame x = Some image →
  ∃ g', process_frame process_image a g = Some g' ∧
        mem_view g' li lo qi qo
          (<[a := (t, Item (Some (process_image image)) (it_id x) (it_last x))]> held).
Proof.
  intros Hv Ha Hf. destruct (mv_held _ _ _ _ _ _ Hv _ _ _ Ha) as (U & I & Hai & Hao).
  destruct (process_frame_spec process_image a g x image I Hf)
    as (g' & E & Hu & I' & U' & Si & So).
  exists g'. split; [done|]. eapply mv_frame; [done..| |].
  - by intros b ->%list_elem_of_singleton.
  - intros b t' x' Hb. destruct (decide (a = b)) as [<-|Hne].
    + rewrite lookup_insert_eq in Hb. injection Hb as <- <-. auto.
    + rewrite lookup_insert_ne in Hb by done.
      destruct (mv_held _ _ _ _ _ _ Hv _ _ _ Hb) as (Ub & Ib & ? & ?).
      assert (b ∉ [a]) by by intros ->%list_elem_of_singleton.
      split; [by eapply unlinked_outside|]. split; [|done].
      by erewrite item_at_outside.
Qed.

(** A held node goes to the output queue, at its sorted position. *)
Lemma mv_forward g li lo qi qo held a t x :
  mem_view g li lo qi qo held → held !! a = Some (t, x) →
  ∃ g', add_to_output_work_queue a g = Some g' ∧
        mem_view g' li (place (id_at (heap g)) a lo) qi (insert_item x qo)
                 (delete a held).
Proof.
  intros Hv Ha. destruct (mv_held _ _ _ _ _ _ Hv _ _ _ Ha) as (U & I & Hai & Hao).
  destruct Hv as [Hi Ho Hqi Hqo Hap Hh].
  destruct (add_to_output_spec g lo a Ho U Hao) as (g' & E & Ho' & Hr & Si & _).
  exists g'. split; [done|]. split.
  - eapply input_repr_frame; [done..|by apply relinked_outside|].
    intros b Hb [Hb'|Hb']%elem_of_cons; [by subst b|]. by eapply Hap.
  - done.
  - by eapply holds_relinked.
  - eapply holds_relinked; [done|]. by apply holds_place.
  - intros b Hb. rewrite place_perm. intros [Hb'|Hb']%elem_of_cons; [by subst b|].
    by eapply Hap.
  - intros b t' x' Hb. apply lookup_delete_Some in Hb as [Hne Hb].
    destruct (Hh _ _ _ Hb) as (Ub & Ib & Hbi & Hbo).
    split; [eapply relinked_unlinked; [done| |done]|].
    + intros [?|?]%elem_of_cons; by subst.
    + split; [by erewrite relinked_item|]. split; [done|].
      rewrite place_perm. intros [?|?]%elem_of_cons; by subst.
Qed.

(** The head of the output queue is taken by [t]. *)
Lemma mv_release g li lo qi x qo held t :
  mem_view g li lo qi (x :: qo) held →
  ∃ a lo' g', lo = a :: lo' ∧
        remove_from_output_work_queue g = Some (a, g') ∧
        item_at (heap g') a = Some x ∧
        mem_view g' li lo' qi qo (<[a := (t, x)]> held).
Proof.
  intros [Hi Ho Hqi Hqo Hap Hh].
  apply Forall2_cons_inv_r in Hqo as (a & lo' & Ha & Hqo & ->).
  pose proof (chain_NoDup _ _ _ (out_chain _ _ Ho)) as [Hnd _]%NoDup_cons.
  destruct (remove_from_output_spec g a lo' Ho) as (g' & E & Ho' & Hr & Hul & Si & _).
  exists a, lo', g'. split; [done|]. split; [done|].
  assert (item_at (heap g') a = Some x) as Hx by by erewrite relinked_item.
  split; [done|]. split.
  - eapply input_repr_frame; [done..|by apply relinked_outside|].
    intros b Hb ->%list_elem_of_singleton. eapply Hap; [done|]. left.
  - done.
  - by eapply holds_relinked.
  - by eapply holds_relinked.
  - intros b Hb Hb'. eapply Hap; [done|]. by right.
  - intros b t' x' Hb. destruct (decide (a = b)) as [<-|Hne].
    + rewrite lookup_insert_eq in Hb. injection Hb as <- <-.
      repeat split; [done..| |done]. intros Hb. eapply Hap; [done|]. left.
    + rewrite lookup_insert_ne in Hb by done.
      destruct (Hh _ _ _ Hb) as (U & I & Hbi & Hbo).
      split; [eapply relinked_unlinked; [done| |done]|].
      * by intros ->%list_elem_of_singleton.
      * split; [by erewrite relinked_item|]. split; [done|].
        intros Hb'. apply Hbo. by right.
Qed.

(** A held node is freed, or simply dropped. *)
Lemma mv_free g li lo qi qo held a t x :
  mem_view g li lo qi qo held → held !! a = Some (t, x) →
  mem_view (free_node a g) li lo qi qo (delete a held).
Proof.
  intros Hv Ha. destruct (mv_held _ _ _ _ _ _ Hv _ _ _ Ha) as (U & I & Hai & Hao).
  eapply mv_frame; [done..|apply free_node_outside| |].
  - by intros b ->%list_elem_of_singleton.
  - intros b t' x' Hb. apply lookup_delete_Some in Hb as [Hne Hb].
    destruct (mv_held _ _ _ _ _ _ Hv _ _ _ Hb) as (Ub & Ib & ? & ?).
    assert (b ∉ [a]) by by intros ->%list_elem_of_singleton.
    split; [eapply unlinked_outside; [apply free_node_outside|done..]|].
    split; [|done]. erewrite item_at_outside; [done|apply free_node_outside|done].
Qed.

Lemma mv_drop g li lo qi qo held a :
  mem_view g li lo qi qo held → mem_view g li lo qi qo (delete a held).
Proof.
  intros [Hi Ho Hqi Hqo Hap Hh]. split; try done.
  intros b t x Hb. apply lookup_delete_Some in Hb as [_ Hb]. eauto.
Qed.

Lemma mv_held_node g li lo qi qo held a t x :
  mem_view g li lo qi qo held → held !! a = Some (t, x) →
  ∃ n, heap g !! a = Some n ∧ item_of n = x.
Proof.
  intros Hv Ha. destruct (mv_held _ _ _ _ _ _ Hv _ _ _ Ha) as (_ & I & _).
  unfold item_at in I. destruct (heap g !! a) as [n|]; [|done].
  exists n. split; [done|]. by injection I.
Qed.

End MemView.

(** ** The queue client on lists of items *)

Section ClientProofs.
Context {Mat : Type}.
Implicit Types (c : client Mat) (x y : item Mat).

(** The client with the heap abstracted away: two lists of items and the
    items in hand. *)
Record list_client := ListClient {
  lc_in : list (item Mat);
  lc_out : list (item Mat);
  lc_hand : list (item Mat);
  lc_arrived : list (item Mat);
  lc_removed : list (item Mat);
  lc_emitted : list (item Mat)
}.

Definition list_client_init : list_client := ListClient [] [] [] [] [] [].

Definition list_client_step (op : queue_op Mat) (k : list_client) : list_client :=
  match op with
  | QPush it =>
      ListClient (lc_in k ++ [it]) (lc_out k) (lc_hand k)
                 (lc_arrived k ++ [it]) (lc_removed k) (lc_emitted k)
  | QPop =>
      match lc_in k with
      | x :: q =>
          ListClient q (lc_out k) (lc_hand k ++ [x])
                     (lc_arrived k) (lc_removed k ++ [x]) (lc_emitted k)
      | [] => k
      end
  | QForward i =>
      match lc_hand k !! i with
      | Some x =>
          ListClient (lc_in k) (insert_item x (lc_out k)) (delete i (lc_hand k))
                     (lc_arrived k) (lc_removed k) (lc_emitted k)
      | None => k
      end
  | QInsert it =>
      ListClient (lc_in k) (insert_item it (lc_out k)) (lc_hand k)
                 (lc_arrived k) (lc_removed k) (lc_emitted k)
  | QEmit expected_id =>
      match lc_out k with
      | x :: q =>
          if it_id x =? expected_id then
            ListClient (lc_in k) q (lc_hand k)
                       (lc_arrived k) (lc_removed k) (lc_emitted k ++ [x])
          else k
      | [] => k
      end
  | QDrain =>
      ListClient (lc_in k) (tail (lc_out k)) (lc_hand k)
                 (lc_arrived k) (lc_removed k) (lc_emitted k)
  end.

Definition list_client_run (ops : list (queue_op Mat)) (k : list_client)
    : list_client :=
  foldl (λ k op, list_client_step op k) k ops.

(** The heap client [c] represents the list client [k]; [li] and [lo] are the
    nodes of its two queues and [held] the nodes in hand. *)
Record client_rel_with (held : gmap addr (unit * item Mat)) c
    (k : list_client) (li lo : list addr) : Prop := ClientRel {
  cr_view : mem_view (cl_mem c) li lo (lc_in k) (lc_out k) held;
  cr_hand : Forall2 (λ a x, held !! a = Some (tt, x)) (cl_hand c) (lc_hand k);
  cr_hand_nodup : NoDup (cl_hand c);
  cr_arrived : cl_arrived c = lc_arrived k;
  cr_removed : cl_removed c = lc_removed k;
  cr_emitted : cl_emitted c = lc_emitted k
}.

Definition client_rel c (k : list_client) (li lo : list addr) : Prop :=
  ∃ held, client_rel_with held c k li lo.

Lemma client_rel_init : client_rel client_init list_client_init [] [].
Proof.
  exists ∅. split; [apply mem_view_init|constructor|constructor|done..].
Qed.

Lemma hand_rel_insert (held : gmap addr (unit * item Mat)) hand qh a v :
  a ∉ hand →
  Forall2 (λ a x, held !! a = Some (tt, x)) hand qh →
  Forall2 (λ b x, <[a := v]> held !! b = Some (tt, x)) hand qh.
Proof.
  intros Ha H. induction H as [|b x hand qh Hb H IH]; constructor.
  - rewrite lookup_insert_ne; [done|]. intros ->. apply Ha. left.
  - apply IH. intros Hin. apply Ha. by right.
Qed.

Lemma hand_rel_delete (held : gmap addr (unit * item Mat)) hand qh a :
  a ∉ hand →
  Forall2 (λ a x, held !! a = Some (tt, x)) hand qh →
  Forall2 (λ b x, delete a held !! b = Some (tt, x)) hand qh.
Proof.
  intros Ha H. induction H as [|b x hand qh Hb H IH]; constructor.
  - rewrite lookup_delete_ne; [done|]. intros ->. apply Ha. left.
  - apply IH. intros Hin. apply Ha. by right.
Qed.

Lemma hand_rel_held (held : gmap addr (unit * item Mat)) hand qh a :
  Forall2 (λ a x, held !! a = Some (tt, x)) hand qh → a ∈ hand →
  ∃ x, held !! a = Some (tt, x).
Proof.
  intros H [j Hj]%list_elem_of_lookup.
  destruct (Forall2_lookup_l _ _ _ _ _ H Hj) as (x & _ & Hx). eauto.
Qed.

Lemma NoDup_delete_lookup (hand : list addr) i a :
  NoDup hand → hand !! i = Some a → (a ∉ delete i hand) ∧ NoDup (delete i hand).
Proof.
  intros Hnd Hi. pose proof (delete_Permutation _ _ _ Hi) as Hp.
  rewrite Hp in Hnd. by apply NoDup_cons in Hnd.
Qed.

Lemma client_step_rel op c k li lo :
  client_rel c k li lo →
  ∃ c' li' lo', client_step op c = Some c' ∧
                client_rel c' (list_client_step op k) li' lo'.
Proof.
  intros [held [Hv Hh Hnd Ea Er Ee]].
  destruct op as [it| |i|it|e|]; cbn [client_step list_client_step].
  - destruct (new_node it (cl_mem c)) as [a g1] eqn:En.
    destruct (mv_push _ _ _ _ _ _ _ _ _ Hv En) as (g2 & E & Hv2).
    simpl. rewrite E. simpl. eexists _, _, _. split; [done|].
    exists held. split; simpl; try done. by rewrite Ea.
  - rewrite (mv_size_in _ _ _ _ _ _ Hv).
    destruct (lc_in k) as [|x q] eqn:Eq; simpl.
    + exists c, li, lo. split; [done|]. exists held. split; try done. by rewrite Eq.
    + destruct (mv_pop _ _ _ _ _ _ _ tt Hv) as (a & li' & g' & -> & E & Hx & Hv').
      rewrite E. simpl. unfold item_at in Hx.
      destruct (heap g' !! a) as [n|] eqn:En; [|done]. simpl.
      injection Hx as Hx. rewrite Hx.
      assert (a ∉ cl_hand c) as Hah.
      { intros Hin. destruct (hand_rel_held _ _ _ _ Hh Hin) as [y Hy].
        destruct (mv_held _ _ _ _ _ _ Hv _ _ _ Hy) as (_ & _ & Hai & _).
        apply Hai. left. }
      eexists _, _, _. split; [done|].
      exists (<[a := (tt, x)]> held). split; simpl; try done.
      * apply Forall2_app; [by apply hand_rel_insert|].
        repeat constructor. by rewrite lookup_insert_eq.
      * apply NoDup_app. split; [done|]. split; [|apply NoDup_singleton].
        intros b Hb ->%list_elem_of_singleton. done.
      * by rewrite Er.
  - destruct (cl_hand c !! i) as [a|] eqn:Ei.
    + destruct (Forall2_lookup_l _ _ _ _ _ Hh Ei) as (x & Hx & Ha).
      rewrite Hx. destruct (mv_forward _ _ _ _ _ _ _ _ _ Hv Ha) as (g' & E & Hv').
      rewrite E. simpl. eexists _, _, _. split; [done|].
      destruct (NoDup_delete_lookup _ _ _ Hnd Ei) as [Hna Hnd'].
      exists (delete a held). split; simpl; try done.
      apply hand_rel_delete; [done|]. by apply Forall2_delete.
    + assert (lc_hand k !! i = None) as ->.
      { apply lookup_ge_None. apply lookup_ge_None in Ei.
        by rewrite <-(Forall2_length _ _ _ Hh). }
      exists c, li, lo. split; [done|]. by exists held.
  - destruct (new_node it (cl_mem c)) as [a g1] eqn:En.
    pose proof (new_node_spec _ _ _ _ En) as (Hf & Hheap & Si & So).
    pose proof (new_node_unlinked _ _ _ _ En) as [Hul Hit].
    pose proof (mv_fresh _ _ _ _ _ _ _ Hv Hf) as (Hali & Halo & Hah).
    assert (mem_view g1 li lo (lc_in k) (lc_out k) (<[a := (tt, it)]> held)) as Hv1.
    { eapply mv_frame; [done..|by eapply new_node_outside| |].
      - by intros b ->%list_elem_of_singleton.
      - intros b t x Hb. destruct (decide (a = b)) as [<-|Hne].
        + rewrite lookup_insert_eq in Hb. by injection Hb as <- <-.
        + rewrite lookup_insert_ne in Hb by done.
          destruct (mv_held _ _ _ _ _ _ Hv _ _ _ Hb) as (U & I & ? & ?).
          assert (b ∉ [a]) by by intros ->%list_elem_of_singleton.
          split; [eapply unlinked_outside; [by eapply new_node_outside|done..]|].
          split; [|done]. erewrite item_at_outside; [done|by eapply new_node_outside|done]. }
    destruct (mv_forward _ _ _ _ _ _ a tt it Hv1) as (g' & E & Hv');
      [by rewrite lookup_insert_eq|].
    simpl. rewrite E. simpl. eexists _, _, _. split; [done|].
    exists held. split; simpl; try done.
    by rewrite delete_insert_id in Hv'.
  - unfold try_remove. rewrite (mv_size_out _ _ _ _ _ _ Hv).
    destruct (lc_out k) as [|x q] eqn:Eq; simpl.
    + exists c, li, lo. split; [done|]. exists held. split; try done. by rewrite Eq.
    + rewrite (mv_head_id _ _ _ _ _ _ _ Hv). simpl.
      destruct (it_id x =? e) eqn:Ex; simpl.
      * destruct (mv_release _ _ _ _ _ _ _ tt Hv) as (a & lo' & g' & -> & E & Hx & Hv').
        rewrite E. simpl. unfold item_at in Hx.
        destruct (heap g' !! a) as [n|] eqn:En; [|done]. simpl.
        injection Hx as Hx. rewrite Hx.
        assert (held !! a = None) as Hah.
        { destruct (held !! a) as [[[] y]|] eqn:Ey; [|done].
          destruct (mv_held _ _ _ _ _ _ Hv _ _ _ Ey) as (_ & _ & _ & Hao).
          destruct Hao. left. }
        eexists _, _, _. split; [done|].
        exists held. split; simpl; try done.
        -- eapply (mv_free _ _ _ _ _ _ a tt x) in Hv'; [|by rewrite lookup_insert_eq].
           by rewrite delete_insert_id in Hv'.
        -- by rewrite Ee.
      * exists c, li, lo. split; [done|]. exists held. split; try done. by rewrite Eq.
  - rewrite (mv_size_out _ _ _ _ _ _ Hv).
    destruct (lc_out k) as [|x q] eqn:Eq; simpl.
    + exists c, li, lo. split; [done|]. exists held. split; simpl; done.
    + destruct (mv_release _ _ _ _ _ _ _ tt Hv) as (a & lo' & g' & -> & E & Hx & Hv').
      rewrite E. simpl.
      assert (held !! a = None) as Hah.
      { destruct (held !! a) as [[[] y]|] eqn:Ey; [|done].
        destruct (mv_held _ _ _ _ _ _ Hv _ _ _ Ey) as (_ & _ & _ & Hao).
        destruct Hao. left. }
      eexists _, _, _. split; [done|].
      exists held. split; simpl; try done.
      eapply (mv_free _ _ _ _ _ _ a tt x) in Hv'; [|by rewrite lookup_insert_eq].
      by rewrite delete_insert_id in Hv'.
Qed.

Lemma client_run_rel ops c k li lo :
  client_rel c k li lo →
  ∃ c' li' lo', client_run ops c = Some c' ∧
                client_rel c' (list_client_run ops k) li' lo'.
Proof.
  revert c k li lo. induction ops as [|op ops IH]; intros c k li lo H; simpl.
  - by exists c, li, lo.
  - destruct (client_step_rel op _ _ _ _ H) as (c1 & li1 & lo1 & E & H1).
    rewrite E. simpl. by eapply IH.
Qed.

Lemma list_client_step_inv op (k : list_client) :
  lc_arrived k = lc_removed k ++ lc_in k → StronglySorted id_le (lc_out k) →
  lc_arrived (list_client_step op k) =
    lc_removed (list_client_step op k) ++ lc_in (list_client_step op k) ∧
  StronglySorted id_le (lc_out (list_client_step op k)).
Proof.
  intros Hf Hs. destruct op as [it| |i|it|e|]; simpl.
  - split; [|done]. by rewrite Hf, (assoc_L (++)).
  - destruct (lc_in k) as [|x q] eqn:E; simpl; [by rewrite E|].
    split; [|done]. by rewrite Hf, <-(assoc_L (++)).
  - destruct (lc_hand k !! i); simpl; [|done]. split; [done|].
    by apply insert_item_sorted.
  - split; [done|]. by apply insert_item_sorted.
  - destruct (lc_out k) as [|x q] eqn:E; simpl; [by rewrite E|].
    destruct (it_id x =? e); simpl; [|by rewrite E].
    split; [done|]. by apply StronglySorted_inv in Hs as [? _].
  - split; [done|]. destruct (lc_out k); simpl; [done|].
    by apply StronglySorted_inv in Hs as [? _].
Qed.

Lemma list_client_run_inv ops (k : list_client) :
  lc_arrived k = lc_removed k ++ lc_in k → StronglySorted id_le (lc_out k) →
  lc_arrived (list_client_run ops k) =
    lc_removed (list_client_run ops k) ++ lc_in (list_client_run ops k) ∧
  StronglySorted id_le (lc_out (list_client_run ops k)).
Proof.
  revert k. induction ops as [|op ops IH]; intros k Hf Hs; simpl; [done|].
  destruct (list_client_step_inv op k Hf Hs). by apply IH.
Qed.

(** Every sequence of operations runs without undefined behaviour and leaves
    well-formed queues: [li] and [lo] are the nodes reachable from the two
    heads, [qi] and [qo] their contents. *)
Lemma client_run_wf ops :
  ∃ c li lo qi qo (held : gmap addr (unit * item Mat)),
    client_run ops client_init = Some c ∧
    mem_view (cl_mem c) li lo qi qo held ∧
    Forall (λ a, is_Some (held !! a)) (cl_hand c) ∧
    cl_arrived c = cl_removed c ++ qi ∧
    StronglySorted id_le qo.
Proof.
  destruct (client_run_rel ops _ _ _ _ client_rel_init)
    as (c & li & lo & E & held & [Hv Hh Hnd Ea Er Ee]).
  destruct (list_client_run_inv ops list_client_init) as [Hf Hs];
    [done|constructor|].
  eexists c, li, lo, _, _, held. split; [done|]. split; [done|].
  split; [|split; [|done]].
  - apply Forall_forall. intros a Ha.
    destruct (hand_rel_held _ _ _ _ Hh Ha) as [x Hx]. by eexists.
  - by rewrite Ea, Er.
Qed.

End ClientProofs.

(** ** The three stages on lists of items

    The same program with the heap abstracted away: the queues are lists of
    items and a thread holds an item instead of a pointer. Steps of the two
    versions correspond one to one ([stage_step_rel]). *)

Section ListStages.
Context {Mat : Type}.
Variable process_image : Mat → Mat.

Inductive two_lpc :=
  | LTwoWait
  | LTwoTake (x : item Mat)
  | LTwoSend (x : item Mat)
  | LTwoReturn.

Inductive three_lpc :=
  | LThreeNext
  | LThreeWait
  | LThreeTake (x : item Mat)
  | LThreeReturn.

Record list_stage := ListStage {
  ls_in : list (item Mat);
  ls_out : list (item Mat);
  ls_capture : list Mat;
  ls_writer : list Mat;
  ls_nframes : Z;
  ls_current_frame : Z;
  ls_threads_number : Z;
  ls_one : one_pc;
  ls_two : list two_lpc;
  ls_three : three_lpc;
  ls_main : main_pc;
  ls_log : list event
}.

Definition list_stage_init (threads_number : Z) (video : list Mat) : list_stage :=
  ListStage [] [] video [] 0 0 threads_number
            OneCapture (replicate (Z.to_nat threads_number) LTwoWait)
            LThreeNext MainJoin [].

Definition processed (x : item Mat) (image : Mat) : item Mat :=
  Item (Some (process_image image)) (it_id x) (it_last x).

Definition list_stage_one (k : list_stage) : outcome list_stage :=
  match ls_one k with
  | OneCapture =>
      let nframes := ls_nframes k + 1 in
      match ls_capture k with
      | [] =>
          Next (ListStage (ls_in k) (ls_out k) [] (ls_writer k) nframes
                  (ls_current_frame k) (ls_threads_number k)
                  (OneSentinel 0) (ls_two k) (ls_three k) (ls_main k) (ls_log k))
      | image :: rest =>
          Next (ListStage (ls_in k ++ [Item (Some image) nframes false])
                  (ls_out k) rest (ls_writer k) nframes
                  (ls_current_frame k) (ls_threads_number k)
                  OneCapture (ls_two k) (ls_three k) (ls_main k)
                  (ls_log k ++ [EvPush nframes false]))
      end
  | OneSentinel i =>
      if i <? ls_threads_number k then
        Next (ListStage (ls_in k ++ [Item None (ls_nframes k) true])
                (ls_out k) (ls_capture k) (ls_writer k) (ls_nframes k)
                (ls_current_frame k) (ls_threads_number k)
                (OneSentinel (i + 1)) (ls_two k) (ls_three k) (ls_main k)
                (ls_log k ++ [EvPush (ls_nframes k) true]))
      else
        Next (ListStage (ls_in k) (ls_out k) (ls_capture k) (ls_writer k)
                (ls_nframes k) (ls_current_frame k) (ls_threads_number k)
                OneReturn (ls_two k) (ls_three k) (ls_main k) (ls_log k))
  | OneReturn => Blocked
  end.

Definition list_two_set (w : nat) (pc : two_lpc) (qi qo : list (item Mat))
    (e : list event) (k : list_stage) : list_stage :=
  ListStage qi qo (ls_capture k) (ls_writer k) (ls_nframes k)
    (ls_current_frame k) (ls_threads_number k)
    (ls_one k) (<[w := pc]> (ls_two k)) (ls_three k) (ls_main k)
    (ls_log k ++ e).

Definition list_stage_two (w : nat) (k : list_stage) : outcome list_stage :=
  match ls_two k !! w with
  | None => Blocked
  | Some LTwoWait =>
      match ls_in k with
      | [] => Blocked
      | x :: q =>
          Next (list_two_set w (LTwoTake x) q (ls_out k)
                  [EvPop w (it_id x) (it_last x)] k)
      end
  | Some (LTwoTake x) =>
      if it_last x then
        Next (list_two_set w LTwoReturn (ls_in k) (insert_item x (ls_out k))
                [EvInsert w (it_id x) true] k)
      else
        match it_frame x with
        | Some image =>
            Next (list_two_set w (LTwoSend (processed x image)) (ls_in k) (ls_out k)
                    [EvProcess w (it_id x)] k)
        | None => Undefined
        end
  | Some (LTwoSend x) =>
      Next (list_two_set w LTwoWait (ls_in k) (insert_item x (ls_out k))
              [EvInsert w (it_id x) false] k)
  | Some LTwoReturn => Blocked
  end.

Definition list_three_set (pc : three_lpc) (qo : list (item Mat))
    (writer : list Mat) (current_frame : Z) (e : list event)
    (k : list_stage) : list_stage :=
  ListStage (ls_in k) qo (ls_capture k) writer (ls_nframes k)
    current_frame (ls_threads_number k)
    (ls_one k) (ls_two k) pc (ls_main k) (ls_log k ++ e).

Definition list_stage_three (k : list_stage) : outcome list_stage :=
  match ls_three k with
  | LThreeNext =>
      Next (list_three_set LThreeWait (ls_out k) (ls_writer k)
              (ls_current_frame k + 1) [] k)
  | LThreeWait =>
      match ls_out k with
      | [] => Blocked
      | x :: q =>
          if it_id x =? ls_current_frame k then
            Next (list_three_set (LThreeTake x) q (ls_writer k)
                    (ls_current_frame k) [EvRelease (it_id x) (it_last x)] k)
          else Blocked
      end
  | LThreeTake x =>
      if it_last x then
        Next (list_three_set LThreeReturn (ls_out k) (ls_writer k)
                (ls_current_frame k) [] k)
      else
        match it_frame x with
        | Some image =>
            Next (list_three_set LThreeNext (ls_out k) (ls_writer k ++ [image])
                    (ls_current_frame k) [EvDisplay (it_id x)] k)
        | None => Undefined
        end
  | LThreeReturn => Blocked
  end.

Definition two_lreturned (pc : two_lpc) : bool :=
  match pc with LTwoReturn => true | _ => false end.

Definition list_threads_ended (k : list_stage) : bool :=
  match ls_one k, ls_three k with
  | OneReturn, LThreeReturn => forallb two_lreturned (ls_two k)
  | _, _ => false
  end.

Definition list_main_set (pc : main_pc) (qo : list (item Mat)) (e : list event)
    (k : list_stage) : list_stage :=
  ListStage (ls_in k) qo (ls_capture k) (ls_writer k) (ls_nframes k)
    (ls_current_frame k) (ls_threads_number k)
    (ls_one k) (ls_two k) (ls_three k) pc (ls_log k ++ e).

Definition list_stage_main (k : list_stage) : outcome list_stage :=
  match ls_main k with
  | MainJoin =>
      if list_threads_ended k then Next (list_main_set MainDrain (ls_out k) [] k)
      else Blocked
  | MainDrain =>
      match ls_out k with
      | x :: q =>
          Next (list_main_set MainDrain q [EvDiscard (it_id x) (it_last x)] k)
      | [] => Next (list_main_set MainReturn [] [] k)
      end
  | MainReturn => Blocked
  end.

Definition list_stage_step (t : thread) (k : list_stage) : outcome list_stage :=
  match t with
  | Ingest => list_stage_one k
  | Worker w => list_stage_two w k
  | Emit => list_stage_three k
  | Main => list_stage_main k
  end.

Fixpoint list_stage_run (sched : list thread) (k : list_stage)
    : outcome list_stage :=
  match sched with
  | [] => Next k
  | t :: sched' =>
      match list_stage_step t k with
      | Next k' => list_stage_run sched' k'
      | Blocked => Blocked
      | Undefined => Undefined
      end
  end.

Inductive list_stage_reach (k : list_stage) : list_stage → Prop :=
  | list_stage_reach_refl : list_stage_reach k k
  | list_stage_reach_step k1 t k2 :
      list_stage_reach k k1 → list_stage_step t k1 = Next k2 →
      list_stage_reach k k2.

(** *** The correspondence *)

Implicit Types (held : gmap addr (thread * item Mat)).

Definition two_rel held (w : nat) (pc : two_pc) (lpc : two_lpc) : Prop :=
  match pc, lpc with
  | TwoWait, LTwoWait => True
  | TwoTake a, LTwoTake x => held !! a = Some (Worker w, x)
  | TwoSend a, LTwoSend x => held !! a = Some (Worker w, x)
  | TwoReturn, LTwoReturn => True
  | _, _ => False
  end.

Definition three_rel held (pc : three_pc) (lpc : three_lpc) : Prop :=
  match pc, lpc with
  | ThreeNext, LThreeNext => True
  | ThreeWait, LThreeWait => True
  | ThreeTake a, LThreeTake x => held !! a = Some (Emit, x)
  | ThreeReturn, LThreeReturn => True
  | _, _ => False
  end.

Definition workers_rel held (pcs : list two_pc) (lpcs : list two_lpc) : Prop :=
  length pcs = length lpcs ∧
  ∀ w pc lpc, pcs !! w = Some pc → lpcs !! w = Some lpc → two_rel held w pc lpc.

Record stage_rel_with held (li lo : list addr)
    (s : stage_state Mat) (k : list_stage) : Prop := StageRel {
  sr_view : mem_view (st_mem s) li lo (ls_in k) (ls_out k) held;
  sr_two : workers_rel held (st_two s) (ls_two k);
  sr_three : three_rel held (st_three s) (ls_three k);
  sr_capture : st_capture s = ls_capture k;
  sr_writer : st_writer s = ls_writer k;
  sr_nframes : st_nframes s = ls_nframes k;
  sr_current : st_current_frame s = ls_current_frame k;
  sr_threads : st_threads_number s = ls_threads_number k;
  sr_one : st_one s = ls_one k;
  sr_main : st_main s = ls_main k;
  sr_log : st_log s = ls_log k
}.

Definition stage_rel (s : stage_state Mat) (k : list_stage) : Prop :=
  ∃ held li lo, stage_rel_with held li lo s k.

Lemma stage_rel_init threads_number video :
  stage_rel (stage_init threads_number video)
            (list_stage_init threads_number video).
Proof.
  exists ∅, [], []. split; try done.
  - apply mem_view_init.
  - split; simpl; [by rewrite !length_replicate|].
    intros w pc lpc [-> _]%lookup_replicate [-> _]%lookup_replicate. done.
Qed.

Lemma held_insert_other held a v a' t x :
  held !! a' = Some (t, x) → (∀ y, held !! a ≠ Some (t, y)) →
  <[a := v]> held !! a' = Some (t, x).
Proof.
  intros H Hn. rewrite lookup_insert_ne; [done|]. intros ->. by eapply Hn.
Qed.

Lemma held_delete_other held a a' t x :
  held !! a' = Some (t, x) → (∀ y, held !! a ≠ Some (t, y)) →
  delete a held !! a' = Some (t, x).
Proof.
  intros H Hn. rewrite lookup_delete_ne; [done|]. intros ->. by eapply Hn.
Qed.

Lemma mv_in_not_held g a li lo qi qo held :
  mem_view g (a :: li) lo qi qo held → held !! a = None.
Proof.
  intros Hv. destruct (held !! a) as [[t x]|] eqn:E; [|done].
  destruct (mv_held _ _ _ _ _ _ Hv _ _ _ E) as (_ & _ & Hn & _).
  destruct Hn. left.
Qed.

Lemma mv_out_not_held g a li lo qi qo held :
  mem_view g li (a :: lo) qi qo held → held !! a = None.
Proof.
  intros Hv. destruct (held !! a) as [[t x]|] eqn:E; [|done].
  destruct (mv_held _ _ _ _ _ _ Hv _ _ _ E) as (_ & _ & _ & Hn).
  destruct Hn. left.
Qed.

Lemma two_rel_change held held' w pc lpc :
  two_rel held w pc lpc →
  (∀ a x, held !! a = Some (Worker w, x) → held' !! a = Some (Worker w, x)) →
  two_rel held' w pc lpc.
Proof. destruct pc, lpc; simpl; auto. Qed.

Lemma three_rel_change held held' pc lpc :
  three_rel held pc lpc →
  (∀ a x, held !! a = Some (Emit, x) → held' !! a = Some (Emit, x)) →
  three_rel held' pc lpc.
Proof. destruct pc, lpc; simpl; auto. Qed.

Lemma workers_rel_keep held held' pcs lpcs :
  workers_rel held pcs lpcs →
  (∀ w a x, held !! a = Some (Worker w, x) → held' !! a = Some (Worker w, x)) →
  workers_rel held' pcs lpcs.
Proof.
  intros [Hl H] Hk. split; [done|]. intros w pc lpc Hpc Hlpc.
  eapply two_rel_change; [by eapply H|]. apply Hk.
Qed.

Lemma workers_rel_set held held' pcs lpcs w pc' lpc' :
  workers_rel held pcs lpcs →
  (∀ w' a x, w' ≠ w → held !! a = Some (Worker w', x) →
             held' !! a = Some (Worker w', x)) →
  two_rel held' w pc' lpc' →
  workers_rel held' (<[w := pc']> pcs) (<[w := lpc']> lpcs).
Proof.
  intros [Hl H] Hk Hw. split; [by rewrite !length_insert|].
  intros w' pc lpc Hpc Hlpc. destruct (decide (w = w')) as [<-|Hne].
  - apply list_lookup_insert_Some in Hpc as [(_ & <- & _)|[? _]]; [|done].
    apply list_lookup_insert_Some in Hlpc as [(_ & <- & _)|[? _]]; [|done].
    done.
  - rewrite list_lookup_insert_ne in Hpc by done.
    rewrite list_lookup_insert_ne in Hlpc by done.
    eapply two_rel_change; [by eapply H|]. intros a x. by apply Hk.
Qed.

Lemma workers_rel_lookup held pcs lpcs w :
  workers_rel held pcs lpcs →
  match pcs !! w, lpcs !! w with
  | Some pc, Some lpc => two_rel held w pc lpc
  | None, None => True
  | _, _ => False
  end.
Proof.
  intros [Hl H]. destruct (pcs !! w) as [pc|] eqn:E1, (lpcs !! w) as [lpc|] eqn:E2.
  - by eapply H.
  - apply lookup_lt_Some in E1. apply lookup_ge_None in E2. lia.
  - apply lookup_lt_Some in E2. apply lookup_ge_None in E1. lia.
  - done.
Qed.

Lemma workers_rel_ended held pcs lpcs :
  workers_rel held pcs lpcs →
  forallb two_returned pcs = forallb two_lreturned lpcs.
Proof.
  intros Hr. apply eq_bool_prop_intro. rewrite !forallb_True, !Forall_lookup.
  split; intros H w x Hx; pose proof (workers_rel_lookup _ _ _ w Hr) as Hw;
    rewrite Hx in Hw.
  - destruct (pcs !! w) as [pc|] eqn:E; [|done]. specialize (H w pc E).
    by destruct pc, x.
  - destruct (lpcs !! w) as [lpc|] eqn:E; [|done]. specialize (H w lpc E).
    by destruct x, lpc.
Qed.

Definition matches {S L} (R : S → L → Prop) (o : outcome S) (lo : outcome L) : Prop :=
  match lo with
  | Next k' => ∃ s', o = Next s' ∧ R s' k'
  | Blocked => o = Blocked
  | Undefined => o = Undefined
  end.

Lemma stage_one_rel s k :
  stage_rel s k → matches stage_rel (stage_one s) (list_stage_one k).
Proof.
  intros (held & li & lo & [Hv H2 H3 Ec Ew En Ef Et E1 Em El]).
  unfold stage_one, list_stage_one. rewrite <-E1, <-Ec, <-En, <-Et.
  destruct (st_one s) as [|i|].
  - destruct (st_capture s) as [|image rest].
    + eexists. split; [done|]. exists held, li, lo. split; simpl; congruence.
    + destruct (new_node _ _) as [a g1] eqn:Ea.
      destruct (mv_push _ _ _ _ _ _ _ _ _ Hv Ea) as (g2 & E & Hv2).
      rewrite E. simpl. eexists. split; [done|].
      exists held, (li ++ [a]), lo. split; simpl; congruence.
  - destruct (i <? st_threads_number s).
    + destruct (new_node _ _) as [a g1] eqn:Ea.
      destruct (mv_push _ _ _ _ _ _ _ _ _ Hv Ea) as (g2 & E & Hv2).
      rewrite E. simpl. eexists. split; [done|].
      exists held, (li ++ [a]), lo. split; simpl; congruence.
    + eexists. split; [done|]. exists held, li, lo. split; simpl; congruence.
  - done.
Qed.

Lemma stage_two_rel w s k :
  stage_rel s k →
  matches stage_rel (stage_two process_image w s) (list_stage_two w k).
Proof.
  intros (held & li & lo & [Hv H2 H3 Ec Ew En Ef Et E1 Em El]).
  unfold stage_two, list_stage_two.
  pose proof (workers_rel_lookup _ _ _ w H2) as Hw.
  destruct (st_two s !! w) as [pc|] eqn:Epc, (ls_two k !! w) as [lpc|] eqn:Elpc;
    try done.
  destruct pc as [|a|a|], lpc as [|x|x|]; try done; simpl in Hw.
  - (* waiting for a node *)
    rewrite (mv_size_in _ _ _ _ _ _ Hv).
    destruct (ls_in k) as [|x q] eqn:Eq; [done|]. simpl.
    pose proof Hv as Hv0.
    destruct (mv_pop _ _ _ _ _ _ _ (Worker w) Hv) as (a & li' & g' & -> & E & Hx & Hv').
    rewrite E. simpl. unfold item_at in Hx.
    destruct (heap g' !! a) as [n|] eqn:Ena; [|done]. simpl.
    injection Hx as <-. eexists. split; [done|].
    exists (<[a := (Worker w, item_of n)]> held), li', lo.
    split; simpl; try congruence.
    + eapply workers_rel_set; [done| |simpl; by rewrite lookup_insert_eq].
      intros w' a' x' Hne Ha'. eapply held_insert_other; [done|].
      intros y. by rewrite (mv_in_not_held _ _ _ _ _ _ _ Hv0).
    + eapply three_rel_change; [done|]. intros a' x' Ha'.
      eapply held_insert_other; [done|].
      intros y. by rewrite (mv_in_not_held _ _ _ _ _ _ _ Hv0).
  - (* a node has been taken *)
    destruct (mv_held_node _ _ _ _ _ _ _ _ _ Hv Hw) as (n & Ena & <-).
    rewrite Ena. simpl. destruct (is_the_last_node n) eqn:Elast.
    + destruct (mv_forward _ _ _ _ _ _ _ _ _ Hv Hw) as (g' & E & Hv').
      rewrite E. simpl. eexists. split; [done|].
      eexists (delete a held), li, _. split; simpl; try congruence; try done.
      * eapply workers_rel_set; [done| |done].
        intros w' a' x' Hne Ha'. eapply held_delete_other; [done|].
        intros y. rewrite Hw. congruence.
      * eapply three_rel_change; [done|]. intros a' x' Ha'.
        eapply held_delete_other; [done|]. intros y. rewrite Hw. congruence.
    + destruct (frame n) as [image|] eqn:Ef'.
      * destruct (mv_process process_image _ _ _ _ _ _ _ _ _ image Hv Hw)
          as (g' & E & Hv'); [done|].
        rewrite E. simpl. eexists. split; [done|].
        eexists _, li, lo. split; simpl; try congruence; try done.
        -- eapply workers_rel_set; [done| |simpl; by rewrite lookup_insert_eq].
           intros w' a' x' Hne Ha'. eapply held_insert_other; [done|].
           intros y. rewrite Hw. congruence.
        -- eapply three_rel_change; [done|]. intros a' x' Ha'.
           eapply held_insert_other; [done|]. intros y. rewrite Hw. congruence.
      * unfold process_frame. rewrite Ena. simpl. by rewrite Ef'.
  - (* the processed node is sent on *)
    destruct (mv_held_node _ _ _ _ _ _ _ _ _ Hv Hw) as (n & Ena & <-).
    rewrite Ena. simpl.
    destruct (mv_forward _ _ _ _ _ _ _ _ _ Hv Hw) as (g' & E & Hv').
    rewrite E. simpl. eexists. split; [done|].
    eexists (delete a held), li, _. split; simpl; try congruence; try done.
    + eapply workers_rel_set; [done| |done].
      intros w' a' x' Hne Ha'. eapply held_delete_other; [done|].
      intros y. rewrite Hw. congruence.
    + eapply three_rel_change; [done|]. intros a' x' Ha'.
      eapply held_delete_other; [done|]. intros y. rewrite Hw. congruence.
Qed.

Lemma stage_three_rel s k :
  stage_rel s k → matches stage_rel (stage_three s) (list_stage_three k).
Proof.
  intros (held & li & lo & [Hv H2 H3 Ec Ew En Ef Et E1 Em El]).
  unfold stage_three, list_stage_three.
  destruct (st_three s) as [| |a|], (ls_three k) as [| |x|]; try done; simpl in H3.
  - eexists. split; [done|]. exists held, li, lo. split; simpl; congruence.
  - rewrite (mv_size_out _ _ _ _ _ _ Hv).
    destruct (ls_out k) as [|x q] eqn:Eq; [done|]. simpl.
    rewrite (mv_head_id _ _ _ _ _ _ _ Hv). rewrite <-Ef.
    destruct (it_id x =? st_current_frame s); [|done].
    pose proof Hv as Hv0.
    destruct (mv_release _ _ _ _ _ _ _ Emit Hv) as (a & lo' & g' & -> & E & Hx & Hv').
    rewrite E. simpl. unfold item_at in Hx.
    destruct (heap g' !! a) as [n|] eqn:Ena; [|done]. simpl.
    injection Hx as <-. eexists. split; [done|].
    exists (<[a := (Emit, item_of n)]> held), li, lo'.
    split; simpl; try congruence.
    + eapply workers_rel_keep; [done|]. intros w a' x' Ha'.
      eapply held_insert_other; [done|].
      intros y. by rewrite (mv_out_not_held _ _ _ _ _ _ _ Hv0).
    + by rewrite lookup_insert_eq.
  - destruct (mv_held_node _ _ _ _ _ _ _ _ _ Hv H3) as (n & Ena & <-).
    rewrite Ena. simpl. destruct (is_the_last_node n) eqn:Elast.
    + eexists. split; [done|].
      exists (delete a held), li, lo. split; simpl; try congruence; try done.
      * by apply mv_drop.
      * eapply workers_rel_keep; [done|]. intros w a' x' Ha'.
        eapply held_delete_other; [done|]. intros y. rewrite H3. congruence.
    + destruct (frame n) as [image|] eqn:Ef'.
      * erewrite send_frame_to_display_spec; [|by unfold item_at; rewrite Ena|done].
        simpl. eexists. split; [done|].
        exists (delete a held), li, lo. split; simpl; try congruence; try done.
        -- by eapply mv_free.
        -- eapply workers_rel_keep; [done|]. intros w a' x' Ha'.
           eapply held_delete_other; [done|]. intros y. rewrite H3. congruence.
      * unfold send_frame_to_display. rewrite Ena. simpl. by rewrite Ef'.
Qed.

Lemma stage_main_rel s k :
  stage_rel s k → matches stage_rel (stage_main s) (list_stage_main k).
Proof.
  intros (held & li & lo & [Hv H2 H3 Ec Ew En Ef Et E1 Em El]).
  unfold stage_main, list_stage_main. rewrite <-Em.
  destruct (st_main s).
  - assert (stage_threads_ended s = list_threads_ended k) as ->.
    { unfold stage_threads_ended, list_threads_ended. rewrite <-E1.
      destruct (st_one s); try done.
      destruct (st_three s), (ls_three k); try done.
      by eapply workers_rel_ended. }
    destruct (list_threads_ended k); [|done].
    eexists. split; [done|]. exists held, li, lo. split; simpl; congruence.
  - rewrite (mv_size_out _ _ _ _ _ _ Hv).
    destruct (ls_out k) as [|x q] eqn:Eq; simpl.
    + eexists. split; [done|]. exists held, li, lo.
      split; simpl; try congruence; try done.
    + pose proof Hv as Hv0.
      destruct (mv_release _ _ _ _ _ _ _ Main Hv) as (a & lo' & g' & -> & E & Hx & Hv').
      rewrite E. simpl. unfold item_at in Hx.
      destruct (heap g' !! a) as [n|] eqn:Ena; [|done]. simpl.
      injection Hx as <-. eexists. split; [done|].
      pose proof (mv_out_not_held _ _ _ _ _ _ _ Hv0) as Hnh.
      exists held, li, lo'. split; simpl; try congruence; try done.
      eapply (mv_free _ _ _ _ _ _ a) in Hv'; [|by rewrite lookup_insert_eq].
      by rewrite delete_insert_id in Hv'.
  - done.
Qed.

Lemma stage_step_rel t s k :
  stage_rel s k →
  matches stage_rel (stage_step process_image t s) (list_stage_step t k).
Proof.
  destruct t; simpl.
  - apply stage_one_rel.
  - apply stage_two_rel.
  - apply stage_three_rel.
  - apply stage_main_rel.
Qed.

(** Every state the heap program reaches represents a state the list program
    reaches, and conversely. *)
Lemma stage_reach_rel threads_number video s :
  stage_reach process_image (stage_init threads_number video) s →
  ∃ k, list_stage_reach (list_stage_init threads_number video) k ∧ stage_rel s k.
Proof.
  induction 1 as [|s1 t s2 _ (k1 & Hk & Hr) Hs].
  - eexists. split; [constructor|apply stage_rel_init].
  - pose proof (stage_step_rel t _ _ Hr) as Hm. rewrite Hs in Hm.
    destruct (list_stage_step t k1) as [k2| |] eqn:Ek; simpl in Hm; try done.
    destruct Hm as (s' & [= <-] & Hr'). exists k2. split; [|done].
    by econstructor.
Qed.

Lemma list_stage_reach_rel threads_number video k :
  list_stage_reach (list_stage_init threads_number video) k →
  ∃ s, stage_reach process_image (stage_init threads_number video) s ∧
       stage_rel s k.
Proof.
  induction 1 as [|k1 t k2 _ (s1 & Hs & Hr) Hk].
  - eexists. split; [constructor|apply stage_rel_init].
  - pose proof (stage_step_rel t _ _ Hr) as Hm. rewrite Hk in Hm.
    destruct Hm as (s2 & E & Hr'). exists s2. split; [|done].
    by econstructor.
Qed.

Lemma stage_run_rel sched s k :
  stage_rel s k →
  matches stage_rel (stage_run process_image sched s) (list_stage_run sched k).
Proof.
  revert s k. induction sched as [|t sched IH]; intros s k Hr; simpl.
  - by exists s.
  - pose proof (stage_step_rel t _ _ Hr) as Hm.
    destruct (list_stage_step t k) as [k1| |]; simpl in Hm.
    + destruct Hm as (s1 & -> & Hr1). by apply IH.
    + rewrite Hm. done.
    + rewrite Hm. done.
Qed.

End ListStages.

Arguments two_lpc : clear implicits.
Arguments three_lpc : clear implicits.
Arguments list_stage : clear implicits.

(** ** Projections of the instrumentation log *)

Definition push_log (log : list event) : list (Z * bool) :=
  omap (λ ev, match ev with EvPush id last => Some (id, last) | _ => None end) log.

Definition pop_log (log : list event) : list (nat * Z * bool) :=
  omap (λ ev, match ev with EvPop w id last => Some (w, id, last) | _ => None end) log.

(** Ids of the frames removed from the input queue, in removal order. *)
Definition pop_ids (log : list event) : list Z :=
  omap (λ ev, match ev with EvPop _ id false => Some id | _ => None end) log.

(** Ids on which [process_frame] was called, in call order. *)
Definition process_ids (log : list event) : list Z :=
  omap (λ ev, match ev with EvProcess _ id => Some id | _ => None end) log.

(** Ids of the nodes released by the emit stage that reached the writer. *)
Definition display_ids (log : list event) : list Z :=
  omap (λ ev, match ev with EvDisplay id => Some id | _ => None end) log.

(** The [is_the_last_node] flags of the nodes worker [w] removed from the
    input queue, in removal order. *)
Definition worker_pops (w : nat) (log : list event) : list bool :=
  omap (λ ev, match ev with
              | EvPop w' _ last => if decide (w' = w) then Some last else None
              | _ => None
              end) log.

(** The workers that removed a sentinel from the input queue, in removal
    order. *)
Definition sentinel_pops (log : list event) : list nat :=
  omap (λ ev, match ev with EvPop w _ true => Some w | _ => None end) log.

(** ** Lists: a few facts about [seq] and updates *)

Lemma seq_snoc (p r : nat) : (p ≤ r)%nat → seq p (S r - p) = seq p (r - p) ++ [r].
Proof.
  intros H. replace (S r - p)%nat with (S (r - p)) by lia.
  rewrite seq_S. do 2 f_equal. lia.
Qed.

Lemma seq_pop (p r : nat) : (p < r)%nat → seq p (r - p) = p :: seq (S p) (r - S p).
Proof. intros H. replace (r - p)%nat with (S (r - S p)) by lia. done. Qed.

Lemma omap_insert_perm {A B} (f : A → option B) (l : list A) i x y :
  l !! i = Some x →
  option_list (f x) ++ omap f (<[i := y]> l) ≡ₚ option_list (f y) ++ omap f l.
Proof.
  revert i. induction l as [|z l IH]; intros [|i] H; simplify_eq/=.
  - destruct (f x), (f y); simpl; try done. apply Permutation_swap.
  - specialize (IH i H). destruct (f z) as [b|]; simpl; [|done].
    rewrite <-!Permutation_middle. by f_equiv.
Qed.

Lemma omap_insert_same {A B} (f : A → option B) (l : list A) i x y :
  l !! i = Some x → f x = f y → omap f (<[i := y]> l) = omap f l.
Proof.
  revert i. induction l as [|z l IH]; intros [|i] H E; simplify_eq/=.
  - by rewrite E.
  - by rewrite (IH i).
Qed.

Lemma omap_insert_add {A B} (f : A → option B) (l : list A) i x y b :
  l !! i = Some x → f x = None → f y = Some b →
  omap f (<[i := y]> l) ≡ₚ b :: omap f l.
Proof.
  intros H Ex Ey. pose proof (omap_insert_perm f l i x y H) as Hp.
  by rewrite Ex, Ey in Hp.
Qed.

Lemma omap_insert_del {A B} (f : A → option B) (l : list A) i x y b :
  l !! i = Some x → f x = Some b → f y = None →
  omap f l ≡ₚ b :: omap f (<[i := y]> l).
Proof.
  intros H Ex Ey. pose proof (omap_insert_perm f l i x y H) as Hp.
  by rewrite Ex, Ey in Hp.
Qed.

Lemma length_omap_cons {A B} (f : A → option B) x (l : list A) :
  length (omap f (x :: l)) = (length (option_list (f x)) + length (omap f l))%nat.
Proof. cbn [omap list_omap]. by destruct (f x). Qed.

(** ** The invariant of the three stages *)

Ltac proj_simpl :=
  cbn [ls_in ls_out ls_capture ls_writer ls_nframes ls_current_frame
       ls_threads_number ls_one ls_two ls_three ls_main ls_log
       list_two_set list_three_set list_main_set].

Lemma push_log_snoc log ev : push_log (log ++ [ev]) = push_log log ++ push_log [ev].
Proof. apply omap_app. Qed.
Lemma pop_ids_snoc log ev : pop_ids (log ++ [ev]) = pop_ids log ++ pop_ids [ev].
Proof. apply omap_app. Qed.
Lemma process_ids_snoc log ev :
  process_ids (log ++ [ev]) = process_ids log ++ process_ids [ev].
Proof. apply omap_app. Qed.
Lemma display_ids_snoc log ev :
  display_ids (log ++ [ev]) = display_ids log ++ display_ids [ev].
Proof. apply omap_app. Qed.
Lemma worker_pops_snoc w log ev :
  worker_pops w (log ++ [ev]) = worker_pops w log ++ worker_pops w [ev].
Proof. apply omap_app. Qed.

Lemma sentinel_pops_snoc log ev :
  sentinel_pops (log ++ [ev]) = sentinel_pops log ++ sentinel_pops [ev].
Proof. apply omap_app. Qed.

Ltac log_simpl :=
  rewrite ?push_log_snoc, ?pop_ids_snoc, ?process_ids_snoc, ?display_ids_snoc,
          ?worker_pops_snoc, ?sentinel_pops_snoc;
  cbn [push_log pop_ids process_ids display_ids worker_pops sentinel_pops
       omap list_omap it_last it_id];
  rewrite ?app_nil_r.


Section StageInvariant.
Context {Mat : Type}.
Variable process_image : Mat → Mat.
Variable threads_number : Z.
Variable video : list Mat.

Local Abbreviation N := (Z.to_nat threads_number).
Local Abbreviation M := (length video).

(** The id given to the frame at position [i] of the video. *)
Definition id_of (i : nat) : Z := Z.of_nat (S i).

(** The node of frame [i] as [stage_one] makes it, the same node after
    [process_frame], and the sentinel node. *)
Definition raw (i : nat) : item Mat := Item (video !! i) (id_of i) false.
Definition cooked (i : nat) : item Mat :=
  Item (process_image <$> video !! i) (id_of i) false.
Definition sentinel : item Mat := Item None (Z.of_nat M + 1) true.

Definition frame_id (x : item Mat) : option Z :=
  if it_last x then None else Some (it_id x).

Definition take_id (pc : two_lpc Mat) : option Z :=
  match pc with LTwoTake x => frame_id x | _ => None end.
Definition send_id (pc : two_lpc Mat) : option Z :=
  match pc with LTwoSend x => frame_id x | _ => None end.
Definition emit_id (pc : three_lpc Mat) : option Z :=
  match pc with LThreeTake x => frame_id x | _ => None end.

(** A worker that has removed a sentinel from the input queue. *)
Definition consumed (pc : two_lpc Mat) : bool :=
  match pc with LTwoTake x => it_last x | LTwoReturn => true | _ => false end.

Definition consumed_u (pc : two_lpc Mat) : option unit :=
  if consumed pc then Some () else None.
Definition returned_u (pc : two_lpc Mat) : option unit :=
  if two_lreturned pc then Some () else None.
Definition sentinel_u (x : item Mat) : option unit :=
  if it_last x then Some () else None.
(** 1 when the emit stage has taken a sentinel. *)
Definition emit_sentinel (pc : three_lpc Mat) : nat :=
  match pc with
  | LThreeTake x => if it_last x then 1 else 0
  | LThreeReturn => 1
  | _ => 0
  end.

Definition two_ok (p sp : nat) (pc : two_lpc Mat) : Prop :=
  match pc with
  | LTwoTake x => (x = sentinel ∧ (0 < sp)%nat) ∨ ∃ i, (i < p)%nat ∧ x = raw i
  | LTwoSend x => ∃ i, (i < p)%nat ∧ x = cooked i
  | _ => True
  end.

Definition out_ok (p sp : nat) (x : item Mat) : Prop :=
  (x = sentinel ∧ (0 < sp)%nat) ∨ ∃ i, (i < p)%nat ∧ x = cooked i.

(** [r] frames have been read, [p] of them removed from the input queue and
    [e] displayed; [sent] sentinels have been pushed and [sp] of them removed
    from the input queue. *)
Record stage_inv (r p e sent sp : nat) (k : list_stage Mat) : Prop := StageInv {
  si_threads : ls_threads_number k = threads_number;
  si_workers : length (ls_two k) = N;
  si_bounds : (e ≤ p ≤ r)%nat ∧ (r ≤ M)%nat ∧ (sp ≤ sent ≤ N)%nat;
  si_one :
    match ls_one k with
    | OneCapture =>
        ls_nframes k = Z.of_nat r ∧ ls_capture k = drop r video ∧ sent = 0%nat
    | OneSentinel i =>
        ls_nframes k = Z.of_nat M + 1 ∧ ls_capture k = [] ∧ r = M ∧
        i = Z.of_nat sent
    | OneReturn =>
        ls_nframes k = Z.of_nat M + 1 ∧ ls_capture k = [] ∧ r = M ∧ sent = N
    end;
  si_in : ls_in k = map raw (seq p (r - p)) ++ replicate (sent - sp) sentinel;
  si_sp : (0 < sp)%nat → p = r;
  si_two : Forall (two_ok p sp) (ls_two k);
  si_out : Forall (out_ok p sp) (ls_out k);
  si_sorted : StronglySorted id_le (ls_out k);
  si_three :
    match ls_three k with
    | LThreeNext => ls_current_frame k = Z.of_nat e
    | LThreeWait => ls_current_frame k = Z.of_nat e + 1
    | LThreeTake x =>
        ls_current_frame k = Z.of_nat e + 1 ∧
        ((x = sentinel ∧ e = M) ∨ (x = cooked e ∧ (e < p)%nat))
    | LThreeReturn => ls_current_frame k = Z.of_nat e + 1 ∧ e = M
    end;
  si_writer : ls_writer k = map process_image (take e video);
  si_push : push_log (ls_log k) =
            map (λ i, (id_of i, false)) (seq 0 r) ++
            replicate sent (Z.of_nat M + 1, true);
  si_pop : pop_ids (ls_log k) = map id_of (seq 0 p);
  si_display : display_ids (ls_log k) = map id_of (seq 0 e);
  si_process1 :
    process_ids (ls_log k) ++ omap take_id (ls_two k) ≡ₚ map id_of (seq 0 p);
  si_process2 :
    process_ids (ls_log k) ≡ₚ
      map id_of (seq 0 e) ++ omap send_id (ls_two k) ++
      omap frame_id (ls_out k) ++ option_list (emit_id (ls_three k));
  si_worker_pops : ∀ w pc, ls_two k !! w = Some pc →
      ∃ n, worker_pops w (ls_log k) =
           replicate n false ++ (if consumed pc then [true] else []);
  si_main : ls_main k = MainJoin ∨ list_threads_ended k = true;
  si_done : ls_main k = MainReturn → ls_out k = [];
  si_consumed : length (omap consumed_u (ls_two k)) = sp;
  si_returned : ls_main k = MainJoin →
      length (omap returned_u (ls_two k)) =
      (length (omap sentinel_u (ls_out k)) + emit_sentinel (ls_three k))%nat
}.

Ltac inv_split :=
  split; proj_simpl; try done; try (by rewrite ?app_nil_r);
  try (by rewrite length_insert); try (by log_simpl); try (by left);
  try (by right); try (by rewrite ?app_nil_r; eauto);
  try (by cbn [emit_id option_list] in *; rewrite ?app_nil_r in *);
  try (by match goal with H : ls_main _ = MainJoin |- _ => rewrite H end).

Lemma omap_replicate_None {A B} (f : A → option B) n x :
  f x = None → omap f (replicate n x) = [].
Proof. intros H. induction n; simpl; [done|]. by rewrite H. Qed.

Lemma stage_inv_init :
  stage_inv 0 0 0 0 0 (list_stage_init threads_number video).
Proof.
  split; simpl; try done.
  - by rewrite length_replicate.
  - lia.
  - by apply Forall_replicate.
  - constructor.
  - by rewrite omap_replicate_None.
  - by rewrite omap_replicate_None.
  - intros w pc [-> _]%lookup_replicate. by exists 0%nat.
  - by left.
  - by rewrite omap_replicate_None.
  - by rewrite omap_replicate_None.
Qed.

Lemma length_omap_insert {A B} (f : A → option B) (l : list A) i x y :
  l !! i = Some x →
  (length (option_list (f x)) + length (omap f (<[i := y]> l)) =
   length (option_list (f y)) + length (omap f l))%nat.
Proof.
  intros H. pose proof (omap_insert_perm f l i x y H) as Hp%Permutation_length.
  by rewrite !length_app in Hp.
Qed.

Lemma length_sentinel_insert x (q : list (item Mat)) :
  length (omap sentinel_u (insert_item x q)) =
  (length (option_list (sentinel_u x)) + length (omap sentinel_u q))%nat.
Proof.
  rewrite insert_item_perm. cbn [omap list_omap]. by destruct (sentinel_u x).
Qed.

Ltac counts Epc pc' :=
  let Hc1 := fresh in let Hc2 := fresh in
  pose proof (length_omap_insert consumed_u _ _ _ pc' Epc) as Hc1;
  pose proof (length_omap_insert returned_u _ _ _ pc' Epc) as Hc2;
  cbn in Hc1, Hc2; rewrite ?length_sentinel_insert; cbn; intros; lia.

Lemma raw_frame i : (i < M)%nat → ∃ image, video !! i = Some image.
Proof. intros H. by apply lookup_lt_is_Some_2. Qed.

Lemma sentinel_not_raw i : sentinel ≠ raw i.
Proof. done. Qed.

Lemma cooked_id_inj i j : it_id (cooked i) = it_id (cooked j) → i = j.
Proof. unfold cooked, id_of. simpl. lia. Qed.

Lemma two_ok_mono p p' sp sp' pc :
  (p ≤ p')%nat → (sp ≤ sp')%nat → two_ok p sp pc → two_ok p' sp' pc.
Proof.
  intros Hp Hs. destruct pc; simpl; try done.
  - intros [[-> ?]|(i & ? & ->)]; [left|right]; [split; [done|lia]|].
    exists i. split; [lia|done].
  - intros (i & ? & ->). exists i. split; [lia|done].
Qed.

Lemma out_ok_mono p p' sp sp' x :
  (p ≤ p')%nat → (sp ≤ sp')%nat → out_ok p sp x → out_ok p' sp' x.
Proof.
  intros Hp Hs [[-> ?]|(i & ? & ->)]; [left|right]; [split; [done|lia]|].
  exists i. split; [lia|done].
Qed.

Lemma drop_cons_inv (l : list Mat) n x rest :
  drop n l = x :: rest → l !! n = Some x ∧ rest = drop (S n) l ∧ (n < length l)%nat.
Proof.
  intros H. assert (l !! n = Some x) as Hx.
  { rewrite <-(Nat.add_0_r n), <-lookup_drop, H. done. }
  split; [done|]. split.
  - rewrite (drop_S _ _ _ Hx) in H. by injection H.
  - by eapply lookup_lt_Some.
Qed.

Lemma stage_inv_one r p e sent sp k k' :
  stage_inv r p e sent sp k → list_stage_one k = Next k' →
  ∃ r' sent', stage_inv r' p e sent' sp k'.
Proof.
  intros [Ht Hw Hb H1 Hin Hsp H2 Ho Hs H3 Hwr Hpu Hpo Hd Hp1 Hp2 Hwp Hm Hdn Hcons Hret].
  unfold list_stage_one. destruct (ls_one k) as [|i|] eqn:E1; [| |done].
  all: assert (ls_main k = MainJoin) as Hmj
    by (destruct Hm as [?|Hm]; [done|];
        unfold list_threads_ended in Hm; by rewrite E1 in Hm).
  - destruct H1 as (Hn & Hc & ->). destruct (ls_capture k) as [|image rest] eqn:Ec.
    + intros [= <-]. symmetry in Hc. apply drop_nil_inv in Hc.
      assert (r = M) as -> by lia.
      exists M, 0%nat. inv_split. rewrite Hn. done.
    + intros [= <-]. symmetry in Hc.
      apply drop_cons_inv in Hc as (Hx & -> & Hlt).
      exists (S r), 0%nat. inv_split.
      * lia.
      * split; [lia|done].
      * rewrite Hin. cbn [replicate Nat.sub]. rewrite !app_nil_r, seq_snoc by lia.
        rewrite map_app. cbn [map]. do 2 f_equal. unfold raw, id_of.
        rewrite Hx, Hn. f_equal. lia.
      * intros ?. lia.
      * log_simpl. rewrite Hpu, seq_S, map_app. cbn [map replicate].
        rewrite !app_nil_r. do 3 f_equal. rewrite Hn. unfold id_of. lia.
      * intros w pc Hpc. log_simpl. eauto.
  - destruct H1 as (Hn & Hc & -> & ->). rewrite Ht.
    destruct (Z.ltb_spec (Z.of_nat sent) threads_number) as [Hlt|Hge].
    + intros [= <-]. exists M, (S sent). inv_split.
      * lia.
      * repeat split; try done. lia.
      * rewrite Hin, Hn. replace (S sent - sp)%nat with (S (sent - sp)) by lia.
        by rewrite replicate_S_end, (assoc_L (++)).
      * log_simpl. by rewrite Hpu, Hn, replicate_S_end, (assoc_L (++)).
      * intros w pc Hpc. log_simpl. eauto.
    + intros [= <-]. exists M, sent. inv_split.
      repeat split; try done. lia.
Qed.

Lemma ended_worker (k : list_stage Mat) w pc :
  ls_two k !! w = Some pc → two_lreturned pc = false →
  list_threads_ended k = false.
Proof.
  intros Hpc Hr. unfold list_threads_ended.
  destruct (ls_one k); try done. destruct (ls_three k); try done.
  apply not_true_is_false. intros H%Is_true_true%forallb_True.
  rewrite Forall_lookup in H. specialize (H _ _ Hpc). by rewrite Hr in H.
Qed.

Lemma worker_pops_other w w' id last log :
  w' ≠ w → worker_pops w (log ++ [EvPop w' id last]) = worker_pops w log.
Proof.
  intros H. unfold worker_pops. rewrite omap_app. cbn [omap list_omap].
  rewrite decide_False by done. by rewrite app_nil_r.
Qed.

Lemma worker_pops_self w id last log :
  worker_pops w (log ++ [EvPop w id last]) = worker_pops w log ++ [last].
Proof.
  unfold worker_pops. rewrite omap_app. cbn [omap list_omap].
  by rewrite decide_True.
Qed.

Lemma omap_frame_id_insert x (q : list (item Mat)) :
  omap frame_id (insert_item x q) ≡ₚ option_list (frame_id x) ++ omap frame_id q.
Proof. rewrite insert_item_perm. simpl. by destruct (frame_id x). Qed.

(** A worker that changes its program point without removing a node keeps
    its record of removals. *)
Lemma worker_pops_keep w pc' ev (k : list_stage Mat) pc :
  ls_two k !! w = Some pc →
  (∀ w', worker_pops w' [ev] = []) →
  consumed pc' = consumed pc →
  (∀ w' pc0, ls_two k !! w' = Some pc0 →
      ∃ n, worker_pops w' (ls_log k) =
           replicate n false ++ (if consumed pc0 then [true] else [])) →
  ∀ w' pc0, <[w := pc']> (ls_two k) !! w' = Some pc0 →
      ∃ n, worker_pops w' (ls_log k ++ [ev]) =
           replicate n false ++ (if consumed pc0 then [true] else []).
Proof.
  intros Hpc Hev Hc Hwp w' pc0. rewrite worker_pops_snoc, Hev, app_nil_r.
  destruct (decide (w = w')) as [<-|Hne].
  - rewrite list_lookup_insert_eq by by eapply lookup_lt_Some.
    intros [= <-]. rewrite Hc. eauto.
  - rewrite list_lookup_insert_ne by done. eauto.
Qed.

Lemma worker_pops_pop w (k : list_stage Mat) id last pc' :
  ls_two k !! w = Some LTwoWait →
  consumed pc' = last →
  (∀ w' pc0, ls_two k !! w' = Some pc0 →
      ∃ n, worker_pops w' (ls_log k) =
           replicate n false ++ (if consumed pc0 then [true] else [])) →
  ∀ w' pc0, <[w := pc']> (ls_two k) !! w' = Some pc0 →
      ∃ n, worker_pops w' (ls_log k ++ [EvPop w id last]) =
           replicate n false ++ (if consumed pc0 then [true] else []).
Proof.
  intros Hpc Hc Hwp w' pc0. destruct (decide (w = w')) as [<-|Hne].
  - rewrite list_lookup_insert_eq by by eapply lookup_lt_Some.
    intros [= <-]. destruct (Hwp _ _ Hpc) as [n Hn].
    rewrite worker_pops_self, Hn, Hc. cbn [consumed]. rewrite app_nil_r.
    destruct last; [by exists n|]. exists (S n).
    by rewrite app_nil_r, replicate_S_end.
  - rewrite list_lookup_insert_ne by done. intros Hpc'.
    destruct (Hwp _ _ Hpc') as [n Hn]. exists n. by rewrite worker_pops_other.
Qed.

Lemma stage_inv_two w r p e sent sp k k' :
  stage_inv r p e sent sp k → list_stage_two process_image w k = Next k' →
  ∃ p' sp', stage_inv r p' e sent sp' k'.
Proof.
  intros [Ht Hw Hb H1 Hin Hsp H2 Ho Hs H3 Hwr Hpu Hpo Hd Hp1 Hp2 Hwp Hm Hdn Hcons Hret].
  unfold list_stage_two. destruct (ls_two k !! w) as [pc|] eqn:Epc; [|done].
  pose proof (Forall_lookup_1 _ _ _ _ H2 Epc) as Hpc.
  destruct pc as [|x|x|]; [| | |done].
  all: assert (ls_main k = MainJoin) as Hmj
    by (destruct Hm as [?|Hm]; [done|]; by rewrite (ended_worker _ _ _ Epc) in Hm).
  all: specialize (Hret Hmj).
  - (* a node is removed from the input queue *)
    destruct (ls_in k) as [|x q] eqn:Ein; [done|]. intros [= <-].
    destruct (decide (p < r)%nat) as [Hlt|Hge].
    + assert (sp = 0%nat) as -> by (destruct sp; [done|]; lia).
      rewrite seq_pop in Hin by done. cbn [map app] in Hin.
      injection Hin as -> ->.
      exists (S p), 0%nat. inv_split.
      * lia.
      * intros ?. lia.
      * apply Forall_insert; [|right; exists p; split; [lia|done]].
        eapply Forall_impl; [done|]. intros pc. apply two_ok_mono; lia.
      * eapply Forall_impl; [done|]. intros y. apply out_ok_mono; lia.
      * destruct (ls_three k); try done.
        destruct H3 as [? [?|[? ?]]]; split; try done; [by left|right].
        split; [done|lia].
      * log_simpl. by rewrite Hpo, seq_S, map_app.
      * log_simpl. rewrite seq_S, map_app. cbn [map].
        rewrite (omap_insert_add take_id _ _ _ _ (id_of p) Epc); [|done..].
        rewrite <-Hp1. solve_Permutation.
      * log_simpl. by rewrite (omap_insert_same send_id _ _ _ _ Epc).
      * by apply worker_pops_pop.
      * counts Epc (LTwoTake (raw p)).
      * counts Epc (LTwoTake (raw p)).
    + assert (p = r) as -> by lia. rewrite Nat.sub_diag in Hin.
      cbn [seq map app] in Hin.
      destruct (sent - sp)%nat as [|d] eqn:Ed; [done|].
      cbn [replicate] in Hin. injection Hin as -> ->.
      exists r, (S sp). inv_split.
      * lia.
      * rewrite Nat.sub_diag. cbn [seq map app]. f_equal. lia.
      * apply Forall_insert; [|left; split; [done|lia]].
        eapply Forall_impl; [done|]. intros pc. apply two_ok_mono; lia.
      * eapply Forall_impl; [done|]. intros y. apply out_ok_mono; lia.
      * log_simpl. by rewrite (omap_insert_same take_id _ _ _ _ Epc).
      * log_simpl. by rewrite (omap_insert_same send_id _ _ _ _ Epc).
      * by apply worker_pops_pop.
      * counts Epc (LTwoTake (@sentinel)).
      * counts Epc (LTwoTake (@sentinel)).
  - (* the node is tested and processed *)
    destruct Hpc as [[-> Hsp0]|(i & Hi & ->)]; cbn [it_last sentinel raw it_frame].
    + intros [= <-]. exists p, sp. inv_split.
      * by apply Forall_insert.
      * rewrite insert_item_perm. constructor; [by left|done].
      * by apply insert_item_sorted.
      * log_simpl. by rewrite (omap_insert_same take_id _ _ _ _ Epc).
      * log_simpl. rewrite (omap_insert_same send_id _ _ _ _ Epc) by done.
        by rewrite omap_frame_id_insert.
      * by eapply worker_pops_keep; [exact Epc|..].
      * counts Epc (@LTwoReturn Mat).
      * counts Epc (@LTwoReturn Mat).
    + destruct (raw_frame i) as [image Him]; [lia|]. rewrite Him.
      intros [= <-]. exists p, sp.
      assert (processed process_image (raw i) image = cooked i) as Hck.
      { unfold processed, cooked, raw. cbn. by rewrite Him. }
      rewrite Hck. inv_split.
      * apply Forall_insert; [done|]. by exists i.
      * log_simpl. cbn [raw it_id].
        rewrite (omap_insert_del take_id _ _ _ (LTwoSend (cooked i)) (id_of i) Epc)
          in Hp1; [|done..].
        rewrite <-Hp1. solve_Permutation.
      * log_simpl. cbn [raw it_id].
        rewrite (omap_insert_add send_id _ _ _ _ (id_of i) Epc); [|done..].
        rewrite Hp2. solve_Permutation.
      * by eapply worker_pops_keep; [exact Epc|..].
      * counts Epc (LTwoSend (cooked i)).
      * counts Epc (LTwoSend (cooked i)).
  - (* the processed node goes to the output queue *)
    destruct Hpc as (i & Hi & ->). intros [= <-].
    exists p, sp. inv_split.
    + by apply Forall_insert.
    + rewrite insert_item_perm. constructor; [|done]. right. by exists i.
    + by apply insert_item_sorted.
    + log_simpl. by rewrite (omap_insert_same take_id _ _ _ _ Epc).
    + log_simpl. rewrite omap_frame_id_insert.
      rewrite (omap_insert_del send_id _ _ _ LTwoWait (id_of i) Epc) in Hp2;
        [|done..].
      rewrite Hp2. cbn [frame_id cooked it_last it_id option_list].
      solve_Permutation.
    + by eapply worker_pops_keep; [exact Epc|..].
    + counts Epc (@LTwoWait Mat).
    + counts Epc (@LTwoWait Mat).
Qed.

(** Once every frame is displayed, no frame is left anywhere. *)
Lemma stage_inv_all_shown r p e sent sp k :
  stage_inv r p e sent sp k → e = M →
  omap frame_id (ls_out k) = [] ∧ omap send_id (ls_two k) = [] ∧
  omap take_id (ls_two k) = [] ∧ p = M ∧ r = M.
Proof.
  intros Hi ->. pose proof (si_bounds _ _ _ _ _ _ Hi) as Hb.
  pose proof (si_process1 _ _ _ _ _ _ Hi) as H1%Permutation_length.
  pose proof (si_process2 _ _ _ _ _ _ Hi) as H2%Permutation_length.
  rewrite !length_app, !length_map, !length_seq in *.
  repeat split; try lia; apply length_zero_iff_nil; lia.
Qed.

Lemma stage_inv_three r p e sent sp k k' :
  stage_inv r p e sent sp k → list_stage_three k = Next k' →
  ∃ e', stage_inv r p e' sent sp k'.
Proof.
  intros [Ht Hw Hb H1 Hin Hsp H2 Ho Hs H3 Hwr Hpu Hpo Hd Hp1 Hp2 Hwp Hm Hdn Hcons Hret].
  unfold list_stage_three. destruct (ls_three k) as [| |x|] eqn:E3; [| | |done].
  all: assert (ls_main k = MainJoin) as Hmj
    by (destruct Hm as [?|Hm]; [done|];
        unfold list_threads_ended in Hm; rewrite E3 in Hm; by destruct (ls_one k)).
  all: specialize (Hret Hmj).
  - intros [= <-]. exists e. inv_split. by rewrite H3.
  - destruct (ls_out k) as [|x q] eqn:Eo; [done|].
    destruct (Z.eqb_spec (it_id x) (ls_current_frame k)) as [Hid|]; [|done].
    intros [= <-]. apply Forall_cons in Ho as [Hx Ho].
    apply StronglySorted_inv in Hs as [Hs _].
    exists e. inv_split.
    + split; [done|]. destruct Hx as [[-> _]|(i & Hi & ->)].
      * left. split; [done|]. cbn in Hid. lia.
      * right. cbn in Hid. unfold id_of in Hid.
        assert (i = e) as -> by lia. done.
    + log_simpl. rewrite Hp2. cbn [omap list_omap emit_id option_list].
      destruct (frame_id x); cbn [option_list]; solve_Permutation.
    + intros w pc Hpc. log_simpl. eauto.
    + intros _. rewrite Hret, length_omap_cons. unfold sentinel_u.
      cbn [emit_sentinel]. destruct (it_last x); cbn -[omap]; lia.
  - destruct H3 as [Hc [[-> ->]|[-> Hlt]]]; cbn [it_last sentinel cooked it_frame].
    + intros [= <-]. exists M. inv_split.
    + destruct (raw_frame e) as [image Him]; [lia|]. rewrite Him.
      cbn [fmap option_fmap option_map]. intros [= <-]. exists (S e). inv_split.
      * lia.
      * rewrite Hc. lia.
      * rewrite (take_S_r _ _ _ Him), map_app, Hwr. done.
      * log_simpl. by rewrite Hd, seq_S, map_app.
      * log_simpl. rewrite Hp2, seq_S, map_app.
        cbn [emit_id frame_id cooked it_last it_id option_list map].
        solve_Permutation.
      * intros w pc Hpc. log_simpl. eauto.
Qed.

Lemma stage_inv_main r p e sent sp k k' :
  stage_inv r p e sent sp k → list_stage_main k = Next k' →
  stage_inv r p e sent sp k'.
Proof.
  intros Hi. pose proof Hi as Hi0. revert Hi.
  intros [Ht Hw Hb H1 Hin Hsp H2 Ho Hs H3 Hwr Hpu Hpo Hd Hp1 Hp2 Hwp Hm Hdn Hcons Hret].
  unfold list_stage_main. destruct (ls_main k) eqn:Em; [| |done].
  - destruct (list_threads_ended k) eqn:Ee; [|done]. intros [= <-].
    inv_split.
  - destruct Hm as [?|Hm]; [done|].
    assert (e = M) as He.
    { unfold list_threads_ended in Hm. destruct (ls_one k); try done.
      destruct (ls_three k); try done. by destruct H3. }
    destruct (stage_inv_all_shown _ _ _ _ _ _ Hi0 He) as (Hof & _).
    destruct (ls_out k) as [|x q] eqn:Eo.
    + intros [= <-]. inv_split.
    + intros [= <-]. apply Forall_cons in Ho as [Hx Ho].
      apply StronglySorted_inv in Hs as [Hs _].
      cbn [omap list_omap] in Hof.
      destruct (frame_id x) eqn:Ef; [done|].
      inv_split.
      * log_simpl. rewrite Hp2. cbn [omap list_omap]. by rewrite Ef.
      * intros w pc Hpc. log_simpl. eauto.
Qed.

(** The invariant holds in every reachable state. *)
Lemma stage_inv_reach k :
  list_stage_reach process_image (list_stage_init threads_number video) k →
  ∃ r p e sent sp, stage_inv r p e sent sp k.
Proof.
  induction 1 as [|k1 t k2 _ (r & p & e & sent & sp & Hi) Hs].
  - exists 0%nat, 0%nat, 0%nat, 0%nat, 0%nat. apply stage_inv_init.
  - destruct t as [|w| |]; simpl in Hs.
    + destruct (stage_inv_one _ _ _ _ _ _ _ Hi Hs) as (r' & sent' & ?). eauto 10.
    + destruct (stage_inv_two _ _ _ _ _ _ _ _ Hi Hs) as (p' & sp' & ?). eauto 10.
    + destruct (stage_inv_three _ _ _ _ _ _ _ Hi Hs) as (e' & ?). eauto 10.
    + pose proof (stage_inv_main _ _ _ _ _ _ _ Hi Hs). eauto 10.
Qed.

End StageInvariant.

(** ** The three stages never get stuck and always end *)

Section StageProgress.
Context {Mat : Type}.
Variable process_image : Mat → Mat.
Variable threads_number : Z.
Variable video : list Mat.

Local Abbreviation N := (Z.to_nat threads_number).
Local Abbreviation M := (length video).
Local Abbreviation inv := (stage_inv process_image threads_number video).

Implicit Types (k : list_stage Mat).

Local Abbreviation list_stage_run := (list_stage_run process_image).

(** No step of a reachable state dereferences a null pointer. *)
Lemma stage_inv_defined r p e sent sp k :
  inv r p e sent sp k → ∀ t, list_stage_step process_image t k ≠ Undefined.
Proof.
  intros Hi t. destruct t as [|w| |]; simpl.
  - unfold list_stage_one. repeat case_match; done.
  - unfold list_stage_two. destruct (ls_two k !! w) as [pc|] eqn:Epc; [|done].
    pose proof (Forall_lookup_1 _ _ _ _ (si_two _ _ _ _ _ _ _ _ _ Hi) Epc) as Hpc.
    destruct pc as [|x|x|]; try done; [by case_match|].
    destruct Hpc as [[-> _]|(i & Hlt & ->)]; [done|]. cbn.
    pose proof (si_bounds _ _ _ _ _ _ _ _ _ Hi).
    destruct (raw_frame video i) as [image ->]; [lia|done].
  - unfold list_stage_three. pose proof (si_three _ _ _ _ _ _ _ _ _ Hi) as H3.
    destruct (ls_three k) as [| |x|]; try done; [by repeat case_match|].
    destruct H3 as [_ [[-> _]|[-> Hlt]]]; [done|]. cbn.
    pose proof (si_bounds _ _ _ _ _ _ _ _ _ Hi).
    destruct (raw_frame video e) as [image ->]; [lia|done].
  - unfold list_stage_main. repeat case_match; done.
Qed.

Definition idle (pc : two_lpc Mat) : bool :=
  match pc with LTwoWait | LTwoReturn => true | _ => false end.

Lemma idle_no_ids (l : list (two_lpc Mat)) :
  Forall idle l → omap take_id l = [] ∧ omap send_id l = [].
Proof.
  induction 1 as [|pc l Hpc _ [IH1 IH2]]; [done|].
  cbn [omap list_omap]. rewrite IH1, IH2. by destruct pc.
Qed.

Lemma returned_consumed (l : list (two_lpc Mat)) :
  Forall two_lreturned l → length (omap consumed_u l) = length l.
Proof.
  induction 1 as [|pc l Hpc _ IH]; [done|].
  rewrite length_omap_cons, IH. by destruct pc.
Qed.

Lemma length_omap_le {A B} (f : A → option B) (l : list A) :
  (length (omap f l) ≤ length l)%nat.
Proof.
  induction l as [|x l IH]; [done|]. rewrite length_omap_cons. simpl.
  destruct (f x); simpl; lia.
Qed.

Lemma idle_consumed_returned (l : list (two_lpc Mat)) :
  Forall idle l → length (omap consumed_u l) = length l → Forall two_lreturned l.
Proof.
  induction 1 as [|pc l Hpc _ IH]; [done|].
  rewrite length_omap_cons. pose proof (length_omap_le consumed_u l).
  destruct pc; try done; cbn; intros; (constructor; [done|apply IH; lia]) || lia.
Qed.

Lemma returned_all (l : list (two_lpc Mat)) :
  Forall two_lreturned l → length (omap returned_u l) = length l.
Proof.
  induction 1 as [|pc l Hpc _ IH]; [done|].
  rewrite length_omap_cons, IH. by destruct pc.
Qed.

Lemma sentinels_exist (q : list (item Mat)) :
  (0 < length (omap sentinel_u q))%nat → ∃ x, x ∈ q ∧ it_last x = true.
Proof.
  induction q as [|x q IH]; [simpl; lia|]. rewrite length_omap_cons.
  unfold sentinel_u at 1. destruct (it_last x) eqn:E.
  - intros _. exists x. split; [left|done].
  - cbn. intros (y & ? & ?)%IH. exists y. split; [by right|done].
Qed.

Lemma frame_id_elem (q : list (item Mat)) z :
  z ∈ omap frame_id q → ∃ x, x ∈ q ∧ it_last x = false ∧ it_id x = z.
Proof.
  intros (x & Hx & Hz)%list_elem_of_omap. exists x. split; [done|].
  unfold frame_id in Hz. destruct (it_last x); [done|]. by injection Hz.
Qed.

Lemma stage_progress r p e sent sp k :
  inv r p e sent sp k → 0 < threads_number → ls_main k ≠ MainReturn →
  ∃ t k', list_stage_step process_image t k = Next k'.
Proof.
  intros Hi HN Hmain. pose proof Hi as Hi0.
  destruct Hi as [Ht Hw Hb H1 Hin Hsp H2 Ho Hs H3 Hwr Hpu Hpo Hd Hp1 Hp2 Hwp Hm
                  Hdn Hcons Hret].
  pose proof (stage_inv_defined _ _ _ _ _ _ Hi0) as Hdef.
  (* the code after the threads *)
  destruct (ls_main k) eqn:Emain; [|exists Main; simpl|done].
  2: { unfold list_stage_main. rewrite Emain. destruct (ls_out k); eauto. }
  specialize (Hret eq_refl).
  (* the first stage *)
  destruct (ls_one k) as [|i|] eqn:E1.
  { exists Ingest. simpl. unfold list_stage_one. rewrite E1.
    destruct (ls_capture k); eauto. }
  { exists Ingest. simpl. unfold list_stage_one. rewrite E1.
    destruct (_ <? _); eauto. }
  destruct H1 as (Hn & Hc & -> & ->).
  (* a worker that holds a node *)
  destruct (decide (Forall idle (ls_two k))) as [Hidle|Hbusy].
  2: { apply not_Forall_Exists in Hbusy; [|intros pc; apply _].
       apply Exists_exists in Hbusy as (pc & [w Hpc]%list_elem_of_lookup & Hnid).
       exists (Worker w). specialize (Hdef (Worker w)). simpl in *.
       unfold list_stage_two in *. rewrite Hpc in *.
       destruct pc as [|x|x|]; try done.
       - destruct (it_last x); [eauto|]. destruct (it_frame x); [eauto|done].
       - eauto. }
  destruct (idle_no_ids _ Hidle) as [Htk Hsd]. rewrite Htk, Hsd in *.
  rewrite app_nil_r in Hp1.
  (* a node in the input queue *)
  destruct (ls_in k) as [|x q] eqn:Ein.
  2: { destruct (decide (Forall two_lreturned (ls_two k))) as [Hall|Hsome].
       - exfalso. pose proof (returned_consumed _ Hall) as Hcn.
         assert (sp = N) as -> by lia. rewrite Hsp in Hin by lia.
         by rewrite !Nat.sub_diag in Hin.
       - apply not_Forall_Exists in Hsome; [|intros pc; apply _].
         apply Exists_exists in Hsome as (pc & [w Hpc]%list_elem_of_lookup & Hnr).
         pose proof (Forall_lookup_1 _ _ _ _ Hidle Hpc) as Hid.
         exists (Worker w). simpl. unfold list_stage_two. rewrite Hpc, Ein.
         destruct pc; try done. eauto. }
  (* every worker has returned *)
  assert (p = M ∧ sp = N) as [-> ->].
  { apply (f_equal length) in Hin.
    rewrite length_app, length_map, length_seq, length_replicate in Hin.
    simpl in Hin. lia. }
  assert (Forall two_lreturned (ls_two k)) as Hall
    by (apply idle_consumed_returned; [done|lia]).
  rewrite (returned_all _ Hall), Hw in Hret.
  (* the third stage *)
  destruct (ls_three k) as [| |x|] eqn:E3.
  - exists Emit. simpl. unfold list_stage_three. rewrite E3. eauto.
  - exists Emit. simpl. unfold list_stage_three. rewrite E3.
    cbn [emit_id option_list emit_sentinel] in *. rewrite app_nil_r in Hp2.
    rewrite Hp1 in Hp2.
    replace M with (e + (M - e))%nat in Hp2 at 1 by lia.
    rewrite seq_app, map_app in Hp2. apply Permutation_app_inv_l in Hp2.
    destruct (decide (e < M)%nat) as [Hlt|Hge].
    + assert (id_of e ∈ omap frame_id (ls_out k)) as Hin'.
      { rewrite <-Hp2. apply list_elem_of_fmap. exists e. split; [done|].
        apply elem_of_seq. lia. }
      apply frame_id_elem in Hin' as (y & Hy & _ & Hidy).
      destruct (ls_out k) as [|x q] eqn:Eo; [by apply elem_of_nil in Hy|].
      assert (it_id x = ls_current_frame k) as ->%Z.eqb_eq; [|eauto].
      rewrite H3. apply StronglySorted_inv in Hs as [_ Hall'].
      assert (it_id x ≤ it_id y) as Hle.
      { apply elem_of_cons in Hy as [->|Hy]; [lia|].
        rewrite Forall_forall in Hall'. by apply Hall'. }
      apply Forall_cons in Ho as [[[-> _]|(i & Hi & ->)] _].
      * cbn in *. unfold id_of in *. lia.
      * assert (id_of i ∈ map id_of (seq (0 + e) (M - e))) as Hi'.
        { rewrite Hp2. cbn [omap list_omap frame_id cooked it_last it_id]. left. }
        apply list_elem_of_fmap in Hi' as (j & Hj & Hjs%elem_of_seq).
        cbn in *. unfold id_of in *. lia.
    + assert (e = M) as -> by lia. rewrite Nat.sub_diag in Hp2. cbn in Hp2.
      destruct (sentinels_exist (ls_out k)) as (y & Hy & Hly); [lia|].
      destruct (ls_out k) as [|x q] eqn:Eo; [by apply elem_of_nil in Hy|].
      assert (it_id x = ls_current_frame k) as ->%Z.eqb_eq; [|eauto].
      rewrite H3. apply Forall_cons in Ho as [[[-> _]|(i & Hi & ->)] _].
      * cbn. lia.
      * symmetry in Hp2. apply Permutation_nil_r in Hp2.
        cbn [omap list_omap frame_id cooked it_last] in Hp2. done.
  - exists Emit. specialize (Hdef Emit). simpl in *.
    unfold list_stage_three in *. rewrite E3 in *.
    destruct (it_last x); [eauto|]. destruct (it_frame x); [eauto|done].
  - exists Main. simpl. unfold list_stage_main. rewrite Emain.
    unfold list_threads_ended. rewrite E1, E3.
    apply forallb_True in Hall. apply Is_true_true in Hall. rewrite Hall. eauto.
Qed.

(** *** Every step uses up fuel *)

Definition one_fuel k : nat :=
  match ls_one k with
  | OneCapture =>
      7 * length (ls_capture k) + 7 * Z.to_nat (ls_threads_number k) + 2
  | OneSentinel i => 7 * Z.to_nat (ls_threads_number k - i) + 1
  | OneReturn => 0
  end.

Definition two_fuel (pc : two_lpc Mat) : nat :=
  match pc with LTwoTake _ => 5 | LTwoSend _ => 4 | _ => 0 end.

Definition three_fuel (pc : three_lpc Mat) : nat :=
  match pc with LThreeNext => 1 | LThreeTake _ => 2 | _ => 0 end.

Definition main_fuel (pc : main_pc) : nat :=
  match pc with MainJoin => 2 | MainDrain => 1 | MainReturn => 0 end.

(** A bound on the number of steps that are left. *)
Definition stage_fuel k : nat :=
  one_fuel k + 6 * length (ls_in k) + sum_list_with two_fuel (ls_two k) +
  3 * length (ls_out k) + three_fuel (ls_three k) + main_fuel (ls_main k).

Lemma sum_list_with_insert {A} (f : A → nat) (l : list A) i x y :
  l !! i = Some x →
  (f x + sum_list_with f (<[i := y]> l) = f y + sum_list_with f l)%nat.
Proof.
  revert i. induction l as [|z l IH]; intros [|i] H; simplify_eq/=; [lia|].
  specialize (IH i H). lia.
Qed.

Lemma insert_item_length x (q : list (item Mat)) :
  length (insert_item x q) = S (length q).
Proof. by rewrite insert_item_perm. Qed.

Lemma stage_fuel_step t k k' :
  list_stage_step process_image t k = Next k' →
  (stage_fuel k' < stage_fuel k)%nat.
Proof.
  unfold stage_fuel, one_fuel. destruct t as [|w| |]; simpl.
  - unfold list_stage_one. destruct (ls_one k) as [|i|]; [| |done].
    + destruct (ls_capture k); intros [= <-]; cbn;
        rewrite ?length_app; cbn; lia.
    + destruct (Z.ltb_spec i (ls_threads_number k)); intros [= <-]; cbn;
        rewrite ?length_app; cbn; lia.
  - unfold list_stage_two. destruct (ls_two k !! w) as [pc|] eqn:Epc; [|done].
    destruct pc as [|x|x|]; [| | |done].
    + destruct (ls_in k); [done|]. intros [= <-]. cbn.
      pose proof (sum_list_with_insert two_fuel _ _ _ (LTwoTake i) Epc).
      cbn in *. lia.
    + destruct (it_last x).
      * intros [= <-]. cbn. rewrite insert_item_length.
        pose proof (sum_list_with_insert two_fuel _ _ _ LTwoReturn Epc).
        cbn in *. lia.
      * destruct (it_frame x) as [image|]; [|done]. intros [= <-]. cbn.
        pose proof (sum_list_with_insert two_fuel _ _ _
                      (LTwoSend (processed process_image x image)) Epc).
        cbn in *. lia.
    + intros [= <-]. cbn. rewrite insert_item_length.
      pose proof (sum_list_with_insert two_fuel _ _ _ LTwoWait Epc).
      cbn in *. lia.
  - unfold list_stage_three. destruct (ls_three k) as [| |x|]; [| | |done].
    + intros [= <-]. cbn. lia.
    + destruct (ls_out k); [done|]. destruct (_ =? _); [|done].
      intros [= <-]. cbn. lia.
    + destruct (it_last x); [intros [= <-]; cbn; lia|].
      destruct (it_frame x); [|done]. intros [= <-]. cbn. lia.
  - unfold list_stage_main. destruct (ls_main k); [| |done].
    + destruct (list_threads_ended k); [|done]. intros [= <-]. cbn. lia.
    + destruct (ls_out k); intros [= <-]; cbn; lia.
Qed.

(** No run is longer than the fuel of its first state. *)
Lemma stage_run_bounded sched k k' :
  list_stage_run sched k = Next k' →
  (length sched + stage_fuel k' ≤ stage_fuel k)%nat.
Proof.
  revert k. induction sched as [|t sched IH]; intros k; simpl.
  - intros [= <-]. lia.
  - destruct (list_stage_step process_image t k) as [k1| |] eqn:E; try done.
    intros H%IH. apply stage_fuel_step in E. lia.
Qed.

Lemma list_stage_run_app sched1 sched2 k :
  list_stage_run (sched1 ++ sched2) k =
  match list_stage_run sched1 k with
  | Next k' => list_stage_run sched2 k'
  | Blocked => Blocked
  | Undefined => Undefined
  end.
Proof.
  revert k. induction sched1 as [|t sched1 IH]; intros k; simpl; [done|].
  destruct (list_stage_step process_image t k); auto.
Qed.

Lemma list_stage_run_reach sched k k' :
  list_stage_run sched k = Next k' → list_stage_reach process_image k k'.
Proof.
  revert k'. induction sched as [|t sched IH] using rev_ind; intros k'.
  - intros [= <-]. constructor.
  - rewrite list_stage_run_app.
    destruct (list_stage_run sched k) as [k1| |] eqn:E; try done. simpl.
    destruct (list_stage_step process_image t k1) as [k2| |] eqn:E2; try done.
    intros [= <-]. econstructor; [by apply IH|done].
Qed.

Lemma list_stage_reach_trans k1 k2 k3 :
  list_stage_reach process_image k1 k2 → list_stage_reach process_image k2 k3 →
  list_stage_reach process_image k1 k3.
Proof. intros H12 H23. induction H23; [done|]. by econstructor. Qed.

(** From every reachable state the program can be run to its end, whatever
    was scheduled before. *)
Lemma stage_completes k :
  0 < threads_number →
  list_stage_reach process_image (list_stage_init threads_number video) k →
  ∃ sched k', list_stage_run sched k = Next k' ∧ ls_main k' = MainReturn.
Proof.
  intros HN. remember (stage_fuel k) as n eqn:En. revert k En.
  induction n as [n IH] using lt_wf_ind. intros k -> Hreach.
  assert (ls_main k = MainReturn ∨ ls_main k ≠ MainReturn) as [|Hne]
    by (destruct (ls_main k); auto); [by exists [], k|].
  destruct (stage_inv_reach process_image _ _ _ Hreach)
    as (r & p & e & sent & sp & Hi).
  destruct (stage_progress _ _ _ _ _ _ Hi HN Hne) as (t & k1 & Hstep).
  destruct (IH _ (stage_fuel_step _ _ _ Hstep) k1 eq_refl) as (sched & k' & Hrun & Hk').
  { by econstructor. }
  exists (t :: sched), k'. simpl. by rewrite Hstep.
Qed.

End StageProgress.

(** ** [parallel_processing] of version 2 on lists of items *)

Section ListV2.
Context {Mat : Type}.
Variable process_image : Mat → Mat.

Inductive master_lpc :=
  | LMasterHead
  | LMasterBlockOne
  | LMasterBlockThree
  | LMasterTake (x : item Mat)
  | LMasterExit.

Inductive team_lpc :=
  | LTeamHead
  | LTeamBlockTwo
  | LTeamLock
  | LTeamTake (x : item Mat)
  | LTeamSend (x : item Mat)
  | LTeamFlag
  | LTeamExit.

Record list_v2 := ListV2 {
  lv_in : list (item Mat);
  lv_out : list (item Mat);
  lv_capture : list Mat;
  lv_writer : list Mat;
  lv_nframes : Z;
  lv_current_frame : Z;
  lv_correctness : Z;
  lv_threads_number : Z;
  lv_any_frame : bool;
  lv_any_work : bool;
  lv_finished : bool;
  lv_master : master_lpc;
  lv_team : list team_lpc;
  lv_main : main_pc;
  lv_log : list event
}.

Definition list_v2_init (threads_number : Z) (video : list Mat) : list_v2 :=
  ListV2 [] [] video [] 1 1 0 threads_number true true false
         LMasterHead (replicate (Z.to_nat threads_number) LTeamHead)
         MainJoin [].

Definition lv_master_set (pc : master_lpc) (k : list_v2) : list_v2 :=
  ListV2 (lv_in k) (lv_out k) (lv_capture k) (lv_writer k) (lv_nframes k)
    (lv_current_frame k) (lv_correctness k) (lv_threads_number k)
    (lv_any_frame k) (lv_any_work k) (lv_finished k)
    pc (lv_team k) (lv_main k) (lv_log k).

Definition list_v2_block_one (k : list_v2) : list_v2 :=
  if lv_any_frame k then
    let id_of_my_frame := lv_nframes k in
    match lv_capture k with
    | [] =>
        ListV2 (lv_in k ++ [Item None id_of_my_frame true]) (lv_out k)
          [] (lv_writer k) (lv_nframes k + 1)
          (lv_current_frame k) (lv_correctness k) (lv_threads_number k)
          false (lv_any_work k) (lv_finished k)
          LMasterBlockThree (lv_team k) (lv_main k)
          (lv_log k ++ [EvPush id_of_my_frame true])
    | image :: rest =>
        ListV2 (lv_in k ++ [Item (Some image) id_of_my_frame false]) (lv_out k)
          rest (lv_writer k) (lv_nframes k + 1)
          (lv_current_frame k) (lv_correctness k) (lv_threads_number k)
          true (lv_any_work k) (lv_finished k)
          LMasterBlockThree (lv_team k) (lv_main k)
          (lv_log k ++ [EvPush id_of_my_frame false])
    end
  else lv_master_set LMasterBlockThree k.

Definition list_v2_block_three (k : list_v2) : list_v2 :=
  match lv_out k with
  | x :: q =>
      if it_id x =? lv_current_frame k then
        ListV2 (lv_in k) q (lv_capture k) (lv_writer k) (lv_nframes k)
          (lv_current_frame k) (lv_correctness k) (lv_threads_number k)
          (lv_any_frame k) (lv_any_work k) (lv_finished k)
          (LMasterTake x) (lv_team k) (lv_main k)
          (lv_log k ++ [EvRelease (it_id x) (it_last x)])
      else lv_master_set LMasterHead k
  | [] => lv_master_set LMasterHead k
  end.

Definition list_v2_master_take (x : item Mat) (k : list_v2) : outcome list_v2 :=
  if it_last x then
    Next (ListV2 (lv_in k) (lv_out k) (lv_capture k) (lv_writer k) (lv_nframes k)
            (lv_current_frame k) (lv_correctness k) (lv_threads_number k)
            (lv_any_frame k) (lv_any_work k) true
            LMasterHead (lv_team k) (lv_main k) (lv_log k))
  else
    match it_frame x with
    | Some image =>
        Next (ListV2 (lv_in k) (lv_out k) (lv_capture k) (lv_writer k ++ [image])
                (lv_nframes k) (lv_current_frame k + 1)
                (wrap_int (lv_correctness k + it_id x)) (lv_threads_number k)
                (lv_any_frame k) (lv_any_work k) (lv_finished k)
                LMasterHead (lv_team k) (lv_main k)
                (lv_log k ++ [EvDisplay (it_id x)]))
    | None => Undefined
    end.

Definition list_v2_master (k : list_v2) : outcome list_v2 :=
  match lv_master k with
  | LMasterHead =>
      Next (lv_master_set
              (if lv_finished k then LMasterExit else LMasterBlockOne) k)
  | LMasterBlockOne => Next (list_v2_block_one k)
  | LMasterBlockThree => Next (list_v2_block_three k)
  | LMasterTake x => list_v2_master_take x k
  | LMasterExit => Blocked
  end.

Definition lv_team_set (w : nat) (pc : team_lpc) (qi qo : list (item Mat))
    (any_work : bool) (e : list event) (k : list_v2) : list_v2 :=
  ListV2 qi qo (lv_capture k) (lv_writer k) (lv_nframes k)
    (lv_current_frame k) (lv_correctness k) (lv_threads_number k)
    (lv_any_frame k) any_work (lv_finished k)
    (lv_master k) (<[w := pc]> (lv_team k)) (lv_main k) (lv_log k ++ e).

Definition list_v2_block_two (w : nat) (k : list_v2) : outcome list_v2 :=
  let goto pc := lv_team_set w pc (lv_in k) (lv_out k) (lv_any_work k) [] k in
  match lv_team k !! w with
  | None => Blocked
  | Some LTeamHead =>
      Next (goto (if lv_finished k then LTeamExit else LTeamBlockTwo))
  | Some LTeamBlockTwo =>
      Next (goto (if lv_any_work k then LTeamLock else LTeamHead))
  | Some LTeamLock =>
      match lv_in k with
      | x :: q =>
          Next (lv_team_set w (LTeamTake x) q (lv_out k) (lv_any_work k)
                  [EvPop w (it_id x) (it_last x)] k)
      | [] => Next (goto LTeamHead)
      end
  | Some (LTeamTake x) =>
      if it_last x then
        Next (lv_team_set w LTeamFlag (lv_in k) (insert_item x (lv_out k))
                (lv_any_work k) [EvInsert w (it_id x) true] k)
      else
        match it_frame x with
        | Some image =>
            Next (lv_team_set w (LTeamSend (processed process_image x image))
                    (lv_in k) (lv_out k) (lv_any_work k)
                    [EvProcess w (it_id x)] k)
        | None => Undefined
        end
  | Some (LTeamSend x) =>
      Next (lv_team_set w LTeamHead (lv_in k) (insert_item x (lv_out k))
              (lv_any_work k) [EvInsert w (it_id x) false] k)
  | Some LTeamFlag =>
      Next (lv_team_set w LTeamHead (lv_in k) (lv_out k) false [] k)
  | Some LTeamExit => Blocked
  end.

Definition team_lexited (pc : team_lpc) : bool :=
  match pc with LTeamExit => true | _ => false end.

Definition list_v2_ended (k : list_v2) : bool :=
  match lv_master k with
  | LMasterExit => forallb team_lexited (lv_team k)
  | _ => false
  end.

Definition lv_main_set (pc : main_pc) (qo : list (item Mat)) (e : list event)
    (k : list_v2) : list_v2 :=
  ListV2 (lv_in k) qo (lv_capture k) (lv_writer k) (lv_nframes k)
    (lv_current_frame k) (lv_correctness k) (lv_threads_number k)
    (lv_any_frame k) (lv_any_work k) (lv_finished k)
    (lv_master k) (lv_team k) pc (lv_log k ++ e).

Definition list_v2_after (k : list_v2) : outcome list_v2 :=
  match lv_main k with
  | MainJoin =>
      if list_v2_ended k then Next (lv_main_set MainDrain (lv_out k) [] k)
      else Blocked
  | MainDrain =>
      match lv_out k with
      | x :: q =>
          Next (lv_main_set MainDrain q [EvDiscard (it_id x) (it_last x)] k)
      | [] => Next (lv_main_set MainReturn [] [] k)
      end
  | MainReturn => Blocked
  end.

Definition list_v2_step (t : thread) (k : list_v2) : outcome list_v2 :=
  match t with
  | Ingest => list_v2_master k
  | Worker w => list_v2_block_two w k
  | Emit => Blocked
  | Main => list_v2_after k
  end.

Fixpoint list_v2_run (sched : list thread) (k : list_v2) : outcome list_v2 :=
  match sched with
  | [] => Next k
  | t :: sched' =>
      match list_v2_step t k with
      | Next k' => list_v2_run sched' k'
      | Blocked => Blocked
      | Undefined => Undefined
      end
  end.

Inductive list_v2_reach (k : list_v2) : list_v2 → Prop :=
  | list_v2_reach_refl : list_v2_reach k k
  | list_v2_reach_step k1 t k2 :
      list_v2_reach k k1 → list_v2_step t k1 = Next k2 → list_v2_reach k k2.

(** *** The correspondence *)

Implicit Types (held : gmap addr (thread * item Mat)).

Definition team_rel held (w : nat) (pc : team_pc) (lpc : team_lpc) : Prop :=
  match pc, lpc with
  | TeamHead, LTeamHead => True
  | TeamBlockTwo, LTeamBlockTwo => True
  | TeamLock, LTeamLock => True
  | TeamTake a, LTeamTake x => held !! a = Some (Worker w, x)
  | TeamSend a, LTeamSend x => held !! a = Some (Worker w, x)
  | TeamFlag, LTeamFlag => True
  | TeamExit, LTeamExit => True
  | _, _ => False
  end.

Definition master_rel held (pc : master_pc) (lpc : master_lpc) : Prop :=
  match pc, lpc with
  | MasterHead, LMasterHead => True
  | MasterBlockOne, LMasterBlockOne => True
  | MasterBlockThree, LMasterBlockThree => True
  | MasterTake a, LMasterTake x => held !! a = Some (Ingest, x)
  | MasterExit, LMasterExit => True
  | _, _ => False
  end.

Definition team_all_rel held (pcs : list team_pc) (lpcs : list team_lpc) : Prop :=
  length pcs = length lpcs ∧
  ∀ w pc lpc, pcs !! w = Some pc → lpcs !! w = Some lpc → team_rel held w pc lpc.

Record v2_rel_with held (li lo : list addr)
    (s : v2_state Mat) (k : list_v2) : Prop := V2Rel {
  vr_view : mem_view (v2_mem s) li lo (lv_in k) (lv_out k) held;
  vr_team : team_all_rel held (v2_team s) (lv_team k);
  vr_master : master_rel held (v2_master s) (lv_master k);
  vr_capture : v2_capture s = lv_capture k;
  vr_writer : v2_writer s = lv_writer k;
  vr_nframes : v2_nframes s = lv_nframes k;
  vr_current : v2_current_frame s = lv_current_frame k;
  vr_correctness : v2_correctness s = lv_correctness k;
  vr_threads : v2_threads_number s = lv_threads_number k;
  vr_any_frame : is_there_any_frame s = lv_any_frame k;
  vr_any_work : is_there_any_work s = lv_any_work k;
  vr_finished : finished s = lv_finished k;
  vr_main : v2_main s = lv_main k;
  vr_log : v2_log s = lv_log k
}.

Definition v2_rel (s : v2_state Mat) (k : list_v2) : Prop :=
  ∃ held li lo, v2_rel_with held li lo s k.

Lemma v2_rel_init threads_number video :
  v2_rel (v2_init threads_number video) (list_v2_init threads_number video).
Proof.
  exists ∅, [], []. split; try done.
  - apply mem_view_init.
  - split; simpl; [by rewrite !length_replicate|].
    intros w pc lpc [-> _]%lookup_replicate [-> _]%lookup_replicate. done.
Qed.

Lemma team_rel_change held held' w pc lpc :
  team_rel held w pc lpc →
  (∀ a x, held !! a = Some (Worker w, x) → held' !! a = Some (Worker w, x)) →
  team_rel held' w pc lpc.
Proof. destruct pc, lpc; simpl; auto. Qed.

Lemma master_rel_change held held' pc lpc :
  master_rel held pc lpc →
  (∀ a x, held !! a = Some (Ingest, x) → held' !! a = Some (Ingest, x)) →
  master_rel held' pc lpc.
Proof. destruct pc, lpc; simpl; auto. Qed.

Lemma team_all_rel_keep held held' pcs lpcs :
  team_all_rel held pcs lpcs →
  (∀ w a x, held !! a = Some (Worker w, x) → held' !! a = Some (Worker w, x)) →
  team_all_rel held' pcs lpcs.
Proof.
  intros [Hl H] Hk. split; [done|]. intros w pc lpc Hpc Hlpc.
  eapply team_rel_change; [by eapply H|]. apply Hk.
Qed.

Lemma team_all_rel_set held held' pcs lpcs w pc' lpc' :
  team_all_rel held pcs lpcs →
  (∀ w' a x, w' ≠ w → held !! a = Some (Worker w', x) →
             held' !! a = Some (Worker w', x)) →
  team_rel held' w pc' lpc' →
  team_all_rel held' (<[w := pc']> pcs) (<[w := lpc']> lpcs).
Proof.
  intros [Hl H] Hk Hw. split; [by rewrite !length_insert|].
  intros w' pc lpc Hpc Hlpc. destruct (decide (w = w')) as [<-|Hne].
  - apply list_lookup_insert_Some in Hpc as [(_ & <- & _)|[? _]]; [|done].
    apply list_lookup_insert_Some in Hlpc as [(_ & <- & _)|[? _]]; [|done].
    done.
  - rewrite list_lookup_insert_ne in Hpc by done.
    rewrite list_lookup_insert_ne in Hlpc by done.
    eapply team_rel_change; [by eapply H|]. intros a x. by apply Hk.
Qed.

Lemma team_all_rel_lookup held pcs lpcs w :
  team_all_rel held pcs lpcs →
  match pcs !! w, lpcs !! w with
  | Some pc, Some lpc => team_rel held w pc lpc
  | None, None => True
  | _, _ => False
  end.
Proof.
  intros [Hl H]. destruct (pcs !! w) as [pc|] eqn:E1, (lpcs !! w) as [lpc|] eqn:E2.
  - by eapply H.
  - apply lookup_lt_Some in E1. apply lookup_ge_None in E2. lia.
  - apply lookup_lt_Some in E2. apply lookup_ge_None in E1. lia.
  - done.
Qed.

Lemma team_all_rel_ended held pcs lpcs :
  team_all_rel held pcs lpcs →
  forallb team_exited pcs = forallb team_lexited lpcs.
Proof.
  intros Hr. apply eq_bool_prop_intro. rewrite !forallb_True, !Forall_lookup.
  split; intros H w x Hx; pose proof (team_all_rel_lookup _ _ _ w Hr) as Hw;
    rewrite Hx in Hw.
  - destruct (pcs !! w) as [pc|] eqn:E; [|done]. specialize (H w pc E).
    by destruct pc, x.
  - destruct (lpcs !! w) as [lpc|] eqn:E; [|done]. specialize (H w lpc E).
    by destruct x, lpc.
Qed.

End ListV2.

Arguments master_lpc : clear implicits.
Arguments team_lpc : clear implicits.
Arguments list_v2 : clear implicits.

Section V2Correspondence.
Context {Mat : Type}.
Variable process_image : Mat → Mat.
Implicit Types (held : gmap addr (thread * item Mat)).
Implicit Types (s : v2_state Mat) (k : list_v2 Mat).

Lemma v2_master_rel s k :
  v2_rel s k → matches v2_rel (v2_master_step s) (list_v2_master k).
Proof.
  intros (held & li & lo & [Hv Ht Hm Ec Ew En Ef Eco Eth Eaf Eaw Efi Ema El]).
  unfold v2_master_step, list_v2_master.
  destruct (v2_master s) as [| | |a|], (lv_master k) as [| | |x|];
    try done; simpl in Hm.
  - (* the loop test *)
    rewrite <-Efi. eexists. split; [done|]. exists held, li, lo.
    split; simpl; try congruence; try done. by destruct (finished s).
  - (* block one *)
    unfold v2_block_one, list_v2_block_one. rewrite <-Eaf, <-Ec, <-En.
    destruct (is_there_any_frame s) eqn:Eany.
    + destruct (v2_capture s) as [|image rest].
      * destruct (new_node _ _) as [a g1] eqn:Ea.
        destruct (mv_push _ _ _ _ _ _ _ _ _ Hv Ea) as (g2 & E & Hv2).
        rewrite E. simpl. eexists. split; [done|].
        exists held, (li ++ [a]), lo. split; simpl; try congruence; done.
      * destruct (new_node _ _) as [a g1] eqn:Ea.
        destruct (mv_push _ _ _ _ _ _ _ _ _ Hv Ea) as (g2 & E & Hv2).
        rewrite E. simpl. eexists. split; [done|].
        exists held, (li ++ [a]), lo. split; simpl; try congruence; done.
    + simpl. eexists. split; [done|]. exists held, li, lo.
      split; simpl; try congruence; done.
  - (* block three *)
    unfold v2_block_three, list_v2_block_three.
    rewrite (mv_size_out _ _ _ _ _ _ Hv).
    destruct (lv_out k) as [|x q] eqn:Eq; simpl.
    + eexists. split; [done|]. exists held, li, lo.
      split; simpl; try congruence; try done.
    + rewrite (mv_head_id _ _ _ _ _ _ _ Hv). simpl. rewrite <-Ef.
      destruct (it_id x =? v2_current_frame s).
      * pose proof Hv as Hv0.
        destruct (mv_release _ _ _ _ _ _ _ Ingest Hv)
          as (a & lo' & g' & -> & E & Hx & Hv').
        rewrite E. simpl. unfold item_at in Hx.
        destruct (heap g' !! a) as [n|] eqn:Ena; [|done]. simpl.
        injection Hx as <-. eexists. split; [done|].
        exists (<[a := (Ingest, item_of n)]> held), li, lo'.
        split; simpl; try congruence.
        -- eapply team_all_rel_keep; [done|]. intros w a' x' Ha'.
           eapply held_insert_other; [done|].
           intros y. by rewrite (mv_out_not_held _ _ _ _ _ _ _ Hv0).
        -- by rewrite lookup_insert_eq.
      * eexists. split; [done|]. exists held, li, lo.
        split; simpl; try congruence; try done.
  - (* the removed node *)
    unfold v2_master_take, list_v2_master_take.
    destruct (mv_held_node _ _ _ _ _ _ _ _ _ Hv Hm) as (n & Ena & <-).
    rewrite Ena. simpl. destruct (is_the_last_node n) eqn:Elast.
    + eexists. split; [done|].
      exists (delete a held), li, lo. split; simpl; try congruence; try done.
      * by apply mv_drop.
      * eapply team_all_rel_keep; [done|]. intros w a' x' Ha'.
        eapply held_delete_other; [done|]. intros y. rewrite Hm. congruence.
    + destruct (frame n) as [image|] eqn:Ef'.
      * erewrite send_frame_to_display_spec; [|by unfold item_at; rewrite Ena|done].
        simpl. eexists. split; [done|].
        exists (delete a held), li, lo. split; simpl; try congruence; try done.
        -- by eapply mv_free.
        -- eapply team_all_rel_keep; [done|]. intros w a' x' Ha'.
           eapply held_delete_other; [done|]. intros y. rewrite Hm. congruence.
      * unfold send_frame_to_display. rewrite Ena. simpl. by rewrite Ef'.
Qed.

Lemma v2_block_two_rel w s k :
  v2_rel s k →
  matches v2_rel (v2_block_two process_image w s)
                 (list_v2_block_two process_image w k).
Proof.
  intros (held & li & lo & [Hv Ht Hm Ec Ew En Ef Eco Eth Eaf Eaw Efi Ema El]).
  unfold v2_block_two, list_v2_block_two.
  pose proof (team_all_rel_lookup _ _ _ w Ht) as Hw.
  destruct (v2_team s !! w) as [pc|] eqn:Epc, (lv_team k !! w) as [lpc|] eqn:Elpc;
    try done.
  destruct pc as [| | |a|a| |], lpc as [| | |x|x| |]; try done; simpl in Hw.
  - (* the loop test *)
    rewrite <-Efi. eexists. split; [done|]. exists held, li, lo.
    split; simpl; try congruence; try done.
    eapply team_all_rel_set; [done|auto|]. by destruct (finished s).
  - (* the test of is_there_any_work *)
    rewrite <-Eaw. eexists. split; [done|]. exists held, li, lo.
    split; simpl; try congruence; try done.
    eapply team_all_rel_set; [done|auto|]. by destruct (is_there_any_work s).
  - (* the locked test of the input queue *)
    rewrite (mv_size_in _ _ _ _ _ _ Hv).
    destruct (lv_in k) as [|x q] eqn:Eq; simpl.
    + eexists. split; [done|]. exists held, li, lo.
      split; simpl; try congruence; try done.
      eapply team_all_rel_set; [done|auto|done].
    + pose proof Hv as Hv0.
      destruct (mv_pop _ _ _ _ _ _ _ (Worker w) Hv)
        as (a & li' & g' & -> & E & Hx & Hv').
      rewrite E. simpl. unfold item_at in Hx.
      destruct (heap g' !! a) as [n|] eqn:Ena; [|done]. simpl.
      injection Hx as <-. eexists. split; [done|].
      exists (<[a := (Worker w, item_of n)]> held), li', lo.
      split; simpl; try congruence.
      * eapply team_all_rel_set; [done| |simpl; by rewrite lookup_insert_eq].
        intros w' a' x' Hne Ha'. eapply held_insert_other; [done|].
        intros y. by rewrite (mv_in_not_held _ _ _ _ _ _ _ Hv0).
      * eapply master_rel_change; [done|]. intros a' x' Ha'.
        eapply held_insert_other; [done|].
        intros y. by rewrite (mv_in_not_held _ _ _ _ _ _ _ Hv0).
  - (* a node has been taken *)
    destruct (mv_held_node _ _ _ _ _ _ _ _ _ Hv Hw) as (n & Ena & <-).
    rewrite Ena. simpl. destruct (is_the_last_node n) eqn:Elast.
    + destruct (mv_forward _ _ _ _ _ _ _ _ _ Hv Hw) as (g' & E & Hv').
      rewrite E. simpl. eexists. split; [done|].
      eexists (delete a held), li, _. split; simpl; try congruence; try done.
      * eapply team_all_rel_set; [done| |done].
        intros w' a' x' Hne Ha'. eapply held_delete_other; [done|].
        intros y. rewrite Hw. congruence.
      * eapply master_rel_change; [done|]. intros a' x' Ha'.
        eapply held_delete_other; [done|]. intros y. rewrite Hw. congruence.
    + destruct (frame n) as [image|] eqn:Ef'.
      * destruct (mv_process process_image _ _ _ _ _ _ _ _ _ image Hv Hw)
          as (g' & E & Hv'); [done|].
        rewrite E. simpl. eexists. split; [done|].
        eexists _, li, lo. split; simpl; try congruence; try done.
        -- eapply team_all_rel_set; [done| |simpl; by rewrite lookup_insert_eq].
           intros w' a' x' Hne Ha'. eapply held_insert_other; [done|].
           intros y. rewrite Hw. congruence.
        -- eapply master_rel_change; [done|]. intros a' x' Ha'.
           eapply held_insert_other; [done|]. intros y. rewrite Hw. congruence.
      * unfold process_frame. rewrite Ena. simpl. by rewrite Ef'.
  - (* the processed node is sent on *)
    destruct (mv_held_node _ _ _ _ _ _ _ _ _ Hv Hw) as (n & Ena & <-).
    rewrite Ena. simpl.
    destruct (mv_forward _ _ _ _ _ _ _ _ _ Hv Hw) as (g' & E & Hv').
    rewrite E. simpl. eexists. split; [done|].
    eexists (delete a held), li, _. split; simpl; try congruence; try done.
    + eapply team_all_rel_set; [done| |done].
      intros w' a' x' Hne Ha'. eapply held_delete_other; [done|].
      intros y. rewrite Hw. congruence.
    + eapply master_rel_change; [done|]. intros a' x' Ha'.
      eapply held_delete_other; [done|]. intros y. rewrite Hw. congruence.
  - (* the flag is cleared *)
    eexists. split; [done|]. exists held, li, lo.
    split; simpl; try congruence; try done.
    eapply team_all_rel_set; [done|auto|done].
Qed.

Lemma v2_after_rel s k :
  v2_rel s k → matches v2_rel (v2_after s) (list_v2_after k).
Proof.
  intros (held & li & lo & [Hv Ht Hm Ec Ew En Ef Eco Eth Eaf Eaw Efi Ema El]).
  unfold v2_after, list_v2_after. rewrite <-Ema.
  destruct (v2_main s).
  - assert (v2_threads_ended s = list_v2_ended k) as ->.
    { unfold v2_threads_ended, list_v2_ended.
      destruct (v2_master s), (lv_master k); try done.
      by eapply team_all_rel_ended. }
    destruct (list_v2_ended k); [|done].
    eexists. split; [done|]. exists held, li, lo. split; simpl; congruence.
  - rewrite (mv_size_out _ _ _ _ _ _ Hv).
    destruct (lv_out k) as [|x q] eqn:Eq; simpl.
    + eexists. split; [done|]. exists held, li, lo.
      split; simpl; try congruence; try done.
    + pose proof Hv as Hv0.
      destruct (mv_release _ _ _ _ _ _ _ Main Hv) as (a & lo' & g' & -> & E & Hx & Hv').
      rewrite E. simpl. unfold item_at in Hx.
      destruct (heap g' !! a) as [n|] eqn:Ena; [|done]. simpl.
      injection Hx as <-. eexists. split; [done|].
      pose proof (mv_out_not_held _ _ _ _ _ _ _ Hv0) as Hnh.
      exists held, li, lo'. split; simpl; try congruence; try done.
      eapply (mv_free _ _ _ _ _ _ a) in Hv'; [|by rewrite lookup_insert_eq].
      by rewrite delete_insert_id in Hv'.
  - done.
Qed.

Lemma v2_step_rel t s k :
  v2_rel s k →
  matches v2_rel (v2_step process_image t s) (list_v2_step process_image t k).
Proof.
  destruct t; simpl.
  - apply v2_master_rel.
  - apply v2_block_two_rel.
  - done.
  - apply v2_after_rel.
Qed.

Lemma v2_reach_rel threads_number video s :
  v2_reach process_image (v2_init threads_number video) s →
  ∃ k, list_v2_reach process_image (list_v2_init threads_number video) k ∧
       v2_rel s k.
Proof.
  induction 1 as [|s1 t s2 _ (k1 & Hk & Hr) Hs].
  - eexists. split; [constructor|apply v2_rel_init].
  - pose proof (v2_step_rel t _ _ Hr) as Hm. rewrite Hs in Hm.
    destruct (list_v2_step process_image t k1) as [k2| |] eqn:Ek;
      simpl in Hm; try done.
    destruct Hm as (s' & [= <-] & Hr'). exists k2. split; [|done].
    by econstructor.
Qed.

Lemma v2_run_rel sched s k :
  v2_rel s k →
  matches v2_rel (v2_run process_image sched s)
                 (list_v2_run process_image sched k).
Proof.
  revert s k. induction sched as [|t sched IH]; intros s k Hr; simpl.
  - by exists s.
  - pose proof (v2_step_rel t _ _ Hr) as Hm.
    destruct (list_v2_step process_image t k) as [k1| |]; simpl in Hm.
    + destruct Hm as (s1 & -> & Hr1). by apply IH.
    + rewrite Hm. done.
    + rewrite Hm. done.
Qed.

End V2Correspondence.

(** ** The invariant of version 2 *)

Ltac v2_proj_simpl :=
  cbn [lv_in lv_out lv_capture lv_writer lv_nframes lv_current_frame
       lv_correctness lv_threads_number lv_any_frame lv_any_work lv_finished
       lv_master lv_team lv_main lv_log
       lv_master_set lv_team_set lv_main_set].

(** Additions of [int]s. *)
Lemma wrap_int_add_l a b : wrap_int (wrap_int a + b) = wrap_int (a + b).
Proof.
  unfold wrap_int. f_equal.
  replace ((a + 2147483648) mod 4294967296 - 2147483648 + b + 2147483648)
    with ((a + 2147483648) mod 4294967296 + b) by lia.
  rewrite Zplus_mod_idemp_l. f_equal. lia.
Qed.

Lemma wrap_int_small z :
  -2147483648 ≤ z ≤ 2147483647 → wrap_int z = z.
Proof. intros Hz. unfold wrap_int. rewrite Z.mod_small; lia. Qed.

Lemma wrap_int_range z : -2147483648 ≤ wrap_int z ≤ 2147483647.
Proof.
  unfold wrap_int.
  pose proof (Z.mod_pos_bound (z + 2147483648) 4294967296). lia.
Qed.

(** 1 + 2 + ... + e and the next id. *)
Lemma triangle_next (e : nat) :
  Z.of_nat (S e) * (Z.of_nat (S e) + 1) / 2 =
    Z.of_nat e * (Z.of_nat e + 1) / 2 + (Z.of_nat e + 1).
Proof.
  replace (Z.of_nat (S e) * (Z.of_nat (S e) + 1))
    with (Z.of_nat e * (Z.of_nat e + 1) + (Z.of_nat e + 1) * 2) by lia.
  by rewrite Z.div_add.
Qed.

Section V2Invariant.
Context {Mat : Type}.
Variable process_image : Mat → Mat.
Variable threads_number : Z.
Variable video : list Mat.

Local Abbreviation M := (length video).
Local Abbreviation frame_node := (raw video).
Local Abbreviation shown_node := (cooked process_image video).
Local Abbreviation last_node := (sentinel video).
Local Abbreviation node_ok_at := (out_ok process_image video).

Implicit Types (k : list_v2 Mat).

Definition team_take_id (pc : team_lpc Mat) : option Z :=
  match pc with LTeamTake x => frame_id x | _ => None end.
Definition team_send_id (pc : team_lpc Mat) : option Z :=
  match pc with LTeamSend x => frame_id x | _ => None end.
Definition master_id (pc : master_lpc Mat) : option Z :=
  match pc with LMasterTake x => frame_id x | _ => None end.

(** The sentinel, where it is when it is in the hands of a thread. *)
Definition team_sentinel (pc : team_lpc Mat) : option unit :=
  match pc with LTeamTake x => sentinel_u x | _ => None end.
Definition master_sentinel (pc : master_lpc Mat) : nat :=
  match pc with LMasterTake x => if it_last x then 1 else 0 | _ => 0 end.

Definition team_ok (p sp : nat) (pc : team_lpc Mat) : Prop :=
  match pc with
  | LTeamTake x =>
      (x = last_node ∧ (0 < sp)%nat) ∨ ∃ i, (i < p)%nat ∧ x = frame_node i
  | LTeamSend x => ∃ i, (i < p)%nat ∧ x = shown_node i
  | LTeamFlag => (0 < sp)%nat
  | _ => True
  end.

(** [r] frames have been read, [p] of them removed from the input queue and
    [e] displayed; [sent] is 1 once the sentinel is pushed and [sp] is 1 once
    it is removed from the input queue. *)
Record v2_inv (r p e sent sp : nat) k : Prop := V2Inv {
  vi_threads : lv_threads_number k = threads_number;
  vi_workers : length (lv_team k) = Z.to_nat threads_number;
  vi_bounds : (e ≤ p ≤ r)%nat ∧ (r ≤ M)%nat ∧ (sp ≤ sent ≤ 1)%nat;
  vi_frame :
    if lv_any_frame k then
      lv_nframes k = Z.of_nat r + 1 ∧ lv_capture k = drop r video ∧ sent = 0%nat
    else
      lv_nframes k = Z.of_nat M + 2 ∧ lv_capture k = [] ∧ r = M ∧ sent = 1%nat;
  vi_in : lv_in k = map frame_node (seq p (r - p)) ++ replicate (sent - sp) last_node;
  vi_sp : (0 < sp)%nat → p = r;
  vi_team : Forall (team_ok p sp) (lv_team k);
  vi_out : Forall (node_ok_at p sp) (lv_out k);
  vi_sorted : StronglySorted id_le (lv_out k);
  vi_current : lv_current_frame k = Z.of_nat e + 1;
  vi_master :
    match lv_master k with
    | LMasterHead => True
    | LMasterBlockOne | LMasterBlockThree => lv_finished k = false
    | LMasterTake x =>
        lv_finished k = false ∧
        ((x = last_node ∧ e = M ∧ sp = 1%nat) ∨
         (x = shown_node e ∧ (e < p)%nat))
    | LMasterExit => lv_finished k = true
    end;
  vi_finished : lv_finished k = true → e = M ∧ sp = 1%nat;
  vi_any_work : lv_any_work k = false → sp = 1%nat;
  vi_sentinels :
    (length (omap sentinel_u (lv_out k)) +
     length (omap team_sentinel (lv_team k)) +
     master_sentinel (lv_master k) +
     (if lv_finished k then 1 else 0))%nat = sp;
  vi_exit : ∀ w, lv_team k !! w = Some LTeamExit → lv_finished k = true;
  vi_writer : lv_writer k = map process_image (take e video);
  vi_correctness :
    lv_correctness k = wrap_int (Z.of_nat e * (Z.of_nat e + 1) / 2);
  vi_push : push_log (lv_log k) =
            map (λ i, (id_of i, false)) (seq 0 r) ++
            replicate sent (Z.of_nat M + 1, true);
  vi_pop : pop_ids (lv_log k) = map id_of (seq 0 p);
  vi_display : display_ids (lv_log k) = map id_of (seq 0 e);
  vi_sentinel_pops : length (sentinel_pops (lv_log k)) = sp;
  vi_process1 :
    process_ids (lv_log k) ++ omap team_take_id (lv_team k)
      ≡ₚ map id_of (seq 0 p);
  vi_process2 :
    process_ids (lv_log k) ≡ₚ
      map id_of (seq 0 e) ++ omap team_send_id (lv_team k) ++
      omap frame_id (lv_out k) ++ option_list (master_id (lv_master k));
  vi_main : lv_main k = MainJoin ∨ list_v2_ended k = true;
  vi_done : lv_main k = MainReturn → lv_out k = []
}.

Ltac v2_split :=
  split; v2_proj_simpl; try done; try (by rewrite ?app_nil_r);
  try (by rewrite length_insert); try (by log_simpl); try (by left);
  try (by right); try (by rewrite ?app_nil_r; eauto);
  try (by cbn [master_id option_list] in *; rewrite ?app_nil_r in *);
  try (by log_simpl; cbn [master_id option_list] in *;
          rewrite ?app_nil_r in *);
  try (by match goal with H : lv_main _ = MainJoin |- _ => rewrite H end).

Lemma v2_inv_init : v2_inv 0 0 0 0 0 (list_v2_init threads_number video).
Proof.
  split; simpl; try done.
  - by rewrite length_replicate.
  - lia.
  - by apply Forall_replicate.
  - constructor.
  - by rewrite omap_replicate_None.
  - intros w [? _]%lookup_replicate. done.
  - by rewrite omap_replicate_None.
  - by rewrite omap_replicate_None.
  - by left.
Qed.

Lemma ended_master k :
  lv_master k ≠ LMasterExit → list_v2_ended k = false.
Proof. unfold list_v2_ended. by destruct (lv_master k). Qed.

Lemma ended_team k w pc :
  lv_team k !! w = Some pc → team_lexited pc = false → list_v2_ended k = false.
Proof.
  intros Hpc Hr. unfold list_v2_ended. destruct (lv_master k); try done.
  apply not_true_is_false. intros H%Is_true_true%forallb_True.
  rewrite Forall_lookup in H. specialize (H _ _ Hpc). by rewrite Hr in H.
Qed.

Lemma team_ok_mono p p' sp sp' pc :
  (p ≤ p')%nat → (sp ≤ sp')%nat → team_ok p sp pc → team_ok p' sp' pc.
Proof.
  intros Hp Hs. destruct pc; simpl; try done.
  - intros [[-> ?]|(i & ? & ->)]; [left|right]; [split; [done|lia]|].
    exists i. split; [lia|done].
  - intros (i & ? & ->). exists i. split; [lia|done].
  - lia.
Qed.

Lemma v2_inv_master r p e sent sp k k' :
  v2_inv r p e sent sp k → list_v2_master k = Next k' →
  ∃ r' e' sent', v2_inv r' p e' sent' sp k'.
Proof.
  intros [Ht Hw Hb Hf Hin Hsp H2 Ho Hs Hc H3 Hfin Haw Hst Hex Hwr Hco Hpu Hpo Hd
          Hsn Hp1 Hp2 Hm Hdn].
  unfold list_v2_master. destruct (lv_master k) as [| | |x|] eqn:E3; [| | | |done].
  all: assert (lv_main k = MainJoin) as Hmj
    by (destruct Hm as [?|Hm]; [done|]; rewrite ended_master in Hm; [done|];
        by rewrite E3).
  - (* the loop test *)
    intros [= <-]. exists r, e, sent.
    assert (lv_finished k = true ∨ lv_finished k = false) as [Efin|Efin]
      by (destruct (lv_finished k); auto).
    all: rewrite Efin; v2_split.
  - (* block one *)
    intros [= <-]. unfold list_v2_block_one.
    destruct (lv_any_frame k) eqn:Eany.
    + destruct Hf as (Hn & Hcap & ->).
      destruct (lv_capture k) as [|image rest] eqn:Ec.
      * symmetry in Hcap. apply drop_nil_inv in Hcap.
        assert (r = M) as -> by lia. assert (sp = 0%nat) as -> by lia.
        exists M, e, 1%nat. v2_split.
        -- lia.
        -- repeat split; try done. lia.
        -- rewrite Hin, Hn. cbn [replicate Nat.sub]. by rewrite !app_nil_r.
        -- log_simpl. rewrite Hpu, Hn. cbn [replicate]. by rewrite !app_nil_r.
      * symmetry in Hcap. apply drop_cons_inv in Hcap as (Hx & -> & Hlt).
        assert (sp = 0%nat) as -> by lia.
        exists (S r), e, 0%nat. v2_split.
        -- lia.
        -- split; [lia|done].
        -- rewrite Hin. cbn [replicate Nat.sub]. rewrite !app_nil_r, seq_snoc by lia.
           rewrite map_app. cbn [map]. do 2 f_equal. unfold raw, id_of.
           rewrite Hx, Hn. f_equal. lia.
        -- intros ?. lia.
        -- log_simpl. rewrite Hpu, seq_S, map_app. cbn [map replicate].
           rewrite !app_nil_r. do 3 f_equal. rewrite Hn. unfold id_of. lia.
    + exists r, e, sent. v2_split. by rewrite Eany.
  - (* block three *)
    intros [= <-]. unfold list_v2_block_three.
    destruct (lv_out k) as [|x q] eqn:Eo.
    { exists r, e, sent. v2_split; by rewrite Eo. }
    destruct (Z.eqb_spec (it_id x) (lv_current_frame k)) as [Hid|];
      [|exists r, e, sent; v2_split; by rewrite Eo].
    apply Forall_cons in Ho as [Hx Ho].
    apply StronglySorted_inv in Hs as [Hs _].
    exists r, e, sent. v2_split.
    + split; [done|]. destruct Hx as [[-> ?]|(i & Hi & ->)].
      * left. split; [done|]. cbn in Hid. lia.
      * right. cbn in Hid. unfold id_of in Hid.
        assert (i = e) as -> by lia. done.
    + rewrite length_omap_cons in Hst. unfold sentinel_u at 1 in Hst.
      cbn [master_sentinel] in *. destruct (it_last x); cbn in *; lia.
    + log_simpl. rewrite Hp2. cbn [omap list_omap master_id option_list].
      destruct (frame_id x); cbn [option_list]; solve_Permutation.
  - (* the removed node *)
    unfold list_v2_master_take.
    destruct H3 as [Hnf [(-> & -> & ->)|[-> Hlt]]];
      cbn [it_last sentinel cooked it_frame it_id].
    + intros [= <-]. exists r, M, sent. v2_split.
      rewrite Hnf in Hst. cbn in *. lia.
    + destruct (raw_frame video e) as [image Him]; [lia|]. rewrite Him.
      cbn [fmap option_fmap option_map]. intros [= <-].
      exists r, (S e), sent. v2_split.
      * lia.
      * lia.
      * intros Hfin'. specialize (Hfin Hfin'). lia.
      * rewrite (take_S_r _ _ _ Him), map_app, Hwr. done.
      * rewrite Hco, wrap_int_add_l, triangle_next. unfold id_of. f_equal. lia.
      * log_simpl. by rewrite Hd, seq_S, map_app.
      * log_simpl. rewrite Hp2, seq_S, map_app.
        cbn [master_id frame_id cooked it_last it_id option_list map].
        solve_Permutation.
Qed.


Lemma team_exit_insert k w pc :
  (∀ w', lv_team k !! w' = Some LTeamExit → lv_finished k = true) →
  (pc = LTeamExit → lv_finished k = true) →
  ∀ w', <[w := pc]> (lv_team k) !! w' = Some LTeamExit → lv_finished k = true.
Proof.
  intros Hex Hpc w' Hw'. destruct (decide (w = w')) as [->|Hne].
  - apply list_lookup_insert_Some in Hw' as [(_ & ? & _)|[? _]]; [auto|done].
  - rewrite list_lookup_insert_ne in Hw' by done. eauto.
Qed.

Ltac team_idle Epc :=
  try (by apply Forall_insert); try (by apply team_exit_insert);
  rewrite ?app_nil_r, ?(omap_insert_same team_take_id _ _ _ _ Epc),
    ?(omap_insert_same team_send_id _ _ _ _ Epc),
    ?(omap_insert_same team_sentinel _ _ _ _ Epc) by done; done.

Lemma v2_inv_team w r p e sent sp k k' :
  v2_inv r p e sent sp k → list_v2_block_two process_image w k = Next k' →
  ∃ p' sp', v2_inv r p' e sent sp' k'.
Proof.
  intros [Ht Hw Hb Hf Hin Hsp H2 Ho Hs Hc H3 Hfin Haw Hst Hex Hwr Hco Hpu Hpo Hd Hsn Hp1 Hp2
          Hm Hdn].
  unfold list_v2_block_two. destruct (lv_team k !! w) as [pc|] eqn:Epc; [|done].
  pose proof (Forall_lookup_1 _ _ _ _ H2 Epc) as Hpc.
  destruct pc as [| | |x|x| |]; [| | | | | |done].
  all: assert (lv_main k = MainJoin) as Hmj
    by (destruct Hm as [?|Hm]; [done|]; by rewrite (ended_team _ _ _ Epc eq_refl) in Hm).
  - (* the loop test *)
    assert (lv_finished k = true ∨ lv_finished k = false) as [Efin|Efin]
      by (destruct (lv_finished k); auto).
    all: rewrite Efin; intros [= <-]; exists p, sp; v2_split; team_idle Epc.
  - (* the flag test *)
    assert (lv_any_work k = true ∨ lv_any_work k = false) as [Ework|Ework]
      by (destruct (lv_any_work k); auto).
    all: rewrite Ework; intros [= <-]; exists p, sp; v2_split; team_idle Epc.
  - (* the critical section *)
    destruct (lv_in k) as [|x q] eqn:Ein.
    { intros [= <-]. exists p, sp. v2_split; team_idle Epc. }
    intros [= <-].
    destruct (decide (p < r)%nat) as [Hlt|Hge].
    + assert (sp = 0%nat) as -> by (destruct sp; [done|]; lia).
      rewrite seq_pop in Hin by done. cbn [map app] in Hin.
      injection Hin as -> ->.
      exists (S p), 0%nat. v2_split.
      * lia.
      * intros ?. lia.
      * apply Forall_insert; [|right; exists p; split; [lia|done]].
        eapply Forall_impl; [done|]. intros pc. apply team_ok_mono; lia.
      * eapply Forall_impl; [done|]. intros y. apply out_ok_mono; lia.
      * destruct (lv_master k); try done.
        destruct H3 as [? [?|[? ?]]]; (split; [done|]); [by left|right].
        split; [done|lia].
      * by rewrite (omap_insert_same team_sentinel _ _ _ _ Epc).
      * by apply team_exit_insert.
      * log_simpl. by rewrite Hpo, seq_S, map_app.
      * log_simpl. rewrite seq_S, map_app. cbn [map].
        rewrite (omap_insert_add team_take_id _ _ _ _ (id_of p) Epc); [|done..].
        rewrite <-Hp1. solve_Permutation.
      * log_simpl. by rewrite (omap_insert_same team_send_id _ _ _ _ Epc).
    + assert (p = r) as -> by lia. rewrite Nat.sub_diag in Hin.
      cbn [seq map app] in Hin.
      destruct (sent - sp)%nat as [|d] eqn:Ed; [done|].
      cbn [replicate] in Hin. injection Hin as -> ->.
      assert (sp = 0%nat ∧ sent = 1%nat ∧ d = 0%nat) as (-> & -> & ->) by lia.
      exists r, 1%nat. v2_split.
      * lia.
      * by rewrite Nat.sub_diag.
      * apply Forall_insert; [|left; split; [done|lia]].
        eapply Forall_impl; [done|]. intros pc. apply team_ok_mono; lia.
      * eapply Forall_impl; [done|]. intros y. apply out_ok_mono; lia.
      * destruct (lv_master k); try done.
        destruct H3 as [? [(_ & _ & ?)|?]]; [done|]. split; [done|by right].
      * intros Hfin'. specialize (Hfin Hfin'). lia.
      * pose proof (length_omap_insert team_sentinel _ _ _
                      (LTeamTake last_node) Epc) as Hcnt.
        cbn in Hcnt. lia.
      * by apply team_exit_insert.
      * by rewrite sentinel_pops_snoc, length_app, Hsn.
      * log_simpl. by rewrite (omap_insert_same team_take_id _ _ _ _ Epc).
      * log_simpl. by rewrite (omap_insert_same team_send_id _ _ _ _ Epc).
  - (* the node is tested and processed *)
    destruct Hpc as [[-> Hsp0]|(i & Hi & ->)];
      cbn [it_last sentinel raw it_frame].
    + intros [= <-]. exists p, sp. v2_split.
      * by apply Forall_insert.
      * rewrite insert_item_perm. constructor; [by left|done].
      * by apply insert_item_sorted.
      * pose proof (length_omap_insert team_sentinel _ _ _
                      (@LTeamFlag Mat) Epc) as Hcnt.
        rewrite length_sentinel_insert. cbn in *. lia.
      * by apply team_exit_insert.
      * log_simpl. by rewrite (omap_insert_same team_take_id _ _ _ _ Epc).
      * log_simpl. rewrite (omap_insert_same team_send_id _ _ _ _ Epc) by done.
        by rewrite omap_frame_id_insert.
    + destruct (raw_frame video i) as [image Him]; [lia|]. rewrite Him.
      intros [= <-]. exists p, sp.
      assert (processed process_image (frame_node i) image = shown_node i) as Hck.
      { unfold processed, cooked, raw. cbn. by rewrite Him. }
      fold (frame_node i). rewrite Hck. v2_split.
      * apply Forall_insert; [done|]. by exists i.
      * by rewrite (omap_insert_same team_sentinel _ _ _ _ Epc).
      * by apply team_exit_insert.
      * log_simpl. cbn [raw it_id].
        rewrite (omap_insert_del team_take_id _ _ _ (LTeamSend (shown_node i))
                   (id_of i) Epc) in Hp1; [|done..].
        rewrite <-Hp1. solve_Permutation.
      * log_simpl. cbn [raw it_id].
        rewrite (omap_insert_add team_send_id _ _ _ _ (id_of i) Epc); [|done..].
        rewrite Hp2. solve_Permutation.
  - (* the processed node is inserted *)
    destruct Hpc as (i & Hi & ->). intros [= <-]. exists p, sp. v2_split.
    + by apply Forall_insert.
    + rewrite insert_item_perm. constructor; [right; by exists i|done].
    + by apply insert_item_sorted.
    + rewrite (omap_insert_same team_sentinel _ _ _ _ Epc) by done.
      by rewrite length_sentinel_insert.
    + by apply team_exit_insert.
    + log_simpl. by rewrite (omap_insert_same team_take_id _ _ _ _ Epc).
    + log_simpl. rewrite omap_frame_id_insert.
      rewrite (omap_insert_del team_send_id _ _ _ LTeamHead (id_of i) Epc)
        in Hp2; [|done..].
      rewrite Hp2. cbn [frame_id cooked it_last it_id option_list].
      solve_Permutation.
  - (* the flag is cleared *)
    intros [= <-]. exists p, sp. v2_split; try team_idle Epc.
    intros _. simpl in Hpc. lia.
Qed.

(** Once every frame is displayed, no frame is left anywhere. *)
Lemma v2_inv_all_shown r p e sent sp k :
  v2_inv r p e sent sp k → e = M →
  omap frame_id (lv_out k) = [] ∧ omap team_send_id (lv_team k) = [] ∧
  omap team_take_id (lv_team k) = [] ∧ p = M ∧ r = M.
Proof.
  intros Hi ->. pose proof (vi_bounds _ _ _ _ _ _ Hi) as Hb.
  pose proof (vi_process1 _ _ _ _ _ _ Hi) as H1%Permutation_length.
  pose proof (vi_process2 _ _ _ _ _ _ Hi) as H2%Permutation_length.
  rewrite !length_app, !length_map, !length_seq in *.
  repeat split; try lia; apply length_zero_iff_nil; lia.
Qed.

(** When every thread has left the loop the output queue is empty: the
    loop that ends [parallel_processing] has nothing to free. *)
Lemma v2_inv_ended_out r p e sent sp k :
  v2_inv r p e sent sp k → list_v2_ended k = true → lv_out k = [].
Proof.
  intros Hi Hend. pose proof (vi_master _ _ _ _ _ _ Hi) as H3.
  pose proof (vi_sentinels _ _ _ _ _ _ Hi) as Hst.
  unfold list_v2_ended in Hend. destruct (lv_master k); try done.
  destruct (vi_finished _ _ _ _ _ _ Hi H3) as [He Hsp].
  destruct (v2_inv_all_shown _ _ _ _ _ _ Hi He) as (Hof & _).
  rewrite H3 in Hst. destruct (lv_out k) as [|x q]; [done|].
  rewrite length_omap_cons in Hst. cbn [omap list_omap] in Hof.
  unfold frame_id in Hof. unfold sentinel_u at 1 in Hst.
  destruct (it_last x); [cbn in Hst; lia|done].
Qed.

Lemma v2_inv_after r p e sent sp k k' :
  v2_inv r p e sent sp k → list_v2_after k = Next k' →
  v2_inv r p e sent sp k'.
Proof.
  intros Hi. pose proof Hi as Hi0. revert Hi.
  intros [Ht Hw Hb Hf Hin Hsp H2 Ho Hs Hc H3 Hfin Haw Hst Hex Hwr Hco Hpu Hpo Hd
          Hsn Hp1 Hp2 Hm Hdn].
  unfold list_v2_after. destruct (lv_main k) eqn:Em; [| |done].
  - destruct (list_v2_ended k) eqn:Ee; [|done]. intros [= <-].
    v2_split.
  - destruct Hm as [?|Hm]; [done|].
    rewrite (v2_inv_ended_out _ _ _ _ _ _ Hi0 Hm) in *.
    intros [= <-]. v2_split.
Qed.

(** The invariant holds in every reachable state. *)
Lemma v2_inv_reach k :
  list_v2_reach process_image (list_v2_init threads_number video) k →
  ∃ r p e sent sp, v2_inv r p e sent sp k.
Proof.
  induction 1 as [|k1 t k2 _ (r & p & e & sent & sp & Hi) Hs].
  - exists 0%nat, 0%nat, 0%nat, 0%nat, 0%nat. apply v2_inv_init.
  - destruct t as [|w| |]; simpl in Hs.
    + destruct (v2_inv_master _ _ _ _ _ _ _ Hi Hs) as (r' & e' & sent' & ?).
      eauto 10.
    + destruct (v2_inv_team _ _ _ _ _ _ _ _ Hi Hs) as (p' & sp' & ?). eauto 10.
    + done.
    + pose proof (v2_inv_after _ _ _ _ _ _ _ Hi Hs). eauto 10.
Qed.

End V2Invariant.

(** ** Payloads: a node carries a frame exactly when it is not a sentinel *)

Section Payload.
Context {Mat : Type}.
Variable process_image : Mat → Mat.
Implicit Types (h : gmap addr (work_node Mat)) (g : globals Mat).
Implicit Types (n : work_node Mat).

Definition node_ok n : Prop := frame n = None ↔ is_the_last_node n = true.

Definition heap_ok h : Prop := ∀ a n, h !! a = Some n → node_ok n.

(** The second node has the id and the flag of the first, and a frame when
    the first has one. *)
Definition same_kind n n' : Prop :=
  frame_number n' = frame_number n ∧
  is_the_last_node n' = is_the_last_node n ∧
  (frame n' = None ↔ frame n = None).

(** No node appears, and the nodes that stay keep their kind. *)
Definition shrinks h h' : Prop :=
  ∀ a n', h' !! a = Some n' → ∃ n, h !! a = Some n ∧ same_kind n n'.

(** The nodes that stay keep their kind and the nodes that appear are
    well formed. *)
Definition kept h h' : Prop :=
  ∀ a n', h' !! a = Some n' →
    match h !! a with Some n => same_kind n n' | None => node_ok n' end.

Lemma same_kind_refl n : same_kind n n.
Proof. done. Qed.

Lemma same_kind_trans n1 n2 n3 :
  same_kind n1 n2 → same_kind n2 n3 → same_kind n1 n3.
Proof. unfold same_kind. intros (? & ? & ?) (? & ? & ?). split_and!; try congruence. tauto. Qed.

Lemma same_kind_ok n n' : same_kind n n' → node_ok n → node_ok n'.
Proof. unfold same_kind, node_ok. intros (_ & -> & ->). done. Qed.

Lemma same_kind_with_next nx n : same_kind n (with_next nx n).
Proof. done. Qed.

Lemma shrinks_refl h : shrinks h h.
Proof. intros a n ?. by exists n. Qed.

Lemma shrinks_trans h1 h2 h3 : shrinks h1 h2 → shrinks h2 h3 → shrinks h1 h3.
Proof.
  intros H12 H23 a n3 (n2 & H2 & K23)%H23. destruct (H12 _ _ H2) as (n1 & ? & K12).
  exists n1. split; [done|]. by eapply same_kind_trans.
Qed.

Lemma shrinks_kept h h' : shrinks h h' → kept h h'.
Proof. intros H a n' (n & -> & ?)%H. done. Qed.

Lemma kept_ok h h' : kept h h' → heap_ok h → heap_ok h'.
Proof.
  intros Hk Hok a n' Hn'. specialize (Hk _ _ Hn').
  destruct (h !! a) as [n|] eqn:E; [|done].
  eapply same_kind_ok; [done|]. by eapply Hok.
Qed.

Lemma shrinks_insert h a n n' :
  h !! a = Some n → same_kind n n' → shrinks h (<[a := n']> h).
Proof.
  intros Ha Hk b m Hb. destruct (decide (a = b)) as [<-|Hne].
  - rewrite lookup_insert_eq in Hb. injection Hb as <-. by exists n.
  - rewrite lookup_insert_ne in Hb by done. by exists m.
Qed.

Lemma shrinks_delete h a : shrinks h (delete a h).
Proof. intros b m [_ Hb]%lookup_delete_Some. by exists m. Qed.

Lemma store_next_shrinks a nx h h' : store_next a nx h = Some h' → shrinks h h'.
Proof.
  unfold store_next. destruct (h !! a) as [n|] eqn:E; [|done].
  intros [= <-]. by eapply shrinks_insert.
Qed.

Lemma add_to_input_shrinks a g g' :
  add_to_input_work_queue a g = Some g' → shrinks (heap g) (heap g').
Proof.
  unfold add_to_input_work_queue. case_match.
  - intros [= <-]. apply shrinks_refl.
  - destruct (input_tail g) as [tl|]; [|done]. simpl.
    destruct (store_next tl (Some a) (heap g)) as [h|] eqn:E; [|done].
    intros [= <-]. by eapply store_next_shrinks.
Qed.

Lemma add_to_output_scan_shrinks fuel a id cur h h' at_end :
  add_to_output_scan fuel a id cur h = Some (h', at_end) → shrinks h h'.
Proof.
  revert cur. induction fuel as [|fuel IH]; intros cur; simpl; [done|].
  destruct (h !! cur) as [c|]; [|done]. simpl.
  destruct (next c) as [nx|].
  - destruct (h !! nx) as [nxt|]; [|done]. simpl. case_match; [|by apply IH].
    destruct (store_next a (Some nx) h) as [h1|] eqn:E1; [|done]. simpl.
    destruct (store_next cur (Some a) h1) as [h2|] eqn:E2; [|done].
    intros [= <- _]. eapply shrinks_trans; by eapply store_next_shrinks.
  - destruct (store_next a None h) as [h1|] eqn:E1; [|done]. simpl.
    destruct (store_next cur (Some a) h1) as [h2|] eqn:E2; [|done].
    intros [= <- _]. eapply shrinks_trans; by eapply store_next_shrinks.
Qed.

Lemma add_to_output_shrinks a g g' :
  add_to_output_work_queue a g = Some g' → shrinks (heap g) (heap g').
Proof.
  unfold add_to_output_work_queue. case_match.
  - intros [= <-]. apply shrinks_refl.
  - destruct (heap g !! a) as [na|]; [|done]. simpl.
    destruct (output_head g) as [hd|]; [|done]. simpl.
    destruct (heap g !! hd) as [c|]; [|done]. simpl. case_match.
    + destruct (store_next a (Some hd) (heap g)) as [h|] eqn:E; [|done].
      intros [= <-]. by eapply store_next_shrinks.
    + destruct (add_to_output_scan _ _ _ _ _) as [[h at_end]|] eqn:E; [|done].
      intros [= <-]. by eapply add_to_output_scan_shrinks.
Qed.

Lemma remove_from_input_shrinks a g g' :
  remove_from_input_work_queue g = Some (a, g') → shrinks (heap g) (heap g').
Proof.
  unfold remove_from_input_work_queue.
  destruct (input_head g) as [hd|]; [|done]. simpl.
  destruct (heap g !! hd) as [n|] eqn:E; [|done]. intros [= <- <-].
  by eapply shrinks_insert.
Qed.

Lemma remove_from_output_shrinks a g g' :
  remove_from_output_work_queue g = Some (a, g') → shrinks (heap g) (heap g').
Proof.
  unfold remove_from_output_work_queue.
  destruct (output_head g) as [hd|]; [|done]. simpl.
  destruct (heap g !! hd) as [n|] eqn:E; [|done]. intros [= <- <-].
  by eapply shrinks_insert.
Qed.

Lemma process_frame_shrinks a g g' :
  process_frame process_image a g = Some g' → shrinks (heap g) (heap g').
Proof.
  unfold process_frame. destruct (heap g !! a) as [n|] eqn:E; [|done]. simpl.
  destruct (frame n) as [image|] eqn:Ef; [|done]. intros [= <-].
  eapply shrinks_insert; [done|]. unfold same_kind. simpl. by rewrite Ef.
Qed.

Lemma send_frame_to_display_shrinks a g image g' :
  send_frame_to_display a g = Some (image, g') → shrinks (heap g) (heap g').
Proof.
  unfold send_frame_to_display. destruct (heap g !! a) as [n|]; [|done]. simpl.
  destruct (frame n); [|done]. intros [= _ <-]. apply shrinks_delete.
Qed.

(** A node is created and linked behind the input queue. *)
Lemma new_node_kept it g a g1 g' :
  (it_frame it = None ↔ it_last it = true) →
  new_node it g = (a, g1) → add_to_input_work_queue a g1 = Some g' →
  kept (heap g) (heap g').
Proof.
  intros Hit [= <- <-] Hs%add_to_input_shrinks b n' (n & Hb & Hk)%Hs.
  simpl in Hb. destruct (decide (malloc (heap g) = b)) as [<-|Hne].
  - rewrite lookup_insert_eq in Hb. injection Hb as <-.
    assert (heap g !! malloc (heap g) = None) as ->.
    { apply not_elem_of_dom. apply is_fresh. }
    eapply same_kind_ok; [done|]. done.
  - rewrite lookup_insert_ne in Hb by done. by rewrite Hb.
Qed.

Create HintDb payload.
#[local] Hint Resolve shrinks_refl shrinks_kept add_to_input_shrinks
  add_to_output_shrinks remove_from_input_shrinks remove_from_output_shrinks
  process_frame_shrinks send_frame_to_display_shrinks shrinks_delete : payload.

Lemma kept_refl h : kept h h.
Proof. auto with payload. Qed.

Lemma remove_free_shrinks a g g' :
  remove_from_output_work_queue g = Some (a, g') →
  shrinks (heap g) (heap (free_node a g')).
Proof.
  intros H%remove_from_output_shrinks. eapply shrinks_trans; [done|].
  apply shrinks_delete.
Qed.

(** Every step of the three stages keeps the nodes well formed. *)
Lemma stage_step_kept t (s s' : stage_state Mat) :
  stage_step process_image t s = Next s' →
  kept (heap (st_mem s)) (heap (st_mem s')).
Proof.
  destruct t as [|w| |]; simpl.
  - unfold stage_one. destruct (st_one s) as [|i|]; [| |done].
    + destruct (st_capture s) as [|image rest].
      { intros [= <-]. apply kept_refl. }
      destruct (new_node _ _) as [a g1] eqn:En.
      destruct (add_to_input_work_queue a g1) as [g'|] eqn:Ea; [|done].
      intros [= <-]. eapply new_node_kept; [|done..]. by split.
    + case_match; [|intros [= <-]; apply kept_refl].
      destruct (new_node _ _) as [a g1] eqn:En.
      destruct (add_to_input_work_queue a g1) as [g'|] eqn:Ea; [|done].
      intros [= <-]. eapply new_node_kept; [|done..]. by split.
  - unfold stage_two. destruct (st_two s !! w) as [[|a|a|]|]; try done.
    + case_match; [done|].
      destruct (remove_from_input_work_queue _) as [[a g]|] eqn:E; [|done].
      simpl. destruct (heap g !! a); [|done]. intros [= <-]. simpl.
      eauto with payload.
    + destruct (heap (st_mem s) !! a) as [n|]; [|done]. simpl.
      destruct (is_the_last_node n).
      * destruct (add_to_output_work_queue _ _) as [g|] eqn:E; [|done].
        intros [= <-]. simpl. eauto with payload.
      * destruct (process_frame _ _ _) as [g|] eqn:E; [|done].
        intros [= <-]. simpl. eauto with payload.
    + destruct (heap (st_mem s) !! a) as [n|]; [|done]. simpl.
      destruct (add_to_output_work_queue _ _) as [g|] eqn:E; [|done].
      intros [= <-]. simpl. eauto with payload.
  - unfold stage_three. destruct (st_three s) as [| |a|]; [| | |done].
    + intros [= <-]. apply kept_refl.
    + case_match; [done|].
      destruct (get_head_id_from_output_work_queue _); [|done].
      case_match; [|done].
      destruct (remove_from_output_work_queue _) as [[a g]|] eqn:E; [|done].
      simpl. destruct (heap g !! a); [|done]. intros [= <-]. simpl.
      eauto with payload.
    + destruct (heap (st_mem s) !! a) as [n|]; [|done]. simpl.
      destruct (is_the_last_node n); [intros [= <-]; apply kept_refl|].
      destruct (send_frame_to_display _ _) as [[image g]|] eqn:E; [|done].
      intros [= <-]. simpl. eauto with payload.
  - unfold stage_main. destruct (st_main s); [| |done].
    + case_match; [|done]. intros [= <-]. apply kept_refl.
    + case_match; [|intros [= <-]; apply kept_refl].
      destruct (remove_from_output_work_queue _) as [[a g]|] eqn:E; [|done].
      simpl. destruct (heap g !! a); [|done]. intros [= <-]. simpl.
      apply shrinks_kept. by apply remove_free_shrinks.
Qed.

(** So does every step of version 2. *)
Lemma v2_step_kept t (s s' : v2_state Mat) :
  v2_step process_image t s = Next s' →
  kept (heap (v2_mem s)) (heap (v2_mem s')).
Proof.
  destruct t as [|w| |]; simpl; [| |done|].
  - unfold v2_master_step. destruct (v2_master s) as [| | |a|]; [| | | |done].
    + intros [= <-]. apply kept_refl.
    + unfold v2_block_one. destruct (is_there_any_frame s);
        [|intros [= <-]; apply kept_refl].
      destruct (v2_capture s) as [|image rest].
      * destruct (new_node _ _) as [a g1] eqn:En.
        destruct (add_to_input_work_queue a g1) as [g'|] eqn:Ea; [|done].
        intros [= <-]. eapply new_node_kept; [|done..]. by split.
      * destruct (new_node _ _) as [a g1] eqn:En.
        destruct (add_to_input_work_queue a g1) as [g'|] eqn:Ea; [|done].
        intros [= <-]. eapply new_node_kept; [|done..]. by split.
    + unfold v2_block_three. case_match; [|intros [= <-]; apply kept_refl].
      destruct (get_head_id_from_output_work_queue _); [|done]. simpl.
      case_match; [|intros [= <-]; apply kept_refl].
      destruct (remove_from_output_work_queue _) as [[a g]|] eqn:E; [|done].
      simpl. destruct (heap g !! a); [|done]. intros [= <-]. simpl.
      eauto with payload.
    + unfold v2_master_take.
      destruct (heap (v2_mem s) !! a) as [n|]; [|done]. simpl.
      destruct (is_the_last_node n); [intros [= <-]; apply kept_refl|].
      destruct (send_frame_to_display _ _) as [[image g]|] eqn:E; [|done].
      intros [= <-]. simpl. eauto with payload.
  - unfold v2_block_two. destruct (v2_team s !! w) as [[| | |a|a| |]|]; try done.
    + intros [= <-]. apply kept_refl.
    + intros [= <-]. apply kept_refl.
    + case_match; [|intros [= <-]; apply kept_refl].
      destruct (remove_from_input_work_queue _) as [[a g]|] eqn:E; [|done].
      simpl. destruct (heap g !! a); [|done]. intros [= <-]. simpl.
      eauto with payload.
    + destruct (heap (v2_mem s) !! a) as [n|]; [|done]. simpl.
      destruct (is_the_last_node n).
      * destruct (add_to_output_work_queue _ _) as [g|] eqn:E; [|done].
        intros [= <-]. simpl. eauto with payload.
      * destruct (process_frame _ _ _) as [g|] eqn:E; [|done].
        intros [= <-]. simpl. eauto with payload.
    + destruct (heap (v2_mem s) !! a) as [n|]; [|done]. simpl.
      destruct (add_to_output_work_queue _ _) as [g|] eqn:E; [|done].
      intros [= <-]. simpl. eauto with payload.
    + intros [= <-]. apply kept_refl.
  - unfold v2_after. destruct (v2_main s); [| |done].
    + case_match; [|done]. intros [= <-]. apply kept_refl.
    + case_match; [|intros [= <-]; apply kept_refl].
      destruct (remove_from_output_work_queue _) as [[a g]|] eqn:E; [|done].
      simpl. destruct (heap g !! a); [|done]. intros [= <-]. simpl.
      apply shrinks_kept. by apply remove_free_shrinks.
Qed.

Lemma stage_reach_heap_ok threads_number video (s : stage_state Mat) :
  stage_reach process_image (stage_init threads_number video) s →
  heap_ok (heap (st_mem s)).
Proof.
  induction 1 as [|s1 t s2 _ IH Hs]; [done|].
  eapply kept_ok; [|done]. by eapply stage_step_kept.
Qed.

Lemma v2_reach_heap_ok threads_number video (s : v2_state Mat) :
  v2_reach process_image (v2_init threads_number video) s →
  heap_ok (heap (v2_mem s)).
Proof.
  induction 1 as [|s1 t s2 _ IH Hs]; [done|].
  eapply kept_ok; [|done]. by eapply v2_step_kept.
Qed.

End Payload.

(** ** Version 2 can run to its end *)

Section V2Schedule.
Context {Mat : Type}.
Variable process_image : Mat → Mat.
Variable threads_number : Z.
Variable video : list Mat.

Local Abbreviation M := (length video).
Local Abbreviation inv := (v2_inv process_image threads_number video).

Implicit Types (k : list_v2 Mat).

Local Abbreviation run := (list_v2_run process_image).
Local Abbreviation step := (list_v2_step process_image).

Lemma list_v2_run_app sched1 sched2 (k : list_v2 Mat) :
  run (sched1 ++ sched2) k =
  match run sched1 k with
  | Next k' => run sched2 k'
  | Blocked => Blocked
  | Undefined => Undefined
  end.
Proof.
  revert k. induction sched1 as [|t sched1 IH]; intros k; simpl; [done|].
  by destruct (step t k).
Qed.

Lemma list_v2_run_reach sched (k k' : list_v2 Mat) :
  run sched k = Next k' → list_v2_reach process_image k k'.
Proof.
  revert k'. induction sched as [|t sched IH] using rev_ind; intros k'.
  - intros [= <-]. constructor.
  - rewrite list_v2_run_app.
    destruct (run sched k) as [k1| |] eqn:E; try done. simpl.
    destruct (step t k1) as [k2| |] eqn:E2; try done.
    intros [= <-]. econstructor; [by apply IH|done].
Qed.

(** No step of a reachable state dereferences a null pointer. *)
Lemma v2_inv_defined r p e sent sp k :
  inv r p e sent sp k → ∀ t, step t k ≠ Undefined.
Proof.
  intros Hi t. destruct t as [|w| |]; simpl; [| |done|].
  - unfold list_v2_master. pose proof (vi_master _ _ _ _ _ _ _ _ _ Hi) as H3.
    destruct (lv_master k) as [| | |x|]; try done.
    unfold list_v2_master_take.
    destruct H3 as [_ [(-> & _)|[-> Hlt]]]; [done|]. cbn.
    pose proof (vi_bounds _ _ _ _ _ _ _ _ _ Hi).
    destruct (raw_frame video e) as [image ->]; [lia|done].
  - unfold list_v2_block_two.
    destruct (lv_team k !! w) as [pc|] eqn:Epc; [|done].
    pose proof (Forall_lookup_1 _ _ _ _ (vi_team _ _ _ _ _ _ _ _ _ Hi) Epc)
      as Hpc.
    destruct pc as [| | |x|x| |]; try done; [by case_match|].
    destruct Hpc as [[-> _]|(i & Hlt & ->)]; [done|]. cbn.
    pose proof (vi_bounds _ _ _ _ _ _ _ _ _ Hi).
    destruct (raw_frame video i) as [image ->]; [lia|done].
  - unfold list_v2_after. by repeat case_match.
Qed.

(** *** What is left to do, and how far the waiting threads are from it *)

Definition master_fuel (pc : master_lpc Mat) : nat :=
  match pc with LMasterTake _ => 3 | LMasterExit => 0 | _ => 1 end.

Definition team_fuel (pc : team_lpc Mat) : nat :=
  match pc with
  | LTeamTake _ => 6 | LTeamSend _ => 5 | LTeamFlag => 2 | LTeamExit => 0
  | _ => 1
  end.

Definition v2_fuel k : nat :=
  7 * length (lv_capture k) + (if lv_any_frame k then 7 else 0) +
  6 * length (lv_in k) + sum_list_with team_fuel (lv_team k) +
  3 * length (lv_out k) + master_fuel (lv_master k) + main_fuel (lv_main k).

(** The head of the output queue is the node block three waits for. *)
Definition due k : bool :=
  match lv_out k with
  | x :: _ => it_id x =? lv_current_frame k
  | [] => false
  end.

(** Steps of a thread of the team to the point where it has something to
    do: the loop test once [finished] is set, the critical section before. *)
Definition team_wait (fin : bool) (pc : team_lpc Mat) : nat :=
  match pc with
  | LTeamHead => if fin then 0 else 2
  | LTeamBlockTwo => if fin then 2 else 1
  | LTeamLock => if fin then 1 else 0
  | _ => 0
  end.

(** Steps of the master to block three when its node is due, to block one
    otherwise. *)
Definition master_wait (d : bool) (pc : master_lpc Mat) : nat :=
  match pc with
  | LMasterHead => if d then 2 else 1
  | LMasterBlockOne => if d then 1 else 0
  | LMasterBlockThree => if d then 0 else 2
  | _ => 0
  end.

Definition v2_wait k : nat :=
  sum_list_with (team_wait (lv_finished k)) (lv_team k) +
  master_wait (due k) (lv_master k).

(** A step that does something, or brings a waiting thread nearer. *)
Definition advances k k' : Prop :=
  (v2_fuel k' < v2_fuel k)%nat ∨
  (v2_fuel k' = v2_fuel k ∧ v2_wait k' < v2_wait k)%nat.

Definition spinning (pc : team_lpc Mat) : bool :=
  match pc with
  | LTeamHead | LTeamBlockTwo | LTeamLock | LTeamExit => true
  | _ => false
  end.

Lemma spinning_no_ids (l : list (team_lpc Mat)) :
  Forall spinning l →
  omap team_take_id l = [] ∧ omap team_send_id l = [] ∧
  omap team_sentinel l = [].
Proof.
  induction 1 as [|pc l Hpc _ (IH1 & IH2 & IH3)]; [done|].
  cbn [omap list_omap]. rewrite IH1, IH2, IH3. by destruct pc.
Qed.

Ltac adv :=
  unfold advances, v2_fuel, v2_wait, due; cbn;
  rewrite ?length_app, ?insert_item_length; cbn; lia.

Ltac team_sums Epc pc' fin :=
  let F1 := fresh in let F2 := fresh in
  pose proof (sum_list_with_insert team_fuel _ _ _ pc' Epc) as F1;
  pose proof (sum_list_with_insert (team_wait fin) _ _ _ pc' Epc) as F2;
  cbn in F1, F2.

(** A thread of the team that holds a node goes on with it. *)
Lemma team_busy_advances r p e sent sp k w pc :
  inv r p e sent sp k → lv_team k !! w = Some pc → spinning pc = false →
  ∃ k', step (Worker w) k = Next k' ∧ advances k k'.
Proof.
  intros Hi Epc Hsp. pose proof (v2_inv_defined _ _ _ _ _ _ Hi (Worker w)) as Hdef.
  simpl in *. unfold list_v2_block_two in *. rewrite Epc in *.
  destruct pc as [| | |x|x| |]; try done.
  - destruct (it_last x).
    + eexists. split; [done|]. team_sums Epc (@LTeamFlag Mat) (lv_finished k). adv.
    + destruct (it_frame x) as [image|]; [|done].
      eexists. split; [done|].
      team_sums Epc (LTeamSend (processed process_image x image)) (lv_finished k).
      adv.
  - eexists. split; [done|]. team_sums Epc (@LTeamHead Mat) (lv_finished k). adv.
  - eexists. split; [done|]. team_sums Epc (@LTeamHead Mat) (lv_finished k). adv.
Qed.

(** Once [finished] is set a waiting thread of the team goes to the loop
    test and leaves. *)
Lemma team_leaves k w pc :
  lv_team k !! w = Some pc → spinning pc = true → pc ≠ LTeamExit →
  lv_finished k = true → lv_in k = [] →
  ∃ k', step (Worker w) k = Next k' ∧ advances k k'.
Proof.
  intros Epc Hsp Hne Hfin Hin. simpl. unfold list_v2_block_two.
  rewrite Epc, Hfin, Hin. destruct pc as [| | |x|x| |]; try done.
  - eexists. split; [done|]. team_sums Epc (@LTeamExit Mat) true.
    unfold advances, v2_fuel, v2_wait, due. cbn. rewrite Hfin. lia.
  - destruct (lv_any_work k); (eexists; split; [done|]).
    + team_sums Epc (@LTeamLock Mat) true.
      unfold advances, v2_fuel, v2_wait, due. cbn. rewrite Hfin. lia.
    + team_sums Epc (@LTeamHead Mat) true.
      unfold advances, v2_fuel, v2_wait, due. cbn. rewrite Hfin. lia.
  - eexists. split; [done|]. team_sums Epc (@LTeamHead Mat) true.
    unfold advances, v2_fuel, v2_wait, due. cbn. rewrite Hfin, Hin. cbn. lia.
Qed.

(** Before that, a waiting thread goes to the critical section and removes
    the head of the input queue. *)
Lemma team_fetches k w pc :
  lv_team k !! w = Some pc → spinning pc = true → pc ≠ LTeamExit →
  lv_finished k = false → lv_any_work k = true → lv_in k ≠ [] →
  ∃ k', step (Worker w) k = Next k' ∧ advances k k'.
Proof.
  intros Epc Hsp Hne Hfin Haw Hin. simpl. unfold list_v2_block_two.
  rewrite Epc, Hfin, Haw. destruct pc as [| | |x|x| |]; try done.
  - eexists. split; [done|]. team_sums Epc (@LTeamBlockTwo Mat) false.
    unfold advances, v2_fuel, v2_wait, due. cbn. rewrite Hfin. lia.
  - eexists. split; [done|]. team_sums Epc (@LTeamLock Mat) false.
    unfold advances, v2_fuel, v2_wait, due. cbn. rewrite Hfin. lia.
  - destruct (lv_in k) as [|x q] eqn:Ein; [done|].
    eexists. split; [done|]. team_sums Epc (LTeamTake x) false.
    unfold advances, v2_fuel, v2_wait, due. cbn. rewrite Ein. cbn. lia.
Qed.

(** The master goes to block three when its node is due. *)
Lemma master_takes k :
  lv_finished k = false → due k = true → lv_master k ≠ LMasterExit →
  (∀ x, lv_master k ≠ LMasterTake x) →
  ∃ k', step Ingest k = Next k' ∧ advances k k'.
Proof.
  intros Hfin Hdue Hne Hnt. simpl. unfold list_v2_master.
  destruct (lv_master k) as [| | |x|] eqn:E3; try done.
  - rewrite Hfin. eexists. split; [done|].
    unfold advances, v2_fuel, v2_wait. cbn -[due].
    replace (due (lv_master_set LMasterBlockOne k)) with (due k) by done.
    rewrite E3, Hdue. cbn. lia.
  - eexists. split; [done|]. unfold list_v2_block_one.
    destruct (lv_any_frame k) eqn:Eany.
    + destruct (lv_capture k) eqn:Ec; left; unfold v2_fuel; cbn;
        rewrite ?Eany, ?Ec, ?E3, ?length_app; cbn; lia.
    + right. unfold v2_fuel, v2_wait. cbn -[due].
      replace (due (lv_master_set LMasterBlockThree k)) with (due k) by done.
      rewrite E3, Hdue. cbn. lia.
  - eexists. split; [done|]. left. unfold list_v2_block_three.
    unfold due in Hdue. destruct (lv_out k) as [|x q] eqn:Eo; [done|].
    rewrite Hdue. unfold v2_fuel. cbn. rewrite Eo, E3. cbn. lia.
  - by destruct (Hnt x).
Qed.

(** The master goes to block one when there is a frame to read. *)
Lemma master_reads k :
  lv_finished k = false → due k = false → lv_any_frame k = true →
  lv_master k ≠ LMasterExit → (∀ x, lv_master k ≠ LMasterTake x) →
  ∃ k', step Ingest k = Next k' ∧ advances k k'.
Proof.
  intros Hfin Hdue Hany Hne Hnt. simpl. unfold list_v2_master.
  destruct (lv_master k) as [| | |x|] eqn:E3; try done.
  - rewrite Hfin. eexists. split; [done|].
    unfold advances, v2_fuel, v2_wait. cbn -[due].
    replace (due (lv_master_set LMasterBlockOne k)) with (due k) by done.
    rewrite E3, Hdue. cbn. lia.
  - eexists. split; [done|]. unfold list_v2_block_one. rewrite Hany.
    destruct (lv_capture k) eqn:Ec; left; unfold v2_fuel; cbn;
      rewrite ?Hany, ?Ec, ?E3, ?length_app; cbn; lia.
  - eexists. split; [done|]. right.
    assert (list_v2_block_three k = lv_master_set LMasterHead k) as ->.
    { unfold list_v2_block_three. unfold due in Hdue.
      destruct (lv_out k); [done|]. by rewrite Hdue. }
    unfold v2_fuel, v2_wait. cbn -[due].
    replace (due (lv_master_set LMasterHead k)) with (due k) by done.
    rewrite E3, Hdue. cbn. lia.
  - by destruct (Hnt x).
Qed.

(** *** Some thread can always advance *)

Lemma v2_progress r p e sent sp k :
  inv r p e sent sp k → 0 < threads_number → lv_main k ≠ MainReturn →
  ∃ t k', step t k = Next k' ∧ advances k k'.
Proof.
  intros Hi HN Hmain. pose proof Hi as Hi0.
  destruct Hi as [Ht Hw Hb Hf Hin Hsp H2 Ho Hs Hc H3 Hfin Haw Hst Hex Hwr Hco
                  Hpu Hpo Hd Hsn Hp1 Hp2 Hm Hdn].
  pose proof (v2_inv_defined _ _ _ _ _ _ Hi0) as Hdef.
  (* the code after the parallel region *)
  destruct (lv_main k) eqn:Emain; [| |done].
  2: { exists Main. simpl. unfold list_v2_after. rewrite Emain.
       destruct (lv_out k) as [|x q] eqn:Eo; (eexists; split; [done|]); left;
         unfold v2_fuel; cbn; rewrite ?Emain, ?Eo; cbn; lia. }
  destruct (list_v2_ended k) eqn:Eend.
  { exists Main. simpl. unfold list_v2_after. rewrite Emain, Eend.
    eexists. split; [done|]. left. unfold v2_fuel. cbn. rewrite Emain. cbn. lia. }
  (* a thread of the team that holds a node *)
  destruct (decide (Forall spinning (lv_team k))) as [Hspin|Hbusy].
  2: { apply not_Forall_Exists in Hbusy; [|intros pc; apply _].
       apply Exists_exists in Hbusy as (pc & [w Hpc]%list_elem_of_lookup & Hns).
       exists (Worker w). eapply team_busy_advances; [done..|].
       simpl in Hns. destruct (spinning pc); [|done]. exfalso. by apply Hns. }
  destruct (spinning_no_ids _ Hspin) as (Htk & Hsd & Hts).
  rewrite Htk, Hsd, Hts in *. rewrite app_nil_r in Hp1.
  destruct (lv_finished k) eqn:Efin.
  { (* the threads leave the loop *)
    destruct (Hfin eq_refl) as [-> ->].
    destruct (v2_inv_all_shown _ _ _ _ _ _ _ _ _ Hi0 eq_refl)
      as (_ & _ & _ & -> & ->).
    assert (sent = 1%nat) as -> by lia.
    rewrite Nat.sub_diag in Hin. cbn in Hin.
    destruct (lv_master k) as [| | |x|] eqn:E3; try done; [| |].
    - exists Ingest. simpl. unfold list_v2_master. rewrite E3, Efin.
      eexists. split; [done|]. left. unfold v2_fuel. cbn. rewrite E3. cbn. lia.
    - by destruct H3.
    - unfold list_v2_ended in Eend. rewrite E3 in Eend.
      destruct (decide (Forall team_lexited (lv_team k))) as [Hall|Hsome].
      { apply forallb_True, Is_true_true in Hall. by rewrite Hall in Eend. }
      apply not_Forall_Exists in Hsome; [|intros pc; apply _].
      apply Exists_exists in Hsome as (pc & [w Hpc]%list_elem_of_lookup & Hnx).
      simpl in Hnx. exists (Worker w).
      pose proof (Forall_lookup_1 _ _ _ _ Hspin Hpc) as Hsw.
      eapply team_leaves; [done|by apply Is_true_true| |done..].
      intros ->. by apply Hnx. }
  (* the master holds a node *)
  assert ((∃ x, lv_master k = LMasterTake x) ∨
          (∀ x, lv_master k ≠ LMasterTake x)) as [[x E3]|Hnt']
    by (destruct (lv_master k); eauto).
  { exists Ingest. specialize (Hdef Ingest). simpl in *.
    unfold list_v2_master in *. rewrite E3 in *.
    unfold list_v2_master_take in *.
    destruct (it_last x); [|destruct (it_frame x); [|done]];
      (eexists; split; [done|]); left; unfold v2_fuel; cbn;
      rewrite E3; cbn; lia. }
  assert (lv_master k ≠ LMasterExit) as Hne.
  { intros E3. by rewrite E3 in H3. }
  assert (master_id (lv_master k) = None ∧ master_sentinel (lv_master k) = 0%nat)
    as [Hmi Hms].
  { destruct (lv_master k) as [| | |x|]; try done. by destruct (Hnt' x). }
  rewrite Hmi, Hms in *. clear H3.
  (* a node in the input queue *)
  destruct (lv_in k) as [|x q] eqn:Ein.
  2: { destruct (lookup_lt_is_Some_2 (lv_team k) 0) as [pc Hpc]; [lia|].
       pose proof (Forall_lookup_1 _ _ _ _ Hspin Hpc) as Hsw.
       exists (Worker 0). eapply team_fetches; [done|by apply Is_true_true|..].
       - intros ->. by specialize (Hex _ Hpc).
       - done.
       - destruct (lv_any_work k); [done|]. exfalso.
         assert (sp = 1%nat) as -> by auto. rewrite Hsp in Hin by lia.
         assert (sent = 1%nat) as -> by lia. by rewrite !Nat.sub_diag in Hin.
       - by rewrite Ein. }
  (* the node block three waits for *)
  destruct (due k) eqn:Edue; [exists Ingest; by apply master_takes|].
  (* a frame to read *)
  destruct (lv_any_frame k) eqn:Eany; [exists Ingest; by apply master_reads|].
  (* otherwise every node is in the output queue, the due one first *)
  exfalso. destruct Hf as (_ & _ & -> & ->).
  assert (p = M ∧ sp = 1%nat) as [-> ->].
  { apply (f_equal length) in Hin.
    rewrite length_app, length_map, length_seq, length_replicate in Hin.
    simpl in Hin. lia. }
  cbn [option_list app] in Hp2. rewrite app_nil_r in Hp2.
  rewrite Hp1 in Hp2.
  replace M with (e + (M - e))%nat in Hp2 at 1 by lia.
  rewrite seq_app, map_app in Hp2. apply Permutation_app_inv_l in Hp2.
  unfold due in Edue.
  destruct (decide (e < M)%nat) as [Hlt|Hge].
  - assert (id_of e ∈ omap frame_id (lv_out k)) as Hin'.
    { rewrite <-Hp2. apply list_elem_of_fmap. exists e. split; [done|].
      apply elem_of_seq. lia. }
    apply frame_id_elem in Hin' as (y & Hy & _ & Hidy).
    destruct (lv_out k) as [|x q] eqn:Eo; [by apply elem_of_nil in Hy|].
    apply Z.eqb_neq in Edue. apply Edue.
    rewrite Hc. apply StronglySorted_inv in Hs as [_ Hall'].
    assert (it_id x ≤ it_id y) as Hle.
    { apply elem_of_cons in Hy as [->|Hy]; [lia|].
      rewrite Forall_forall in Hall'. by apply Hall'. }
    apply Forall_cons in Ho as [[[-> _]|(i & Hi & ->)] _].
    + cbn in *. unfold id_of in *. lia.
    + assert (id_of i ∈ map id_of (seq (0 + e) (M - e))) as Hi'.
      { rewrite Hp2. cbn [omap list_omap frame_id cooked it_last it_id]. left. }
      apply list_elem_of_fmap in Hi' as (j & Hj & Hjs%elem_of_seq).
      cbn in *. unfold id_of in *. lia.
  - assert (e = M) as -> by lia. rewrite Nat.sub_diag in Hp2. cbn in Hp2.
    destruct (sentinels_exist (lv_out k)) as (y & Hy & Hly); [simpl in Hst; lia|].
    destruct (lv_out k) as [|x q] eqn:Eo; [by apply elem_of_nil in Hy|].
    apply Z.eqb_neq in Edue. apply Edue.
    rewrite Hc. apply Forall_cons in Ho as [[[-> _]|(i & Hi & ->)] _].
    + cbn. lia.
    + symmetry in Hp2. apply Permutation_nil_r in Hp2.
      cbn [omap list_omap frame_id cooked it_last] in Hp2. done.
Qed.

(** *** Every reachable state has a run to the end *)

Lemma list_v2_reach_trans k1 k2 k3 :
  list_v2_reach process_image k1 k2 → list_v2_reach process_image k2 k3 →
  list_v2_reach process_image k1 k3.
Proof. intros H12 H23. induction H23; [done|]. by econstructor. Qed.

Lemma list_v2_completes k :
  0 < threads_number →
  list_v2_reach process_image (list_v2_init threads_number video) k →
  ∃ sched k', run sched k = Next k' ∧ lv_main k' = MainReturn.
Proof.
  intros HN. remember (v2_fuel k) as n eqn:En. revert k En.
  induction n as [n IHn] using lt_wf_ind. intros k En.
  remember (v2_wait k) as m eqn:Em. revert k En Em.
  induction m as [m IHm] using lt_wf_ind. intros k -> -> Hreach.
  assert (lv_main k = MainReturn ∨ lv_main k ≠ MainReturn) as [|Hne]
    by (destruct (lv_main k); auto); [by exists [], k|].
  destruct (v2_inv_reach process_image _ _ _ Hreach)
    as (r & p & e & sent & sp & Hi).
  destruct (v2_progress _ _ _ _ _ _ Hi HN Hne) as (t & k1 & Hstep & Hadv).
  assert (list_v2_reach process_image (list_v2_init threads_number video) k1)
    as Hreach1 by by econstructor.
  destruct Hadv as [Hlt|[Heq Hlt]].
  - destruct (IHn _ Hlt k1 eq_refl Hreach1) as (sched & k' & Hrun & Hk').
    exists (t :: sched), k'. simpl. by rewrite Hstep.
  - destruct (IHm _ Hlt k1 (eq_sym Heq) eq_refl Hreach1)
      as (sched & k' & Hrun & Hk').
    exists (t :: sched), k'. simpl. by rewrite Hstep.
Qed.

End V2Schedule.

(** ** The programs on the heap *)

Section Programs.
Context {Mat : Type}.
Variable process_image : Mat → Mat.
Variable threads_number : Z.
Variable video : list Mat.

Local Abbreviation M := (length video).

(** Every state of the three stages is described by a state on lists that
    satisfies the invariant. *)
Lemma stage_reach_inv (s : stage_state Mat) :
  stage_reach process_image (stage_init threads_number video) s →
  ∃ k r p e sent sp,
    stage_rel s k ∧
    list_stage_reach process_image (list_stage_init threads_number video) k ∧
    stage_inv process_image threads_number video r p e sent sp k.
Proof.
  intros (k & Hk & Hr)%stage_reach_rel.
  destruct (stage_inv_reach _ _ _ _ Hk) as (r & p & e & sent & sp & Hi).
  by exists k, r, p, e, sent, sp.
Qed.

Lemma v2_reach_inv (s : v2_state Mat) :
  v2_reach process_image (v2_init threads_number video) s →
  ∃ k r p e sent sp,
    v2_rel s k ∧ v2_inv process_image threads_number video r p e sent sp k.
Proof.
  intros (k & Hk & Hr)%v2_reach_rel.
  destruct (v2_inv_reach _ _ _ _ Hk) as (r & p & e & sent & sp & Hi).
  by exists k, r, p, e, sent, sp.
Qed.

Lemma stage_run_reach sched (s s' : stage_state Mat) :
  stage_run process_image sched s = Next s' → stage_reach process_image s s'.
Proof.
  revert s. induction sched as [|t sched IH]; intros s; simpl.
  - intros [= <-]. constructor.
  - destruct (stage_step process_image t s) as [s1| |] eqn:E; try done.
    intros H%IH. clear IH. induction H as [|s2 t' s3 _ IH H3].
    + econstructor; [constructor|done].
    + econstructor; [apply IH|done].
Qed.

Lemma v2_run_reach sched (s s' : v2_state Mat) :
  v2_run process_image sched s = Next s' → v2_reach process_image s s'.
Proof.
  revert s. induction sched as [|t sched IH]; intros s; simpl.
  - intros [= <-]. constructor.
  - destruct (v2_step process_image t s) as [s1| |] eqn:E; try done.
    intros H%IH. clear IH. induction H as [|s2 t' s3 _ IH H3].
    + econstructor; [constructor|done].
    + econstructor; [apply IH|done].
Qed.

(** No step of the three stages dereferences a null or dangling pointer. *)
Lemma stage_step_defined (s : stage_state Mat) t :
  stage_reach process_image (stage_init threads_number video) s →
  stage_step process_image t s ≠ Undefined.
Proof.
  intros (k & r & p & e & sent & sp & Hr & _ & Hi)%stage_reach_inv.
  pose proof (stage_step_rel process_image t _ _ Hr) as Hm.
  pose proof (stage_inv_defined _ _ _ _ _ _ _ _ _ Hi t) as Hd.
  destruct (list_stage_step process_image t k) as [k'| |]; simpl in Hm.
  - by destruct Hm as (s' & -> & _).
  - by rewrite Hm.
  - done.
Qed.

(** With at least one worker the three stages, from wherever they are, can
    run until [parallel_processing] returns. *)
Lemma stage_ends (s : stage_state Mat) :
  0 < threads_number →
  stage_reach process_image (stage_init threads_number video) s →
  ∃ sched s',
    stage_run process_image sched s = Next s' ∧ st_main s' = MainReturn.
Proof.
  intros HN (k & Hk & Hr)%stage_reach_rel.
  destruct (stage_completes process_image _ _ _ HN Hk) as (sched & k' & Hrun & Hk').
  pose proof (stage_run_rel process_image sched _ _ Hr) as Hm.
  rewrite Hrun in Hm. destruct Hm as (s' & Hs' & (held & li & lo & Hr')).
  exists sched, s'. split; [done|]. by rewrite (sr_main _ _ _ _ _ Hr').
Qed.

(** No run of the three stages has more than [7 M + 7 N + 5] steps. *)
Lemma stage_run_length sched (s : stage_state Mat) :
  stage_run process_image sched (stage_init threads_number video) = Next s →
  (length sched ≤ 7 * M + 7 * Z.to_nat threads_number + 5)%nat.
Proof.
  intros Hrun.
  pose proof (stage_run_rel process_image sched _ _
                (stage_rel_init threads_number video)) as Hm.
  rewrite Hrun in Hm.
  destruct (list_stage_run process_image sched _) as [k'| |] eqn:E; try done.
  apply stage_run_bounded in E. revert E.
  unfold stage_fuel, one_fuel. cbn.
  assert (∀ n, sum_list_with two_fuel (replicate n (@LTwoWait Mat)) = 0%nat)
    as -> by (intros n; induction n; simpl; lia).
  lia.
Qed.

(** With at least one thread besides the master, version 2, from wherever
    it is, can run until [parallel_processing] returns. *)
Lemma v2_ends (s : v2_state Mat) :
  0 < threads_number →
  v2_reach process_image (v2_init threads_number video) s →
  ∃ sched s',
    v2_run process_image sched s = Next s' ∧ v2_main s' = MainReturn.
Proof.
  intros HN (k & Hk & Hr)%v2_reach_rel.
  destruct (list_v2_completes process_image _ _ _ HN Hk)
    as (sched & k' & Hrun & Hk').
  pose proof (v2_run_rel process_image sched _ _ Hr) as Hm.
  rewrite Hrun in Hm. destruct Hm as (s' & Hs' & (held & li & lo & Hr')).
  exists sched, s'. split; [done|]. by rewrite (vr_main _ _ _ _ _ Hr').
Qed.

(** What an empty list of contents says about the heap. *)
Lemma mem_view_out_empty (g : globals Mat) li lo qi T
    (held : gmap addr (T * item Mat)) :
  mem_view g li lo qi [] held →
  output_head g = None ∧ size_output_work_queue g = 0.
Proof.
  intros Hv. pose proof (mv_out_items _ _ _ _ _ _ Hv) as Ho.
  apply Forall2_nil_inv_r in Ho as ->.
  destruct (mv_out _ _ _ _ _ _ Hv) as [Hc Hs _]. done.
Qed.

Lemma mem_view_in_empty (g : globals Mat) li lo qo T
    (held : gmap addr (T * item Mat)) :
  mem_view g li lo [] qo held →
  input_head g = None ∧ size_input_work_queue g = 0.
Proof.
  intros Hv. pose proof (mv_in_items _ _ _ _ _ _ Hv) as Ho.
  apply Forall2_nil_inv_r in Ho as ->.
  destruct (mv_in _ _ _ _ _ _ Hv) as [Hc Hs _]. done.
Qed.

End Programs.

(** ** What the invariants say when [parallel_processing] has returned *)

Section Final.
Context {Mat : Type}.
Variable process_image : Mat → Mat.
Variable threads_number : Z.
Variable video : list Mat.

Local Abbreviation N := (Z.to_nat threads_number).
Local Abbreviation M := (length video).

Lemma id_of_inj : Inj (=) (=) id_of.
Proof. intros i j. unfold id_of. lia. Qed.

Lemma NoDup_ids n : NoDup (map id_of (seq 0 n)).
Proof. apply NoDup_fmap_2; [apply id_of_inj|apply NoDup_seq]. Qed.

Lemma stage_inv_final r p e sent sp (k : list_stage Mat) :
  stage_inv process_image threads_number video r p e sent sp k →
  ls_main k ≠ MainJoin →
  e = M ∧ p = M ∧ r = M ∧ sent = N ∧
  ∀ w pc, ls_two k !! w = Some pc → pc = LTwoReturn.
Proof.
  intros Hi Hmain.
  destruct (si_main _ _ _ _ _ _ _ _ _ Hi) as [?|Hend]; [done|].
  pose proof (si_one _ _ _ _ _ _ _ _ _ Hi) as H1.
  pose proof (si_three _ _ _ _ _ _ _ _ _ Hi) as H3.
  unfold list_threads_ended in Hend.
  destruct (ls_one k); try done. destruct (ls_three k); try done.
  destruct H3 as [_ ->]. destruct H1 as (_ & _ & _ & ->).
  destruct (stage_inv_all_shown _ _ _ _ _ _ _ _ _ Hi eq_refl)
    as (_ & _ & _ & -> & ->).
  do 4 (split; [done|]). intros w pc Hpc.
  apply Is_true_true, forallb_True in Hend. rewrite Forall_lookup in Hend.
  specialize (Hend _ _ Hpc). by destruct pc.
Qed.

(** The frames in the output queue have pairwise different ids. *)
Lemma stage_inv_out_NoDup r p e sent sp (k : list_stage Mat) :
  stage_inv process_image threads_number video r p e sent sp k →
  NoDup (omap frame_id (ls_out k)).
Proof.
  intros Hi.
  pose proof (si_process1 _ _ _ _ _ _ _ _ _ Hi) as H1.
  pose proof (si_process2 _ _ _ _ _ _ _ _ _ Hi) as H2.
  pose proof (NoDup_ids p) as Hnd. rewrite <-H1 in Hnd.
  apply NoDup_app in Hnd as (Hnd & _ & _). rewrite H2 in Hnd.
  apply NoDup_app in Hnd as (_ & _ & Hnd).
  apply NoDup_app in Hnd as (_ & _ & Hnd).
  by apply NoDup_app in Hnd as (Hnd & _ & _).
Qed.

(** The ids on which [process_frame] was called are pairwise different. *)
Lemma stage_inv_process_NoDup r p e sent sp (k : list_stage Mat) :
  stage_inv process_image threads_number video r p e sent sp k →
  NoDup (process_ids (ls_log k)).
Proof.
  intros Hi.
  pose proof (si_process1 _ _ _ _ _ _ _ _ _ Hi) as H1.
  pose proof (NoDup_ids p) as Hnd. rewrite <-H1 in Hnd.
  by apply NoDup_app in Hnd as (Hnd & _ & _).
Qed.

Lemma v2_inv_final r p e sent sp (k : list_v2 Mat) :
  v2_inv process_image threads_number video r p e sent sp k →
  lv_main k ≠ MainJoin →
  e = M ∧ p = M ∧ r = M ∧ sent = 1%nat ∧ sp = 1%nat ∧ lv_in k = [].
Proof.
  intros Hi Hmain.
  destruct (vi_main _ _ _ _ _ _ _ _ _ Hi) as [?|Hend]; [done|].
  pose proof (vi_master _ _ _ _ _ _ _ _ _ Hi) as H3.
  pose proof (vi_bounds _ _ _ _ _ _ _ _ _ Hi) as Hb.
  pose proof (vi_in _ _ _ _ _ _ _ _ _ Hi) as Hin.
  unfold list_v2_ended in Hend. destruct (lv_master k); try done.
  destruct (vi_finished _ _ _ _ _ _ _ _ _ Hi H3) as [-> ->].
  destruct (v2_inv_all_shown _ _ _ _ _ _ _ _ _ Hi eq_refl)
    as (_ & _ & _ & -> & ->).
  assert (sent = 1%nat) as -> by lia.
  do 5 (split; [done|]). by rewrite Hin, Nat.sub_diag.
Qed.

End Final.

(** ** Without workers neither program returns *)

Section NoWorker.
Context {Mat : Type}.
Variable process_image : Mat → Mat.
Variable threads_number : Z.
Variable video : list Mat.
Hypothesis no_worker : threads_number ≤ 0.

Lemma list_stage_no_worker (k : list_stage Mat) :
  list_stage_reach process_image (list_stage_init threads_number video) k →
  ls_two k = [] ∧ ls_out k = [] ∧ ls_three k ≠ LThreeReturn ∧
  (∀ x, ls_three k ≠ LThreeTake x) ∧ ls_main k = MainJoin ∧ ls_writer k = [] ∧
  pop_ids (ls_log k) = [] ∧ process_ids (ls_log k) = [].
Proof.
  induction 1 as [|k1 t k2 _ (H2 & Ho & H3 & H3' & Hm & Hwr & Hpo & Hpr) Hs].
  - simpl. replace (Z.to_nat threads_number) with 0%nat by lia. done.
  - destruct t as [|w| |]; simpl in Hs.
    + unfold list_stage_one in Hs.
      repeat case_match; simplify_eq/=; log_simpl; by rewrite ?Hpo, ?Hpr.
    + unfold list_stage_two in Hs. by rewrite H2 in Hs.
    + unfold list_stage_three in Hs. rewrite Ho in Hs.
      destruct (ls_three k1) as [| |x|]; simplify_eq/=.
      * by rewrite !app_nil_r.
      * by destruct (H3' x).
    + unfold list_stage_main, list_threads_ended in Hs. rewrite Hm in Hs.
      destruct (ls_one k1); try done. by destruct (ls_three k1).
Qed.

Lemma list_v2_no_worker (k : list_v2 Mat) :
  list_v2_reach process_image (list_v2_init threads_number video) k →
  lv_team k = [] ∧ lv_out k = [] ∧ lv_finished k = false ∧
  lv_master k ≠ LMasterExit ∧ (∀ x, lv_master k ≠ LMasterTake x) ∧
  lv_main k = MainJoin ∧ lv_writer k = [].
Proof.
  induction 1 as [|k1 t k2 _ (H2 & Ho & Hf & H3 & H3' & Hm & Hwr) Hs].
  - simpl. replace (Z.to_nat threads_number) with 0%nat by lia. done.
  - destruct t as [|w| |]; simpl in Hs; [| |done|].
    + unfold list_v2_master in Hs.
      destruct (lv_master k1) as [| | |x|]; simplify_eq/=.
      * by rewrite Hf.
      * unfold list_v2_block_one. by repeat case_match.
      * unfold list_v2_block_three. by rewrite Ho.
      * by destruct (H3' x).
    + unfold list_v2_block_two in Hs. by rewrite H2 in Hs.
    + unfold list_v2_after in Hs. rewrite Hm in Hs.
      unfold list_v2_ended in Hs. by destruct (lv_master k1).
Qed.

(** With no worker the three stages remove no node from the input queue,
    process and write nothing, and [parallel_processing] does not return. *)
Lemma stage_no_worker (s : stage_state Mat) :
  stage_reach process_image (stage_init threads_number video) s →
  st_main s = MainJoin ∧ st_writer s = [] ∧
  pop_ids (st_log s) = [] ∧ process_ids (st_log s) = [].
Proof.
  intros (k & Hk & (held & li & lo & Hr))%stage_reach_rel.
  destruct (list_stage_no_worker k Hk) as (_ & _ & _ & _ & Hm & Hwr & Hpo & Hpr).
  by rewrite (sr_main _ _ _ _ _ Hr), (sr_writer _ _ _ _ _ Hr),
    (sr_log _ _ _ _ _ Hr).
Qed.

End NoWorker.

(** With [threads_number = 0] the master is alone: version 2 writes nothing
    and its loop does not end. *)
Lemma v2_no_worker {Mat : Type} (process_image : Mat → Mat) (video : list Mat)
    (s : v2_state Mat) :
  v2_reach process_image (v2_init 0 video) s →
  finished s = false ∧ v2_main s = MainJoin ∧ v2_writer s = [].
Proof.
  intros (k & Hk & (held & li & lo & Hr))%v2_reach_rel.
  destruct (list_v2_no_worker process_image 0 video (Z.le_refl 0) k Hk)
    as (_ & _ & Hf & _ & _ & Hm & Hwr).
  by rewrite (vr_main _ _ _ _ _ Hr), (vr_writer _ _ _ _ _ Hr),
    (vr_finished _ _ _ _ _ Hr).
Qed.

(** * Properties of the queues and of the pipeline *)

Section QueueClaims.
Context {Mat : Type}.

(** [QInsert] on well-formed queues: the fresh node is linked into the output
    queue at its sorted position, whatever ids the queue holds. *)
Lemma client_insert_spec (c : client Mat) li lo qi qo
    (held : gmap addr (unit * item Mat)) it :
  mem_view (cl_mem c) li lo qi qo held →
  ∃ c' lo',
    client_step (QInsert it) c = Some c' ∧
    chain (heap (cl_mem c')) (output_head (cl_mem c')) lo' ∧
    holds (heap (cl_mem c')) lo' (insert_item it qo) ∧
    size_output_work_queue (cl_mem c') = size_output_work_queue (cl_mem c) + 1.
Proof.
  intros Hv. unfold client_step.
  destruct (new_node it (cl_mem c)) as [a g1] eqn:En.
  pose proof (new_node_spec _ _ _ _ En) as (Hf & Hheap & Si & So).
  pose proof (new_node_unlinked _ _ _ _ En) as [Hul Hit].
  pose proof (mv_fresh _ _ _ _ _ _ _ Hv Hf) as (Hali & Halo & Hah).
  assert (mem_view g1 li lo qi qo (<[a := (tt, it)]> held)) as Hv1.
  { eapply mv_frame; [done..|by eapply new_node_outside| |].
    - by intros b ->%list_elem_of_singleton.
    - intros b t x Hb. destruct (decide (a = b)) as [<-|Hne].
      + rewrite lookup_insert_eq in Hb. by injection Hb as <- <-.
      + rewrite lookup_insert_ne in Hb by done.
        destruct (mv_held _ _ _ _ _ _ Hv _ _ _ Hb) as (U & I & ? & ?).
        assert (b ∉ [a]) by by intros ->%list_elem_of_singleton.
        split; [eapply unlinked_outside; [by eapply new_node_outside|done..]|].
        split; [|done].
        erewrite item_at_outside; [done|by eapply new_node_outside|done]. }
  destruct (mv_forward _ _ _ _ _ _ a tt it Hv1) as (g' & E' & Hv');
    [by rewrite lookup_insert_eq|].
  rewrite E'. simpl. eexists _, _. split; [done|]. simpl.
  split; [apply Hv'|]. split; [apply Hv'|].
  rewrite (mv_size_out _ _ _ _ _ _ Hv'), (mv_size_out _ _ _ _ _ _ Hv).
  rewrite insert_item_perm. simpl. lia.
Qed.

(** C4. The output work queue is sorted by [frame_number] after every
    sequence of queue operations, its head carries the smallest id present,
    [add_to_output_work_queue] links a node behind the nodes of smaller id
    and in front of the first node whose id is not smaller, and three nodes
    with ids 2, 0, 1, inserted in any order and then removed with the expected
    ids 0, 1, 2, come out in the order 0, 1, 2. *)
Theorem output_queue_sorted (ops : list (queue_op Mat)) :
  ∃ c lo qo,
    client_run ops client_init = Some c ∧
    chain (heap (cl_mem c)) (output_head (cl_mem c)) lo ∧
    holds (heap (cl_mem c)) lo qo ∧
    StronglySorted id_le qo ∧
    (∀ x q, qo = x :: q →
       get_head_id_from_output_work_queue (cl_mem c) = Some (it_id x) ∧
       Forall (λ y, it_id x ≤ it_id y) q) ∧
    (∀ it, ∃ c' lo' q1 q2,
       client_step (QInsert it) c = Some c' ∧
       chain (heap (cl_mem c')) (output_head (cl_mem c')) lo' ∧
       holds (heap (cl_mem c')) lo' (q1 ++ it :: q2) ∧
       qo = q1 ++ q2 ∧
       Forall (λ y, it_id y < it_id it) q1 ∧
       Forall (λ y, it_id it ≤ it_id y) q2) ∧
    (∀ f0 f1 f2 : option Mat,
       let i0 := Item f0 0 false in
       let i1 := Item f1 1 false in
       let i2 := Item f2 2 false in
       Forall (λ order,
           cl_emitted <$>
             client_run (map QInsert order ++ [QEmit 0; QEmit 1; QEmit 2])
                        client_init
           = Some [i0; i1; i2])
         (permutations [i2; i0; i1])).
Proof.
  destruct (client_run_wf ops) as (c & li & lo & qi & qo & held & E & Hv & _ & _ & Hs).
  exists c, lo, qo. split; [done|]. split; [apply Hv|]. split; [apply Hv|].
  split; [done|]. split; [|split].
  - intros x q ->. split; [by eapply mv_head_id|].
    by apply StronglySorted_inv in Hs as [_ ?].
  - intros it.
    destruct (client_insert_spec c _ _ _ _ _ it Hv) as (c' & lo' & E' & Hc' & Hh' & _).
    destruct (insert_item_position it qo) as (q1 & q2 & Hq & Hins & H1 & H2).
    exists c', lo', q1, q2. split; [done|]. split; [done|].
    split; [by rewrite <-Hins|]. split; [done|].
    split; [done|]. subst qo. apply StronglySorted_app_1_r in Hs.
    destruct q2 as [|y q2]; [done|]. apply StronglySorted_inv in Hs as [_ Hy].
    constructor; [done|]. eapply Forall_impl; [done|]. unfold id_le. simpl.
    intros z Hz. lia.
  - intros f0 f1 f2. cbv zeta.
    repeat (apply Forall_cons; split; [vm_compute; reflexivity|]).
    apply Forall_nil_2.
Qed.

(** C6. The input work queue is first in, first out: after every sequence
    of queue operations the contents removed so far followed by the contents
    of the queue are the contents pushed, in push order;
    [add_to_input_work_queue] appends the node at the tail and
    [remove_from_input_work_queue] removes and returns the head. *)
Theorem input_queue_fifo (ops : list (queue_op Mat)) :
  ∃ c li qi,
    client_run ops client_init = Some c ∧
    chain (heap (cl_mem c)) (input_head (cl_mem c)) li ∧
    holds (heap (cl_mem c)) li qi ∧
    cl_arrived c = cl_removed c ++ qi ∧
    (∀ it, ∃ c' a,
       client_step (QPush it) c = Some c' ∧
       chain (heap (cl_mem c')) (input_head (cl_mem c')) (li ++ [a]) ∧
       holds (heap (cl_mem c')) (li ++ [a]) (qi ++ [it]) ∧
       input_tail (cl_mem c') = Some a) ∧
    (∀ a li', li = a :: li' →
       ∃ c', client_step QPop c = Some c' ∧
             cl_hand c' = cl_hand c ++ [a] ∧
             cl_removed c' = cl_removed c ++ take 1 qi ∧
             chain (heap (cl_mem c')) (input_head (cl_mem c')) li' ∧
             holds (heap (cl_mem c')) li' (drop 1 qi)).
Proof.
  destruct (client_run_wf ops) as (c & li & lo & qi & qo & held & E & Hv & _ & Hf & _).
  exists c, li, qi. split; [done|]. split; [apply Hv|]. split; [apply Hv|].
  split; [done|]. split.
  - intros it. unfold client_step.
    destruct (new_node it (cl_mem c)) as [a g1] eqn:En.
    destruct (mv_push _ _ _ _ _ _ _ _ _ Hv En) as (g2 & E2 & Hv2).
    rewrite E2. simpl. eexists _, a. split; [done|]. simpl.
    split; [apply Hv2|]. split; [apply Hv2|].
    rewrite (in_tail _ _ (mv_in _ _ _ _ _ _ Hv2)); [by rewrite last_snoc|].
    by destruct li.
  - intros a li' ->. unfold client_step.
    rewrite (mv_size_in _ _ _ _ _ _ Hv).
    pose proof (mv_in_items _ _ _ _ _ _ Hv) as Hq.
    apply Forall2_cons_inv_l in Hq as (x & q & _ & _ & ->). simpl.
    destruct (mv_pop _ _ _ _ _ _ _ tt Hv) as (a' & l' & g' & [= <- <-] & E' & Hx & Hv').
    rewrite E'. simpl. unfold item_at in Hx.
    destruct (heap g' !! a) as [n|] eqn:En; [|done]. simpl.
    injection Hx as Hx. rewrite Hx.
    eexists. split; [done|]. simpl. split; [done|]. split; [done|].
    split; apply Hv'.
Qed.

(** C10. After every sequence of queue operations each size counter is the
    number of nodes reachable from the head of its queue; each add increments
    its counter by exactly one and each remove decrements it by exactly one,
    and neither touches the other counter. *)
Theorem size_counters_count_nodes (ops : list (queue_op Mat)) :
  ∃ c li lo,
    client_run ops client_init = Some c ∧
    chain (heap (cl_mem c)) (input_head (cl_mem c)) li ∧
    chain (heap (cl_mem c)) (output_head (cl_mem c)) lo ∧
    size_input_work_queue (cl_mem c) = Z.of_nat (length li) ∧
    size_output_work_queue (cl_mem c) = Z.of_nat (length lo) ∧
    (∀ (g g' : globals Mat) a, add_to_input_work_queue a g = Some g' →
       size_input_work_queue g' = size_input_work_queue g + 1 ∧
       size_output_work_queue g' = size_output_work_queue g) ∧
    (∀ (g g' : globals Mat) a, add_to_output_work_queue a g = Some g' →
       size_output_work_queue g' = size_output_work_queue g + 1 ∧
       size_input_work_queue g' = size_input_work_queue g) ∧
    (∀ (g g' : globals Mat) a, remove_from_input_work_queue g = Some (a, g') →
       size_input_work_queue g' = size_input_work_queue g - 1 ∧
       size_output_work_queue g' = size_output_work_queue g) ∧
    (∀ (g g' : globals Mat) a, remove_from_output_work_queue g = Some (a, g') →
       size_output_work_queue g' = size_output_work_queue g - 1 ∧
       size_input_work_queue g' = size_input_work_queue g).
Proof.
  destruct (client_run_wf ops) as (c & li & lo & qi & qo & held & E & Hv & _).
  exists c, li, lo. split; [done|].
  destruct Hv as [[Hci Hsi _] [Hco Hso _] _ _ _ _].
  do 4 (split; [done|]). split; [|split; [|split]].
  - intros g g' a. apply add_to_input_sizes.
  - intros g g' a. apply add_to_output_sizes.
  - intros g g' a. apply remove_from_input_sizes.
  - intros g g' a. apply remove_from_output_sizes.
Qed.

End QueueClaims.

Section PipelineClaims.
Context {Mat : Type}.
Variable process_image : Mat → Mat.

(** C1. For every stream and every worker count N ≥ 1, in both programs the
    frames written by [send_frame_to_display] are at every moment the
    transformed frames of a prefix of the stream, in capture order, and the
    ids of the nodes passed to it are 1, 2, 3, ... in this order, so that the
    node with id k + 1 is never passed before the node with id k; when
    [parallel_processing] has returned, the frames written are the
    transformed frames of the whole stream. Both programs can run to that
    end from every state they reach, and no run of the three stages has more
    than 7 M + 7 N + 5 steps (the loops of version 2 poll, so its runs have
    no bound). *)
Theorem frames_displayed_in_order (threads_number : Z) (video : list Mat) :
  0 < threads_number →
  (∀ s, stage_reach process_image (stage_init threads_number video) s →
     (∃ e, st_writer s = map process_image (take e video) ∧
           display_ids (st_log s) = map id_of (seq 0 e)) ∧
     (st_main s = MainReturn → st_writer s = map process_image video) ∧
     (∃ sched s', stage_run process_image sched s = Next s' ∧
                  st_main s' = MainReturn)) ∧
  (∀ sched s,
     stage_run process_image sched (stage_init threads_number video) = Next s →
     (length sched ≤
        7 * length video + 7 * Z.to_nat threads_number + 5)%nat) ∧
  (∀ s, v2_reach process_image (v2_init threads_number video) s →
     (∃ e, v2_writer s = map process_image (take e video) ∧
           display_ids (v2_log s) = map id_of (seq 0 e)) ∧
     (finished s = true → v2_writer s = map process_image video) ∧
     (v2_main s = MainReturn → v2_writer s = map process_image video) ∧
     (∃ sched s', v2_run process_image sched s = Next s' ∧
                  v2_main s' = MainReturn)).
Proof.
  intros HN. split; [|split].
  - intros s Hs.
    destruct (stage_reach_inv _ _ _ _ Hs)
      as (k & r & p & e & sent & sp & (held & li & lo & Hr) & _ & Hi).
    rewrite (sr_writer _ _ _ _ _ Hr), (sr_log _ _ _ _ _ Hr),
      (sr_main _ _ _ _ _ Hr).
    split; [|split].
    + exists e. split; [apply Hi|apply Hi].
    + intros Hm. destruct (stage_inv_final _ _ _ _ _ _ _ _ _ Hi) as (-> & _).
      { by rewrite Hm. }
      by rewrite (si_writer _ _ _ _ _ _ _ _ _ Hi), firstn_all.
    + by eapply stage_ends.
  - intros sched s. apply stage_run_length.
  - intros s Hs.
    destruct (v2_reach_inv _ _ _ _ Hs)
      as (k & r & p & e & sent & sp & (held & li & lo & Hr) & Hi).
    rewrite (vr_writer _ _ _ _ _ Hr), (vr_log _ _ _ _ _ Hr),
      (vr_main _ _ _ _ _ Hr), (vr_finished _ _ _ _ _ Hr).
    split; [|split; [|split]].
    + exists e. split; [apply Hi|apply Hi].
    + intros Hf. destruct (vi_finished _ _ _ _ _ _ _ _ _ Hi Hf) as [-> _].
      by rewrite (vi_writer _ _ _ _ _ _ _ _ _ Hi), firstn_all.
    + intros Hm. destruct (v2_inv_final _ _ _ _ _ _ _ _ _ Hi) as (-> & _).
      { by rewrite Hm. }
      by rewrite (vi_writer _ _ _ _ _ _ _ _ _ Hi), firstn_all.
    + by eapply v2_ends.
Qed.

(** C2. In the three-stage program, for every stream of M frames, the
    frames are removed from the input queue in the order of their ids
    1, 2, ..., each at most once; [process_frame] is called at most once on
    an id, and only on ids removed before; when [parallel_processing] has
    returned, the M frames pushed have each been removed exactly once and
    [process_frame] has been called exactly once on each of them. For every
    worker count, that is, for every N ≥ 1, the program can run to that end
    from every state it reaches. *)
Theorem frames_processed_once (threads_number : Z) (video : list Mat)
    (s : stage_state Mat) :
  stage_reach process_image (stage_init threads_number video) s →
  (∃ p, (p ≤ length video)%nat ∧
        pop_ids (st_log s) = map id_of (seq 0 p)) ∧
  NoDup (pop_ids (st_log s)) ∧
  NoDup (process_ids (st_log s)) ∧
  process_ids (st_log s) ⊆ pop_ids (st_log s) ∧
  (st_main s = MainReturn →
     omap (λ e : Z * bool, if e.2 then None else Some e.1)
          (push_log (st_log s))
       = map id_of (seq 0 (length video)) ∧
     pop_ids (st_log s) = map id_of (seq 0 (length video)) ∧
     process_ids (st_log s) ≡ₚ map id_of (seq 0 (length video))) ∧
  (0 < threads_number →
     ∃ sched s', stage_run process_image sched s = Next s' ∧
                 st_main s' = MainReturn).
Proof.
  intros Hs.
  destruct (stage_reach_inv _ _ _ _ Hs)
    as (k & r & p & e & sent & sp & (held & li & lo & Hr) & _ & Hi).
  rewrite (sr_log _ _ _ _ _ Hr), (sr_main _ _ _ _ _ Hr).
  pose proof (si_bounds _ _ _ _ _ _ _ _ _ Hi) as Hb.
  pose proof (si_pop _ _ _ _ _ _ _ _ _ Hi) as Hpo.
  pose proof (si_process1 _ _ _ _ _ _ _ _ _ Hi) as Hp1.
  pose proof (si_process2 _ _ _ _ _ _ _ _ _ Hi) as Hp2.
  split; [|split; [|split; [|split; [|split]]]].
  - exists p. split; [lia|done].
  - rewrite Hpo. apply NoDup_ids.
  - by eapply stage_inv_process_NoDup.
  - intros id Hid. rewrite Hpo, <-Hp1. apply elem_of_app. by left.
  - intros Hm.
    destruct (stage_inv_final _ _ _ _ _ _ _ _ _ Hi) as (-> & -> & -> & -> & _).
    { by rewrite Hm. }
    destruct (stage_inv_all_shown _ _ _ _ _ _ _ _ _ Hi eq_refl)
      as (Ho & Hsd & _).
    split; [|split; [done|]].
    + rewrite (si_push _ _ _ _ _ _ _ _ _ Hi), omap_app.
      rewrite omap_replicate_None by done. rewrite app_nil_r.
      generalize (seq 0 (length video)). intros l.
      induction l as [|i l IH]; [done|]. cbn. f_equal. apply IH.
    + rewrite Hp2, Hsd, Ho.
      pose proof (si_main _ _ _ _ _ _ _ _ _ Hi) as [Hj|He]; [by rewrite Hm in Hj|].
      unfold list_threads_ended in He. destruct (ls_one k); try done.
      destruct (ls_three k); try done. simpl. by rewrite app_nil_r.
  - intros HN. by eapply stage_ends.
Qed.

(** C3, as amended. For every worker count N ≥ 1: in the three-stage
    program, when [parallel_processing] has returned, [stage_one] has pushed
    the frames and then exactly N sentinels, every worker has removed exactly
    one sentinel and it is the last node it removed, and the output queue is
    empty; the program can reach that end from every state. In version 2,
    when [parallel_processing] has returned, exactly one sentinel has been
    pushed, whatever N is, exactly one removal from the input queue was the
    removal of a sentinel, [finished] is set, and both queues are empty;
    version 2 too can reach that end from every state. *)
Theorem sentinels_at_end_of_stream (threads_number : Z) (video : list Mat) :
  0 < threads_number →
  (∀ s, stage_reach process_image (stage_init threads_number video) s →
     (st_main s = MainReturn →
        push_log (st_log s) =
          map (λ i, (id_of i, false)) (seq 0 (length video)) ++
          replicate (Z.to_nat threads_number)
                    (Z.of_nat (length video) + 1, true) ∧
        (∀ w, (w < Z.to_nat threads_number)%nat →
           ∃ n, worker_pops w (st_log s) = replicate n false ++ [true]) ∧
        output_head (st_mem s) = None ∧
        size_output_work_queue (st_mem s) = 0) ∧
     (∃ sched s', stage_run process_image sched s = Next s' ∧
                  st_main s' = MainReturn)) ∧
  (∀ s, v2_reach process_image (v2_init threads_number video) s →
     (v2_main s = MainReturn →
        push_log (v2_log s) =
          map (λ i, (id_of i, false)) (seq 0 (length video)) ++
          [(Z.of_nat (length video) + 1, true)] ∧
        length (sentinel_pops (v2_log s)) = 1%nat ∧
        finished s = true ∧
        input_head (v2_mem s) = None ∧ size_input_work_queue (v2_mem s) = 0 ∧
        output_head (v2_mem s) = None ∧
        size_output_work_queue (v2_mem s) = 0) ∧
     (∃ sched s', v2_run process_image sched s = Next s' ∧
                  v2_main s' = MainReturn)).
Proof.
  intros HN. split.
  - intros s Hs.
    destruct (stage_reach_inv _ _ _ _ Hs)
      as (k & r & p & e & sent & sp & (held & li & lo & Hr) & _ & Hi).
    split; [|by eapply stage_ends].
    rewrite (sr_log _ _ _ _ _ Hr), (sr_main _ _ _ _ _ Hr). intros Hm.
    destruct (stage_inv_final _ _ _ _ _ _ _ _ _ Hi) as (-> & -> & -> & -> & H2).
    { by rewrite Hm. }
    split; [apply Hi|]. split.
    + intros w Hw.
      destruct (lookup_lt_is_Some_2 (ls_two k) w) as [pc Hpc].
      { by rewrite (si_workers _ _ _ _ _ _ _ _ _ Hi). }
      destruct (si_worker_pops _ _ _ _ _ _ _ _ _ Hi _ _ Hpc) as [n Hn].
      rewrite (H2 _ _ Hpc) in Hn. by exists n.
    + pose proof (sr_view _ _ _ _ _ Hr) as Hv.
      rewrite (si_done _ _ _ _ _ _ _ _ _ Hi Hm) in Hv.
      by eapply mem_view_out_empty.
  - intros s Hs. split; [|by eapply v2_ends]. intros Hmain.
    destruct (v2_reach_inv _ _ _ _ Hs)
      as (k & r & p & e & sent & sp & (held & li & lo & Hr) & Hi).
    rewrite (vr_log _ _ _ _ _ Hr), (vr_finished _ _ _ _ _ Hr).
    rewrite (vr_main _ _ _ _ _ Hr) in Hmain.
    destruct (v2_inv_final _ _ _ _ _ _ _ _ _ Hi)
      as (-> & -> & -> & -> & -> & Hin).
    { by rewrite Hmain. }
    split; [apply Hi|]. split; [apply Hi|]. split.
    + destruct (vi_main _ _ _ _ _ _ _ _ _ Hi) as [Hj|He];
        [by rewrite Hmain in Hj|].
      pose proof (vi_master _ _ _ _ _ _ _ _ _ Hi) as H3.
      unfold list_v2_ended in He. by destruct (lv_master k).
    + pose proof (vr_view _ _ _ _ _ Hr) as Hv.
      rewrite (vi_done _ _ _ _ _ _ _ _ _ Hi Hmain), Hin in Hv.
      destruct (mem_view_out_empty _ _ _ _ _ _ Hv).
      by destruct (mem_view_in_empty _ _ _ _ _ _ Hv).
Qed.

(** C5, as amended. In every state of the three-stage program the nodes of
    the output queue that carry a frame have pairwise different ids, and the
    sentinels in it all carry the id that follows the last frame, so that
    several nodes of the queue can have that id. [add_to_output_work_queue]
    rejects no node: after every sequence of queue operations it links the
    node, the queue has one node more, and a node whose id is already in the
    queue is linked in front of the first node with that id. *)
Theorem output_queue_frame_ids_distinct (threads_number : Z)
    (video : list Mat) :
  (∀ s, stage_reach process_image (stage_init threads_number video) s →
     ∃ lo qo,
       chain (heap (st_mem s)) (output_head (st_mem s)) lo ∧
       holds (heap (st_mem s)) lo qo ∧
       NoDup (omap frame_id qo) ∧
       Forall (λ x, it_last x = true →
                    it_id x = Z.of_nat (length video) + 1) qo) ∧
  (∀ (ops : list (queue_op Mat)) it,
     ∃ c lo qo c' lo',
       client_run ops client_init = Some c ∧
       chain (heap (cl_mem c)) (output_head (cl_mem c)) lo ∧
       holds (heap (cl_mem c)) lo qo ∧
       client_step (QInsert it) c = Some c' ∧
       chain (heap (cl_mem c')) (output_head (cl_mem c')) lo' ∧
       holds (heap (cl_mem c')) lo' (insert_item it qo) ∧
       length lo' = S (length lo) ∧
       size_output_work_queue (cl_mem c') =
         size_output_work_queue (cl_mem c) + 1) ∧
  (∀ (it y : item Mat) q1 q2,
     it_id it = it_id y → Forall (λ z, it_id z < it_id it) q1 →
     insert_item it (q1 ++ y :: q2) = q1 ++ it :: y :: q2).
Proof.
  split; [|split].
  - intros s Hs.
    destruct (stage_reach_inv _ _ _ _ Hs)
      as (k & r & p & e & sent & sp & (held & li & lo & Hr) & _ & Hi).
    pose proof (sr_view _ _ _ _ _ Hr) as Hv.
    exists lo, (ls_out k). split; [apply Hv|]. split; [apply Hv|].
    split; [by eapply stage_inv_out_NoDup|].
    eapply Forall_impl; [apply (si_out _ _ _ _ _ _ _ _ _ Hi)|].
    intros x [[-> _]|(i & _ & ->)]; [done|]. simpl. done.
  - intros ops it.
    destruct (client_run_wf ops)
      as (c & li & lo & qi & qo & held & E & Hv & _ & _ & _).
    destruct (client_insert_spec c _ _ _ _ _ it Hv)
      as (c' & lo' & E' & Hc' & Hh' & Hsz).
    exists c, lo, qo, c', lo'. split; [done|]. split; [apply Hv|].
    split; [apply Hv|]. do 3 (split; [done|]). split; [|done].
    apply Forall2_length in Hh'. rewrite Hh', insert_item_perm. simpl.
    f_equal. symmetry. eapply Forall2_length, Hv.
  - intros it y q1 q2 Hid Hq1.
    induction Hq1 as [|z q1 Hz _ IH]; simpl.
    + destruct (Z.leb_spec (it_id it) (it_id y)); [done|lia].
    + destruct (Z.leb_spec (it_id it) (it_id z)); [lia|]. by rewrite IH.
Qed.

(** C7. In every state of both programs every node on the heap has
    [frame = NULL] exactly when [is_the_last_node] is true; a step that
    creates a node creates it so, and a step changes neither the id, nor the
    flag, nor the presence of the frame of a node that stays on the heap. *)
Theorem payload_iff_not_terminal (threads_number : Z) (video : list Mat) :
  (∀ s, stage_reach process_image (stage_init threads_number video) s →
     heap_ok (heap (st_mem s)) ∧
     ∀ t s', stage_step process_image t s = Next s' →
             kept (heap (st_mem s)) (heap (st_mem s'))) ∧
  (∀ s, v2_reach process_image (v2_init threads_number video) s →
     heap_ok (heap (v2_mem s)) ∧
     ∀ t s', v2_step process_image t s = Next s' →
             kept (heap (v2_mem s)) (heap (v2_mem s'))).
Proof.
  split; intros s Hs; (split; [|intros t s' Hstep]).
  - by eapply stage_reach_heap_ok.
  - by eapply stage_step_kept.
  - by eapply v2_reach_heap_ok.
  - by eapply v2_step_kept.
Qed.

End PipelineClaims.

(** C8, as amended. [main] does not look at the worker count: whatever
    number [atoi(argv[2])] is, also zero or a negative number, [main] writes
    nothing before the frames are read and calls [parallel_processing] once,
    with [threads_number] set to that number. *)
Theorem main_passes_any_worker_count (c : command_line) :
  pipeline_runs (main c) =
    [(threads_argument c, name_opens c || camera_opens c)] ∧
  Forall (λ x, prints x = false) (before_processing (main c)) ∧
  ∃ calls, main c = before_processing (main c) ++
                    ParallelProcessing (threads_argument c)
                                       (name_opens c || camera_opens c) :: calls.
Proof.
  unfold main, open_capture.
  destruct (name_opens c); simpl; (split; [done|]);
    (split; [by repeat constructor|by eexists]).
Qed.

(** C9, as amended. When the stream cannot be opened by its name, [main]
    tries once to open the camera whose index is [atoi] of the name; whether
    this succeeds or not, [main] writes nothing before the frames are read
    and starts to read them: the parallel programs call
    [parallel_processing] and the sequential programs enter their loop, on a
    capture that is opened exactly when one of the two attempts
    succeeded. *)
Theorem main_reads_from_any_capture (c : command_line) :
  (name_opens c = true →
     main c = [CaptureOpenName; WriterOpen;
               ParallelProcessing (threads_argument c) true; PrintTimes] ∧
     Sequential.main c = [CaptureOpenName; WriterOpen;
                          SequentialLoop true; PrintTimes]) ∧
  (name_opens c = false →
     main c = [CaptureOpenName; CaptureOpenIndex (camera_index c); WriterOpen;
               ParallelProcessing (threads_argument c) (camera_opens c);
               PrintTimes] ∧
     Sequential.main c = [CaptureOpenName; CaptureOpenIndex (camera_index c);
                          WriterOpen; SequentialLoop (camera_opens c);
                          PrintTimes]).
Proof.
  unfold main, Sequential.main, open_capture.
  split; intros ->; done.
Qed.

(** ** Concrete runs

    Frames are integers here and [process_frame] negates them. *)

(** A run of the three stages with two workers on a stream of two frames:
    [stage_one] to its end, the first worker on both frames and a sentinel,
    the second worker on the other sentinel, [stage_three] to its end, then
    the drain. *)
Definition two_frames_schedule : list thread :=
  replicate 6 Ingest ++ replicate 8 (Worker 0) ++ replicate 2 (Worker 1) ++
  replicate 9 Emit ++ replicate 3 Main.

(** A run of version 2 with two workers on a stream of one frame: the master
    reads the frame and the end of the stream, the first worker moves the
    frame and the sentinel, the master displays the frame and finds the
    sentinel, and everybody leaves. *)
Definition one_frame_schedule : list thread :=
  replicate 6 Ingest ++ replicate 10 (Worker 0) ++ replicate 9 Ingest ++
  [Worker 0; Worker 1; Main; Main].

(** A run of the three stages with two workers on the empty stream, up to
    the moment both sentinels are in the output queue. *)
Definition two_sentinels_schedule : list thread :=
  replicate 4 Ingest ++ replicate 2 (Worker 0) ++ replicate 2 (Worker 1).

Lemma frames_displayed_in_order_witness :
  ∃ s, stage_run Z.opp two_frames_schedule (stage_init 2 [3; 4]) = Next s ∧
       st_main s = MainReturn ∧
       st_writer s = map Z.opp [3; 4].
Proof.
  eexists. split; [vm_compute; reflexivity|]. split; [vm_compute; reflexivity|].
  refine (proj1 (proj2 (proj1 (frames_displayed_in_order Z.opp 2 [3; 4] _)
                          _ _)) _).
  - lia.
  - apply stage_run_reach with two_frames_schedule. vm_compute. reflexivity.
  - vm_compute. reflexivity.
Defined.

Lemma frames_processed_once_witness :
  ∃ s, stage_run Z.opp two_frames_schedule (stage_init 2 [3; 4]) = Next s ∧
       NoDup (process_ids (st_log s)) ∧
       process_ids (st_log s) ⊆ pop_ids (st_log s).
Proof.
  eexists. split; [vm_compute; reflexivity|].
  refine ((λ H, conj (proj1 (proj2 (proj2 H)))
                     (proj1 (proj2 (proj2 (proj2 H)))))
            (frames_processed_once Z.opp 2 [3; 4] _ _)).
  apply stage_run_reach with two_frames_schedule. vm_compute. reflexivity.
Defined.

Lemma sentinels_at_end_of_stream_witness :
  ∃ s, v2_run Z.opp one_frame_schedule (v2_init 2 [7]) = Next s ∧
       length (sentinel_pops (v2_log s)) = 1%nat ∧
       finished s = true.
Proof.
  eexists. split; [vm_compute; reflexivity|].
  refine ((λ H, conj (proj1 (proj2 H)) (proj1 (proj2 (proj2 H))))
            (proj1 (proj2 (sentinels_at_end_of_stream Z.opp 2 [7] _) _ _) _)).
  - lia.
  - apply v2_run_reach with one_frame_schedule. vm_compute. reflexivity.
  - vm_compute. reflexivity.
Defined.

(** With the worker count 0 the frame that [stage_one] pushes is never
    removed from the input queue and never processed, and
    [parallel_processing] never returns; the same holds for version 2, where
    the master is then the only thread. *)
Lemma no_worker_no_processing :
  (∃ s, stage_run Z.opp [Ingest; Ingest; Ingest] (stage_init 0 [5]) = Next s ∧
        st_one s = OneReturn ∧
        push_log (st_log s) = [(1, false)] ∧
        size_input_work_queue (st_mem s) = 1) ∧
  (∀ s, stage_reach Z.opp (stage_init 0 [5]) s →
        st_main s = MainJoin ∧ st_writer s = [] ∧
        pop_ids (st_log s) = [] ∧ process_ids (st_log s) = []) ∧
  (∀ s, v2_reach Z.opp (v2_init 0 [5]) s →
        finished s = false ∧ v2_main s = MainJoin ∧ v2_writer s = []).
Proof.
  split; [|split].
  - eexists. split; vm_compute; [reflexivity|done].
  - by apply stage_no_worker.
  - by apply v2_no_worker.
Qed.

(** Version 2 with two workers pushes one sentinel only: the first worker
    removes it and the second leaves the loop without having removed a
    node. *)
Lemma v2_pushes_one_sentinel :
  ∃ s, v2_run Z.opp one_frame_schedule (v2_init 2 [7]) = Next s ∧
       v2_main s = MainReturn ∧
       v2_team s = [TeamExit; TeamExit] ∧
       v2_writer s = [-7] ∧
       push_log (v2_log s) = [(1, false); (2, true)] ∧
       worker_pops 0 (v2_log s) = [false; true] ∧
       worker_pops 1 (v2_log s) = [].
Proof. eexists. split; vm_compute; [reflexivity|done]. Qed.

(** With two workers and the empty stream both sentinels have the id 1, and
    both are in the output queue once the workers have returned; and
    [add_to_output_work_queue] links a second node with the id of the
    first. *)
Lemma output_queue_holds_equal_ids :
  (∃ s, stage_run Z.opp two_sentinels_schedule (stage_init 2 []) = Next s ∧
        st_two s = [TwoReturn; TwoReturn] ∧
        output_head (st_mem s) = Some 1%nat ∧
        heap (st_mem s) !! 1%nat = Some (WorkNode None 1 true (Some 0%nat)) ∧
        heap (st_mem s) !! 0%nat = Some (WorkNode None 1 true None) ∧
        size_output_work_queue (st_mem s) = 2) ∧
  (∃ c, client_run [QInsert (Item (Some 10) 4 false);
                    QInsert (Item (Some 20) 4 false)] client_init = Some c ∧
        output_head (cl_mem c) = Some 1%nat ∧
        heap (cl_mem c) !! 1%nat = Some (WorkNode (Some 20) 4 false (Some 0%nat)) ∧
        heap (cl_mem c) !! 0%nat = Some (WorkNode (Some 10) 4 false None) ∧
        size_output_work_queue (cl_mem c) = 2).
Proof.
  split; eexists; (split; vm_compute; [reflexivity|done]).
Qed.

(** With the worker count 0, and with a negative one, [main] calls
    [parallel_processing] and writes nothing before. *)
Lemma main_accepts_zero_workers :
  main (CommandLine 0 0 true false) =
    [CaptureOpenName; WriterOpen; ParallelProcessing 0 true; PrintTimes] ∧
  main (CommandLine (-3) 0 true false) =
    [CaptureOpenName; WriterOpen; ParallelProcessing (-3) true; PrintTimes].
Proof. split; reflexivity. Qed.

(** When neither the name nor the camera index opens, [main] starts to read
    frames all the same and writes nothing before. *)
Lemma main_reads_unopened_capture :
  main (CommandLine 4 0 false false) =
    [CaptureOpenName; CaptureOpenIndex 0; WriterOpen;
     ParallelProcessing 4 false; PrintTimes] ∧
  Sequential.main (CommandLine 4 0 false false) =
    [CaptureOpenName; CaptureOpenIndex 0; WriterOpen;
     SequentialLoop false; PrintTimes].
Proof. split; reflexivity. Qed.

(** * Further properties of the programs *)

(** ** Allocation and release of work nodes *)

(** Ids of the nodes freed, by [send_frame_to_display] and by the loop that
    ends [parallel_processing], in the order in which they were freed. *)
Definition free_log (log : list event) : list Z :=
  omap (λ ev, match ev with
              | EvDisplay id => Some id
              | EvDiscard id _ => Some id
              | _ => None
              end) log.

(** The nodes freed by the loop that ends [parallel_processing]. *)
Definition discard_log (log : list event) : list (Z * bool) :=
  omap (λ ev, match ev with
              | EvDiscard id last => Some (id, last)
              | _ => None
              end) log.

Lemma free_log_snoc log ev : free_log (log ++ [ev]) = free_log log ++ free_log [ev].
Proof. apply omap_app. Qed.
Lemma discard_log_snoc log ev :
  discard_log (log ++ [ev]) = discard_log log ++ discard_log [ev].
Proof. apply omap_app. Qed.

Ltac count_simpl :=
  rewrite ?free_log_snoc, ?push_log_snoc, ?discard_log_snoc, ?display_ids_snoc;
  cbn [free_log push_log discard_log display_ids omap list_omap];
  rewrite ?app_nil_r, ?length_app; cbn [length].

Section NodeCount.
Context {Mat : Type}.
Variable process_image : Mat → Mat.
Implicit Types (h : gmap addr (work_node Mat)) (g : globals Mat).

(** Every node allocated so far is on the heap or has been freed. *)
Definition balanced h (log : list event) : Prop :=
  (size h + length (free_log log) = length (push_log log))%nat.

Lemma store_next_size a nx h h' : store_next a nx h = Some h' → size h' = size h.
Proof.
  unfold store_next. destruct (h !! a) as [n|] eqn:E; [|done].
  intros [= <-]. by apply map_size_insert_Some.
Qed.

Lemma new_node_size it g a g' :
  new_node it g = (a, g') → size (heap g') = S (size (heap g)).
Proof.
  intros [= <- <-]. simpl. apply map_size_insert_None.
  apply not_elem_of_dom. apply is_fresh.
Qed.

Lemma free_node_size a g :
  is_Some (heap g !! a) → S (size (heap (free_node a g))) = size (heap g).
Proof.
  intros Ha. simpl. rewrite map_size_delete_Some by done.
  destruct Ha as [n Ha]. assert (size (heap g) ≠ 0%nat); [|lia].
  by apply (map_size_ne_0_lookup_2 _ a).
Qed.

Lemma add_to_input_size a g g' :
  add_to_input_work_queue a g = Some g' → size (heap g') = size (heap g).
Proof.
  unfold add_to_input_work_queue. case_match.
  - by intros [= <-].
  - destruct (input_tail g) as [tl|]; [|done]. simpl.
    destruct (store_next tl (Some a) (heap g)) as [h|] eqn:E; [|done].
    intros [= <-]. by eapply store_next_size.
Qed.

Lemma add_to_output_scan_size fuel a id cur h h' at_end :
  add_to_output_scan fuel a id cur h = Some (h', at_end) → size h' = size h.
Proof.
  revert cur. induction fuel as [|fuel IH]; intros cur; simpl; [done|].
  destruct (h !! cur) as [c|]; [|done]. simpl.
  destruct (next c) as [nx|].
  - destruct (h !! nx) as [nxt|]; [|done]. simpl. case_match; [|by apply IH].
    destruct (store_next a (Some nx) h) as [h1|] eqn:E1; [|done]. simpl.
    destruct (store_next cur (Some a) h1) as [h2|] eqn:E2; [|done].
    intros [= <- _]. apply store_next_size in E1, E2. congruence.
  - destruct (store_next a None h) as [h1|] eqn:E1; [|done]. simpl.
    destruct (store_next cur (Some a) h1) as [h2|] eqn:E2; [|done].
    intros [= <- _]. apply store_next_size in E1, E2. congruence.
Qed.

Lemma add_to_output_size a g g' :
  add_to_output_work_queue a g = Some g' → size (heap g') = size (heap g).
Proof.
  unfold add_to_output_work_queue. case_match.
  - by intros [= <-].
  - destruct (heap g !! a) as [na|]; [|done]. simpl.
    destruct (output_head g) as [hd|]; [|done]. simpl.
    destruct (heap g !! hd) as [c|]; [|done]. simpl. case_match.
    + destruct (store_next a (Some hd) (heap g)) as [h|] eqn:E; [|done].
      intros [= <-]. by eapply store_next_size.
    + destruct (add_to_output_scan _ _ _ _ _) as [[h at_end]|] eqn:E; [|done].
      intros [= <-]. by eapply add_to_output_scan_size.
Qed.

Lemma remove_from_input_size a g g' :
  remove_from_input_work_queue g = Some (a, g') →
  size (heap g') = size (heap g).
Proof.
  unfold remove_from_input_work_queue.
  destruct (input_head g) as [hd|]; [|done]. simpl.
  destruct (heap g !! hd) as [n|] eqn:E; [|done]. intros [= <- <-].
  by apply map_size_insert_Some.
Qed.

Lemma remove_from_output_size a g g' :
  remove_from_output_work_queue g = Some (a, g') →
  size (heap g') = size (heap g).
Proof.
  unfold remove_from_output_work_queue.
  destruct (output_head g) as [hd|]; [|done]. simpl.
  destruct (heap g !! hd) as [n|] eqn:E; [|done]. intros [= <- <-].
  by apply map_size_insert_Some.
Qed.

Lemma process_frame_size a g g' :
  process_frame process_image a g = Some g' → size (heap g') = size (heap g).
Proof.
  unfold process_frame. destruct (heap g !! a) as [n|] eqn:E; [|done]. simpl.
  destruct (frame n) as [image|]; [|done]. intros [= <-].
  by apply map_size_insert_Some.
Qed.

Lemma send_frame_to_display_size a g image g' :
  send_frame_to_display a g = Some (image, g') →
  S (size (heap g')) = size (heap g).
Proof.
  unfold send_frame_to_display. destruct (heap g !! a) as [n|] eqn:E; [|done].
  simpl. destruct (frame n); [|done]. intros [= _ <-].
  by apply free_node_size.
Qed.

Lemma stage_step_balanced t (s s' : stage_state Mat) :
  stage_step process_image t s = Next s' →
  balanced (heap (st_mem s)) (st_log s) →
  balanced (heap (st_mem s')) (st_log s').
Proof.
  unfold balanced. destruct t as [|w| |]; simpl.
  - unfold stage_one. destruct (st_one s) as [|i|]; [| |done].
    + destruct (st_capture s) as [|image rest]; [by intros [= <-]|].
      destruct (new_node _ _) as [a g1] eqn:En.
      destruct (add_to_input_work_queue a g1) as [g'|] eqn:Ea; [|done].
      intros [= <-]. simpl. count_simpl.
      apply new_node_size in En. apply add_to_input_size in Ea. lia.
    + case_match; [|by intros [= <-]].
      destruct (new_node _ _) as [a g1] eqn:En.
      destruct (add_to_input_work_queue a g1) as [g'|] eqn:Ea; [|done].
      intros [= <-]. simpl. count_simpl.
      apply new_node_size in En. apply add_to_input_size in Ea. lia.
  - unfold stage_two. destruct (st_two s !! w) as [[|a|a|]|]; try done.
    + case_match; [done|].
      destruct (remove_from_input_work_queue _) as [[a g]|] eqn:E; [|done].
      simpl. destruct (heap g !! a); [|done]. intros [= <-]. simpl.
      count_simpl. apply remove_from_input_size in E. lia.
    + destruct (heap (st_mem s) !! a) as [n|]; [|done]. simpl.
      destruct (is_the_last_node n).
      * destruct (add_to_output_work_queue _ _) as [g|] eqn:E; [|done].
        intros [= <-]. simpl. count_simpl. apply add_to_output_size in E. lia.
      * destruct (process_frame _ _ _) as [g|] eqn:E; [|done].
        intros [= <-]. simpl. count_simpl. apply process_frame_size in E. lia.
    + destruct (heap (st_mem s) !! a) as [n|]; [|done]. simpl.
      destruct (add_to_output_work_queue _ _) as [g|] eqn:E; [|done].
      intros [= <-]. simpl. count_simpl. apply add_to_output_size in E. lia.
  - unfold stage_three. destruct (st_three s) as [| |a|]; [| | |done].
    + intros [= <-]. simpl. by rewrite app_nil_r.
    + case_match; [done|].
      destruct (get_head_id_from_output_work_queue _); [|done].
      case_match; [|done].
      destruct (remove_from_output_work_queue _) as [[a g]|] eqn:E; [|done].
      simpl. destruct (heap g !! a); [|done]. intros [= <-]. simpl.
      count_simpl. apply remove_from_output_size in E. lia.
    + destruct (heap (st_mem s) !! a) as [n|]; [|done]. simpl.
      destruct (is_the_last_node n).
      { intros [= <-]. simpl. by rewrite app_nil_r. }
      destruct (send_frame_to_display _ _) as [[image g]|] eqn:E; [|done].
      intros [= <-]. simpl. count_simpl.
      apply send_frame_to_display_size in E. lia.
  - unfold stage_main. destruct (st_main s); [| |done].
    + case_match; [|done]. intros [= <-]. simpl. by rewrite app_nil_r.
    + case_match; [|intros [= <-]; simpl; by rewrite app_nil_r].
      destruct (remove_from_output_work_queue _) as [[a g]|] eqn:E; [|done].
      simpl. destruct (heap g !! a) eqn:Ea; [|done]. intros [= <-].
      cbn [st_mem st_log stage_main_set]. count_simpl.
      apply remove_from_output_size in E.
      pose proof (free_node_size a g (mk_is_Some _ _ Ea)). lia.
Qed.

Lemma v2_step_balanced t (s s' : v2_state Mat) :
  v2_step process_image t s = Next s' →
  balanced (heap (v2_mem s)) (v2_log s) →
  balanced (heap (v2_mem s')) (v2_log s').
Proof.
  unfold balanced. destruct t as [|w| |]; simpl; [| |done|].
  - unfold v2_master_step. destruct (v2_master s) as [| | |a|]; [| | | |done].
    + by intros [= <-].
    + unfold v2_block_one. destruct (is_there_any_frame s); [|by intros [= <-]].
      destruct (v2_capture s) as [|image rest].
      * destruct (new_node _ _) as [a g1] eqn:En.
        destruct (add_to_input_work_queue a g1) as [g'|] eqn:Ea; [|done].
        intros [= <-]. simpl. count_simpl.
        apply new_node_size in En. apply add_to_input_size in Ea. lia.
      * destruct (new_node _ _) as [a g1] eqn:En.
        destruct (add_to_input_work_queue a g1) as [g'|] eqn:Ea; [|done].
        intros [= <-]. simpl. count_simpl.
        apply new_node_size in En. apply add_to_input_size in Ea. lia.
    + unfold v2_block_three. case_match; [|by intros [= <-]].
      destruct (get_head_id_from_output_work_queue _); [|done]. simpl.
      case_match; [|by intros [= <-]].
      destruct (remove_from_output_work_queue _) as [[a g]|] eqn:E; [|done].
      simpl. destruct (heap g !! a); [|done]. intros [= <-]. simpl.
      count_simpl. apply remove_from_output_size in E. lia.
    + unfold v2_master_take.
      destruct (heap (v2_mem s) !! a) as [n|]; [|done]. simpl.
      destruct (is_the_last_node n); [by intros [= <-]|].
      destruct (send_frame_to_display _ _) as [[image g]|] eqn:E; [|done].
      intros [= <-]. simpl. count_simpl.
      apply send_frame_to_display_size in E. lia.
  - unfold v2_block_two. destruct (v2_team s !! w) as [[| | |a|a| |]|]; try done.
    + intros [= <-]. simpl. by rewrite app_nil_r.
    + intros [= <-]. simpl. by rewrite app_nil_r.
    + case_match; [|intros [= <-]; simpl; by rewrite app_nil_r].
      destruct (remove_from_input_work_queue _) as [[a g]|] eqn:E; [|done].
      simpl. destruct (heap g !! a); [|done]. intros [= <-]. simpl.
      count_simpl. apply remove_from_input_size in E. lia.
    + destruct (heap (v2_mem s) !! a) as [n|]; [|done]. simpl.
      destruct (is_the_last_node n).
      * destruct (add_to_output_work_queue _ _) as [g|] eqn:E; [|done].
        intros [= <-]. simpl. count_simpl. apply add_to_output_size in E. lia.
      * destruct (process_frame _ _ _) as [g|] eqn:E; [|done].
        intros [= <-]. simpl. count_simpl. apply process_frame_size in E. lia.
    + destruct (heap (v2_mem s) !! a) as [n|]; [|done]. simpl.
      destruct (add_to_output_work_queue _ _) as [g|] eqn:E; [|done].
      intros [= <-]. simpl. count_simpl. apply add_to_output_size in E. lia.
    + intros [= <-]. simpl. by rewrite app_nil_r.
  - unfold v2_after. destruct (v2_main s); [| |done].
    + case_match; [|done]. intros [= <-]. simpl. by rewrite app_nil_r.
    + case_match; [|intros [= <-]; simpl; by rewrite app_nil_r].
      destruct (remove_from_output_work_queue _) as [[a g]|] eqn:E; [|done].
      simpl. destruct (heap g !! a) eqn:Ea; [|done]. intros [= <-].
      cbn [v2_mem v2_log v2_main_set]. count_simpl.
      apply remove_from_output_size in E.
      pose proof (free_node_size a g (mk_is_Some _ _ Ea)). lia.
Qed.

Lemma stage_reach_balanced threads_number video (s : stage_state Mat) :
  stage_reach process_image (stage_init threads_number video) s →
  balanced (heap (st_mem s)) (st_log s).
Proof.
  induction 1 as [|s1 t s2 _ IH Hs]; [done|]. by eapply stage_step_balanced.
Qed.

Lemma v2_reach_balanced threads_number video (s : v2_state Mat) :
  v2_reach process_image (v2_init threads_number video) s →
  balanced (heap (v2_mem s)) (v2_log s).
Proof.
  induction 1 as [|s1 t s2 _ IH Hs]; [done|]. by eapply v2_step_balanced.
Qed.

End NodeCount.

(** ** What the final loop frees *)

Section Release.
Context {Mat : Type}.
Variable process_image : Mat → Mat.
Variable threads_number : Z.
Variable video : list Mat.

Local Abbreviation N := (Z.to_nat threads_number).
Local Abbreviation M := (length video).
Local Abbreviation stage_inv := (stage_inv process_image threads_number video).
Local Abbreviation v2_inv := (v2_inv process_image threads_number video).
Local Abbreviation sentinel := (sentinel video).

Lemma frames_and_sentinels (q : list (item Mat)) :
  (length (omap frame_id q) + length (omap sentinel_u q) = length q)%nat.
Proof.
  induction q as [|x q IH]; [done|]. rewrite !length_omap_cons.
  unfold frame_id at 1, sentinel_u at 1. destruct (it_last x); simpl; lia.
Qed.

(** A thread of the three stages takes its steps before the join. *)
Lemma stage_step_joined t r p e sent sp (k k' : list_stage Mat) :
  stage_inv r p e sent sp k → list_stage_step process_image t k = Next k' →
  t ≠ Main → ls_main k = MainJoin ∧ ls_main k' = MainJoin.
Proof.
  intros Hi Hs Ht. destruct (si_main _ _ _ _ _ _ _ _ _ Hi) as [Hm|He].
  - split; [done|]. destruct t as [|w| |]; simpl in Hs; [| | |done].
    + unfold list_stage_one in Hs. by repeat case_match; simplify_eq/=.
    + unfold list_stage_two in Hs. by repeat case_match; simplify_eq/=.
    + unfold list_stage_three in Hs. by repeat case_match; simplify_eq/=.
  - exfalso. unfold list_threads_ended in He.
    destruct (ls_one k) eqn:E1; try done. destruct (ls_three k) eqn:E3; try done.
    destruct t as [|w| |]; simpl in Hs; [| | |done].
    + unfold list_stage_one in Hs. by rewrite E1 in Hs.
    + unfold list_stage_two in Hs.
      destruct (ls_two k !! w) as [pc|] eqn:Epc; [|done].
      apply Is_true_true, forallb_True in He. rewrite Forall_lookup in He.
      specialize (He _ _ Epc). by destruct pc.
    + unfold list_stage_three in Hs. by rewrite E3 in Hs.
Qed.

(** Once the three stages have ended, the output queue holds the sentinels
    that [stage_three] has left: one per worker but one. *)
Lemma stage_inv_ended_out r p e sent sp (k : list_stage Mat) :
  stage_inv r p e sent sp k → list_threads_ended k = true →
  Forall (λ x, x = sentinel) (ls_out k) ∧
  (ls_main k = MainJoin → (length (ls_out k) + 1)%nat = N).
Proof.
  intros Hi He. pose proof He as He'. unfold list_threads_ended in He.
  pose proof (si_three _ _ _ _ _ _ _ _ _ Hi) as H3.
  destruct (ls_one k); try done. destruct (ls_three k) eqn:E3; try done.
  destruct H3 as [_ ->].
  destruct (stage_inv_all_shown _ _ _ _ _ _ _ _ _ Hi eq_refl) as (Hof & _).
  split.
  - pose proof (si_out _ _ _ _ _ _ _ _ _ Hi) as Ho.
    rewrite Forall_forall in Ho. apply Forall_forall. intros x Hx.
    destruct (Ho x Hx) as [[-> _]|(i & _ & ->)]; [done|].
    assert (id_of i ∈ omap frame_id (ls_out k)) as Hin.
    { apply list_elem_of_omap. by exists (cooked process_image video i). }
    rewrite Hof in Hin. by apply elem_of_nil in Hin.
  - intros Hm. pose proof (si_returned _ _ _ _ _ _ _ _ _ Hi Hm) as Hr.
    rewrite E3 in Hr. cbn [emit_sentinel] in Hr.
    apply Is_true_true, forallb_True in He. apply returned_all in He.
    rewrite He, (si_workers _ _ _ _ _ _ _ _ _ Hi) in Hr.
    pose proof (frames_and_sentinels (ls_out k)) as Hc. rewrite Hof in Hc.
    simpl in Hc. lia.
Qed.

(** The final loop of the three stages frees sentinels only, and nothing is
    displayed once it has started. *)
Lemma stage_discards (k : list_stage Mat) :
  list_stage_reach process_image (list_stage_init threads_number video) k →
  ∃ d, discard_log (ls_log k) = replicate d (Z.of_nat M + 1, true) ∧
       free_log (ls_log k) =
         display_ids (ls_log k) ++ replicate d (Z.of_nat M + 1) ∧
       match ls_main k with
       | MainJoin => d = 0%nat
       | _ => (d + length (ls_out k) + 1)%nat = N
       end.
Proof.
  induction 1 as [|k1 t k2 Hr (d & Hd & Hf & Hm) Hs]; [by exists 0%nat|].
  destruct (stage_inv_reach _ _ _ _ Hr) as (r & p & e & sent & sp & Hi).
  assert (t = Main ∨ t ≠ Main) as [->|Ht] by (destruct t; auto).
  - simpl in Hs. unfold list_stage_main in Hs.
    destruct (ls_main k1) eqn:Em; [| |done].
    + destruct (list_threads_ended k1) eqn:Ee; [|done]. injection Hs as <-.
      subst d. exists 0%nat. proj_simpl. rewrite app_nil_r.
      do 2 (split; [done|]).
      destruct (stage_inv_ended_out _ _ _ _ _ _ Hi Ee) as [_ Hn].
      specialize (Hn Em). lia.
    + destruct (si_main _ _ _ _ _ _ _ _ _ Hi) as [?|Ee]; [congruence|].
      destruct (stage_inv_ended_out _ _ _ _ _ _ Hi Ee) as [Ho _].
      destruct (ls_out k1) as [|x q] eqn:Eo; injection Hs as <-.
      * exists d. proj_simpl. rewrite app_nil_r. simpl in Hm. done.
      * apply Forall_cons in Ho as [-> _]. exists (S d). proj_simpl.
        count_simpl. cbn [it_id it_last].
        rewrite Hd, Hf. simpl in Hm.
        rewrite <-app_assoc, <-!replicate_S_end. split_and!; [done..|lia].
  - destruct (stage_step_joined _ _ _ _ _ _ _ _ Hi Hs Ht) as [Hm1 Hm2].
    rewrite Hm1 in Hm. subst d. exists 0%nat. rewrite Hm2.
    simpl in Hd, Hf. rewrite app_nil_r in Hf.
    destruct t as [|w| |]; simpl in Hs; [| | |done].
    + unfold list_stage_one in Hs.
      repeat case_match; simplify_eq/=; count_simpl;
        by rewrite ?Hd, ?Hf, ?app_nil_r.
    + unfold list_stage_two in Hs.
      repeat case_match; simplify_eq/=; count_simpl;
        by rewrite ?Hd, ?Hf, ?app_nil_r.
    + unfold list_stage_three in Hs.
      repeat case_match; simplify_eq/=; count_simpl;
        by rewrite ?Hd, ?Hf, ?app_nil_r.
Qed.

(** The final loop of version 2 frees nothing. *)
Lemma v2_discards (k : list_v2 Mat) :
  list_v2_reach process_image (list_v2_init threads_number video) k →
  discard_log (lv_log k) = [] ∧ free_log (lv_log k) = display_ids (lv_log k).
Proof.
  induction 1 as [|k1 t k2 Hr [Hd Hf] Hs]; [done|].
  destruct (v2_inv_reach _ _ _ _ Hr) as (r & p & e & sent & sp & Hi).
  destruct t as [|w| |]; simpl in Hs; [| |done|].
  - unfold list_v2_master, list_v2_block_one, list_v2_block_three,
      list_v2_master_take in Hs.
    repeat case_match; simplify_eq/=; count_simpl;
      by rewrite ?Hd, ?Hf, ?app_nil_r.
  - unfold list_v2_block_two in Hs.
    repeat case_match; simplify_eq/=; count_simpl;
      by rewrite ?Hd, ?Hf, ?app_nil_r.
  - unfold list_v2_after in Hs. destruct (lv_main k1) eqn:Em; [| |done].
    + case_match; simplify_eq/=. by rewrite app_nil_r.
    + destruct (vi_main _ _ _ _ _ _ _ _ _ Hi) as [?|Ee]; [congruence|].
      rewrite (v2_inv_ended_out _ _ _ _ _ _ _ _ _ Hi Ee) in Hs.
      simplify_eq/=. by rewrite app_nil_r.
Qed.

End Release.

(** ** Runs without undefined behaviour *)

Section Defined.
Context {Mat : Type}.
Variable process_image : Mat → Mat.
Variable threads_number : Z.
Variable video : list Mat.

(** No step of version 2 dereferences a null or dangling pointer. *)
Lemma v2_step_defined (s : v2_state Mat) t :
  v2_reach process_image (v2_init threads_number video) s →
  v2_step process_image t s ≠ Undefined.
Proof.
  intros (k & r & p & e & sent & sp & Hr & Hi)%v2_reach_inv.
  pose proof (v2_step_rel process_image t _ _ Hr) as Hm.
  pose proof (v2_inv_defined _ _ _ _ _ _ _ _ _ Hi t) as Hd.
  destruct (list_v2_step process_image t k) as [k'| |]; simpl in Hm.
  - by destruct Hm as (s' & -> & _).
  - by rewrite Hm.
  - done.
Qed.

Lemma stage_reach_trans (s1 s2 s3 : stage_state Mat) :
  stage_reach process_image s1 s2 → stage_reach process_image s2 s3 →
  stage_reach process_image s1 s3.
Proof. intros H12 H23. induction H23; [done|]. by econstructor. Qed.

Lemma v2_reach_trans (s1 s2 s3 : v2_state Mat) :
  v2_reach process_image s1 s2 → v2_reach process_image s2 s3 →
  v2_reach process_image s1 s3.
Proof. intros H12 H23. induction H23; [done|]. by econstructor. Qed.

Lemma stage_run_defined sched (s : stage_state Mat) :
  stage_reach process_image (stage_init threads_number video) s →
  stage_run process_image sched s ≠ Undefined.
Proof.
  revert s. induction sched as [|t sched IH]; intros s Hr; simpl; [done|].
  pose proof (stage_step_defined process_image _ _ s t Hr) as Hd.
  destruct (stage_step process_image t s) as [s'| |] eqn:E; [|done..].
  apply IH. by econstructor.
Qed.

Lemma v2_run_defined sched (s : v2_state Mat) :
  v2_reach process_image (v2_init threads_number video) s →
  v2_run process_image sched s ≠ Undefined.
Proof.
  revert s. induction sched as [|t sched IH]; intros s Hr; simpl; [done|].
  pose proof (v2_step_defined s t Hr) as Hd.
  destruct (v2_step process_image t s) as [s'| |] eqn:E; [|done..].
  apply IH. by econstructor.
Qed.

End Defined.

(** ** Bounds of the counters *)

Section Bounds.
Context {Mat : Type}.
Variable process_image : Mat → Mat.
Variable threads_number : Z.
Variable video : list Mat.

Local Abbreviation N := (Z.to_nat threads_number).
Local Abbreviation M := (length video).
Local Abbreviation stage_inv := (stage_inv process_image threads_number video).
Local Abbreviation v2_inv := (v2_inv process_image threads_number video).

Lemma stage_inv_bounds r p e sent sp (k : list_stage Mat) :
  stage_inv r p e sent sp k →
  0 ≤ ls_nframes k ≤ Z.of_nat M + 1 ∧
  0 ≤ ls_current_frame k ≤ Z.of_nat M + 1 ∧
  (length (ls_in k) ≤ M + N)%nat ∧
  (length (omap frame_id (ls_out k)) ≤ M)%nat ∧
  (ls_main k = MainJoin → length (omap sentinel_u (ls_out k)) ≤ N)%nat.
Proof.
  intros Hi. pose proof (si_bounds _ _ _ _ _ _ _ _ _ Hi) as Hb.
  pose proof (si_one _ _ _ _ _ _ _ _ _ Hi) as H1.
  pose proof (si_three _ _ _ _ _ _ _ _ _ Hi) as H3.
  pose proof (si_process1 _ _ _ _ _ _ _ _ _ Hi) as P1%Permutation_length.
  pose proof (si_process2 _ _ _ _ _ _ _ _ _ Hi) as P2%Permutation_length.
  rewrite !length_app, !length_map, !length_seq in *.
  split_and!.
  - destruct (ls_one k); lia.
  - destruct (ls_one k); lia.
  - destruct (ls_three k); lia.
  - destruct (ls_three k); lia.
  - rewrite (si_in _ _ _ _ _ _ _ _ _ Hi), length_app, length_map, length_seq,
      length_replicate. lia.
  - lia.
  - intros Hm. pose proof (si_returned _ _ _ _ _ _ _ _ _ Hi Hm) as Hr.
    pose proof (length_omap_le returned_u (ls_two k)) as Hl.
    rewrite (si_workers _ _ _ _ _ _ _ _ _ Hi) in Hl. lia.
Qed.

Lemma stage_out_bound (k : list_stage Mat) :
  list_stage_reach process_image (list_stage_init threads_number video) k →
  (length (ls_out k) ≤ M + N)%nat.
Proof.
  intros Hr. destruct (stage_inv_reach _ _ _ _ Hr) as (r & p & e & sent & sp & Hi).
  destruct (stage_inv_bounds _ _ _ _ _ _ Hi) as (_ & _ & _ & Hf & Hs).
  pose proof (frames_and_sentinels (ls_out k)) as Hc.
  destruct (stage_discards _ _ _ _ Hr) as (d & _ & _ & Hd).
  destruct (ls_main k); [specialize (Hs eq_refl)|..]; lia.
Qed.

Lemma v2_inv_bounds r p e sent sp (k : list_v2 Mat) :
  v2_inv r p e sent sp k →
  1 ≤ lv_nframes k ≤ Z.of_nat M + 2 ∧
  1 ≤ lv_current_frame k ≤ Z.of_nat M + 1 ∧
  (length (lv_in k) ≤ M + 1)%nat ∧
  (length (lv_out k) ≤ M + 1)%nat.
Proof.
  intros Hi. pose proof (vi_bounds _ _ _ _ _ _ _ _ _ Hi) as Hb.
  pose proof (vi_frame _ _ _ _ _ _ _ _ _ Hi) as H1.
  pose proof (vi_current _ _ _ _ _ _ _ _ _ Hi) as H3.
  pose proof (vi_sentinels _ _ _ _ _ _ _ _ _ Hi) as Hs.
  pose proof (vi_process1 _ _ _ _ _ _ _ _ _ Hi) as P1%Permutation_length.
  pose proof (vi_process2 _ _ _ _ _ _ _ _ _ Hi) as P2%Permutation_length.
  pose proof (frames_and_sentinels (lv_out k)) as Hc.
  rewrite !length_app, !length_map, !length_seq in *.
  split_and!; try lia.
  - destruct (lv_any_frame k); lia.
  - destruct (lv_any_frame k); lia.
  - rewrite (vi_in _ _ _ _ _ _ _ _ _ Hi), length_app, length_map, length_seq,
      length_replicate. lia.
Qed.

End Bounds.

(** * The loop of [parallel_processing] in [lane_detection_openmp.cpp] *)

(** ** The loop on lists of items *)

Section ListLoop.
Context {Mat : Type}.
Variable process_image : Mat → Mat.

Inductive loop_lpc :=
  | LLoopHead
  | LLoopSingle
  | LLoopEmit
  | LLoopTake (x : item Mat)
  | LLoopNext
  | LLoopWork
  | LLoopCapture
  | LLoopFrame (id_of_my_frame : Z) (image : Mat)
  | LLoopSend (x : item Mat)
  | LLoopLast (id_of_my_frame : Z)
  | LLoopFlag
  | LLoopExit.

Record loop_lthread := LoopLThread {
  ll_single_count : nat;
  ll_pc : loop_lpc
}.

Record list_loop := ListLoop {
  lp_out : list (item Mat);
  lp_capture : list Mat;
  lp_writer : list Mat;
  lp_nframes : Z;
  lp_current_frame : Z;
  lp_threads_number : Z;
  lp_any_work : bool;
  lp_finished : bool;
  lp_single_count : nat;
  lp_team : list loop_lthread;
  lp_main : main_pc;
  lp_log : list event
}.

Definition list_loop_init (threads_number : Z) (video : list Mat) : list_loop :=
  ListLoop [] video [] 0 0 threads_number true false 0
           (replicate (team_size threads_number) (LoopLThread 0 LLoopHead))
           MainJoin [].

Definition lp_set (w : nat) (th : loop_lthread) (k : list_loop) : list_loop :=
  ListLoop (lp_out k) (lp_capture k) (lp_writer k) (lp_nframes k)
    (lp_current_frame k) (lp_threads_number k)
    (lp_any_work k) (lp_finished k) (lp_single_count k)
    (<[w := th]> (lp_team k)) (lp_main k) (lp_log k).

Definition lp_set_out (w : nat) (th : loop_lthread) (qo : list (item Mat))
    (e : list event) (k : list_loop) : list_loop :=
  ListLoop qo (lp_capture k) (lp_writer k) (lp_nframes k)
    (lp_current_frame k) (lp_threads_number k)
    (lp_any_work k) (lp_finished k) (lp_single_count k)
    (<[w := th]> (lp_team k)) (lp_main k) (lp_log k ++ e).

Definition list_loop_single (w : nat) (c : nat) (k : list_loop) : list_loop :=
  if Nat.eqb c (lp_single_count k) then
    ListLoop (lp_out k) (lp_capture k) (lp_writer k) (lp_nframes k)
      (lp_current_frame k) (lp_threads_number k)
      (lp_any_work k) (lp_finished k) (S (lp_single_count k))
      (<[w := LoopLThread (S c) LLoopEmit]> (lp_team k)) (lp_main k) (lp_log k)
  else lp_set w (LoopLThread (S c) LLoopWork) k.

Definition list_loop_emit (w : nat) (c : nat) (k : list_loop) : list_loop :=
  match lp_out k with
  | x :: q =>
      if it_id x =? lp_current_frame k then
        lp_set_out w (LoopLThread c (LLoopTake x)) q
          [EvRelease (it_id x) (it_last x)] k
      else lp_set w (LoopLThread c LLoopWork) k
  | [] => lp_set w (LoopLThread c LLoopWork) k
  end.

Definition list_loop_take (w : nat) (c : nat) (x : item Mat) (k : list_loop)
    : outcome list_loop :=
  if it_last x then
    Next (ListLoop (lp_out k) (lp_capture k) (lp_writer k) (lp_nframes k)
            (lp_current_frame k) (lp_threads_number k)
            (lp_any_work k) true (lp_single_count k)
            (<[w := LoopLThread c LLoopWork]> (lp_team k)) (lp_main k)
            (lp_log k))
  else
    match it_frame x with
    | Some image =>
        Next (ListLoop (lp_out k) (lp_capture k) (lp_writer k ++ [image])
                (lp_nframes k) (lp_current_frame k) (lp_threads_number k)
                (lp_any_work k) (lp_finished k) (lp_single_count k)
                (<[w := LoopLThread c LLoopNext]> (lp_team k)) (lp_main k)
                (lp_log k ++ [EvDisplay (it_id x)]))
    | None => Undefined
    end.

Definition list_loop_capture (w : nat) (c : nat) (k : list_loop) : list_loop :=
  let id_of_my_frame := lp_nframes k in
  match lp_capture k with
  | [] =>
      ListLoop (lp_out k) [] (lp_writer k) (lp_nframes k + 1)
        (lp_current_frame k) (lp_threads_number k)
        (lp_any_work k) (lp_finished k) (lp_single_count k)
        (<[w := LoopLThread c (LLoopLast id_of_my_frame)]> (lp_team k))
        (lp_main k) (lp_log k)
  | image :: rest =>
      ListLoop (lp_out k) rest (lp_writer k) (lp_nframes k + 1)
        (lp_current_frame k) (lp_threads_number k)
        (lp_any_work k) (lp_finished k) (lp_single_count k)
        (<[w := LoopLThread c (LLoopFrame id_of_my_frame image)]> (lp_team k))
        (lp_main k) (lp_log k)
  end.

Definition list_loop_thread_step (w : nat) (k : list_loop)
    : outcome list_loop :=
  match lp_team k !! w with
  | None => Blocked
  | Some (LoopLThread c pc) =>
      match pc with
      | LLoopHead =>
          Next (lp_set w (LoopLThread c (if lp_finished k then LLoopExit
                                         else LLoopSingle)) k)
      | LLoopSingle => Next (list_loop_single w c k)
      | LLoopEmit => Next (list_loop_emit w c k)
      | LLoopTake x => list_loop_take w c x k
      | LLoopNext =>
          Next (ListLoop (lp_out k) (lp_capture k) (lp_writer k) (lp_nframes k)
                  (lp_current_frame k + 1) (lp_threads_number k)
                  (lp_any_work k) (lp_finished k) (lp_single_count k)
                  (<[w := LoopLThread c LLoopWork]> (lp_team k)) (lp_main k)
                  (lp_log k))
      | LLoopWork =>
          Next (lp_set w (LoopLThread c (if lp_any_work k then LLoopCapture
                                         else LLoopHead)) k)
      | LLoopCapture => Next (list_loop_capture w c k)
      | LLoopFrame id_of_my_frame image =>
          Next (lp_set_out w
                  (LoopLThread c
                     (LLoopSend (Item (Some (process_image image))
                                      id_of_my_frame false)))
                  (lp_out k) [EvProcess w id_of_my_frame] k)
      | LLoopSend x =>
          Next (lp_set_out w (LoopLThread c LLoopHead)
                  (insert_item x (lp_out k)) [EvInsert w (it_id x) false] k)
      | LLoopLast id_of_my_frame =>
          Next (lp_set_out w (LoopLThread c LLoopFlag)
                  (insert_item (Item None id_of_my_frame true) (lp_out k))
                  [EvInsert w id_of_my_frame true] k)
      | LLoopFlag =>
          Next (ListLoop (lp_out k) (lp_capture k) (lp_writer k) (lp_nframes k)
                  (lp_current_frame k) (lp_threads_number k)
                  false (lp_finished k) (lp_single_count k)
                  (<[w := LoopLThread c LLoopHead]> (lp_team k)) (lp_main k)
                  (lp_log k))
      | LLoopExit => Blocked
      end
  end.

Definition loop_lexited (th : loop_lthread) : bool :=
  match ll_pc th with LLoopExit => true | _ => false end.

Definition lp_main_set (pc : main_pc) (qo : list (item Mat)) (e : list event)
    (k : list_loop) : list_loop :=
  ListLoop qo (lp_capture k) (lp_writer k) (lp_nframes k)
    (lp_current_frame k) (lp_threads_number k)
    (lp_any_work k) (lp_finished k) (lp_single_count k)
    (lp_team k) pc (lp_log k ++ e).

Definition list_loop_after (k : list_loop) : outcome list_loop :=
  match lp_main k with
  | MainJoin =>
      if forallb loop_lexited (lp_team k)
      then Next (lp_main_set MainDrain (lp_out k) [] k)
      else Blocked
  | MainDrain =>
      match lp_out k with
      | x :: q =>
          Next (lp_main_set MainDrain q [EvDiscard (it_id x) (it_last x)] k)
      | [] => Next (lp_main_set MainReturn [] [] k)
      end
  | MainReturn => Blocked
  end.

Definition list_loop_step (t : thread) (k : list_loop) : outcome list_loop :=
  match t with
  | Worker w => list_loop_thread_step w k
  | Main => list_loop_after k
  | Ingest | Emit => Blocked
  end.

Fixpoint list_loop_run (sched : list thread) (k : list_loop)
    : outcome list_loop :=
  match sched with
  | [] => Next k
  | t :: sched' =>
      match list_loop_step t k with
      | Next k' => list_loop_run sched' k'
      | Blocked => Blocked
      | Undefined => Undefined
      end
  end.

Inductive list_loop_reach (k : list_loop) : list_loop → Prop :=
  | list_loop_reach_refl : list_loop_reach k k
  | list_loop_reach_step k1 t k2 :
      list_loop_reach k k1 → list_loop_step t k1 = Next k2 →
      list_loop_reach k k2.

(** *** The correspondence *)

Implicit Types (held : gmap addr (thread * item Mat)).

Definition loop_pc_rel held (w : nat) (pc : loop_pc Mat) (lpc : loop_lpc)
    : Prop :=
  match pc, lpc with
  | LoopHead, LLoopHead => True
  | LoopSingle, LLoopSingle => True
  | LoopEmit, LLoopEmit => True
  | LoopTake a, LLoopTake x => held !! a = Some (Worker w, x)
  | LoopNext, LLoopNext => True
  | LoopWork, LLoopWork => True
  | LoopCapture, LLoopCapture => True
  | LoopFrame id image, LLoopFrame id' image' => id = id' ∧ image = image'
  | LoopSend a, LLoopSend x => held !! a = Some (Worker w, x)
  | LoopLast id, LLoopLast id' => id = id'
  | LoopFlag, LLoopFlag => True
  | LoopExit, LLoopExit => True
  | _, _ => False
  end.

Definition loop_thread_rel held (w : nat) (th : loop_thread Mat)
    (lth : loop_lthread) : Prop :=
  lt_single_count th = ll_single_count lth ∧
  loop_pc_rel held w (lt_pc th) (ll_pc lth).

Definition loop_team_rel held (ths : list (loop_thread Mat))
    (lths : list loop_lthread) : Prop :=
  length ths = length lths ∧
  ∀ w th lth, ths !! w = Some th → lths !! w = Some lth →
              loop_thread_rel held w th lth.

Record loop_rel_with held (lo : list addr)
    (s : loop_state Mat) (k : list_loop) : Prop := LoopRel {
  lr_view : mem_view (lo_mem s) [] lo [] (lp_out k) held;
  lr_team : loop_team_rel held (lo_team s) (lp_team k);
  lr_capture : lo_capture s = lp_capture k;
  lr_writer : lo_writer s = lp_writer k;
  lr_nframes : lo_nframes s = lp_nframes k;
  lr_current : lo_current_frame s = lp_current_frame k;
  lr_threads : lo_threads_number s = lp_threads_number k;
  lr_any_work : lo_is_there_any_work s = lp_any_work k;
  lr_finished : lo_finished s = lp_finished k;
  lr_single : lo_single_count s = lp_single_count k;
  lr_main : lo_main s = lp_main k;
  lr_log : lo_log s = lp_log k
}.

Definition loop_rel (s : loop_state Mat) (k : list_loop) : Prop :=
  ∃ held lo, loop_rel_with held lo s k.

Lemma loop_rel_init threads_number video :
  loop_rel (loop_init threads_number video)
           (list_loop_init threads_number video).
Proof.
  exists ∅, []. split; try done.
  - apply mem_view_init.
  - split; simpl; [by rewrite !length_replicate|].
    intros w pc lpc [-> _]%lookup_replicate [-> _]%lookup_replicate. done.
Qed.

Lemma loop_pc_rel_change held held' w pc lpc :
  loop_pc_rel held w pc lpc →
  (∀ a x, held !! a = Some (Worker w, x) → held' !! a = Some (Worker w, x)) →
  loop_pc_rel held' w pc lpc.
Proof. destruct pc, lpc; simpl; auto. Qed.

Lemma loop_team_rel_keep held held' ths lths :
  loop_team_rel held ths lths →
  (∀ w a x, held !! a = Some (Worker w, x) → held' !! a = Some (Worker w, x)) →
  loop_team_rel held' ths lths.
Proof.
  intros [Hl H] Hk. split; [done|]. intros w th lth Hth Hlth.
  destruct (H _ _ _ Hth Hlth) as [Hc Hpc]. split; [done|].
  eapply loop_pc_rel_change; [done|]. apply Hk.
Qed.

Lemma loop_team_rel_set held held' ths lths w c pc' lpc' :
  loop_team_rel held ths lths →
  (∀ w' a x, w' ≠ w → held !! a = Some (Worker w', x) →
             held' !! a = Some (Worker w', x)) →
  loop_pc_rel held' w pc' lpc' →
  loop_team_rel held' (<[w := LoopThread c pc']> ths)
                      (<[w := LoopLThread c lpc']> lths).
Proof.
  intros [Hl H] Hk Hw. split; [by rewrite !length_insert|].
  intros w' th lth Hth Hlth. destruct (decide (w = w')) as [<-|Hne].
  - apply list_lookup_insert_Some in Hth as [(_ & <- & _)|[? _]]; [|done].
    apply list_lookup_insert_Some in Hlth as [(_ & <- & _)|[? _]]; [|done].
    done.
  - rewrite list_lookup_insert_ne in Hth by done.
    rewrite list_lookup_insert_ne in Hlth by done.
    destruct (H _ _ _ Hth Hlth) as [Hc Hpc]. split; [done|].
    eapply loop_pc_rel_change; [done|]. intros a x. by apply Hk.
Qed.

Lemma loop_team_rel_lookup held ths lths w :
  loop_team_rel held ths lths →
  match ths !! w, lths !! w with
  | Some th, Some lth => loop_thread_rel held w th lth
  | None, None => True
  | _, _ => False
  end.
Proof.
  intros [Hl H]. destruct (ths !! w) as [th|] eqn:E1, (lths !! w) as [lth|] eqn:E2.
  - by eapply H.
  - apply lookup_lt_Some in E1. apply lookup_ge_None in E2. lia.
  - apply lookup_lt_Some in E2. apply lookup_ge_None in E1. lia.
  - done.
Qed.

Lemma loop_team_rel_ended held ths lths :
  loop_team_rel held ths lths →
  forallb (@loop_exited Mat) ths = forallb loop_lexited lths.
Proof.
  intros Hr. apply eq_bool_prop_intro. rewrite !forallb_True, !Forall_lookup.
  split; intros H w x Hx; pose proof (loop_team_rel_lookup _ _ _ w Hr) as Hw;
    rewrite Hx in Hw.
  - destruct (ths !! w) as [th|] eqn:E; [|done]. specialize (H w th E).
    destruct Hw as [_ Hw]. unfold loop_exited, loop_lexited in *.
    by destruct (lt_pc th), (ll_pc x).
  - destruct (lths !! w) as [lth|] eqn:E; [|done]. specialize (H w lth E).
    destruct Hw as [_ Hw]. unfold loop_exited, loop_lexited in *.
    by destruct (lt_pc x), (ll_pc lth).
Qed.

End ListLoop.

Arguments loop_lpc : clear implicits.
Arguments loop_lthread : clear implicits.
Arguments list_loop : clear implicits.

(** ** The loop on the heap and on lists, in lockstep *)

Section LoopCorrespondence.
Context {Mat : Type}.
Variable process_image : Mat → Mat.
Implicit Types (held : gmap addr (thread * item Mat)).
Implicit Types (s : loop_state Mat) (k : list_loop Mat).

(** A fresh node, in the hands of the thread that allocated it. *)
Lemma mv_new {T} (g : globals Mat) li lo qi qo (held : gmap addr (T * item Mat))
    it a g1 t :
  mem_view g li lo qi qo held → new_node it g = (a, g1) →
  held !! a = None ∧ mem_view g1 li lo qi qo (<[a := (t, it)]> held).
Proof.
  intros Hv En.
  pose proof (new_node_spec _ _ _ _ En) as (Hf & Hheap & Si & So).
  pose proof (new_node_unlinked _ _ _ _ En) as [Hul Hit].
  pose proof (mv_fresh _ _ _ _ _ _ _ Hv Hf) as (Hali & Halo & Hah).
  split; [done|].
  eapply mv_frame; [done..|by eapply new_node_outside| |].
  - by intros b ->%list_elem_of_singleton.
  - intros b t' x Hb. destruct (decide (a = b)) as [<-|Hne].
    + rewrite lookup_insert_eq in Hb. by injection Hb as <- <-.
    + rewrite lookup_insert_ne in Hb by done.
      destruct (mv_held _ _ _ _ _ _ Hv _ _ _ Hb) as (U & I & ? & ?).
      assert (b ∉ [a]) by by intros ->%list_elem_of_singleton.
      split; [eapply unlinked_outside; [by eapply new_node_outside|done..]|].
      split; [|done].
      erewrite item_at_outside; [done|by eapply new_node_outside|done].
Qed.

Lemma loop_thread_step_rel w s k :
  loop_rel s k →
  matches loop_rel (loop_thread_step process_image w s)
                   (list_loop_thread_step process_image w k).
Proof.
  intros (held & lo & [Hv Ht Ec Ew En Ef Eth Eaw Efi Esc Ema El]).
  unfold loop_thread_step, list_loop_thread_step.
  pose proof (loop_team_rel_lookup _ _ _ w Ht) as Hw.
  destruct (lo_team s !! w) as [[c pc]|] eqn:Epc,
           (lp_team k !! w) as [[c' lpc]|] eqn:Elpc; try done.
  destruct Hw as [Hc Hw]. simpl in Hc, Hw. subst c'.
  destruct pc as [| | |a| | | |id image|a|id| |],
           lpc as [| | |x| | | |id' image'|x|id'| |]; try done; simpl in Hw.
  - (* the loop test *)
    rewrite <-Efi. eexists. split; [done|]. exists held, lo.
    split; simpl; try congruence; try done.
    eapply loop_team_rel_set; [done|auto|]. by destruct (lo_finished s).
  - (* the single construct *)
    unfold loop_single, list_loop_single. rewrite <-Esc.
    destruct (Nat.eqb c (lo_single_count s)).
    + eexists. split; [done|]. exists held, lo.
      split; simpl; try congruence; try done.
      eapply loop_team_rel_set; [done|auto|done].
    + eexists. split; [done|]. exists held, lo.
      split; simpl; try congruence; try done.
      eapply loop_team_rel_set; [done|auto|done].
  - (* the locked test of the output queue *)
    unfold loop_emit, list_loop_emit.
    rewrite (mv_size_out _ _ _ _ _ _ Hv).
    destruct (lp_out k) as [|x q] eqn:Eq; simpl.
    + eexists. split; [done|]. exists held, lo.
      split; simpl; try congruence; try done.
      eapply loop_team_rel_set; [done|auto|done].
    + rewrite (mv_head_id _ _ _ _ _ _ _ Hv). simpl. rewrite <-Ef.
      destruct (it_id x =? lo_current_frame s).
      * pose proof Hv as Hv0.
        destruct (mv_release _ _ _ _ _ _ _ (Worker w) Hv)
          as (a & lo' & g' & -> & E & Hx & Hv').
        rewrite E. simpl. unfold item_at in Hx.
        destruct (heap g' !! a) as [n|] eqn:Ena; [|done]. simpl.
        injection Hx as <-. eexists. split; [done|].
        exists (<[a := (Worker w, item_of n)]> held), lo'.
        split; simpl; try congruence.
        eapply loop_team_rel_set; [done| |simpl; by rewrite lookup_insert_eq].
        intros w' a' x' Hne Ha'. eapply held_insert_other; [done|].
        intros y. by rewrite (mv_out_not_held _ _ _ _ _ _ _ Hv0).
      * eexists. split; [done|]. exists held, lo.
        split; simpl; try congruence; try done.
        eapply loop_team_rel_set; [done|auto|done].
  - (* the removed node *)
    unfold loop_take, list_loop_take.
    destruct (mv_held_node _ _ _ _ _ _ _ _ _ Hv Hw) as (n & Ena & <-).
    rewrite Ena. simpl. destruct (is_the_last_node n) eqn:Elast.
    + eexists. split; [done|].
      exists (delete a held), lo. split; simpl; try congruence; try done.
      * by apply mv_drop.
      * eapply loop_team_rel_set; [done| |done].
        intros w' a' x' Hne Ha'. eapply held_delete_other; [done|].
        intros y. rewrite Hw. congruence.
    + destruct (frame n) as [image|] eqn:Ef'.
      * erewrite send_frame_to_display_spec; [|by unfold item_at; rewrite Ena|done].
        simpl. eexists. split; [done|].
        exists (delete a held), lo. split; simpl; try congruence; try done.
        -- by eapply mv_free.
        -- eapply loop_team_rel_set; [done| |done].
           intros w' a' x' Hne Ha'. eapply held_delete_other; [done|].
           intros y. rewrite Hw. congruence.
      * unfold send_frame_to_display. rewrite Ena. simpl. by rewrite Ef'.
  - (* current_frame++ *)
    eexists. split; [done|]. exists held, lo.
    split; simpl; try congruence; try done.
    eapply loop_team_rel_set; [done|auto|done].
  - (* the test of is_there_any_work *)
    rewrite <-Eaw. eexists. split; [done|]. exists held, lo.
    split; simpl; try congruence; try done.
    eapply loop_team_rel_set; [done|auto|].
    by destruct (lo_is_there_any_work s).
  - (* a frame is read *)
    unfold loop_capture, list_loop_capture. rewrite <-Ec, <-En.
    destruct (lo_capture s) as [|image rest].
    + eexists. split; [done|]. exists held, lo.
      split; simpl; try congruence; try done.
      eapply loop_team_rel_set; [done|auto|done].
    + eexists. split; [done|]. exists held, lo.
      split; simpl; try congruence; try done.
      eapply loop_team_rel_set; [done|auto|done].
  - (* the node of a frame is made and processed *)
    destruct Hw as [<- <-].
    destruct (new_node _ _) as [a g1] eqn:Ea.
    destruct (mv_new _ _ _ _ _ _ _ _ _ (Worker w) Hv Ea) as [Hna Hv1].
    destruct (mv_process process_image _ _ _ _ _ _ a (Worker w)
                (Item (Some image) id false) image Hv1)
      as (g' & E & Hv'); [by rewrite lookup_insert_eq|done|].
    rewrite E. simpl. eexists. split; [done|].
    eexists _, lo. split; simpl; try congruence; try done.
    eapply loop_team_rel_set; [done| |simpl; by rewrite lookup_insert_eq].
    intros w' a' x' Hne Ha'.
    rewrite !lookup_insert_ne; [done|intros ->; congruence..].
  - (* the processed node is sent on *)
    destruct (mv_held_node _ _ _ _ _ _ _ _ _ Hv Hw) as (n & Ena & <-).
    rewrite Ena. simpl.
    destruct (mv_forward _ _ _ _ _ _ _ _ _ Hv Hw) as (g' & E & Hv').
    rewrite E. simpl. eexists. split; [done|].
    eexists (delete a held), _. split; simpl; try congruence; try done.
    eapply loop_team_rel_set; [done| |done].
    intros w' a' x' Hne Ha'. eapply held_delete_other; [done|].
    intros y. rewrite Hw. congruence.
  - (* the sentinel is made and sent on *)
    subst id'.
    destruct (new_node _ _) as [a g1] eqn:Ea.
    destruct (mv_new _ _ _ _ _ _ _ _ _ (Worker w) Hv Ea) as [Hna Hv1].
    destruct (mv_forward _ _ _ _ _ _ a (Worker w) (Item None id true) Hv1)
      as (g' & E & Hv'); [by rewrite lookup_insert_eq|].
    rewrite E. simpl. eexists. split; [done|].
    rewrite delete_insert_id in Hv' by done.
    eexists held, _. split; simpl; try congruence; try done.
    eapply loop_team_rel_set; [done|auto|done].
  - (* the flag is cleared *)
    eexists. split; [done|]. exists held, lo.
    split; simpl; try congruence; try done.
    eapply loop_team_rel_set; [done|auto|done].
Qed.

Lemma loop_after_rel s k :
  loop_rel s k → matches loop_rel (loop_after s) (list_loop_after k).
Proof.
  intros (held & lo & [Hv Ht Ec Ew En Ef Eth Eaw Efi Esc Ema El]).
  unfold loop_after, list_loop_after. rewrite <-Ema.
  destruct (lo_main s).
  - rewrite (loop_team_rel_ended _ _ _ Ht).
    destruct (forallb loop_lexited (lp_team k)); [|done].
    eexists. split; [done|]. exists held, lo. split; simpl; congruence.
  - rewrite (mv_size_out _ _ _ _ _ _ Hv).
    destruct (lp_out k) as [|x q] eqn:Eq; simpl.
    + eexists. split; [done|]. exists held, lo.
      split; simpl; try congruence; try done.
    + pose proof Hv as Hv0.
      destruct (mv_release _ _ _ _ _ _ _ Main Hv)
        as (a & lo' & g' & -> & E & Hx & Hv').
      rewrite E. simpl. unfold item_at in Hx.
      destruct (heap g' !! a) as [n|] eqn:Ena; [|done]. simpl.
      injection Hx as <-. eexists. split; [done|].
      pose proof (mv_out_not_held _ _ _ _ _ _ _ Hv0) as Hnh.
      exists held, lo'. split; simpl; try congruence; try done.
      eapply (mv_free _ _ _ _ _ _ a) in Hv'; [|by rewrite lookup_insert_eq].
      by rewrite delete_insert_id in Hv'.
  - done.
Qed.

Lemma loop_step_rel t s k :
  loop_rel s k →
  matches loop_rel (loop_step process_image t s)
                   (list_loop_step process_image t k).
Proof.
  destruct t; simpl.
  - done.
  - apply loop_thread_step_rel.
  - done.
  - apply loop_after_rel.
Qed.

Lemma loop_reach_rel threads_number video s :
  loop_reach process_image (loop_init threads_number video) s →
  ∃ k, list_loop_reach process_image (list_loop_init threads_number video) k ∧
       loop_rel s k.
Proof.
  induction 1 as [|s1 t s2 _ (k1 & Hk & Hr) Hs].
  - eexists. split; [constructor|apply loop_rel_init].
  - pose proof (loop_step_rel t _ _ Hr) as Hm. rewrite Hs in Hm.
    destruct (list_loop_step process_image t k1) as [k2| |] eqn:Ek;
      simpl in Hm; try done.
    destruct Hm as (s' & [= <-] & Hr'). exists k2. split; [|done].
    by econstructor.
Qed.

Lemma loop_run_rel sched s k :
  loop_rel s k →
  matches loop_rel (loop_run process_image sched s)
                   (list_loop_run process_image sched k).
Proof.
  revert s k. induction sched as [|t sched IH]; intros s k Hr; simpl.
  - by exists s.
  - pose proof (loop_step_rel t _ _ Hr) as Hm.
    destruct (list_loop_step process_image t k) as [k1| |]; simpl in Hm.
    + destruct Hm as (s1 & -> & Hr1). by apply IH.
    + rewrite Hm. done.
    + rewrite Hm. done.
Qed.

End LoopCorrespondence.

(** ** The invariant of the loop *)

Ltac loop_proj_simpl :=
  cbn [lp_out lp_capture lp_writer lp_nframes lp_current_frame
       lp_threads_number lp_any_work lp_finished lp_single_count
       lp_team lp_main lp_log lp_set lp_set_out lp_main_set ll_pc
       ll_single_count].

Section LoopInvariant.
Context {Mat : Type}.
Variable process_image : Mat → Mat.
Variable threads_number : Z.
Variable video : list Mat.

Local Abbreviation T := (team_size threads_number).
Local Abbreviation M := (length video).

Implicit Types (k : list_loop Mat) (th : loop_lthread Mat) (x : item Mat).

(** The node of frame [i] after [process_frame], and the end-of-stream node
    with id [j]. Ids start at 0 in this program. *)
Definition loop_cooked (i : nat) : item Mat :=
  Item (process_image <$> video !! i) (Z.of_nat i) false.
Definition loop_last (j : nat) : item Mat := Item None (Z.of_nat j) true.

Definition last_id x : option Z :=
  if it_last x then Some (it_id x) else None.

(** The frame or the end-of-stream id a thread has in its hands. *)
Definition hand_frame th : option Z :=
  match ll_pc th with
  | LLoopFrame id _ => Some id
  | LLoopSend x => Some (it_id x)
  | LLoopTake x => frame_id x
  | _ => None
  end.
Definition hand_last th : option Z :=
  match ll_pc th with
  | LLoopLast id => Some id
  | LLoopTake x => last_id x
  | _ => None
  end.
(** The frame a thread has read and not yet processed. *)
Definition pending th : option Z :=
  match ll_pc th with LLoopFrame id _ => Some id | _ => None end.

(** Threads between the removal of a node and [current_frame++]. *)
Definition emitting th : nat :=
  match ll_pc th with LLoopTake _ | LLoopNext => 1 | _ => 0 end.
Definition stepping th : nat :=
  match ll_pc th with LLoopNext => 1 | _ => 0 end.
(** Threads that have read the end of the stream and not yet cleared the
    flag, and threads about to read. *)
Definition flagging th : nat :=
  match ll_pc th with LLoopLast _ | LLoopFlag => 1 | _ => 0 end.
Definition capturing th : nat :=
  match ll_pc th with LLoopCapture => 1 | _ => 0 end.

Definition thread_ok (r e : nat) (fin : bool) th : Prop :=
  match ll_pc th with
  | LLoopFrame id image =>
      ∃ i, (i < r)%nat ∧ id = Z.of_nat i ∧ video !! i = Some image
  | LLoopSend x => ∃ i, (i < r)%nat ∧ x = loop_cooked i
  | LLoopTake x =>
      (x = loop_cooked e ∧ (e < r)%nat) ∨ (x = loop_last M ∧ e = M)
  | LLoopExit => fin = true
  | _ => True
  end.

Definition item_ok (r : nat) x : Prop :=
  (∃ i, (i < r)%nat ∧ x = loop_cooked i) ∨ (∃ j, x = loop_last j).

(** [r] frames have been read and [e] of them displayed; the end of the
    stream has been read [c] times. *)
Record loop_inv (r e c : nat) k : Prop := LoopInv {
  li_threads : lp_threads_number k = threads_number;
  li_team : length (lp_team k) = T;
  li_bounds : (e ≤ r ≤ M)%nat ∧ ((0 < c)%nat → r = M);
  li_nframes : lp_nframes k = Z.of_nat (r + c);
  li_capture : lp_capture k = drop r video;
  li_ok : Forall (thread_ok r e (lp_finished k)) (lp_team k);
  li_out : Forall (item_ok r) (lp_out k);
  li_sorted : StronglySorted id_le (lp_out k);
  li_frames :
    omap hand_frame (lp_team k) ++ omap frame_id (lp_out k)
      ≡ₚ map Z.of_nat (seq e (r - e));
  li_lasts :
    omap hand_last (lp_team k) ++ omap last_id (lp_out k) ++
    (if lp_finished k then [Z.of_nat M] else []) ++
    (discard_log (lp_log k)).*1
      ≡ₚ map Z.of_nat (seq M c);
  li_discard : Forall (λ d, d.2 = true) (discard_log (lp_log k));
  li_current :
    lp_current_frame k + Z.of_nat (sum_list_with stepping (lp_team k))
      = Z.of_nat e;
  li_emitting : (sum_list_with emitting (lp_team k) ≤ 1)%nat;
  li_finished : lp_finished k = true → e = M;
  li_any_work :
    lp_any_work k = true → c = sum_list_with flagging (lp_team k);
  li_quota : (c + sum_list_with capturing (lp_team k) ≤ T)%nat;
  li_flagged : lp_any_work k = false → (0 < c)%nat;
  li_counts :
    Forall (λ th, (ll_single_count th ≤ lp_single_count k)%nat) (lp_team k);
  li_leader :
    ∃ w th, lp_team k !! w = Some th ∧ ll_single_count th = lp_single_count k;
  li_writer : lp_writer k = map process_image (take e video);
  li_display : display_ids (lp_log k) = map Z.of_nat (seq 0 e);
  li_process :
    process_ids (lp_log k) ++ omap pending (lp_team k)
      ≡ₚ map Z.of_nat (seq 0 r);
  li_main : lp_main k = MainJoin ∨ forallb (@loop_lexited Mat) (lp_team k) = true;
  li_done : lp_main k = MainReturn → lp_out k = [];
  li_join : lp_main k = MainJoin → discard_log (lp_log k) = []
}.

Lemma team_size_pos : (0 < T)%nat.
Proof. unfold team_size. lia. Qed.

Lemma sum_list_with_replicate {A} (f : A → nat) n (a : A) :
  sum_list_with f (replicate n a) = (n * f a)%nat.
Proof. induction n as [|n IH]; simpl; [done|]. rewrite IH. lia. Qed.

Lemma loop_inv_init : loop_inv 0 0 0 (list_loop_init threads_number video).
Proof.
  pose proof team_size_pos as HT.
  split; simpl; try done.
  - by rewrite length_replicate.
  - lia.
  - by apply Forall_replicate.
  - constructor.
  - by rewrite omap_replicate_None.
  - by rewrite omap_replicate_None.
  - by rewrite sum_list_with_replicate, Nat.mul_0_r.
  - rewrite sum_list_with_replicate, Nat.mul_0_r. lia.
  - intros _. by rewrite sum_list_with_replicate, Nat.mul_0_r.
  - rewrite sum_list_with_replicate, Nat.mul_0_r. lia.
  - by apply Forall_replicate.
  - exists 0%nat, (LoopLThread 0 (@LLoopHead Mat)). split; [|done].
    by apply lookup_replicate.
  - by rewrite omap_replicate_None.
  - by left.
Qed.

(** *** Sums over the team *)

Definition taking th : nat :=
  match ll_pc th with LLoopTake _ => 1 | _ => 0 end.

Lemma emitting_split (l : list (loop_lthread Mat)) :
  sum_list_with emitting l =
  (sum_list_with taking l + sum_list_with stepping l)%nat.
Proof.
  induction l as [|th l IH]; simpl; [done|]. rewrite IH.
  unfold emitting, taking, stepping. destruct (ll_pc th); lia.
Qed.

Lemma flag_capture_bound (l : list (loop_lthread Mat)) :
  (sum_list_with flagging l + sum_list_with capturing l ≤ length l)%nat.
Proof.
  induction l as [|th l IH]; simpl; [done|].
  unfold flagging at 1, capturing at 1. destruct (ll_pc th); lia.
Qed.

Lemma sum_zero_Forall {A} (f : A → nat) (l : list A) :
  sum_list_with f l = 0%nat → Forall (λ a, f a = 0%nat) l.
Proof.
  induction l as [|a l IH]; simpl; [constructor|].
  intros H. constructor; [lia|apply IH; lia].
Qed.

Lemma sum_pos_exists {A} (f : A → nat) (l : list A) :
  (0 < sum_list_with f l)%nat → ∃ i a, l !! i = Some a ∧ (0 < f a)%nat.
Proof.
  induction l as [|a l IH]; simpl; [lia|]. intros H.
  destruct (decide (0 < f a)%nat) as [Ha|Ha].
  - by exists 0%nat, a.
  - destruct IH as (i & b & Hb & Hf); [lia|]. by exists (S i), b.
Qed.

Lemma sum_lookup_le {A} (f : A → nat) (l : list A) i a :
  l !! i = Some a → (f a ≤ sum_list_with f l)%nat.
Proof.
  revert i. induction l as [|b l IH]; intros [|i] H; simplify_eq/=; [lia|].
  specialize (IH i H). lia.
Qed.

(** *** The thread that leads the count of [single] regions *)

Definition leads k : Prop :=
  ∃ w th, lp_team k !! w = Some th ∧ ll_single_count th = lp_single_count k.

Lemma leader_keep (team : list (loop_lthread Mat)) sc w cnt pc pc' :
  (∃ w0 th, team !! w0 = Some th ∧ ll_single_count th = sc) →
  team !! w = Some (LoopLThread cnt pc) →
  ∃ w0 th, <[w := LoopLThread cnt pc']> team !! w0 = Some th ∧
           ll_single_count th = sc.
Proof.
  intros (w0 & th & Hth & Hc) Hw. destruct (decide (w = w0)) as [<-|Hne].
  - exists w, (LoopLThread cnt pc'). split.
    + apply list_lookup_insert_eq. by eapply lookup_lt_Some.
    + rewrite Hth in Hw. injection Hw as ->. done.
  - exists w0, th. by rewrite list_lookup_insert_ne.
Qed.

Lemma leader_other (team : list (loop_lthread Mat)) sc w cnt pc th' :
  (∃ w0 th, team !! w0 = Some th ∧ ll_single_count th = sc) →
  team !! w = Some (LoopLThread cnt pc) → cnt ≠ sc →
  ∃ w0 th, <[w := th']> team !! w0 = Some th ∧ ll_single_count th = sc.
Proof.
  intros (w0 & th & Hth & Hc) Hw Hne. exists w0, th.
  rewrite list_lookup_insert_ne; [done|]. intros <-.
  rewrite Hth in Hw. injection Hw as ->. done.
Qed.

Lemma counts_keep (team : list (loop_lthread Mat)) sc w cnt pc pc' :
  Forall (λ th, (ll_single_count th ≤ sc)%nat) team →
  team !! w = Some (LoopLThread cnt pc) →
  Forall (λ th, (ll_single_count th ≤ sc)%nat)
         (<[w := LoopLThread cnt pc']> team).
Proof.
  intros H Hw. apply Forall_insert; [done|].
  apply (Forall_lookup_1 _ _ _ _ H Hw).
Qed.

(** *** Monotonicity *)

Lemma thread_ok_mono r r' e fin th :
  (r ≤ r')%nat → thread_ok r e fin th → thread_ok r' e fin th.
Proof.
  intros Hr. unfold thread_ok. destruct (ll_pc th); try done.
  - intros [[? ?]|?]; [left|right]; [split; [done|lia]|done].
  - intros (i & ? & ?). exists i. split; [lia|done].
  - intros (i & ? & ?). exists i. split; [lia|done].
Qed.

Lemma thread_ok_finished r e fin th :
  thread_ok r e fin th → thread_ok r e true th.
Proof. unfold thread_ok. by destruct (ll_pc th). Qed.

Lemma thread_ok_shown r e e' fin th :
  taking th = 0%nat → thread_ok r e fin th → thread_ok r e' fin th.
Proof. unfold thread_ok, taking. by destruct (ll_pc th). Qed.

Lemma item_ok_mono r r' x : (r ≤ r')%nat → item_ok r x → item_ok r' x.
Proof.
  intros Hr [(i & ? & ?)|?]; [left|by right]. exists i. split; [lia|done].
Qed.

Lemma omap_last_id_insert x (q : list (item Mat)) :
  omap last_id (insert_item x q) ≡ₚ option_list (last_id x) ++ omap last_id q.
Proof. rewrite insert_item_perm. simpl. by destruct (last_id x). Qed.

Lemma not_exited_join k w th :
  lp_team k !! w = Some th → loop_lexited th = false →
  lp_main k = MainJoin ∨ forallb (@loop_lexited Mat) (lp_team k) = true →
  lp_main k = MainJoin.
Proof.
  intros Hth Hne [?|H]; [done|]. apply Is_true_true, forallb_True in H.
  rewrite Forall_lookup in H. specialize (H _ _ Hth). by rewrite Hne in H.
Qed.

Lemma lookup_insert_cases {A} (l : list A) w w' (a b : A) :
  <[w := a]> l !! w' = Some b → (w' = w ∧ b = a) ∨ (w' ≠ w ∧ l !! w' = Some b).
Proof.
  intros H. destruct (decide (w = w')) as [<-|Hne].
  - apply list_lookup_insert_Some in H as [(_ & ? & _)|[? _]]; [|done]. by left.
  - rewrite list_lookup_insert_ne in H by done. right. by split.
Qed.

End LoopInvariant.

Ltac loop_log_simpl :=
  rewrite ?display_ids_snoc, ?process_ids_snoc, ?discard_log_snoc;
  cbn [display_ids process_ids discard_log omap list_omap];
  rewrite ?app_nil_r.

(** The facts about the team when thread [w] changes to [th']. *)
Ltac team_upd Epc th' :=
  let Pf := fresh "Pf" in let Pl := fresh "Pl" in let Pp := fresh "Pp" in
  let Se := fresh "Se" in let Ss := fresh "Ss" in let St := fresh "St" in
  let Sf := fresh "Sf" in let Sc := fresh "Sc" in
  pose proof (omap_insert_perm hand_frame _ _ _ th' Epc) as Pf;
  pose proof (omap_insert_perm hand_last _ _ _ th' Epc) as Pl;
  pose proof (omap_insert_perm pending _ _ _ th' Epc) as Pp;
  pose proof (sum_list_with_insert emitting _ _ _ th' Epc) as Se;
  pose proof (sum_list_with_insert stepping _ _ _ th' Epc) as Ss;
  pose proof (sum_list_with_insert taking _ _ _ th' Epc) as St;
  pose proof (sum_list_with_insert flagging _ _ _ th' Epc) as Sf;
  pose proof (sum_list_with_insert capturing _ _ _ th' Epc) as Sc;
  cbn [hand_frame hand_last pending emitting stepping taking flagging
       capturing ll_pc option_list option_rect app Nat.add]
    in Pf, Pl, Pp, Se, Ss, St, Sf, Sc.

Ltac team_rw :=
  repeat match goal with
  | H : omap _ (<[_ := _]> _) ≡ₚ _ |- _ => rewrite H; clear H
  | H : sum_list_with _ (<[_ := _]> _) = _ |- _ => rewrite H; clear H
  end.

Ltac perm_with P H :=
  loop_log_simpl; rewrite <-?H; first [rewrite P | rewrite <-P];
  solve_Permutation.

Ltac loop_split :=
  split; loop_proj_simpl; try done; try (by rewrite length_insert);
  try (by left); try (by eapply counts_keep); try (by eapply leader_keep);
  try (by apply Forall_insert); try lia;
  try (by loop_log_simpl); try (by team_rw); try (by loop_log_simpl; team_rw);
  try (by match goal with H : lp_main _ = MainJoin |- _ => rewrite H end).

Section LoopSteps.
Context {Mat : Type}.
Variable process_image : Mat → Mat.
Variable threads_number : Z.
Variable video : list Mat.

Local Abbreviation T := (team_size threads_number).
Local Abbreviation M := (length video).
Local Abbreviation loop_inv := (loop_inv process_image threads_number video).
Local Abbreviation thread_ok := (thread_ok process_image video).
Local Abbreviation item_ok := (item_ok process_image video).
Local Abbreviation loop_cooked := (loop_cooked process_image video).

Implicit Types (k : list_loop Mat) (th : loop_lthread Mat) (x : item Mat).

Ltac loop_open Epc :=
  intros [Ht Hw Hb Hn Hcap Hok Ho Hs Hfr Hla Hdi Hcur Hem Hfin Haw Hq Hfl Hcnt
          Hld Hwr Hd Hpr Hm Hdn Hjn] Epc;
  pose proof (not_exited_join _ _ _ Epc eq_refl Hm) as Hmj.

Lemma loop_inv_head w r e c k cnt :
  loop_inv r e c k → lp_team k !! w = Some (LoopLThread cnt LLoopHead) →
  loop_inv r e c
    (lp_set w (LoopLThread cnt (if lp_finished k then LLoopExit
                                else LLoopSingle)) k).
Proof.
  loop_open Epc.
  assert (lp_finished k = true ∨ lp_finished k = false) as [Efin|Efin]
    by (destruct (lp_finished k); auto).
  all: rewrite Efin.
  - team_upd Epc (LoopLThread cnt (@LLoopExit Mat)). loop_split.
  - team_upd Epc (LoopLThread cnt (@LLoopSingle Mat)). loop_split.
Qed.

Lemma loop_inv_single w r e c k cnt :
  loop_inv r e c k → lp_team k !! w = Some (LoopLThread cnt LLoopSingle) →
  loop_inv r e c (list_loop_single w cnt k).
Proof.
  loop_open Epc. unfold list_loop_single.
  pose proof (Forall_lookup_1 _ _ _ _ Hcnt Epc) as Hle. simpl in Hle.
  destruct (Nat.eqb_spec cnt (lp_single_count k)) as [->|Hne].
  - team_upd Epc (LoopLThread (S (lp_single_count k)) (@LLoopEmit Mat)).
    loop_split.
    + apply Forall_insert; [|simpl; lia].
      eapply Forall_impl; [done|]. simpl. intros; lia.
    + exists w, (LoopLThread (S (lp_single_count k)) (@LLoopEmit Mat)).
      split; [|done]. apply list_lookup_insert_eq. by eapply lookup_lt_Some.
  - team_upd Epc (LoopLThread (S cnt) (@LLoopWork Mat)). loop_split.
    + apply Forall_insert; [done|]. simpl. lia.
    + by eapply leader_other.
Qed.

Lemma loop_inv_next w r e c k cnt :
  loop_inv r e c k → lp_team k !! w = Some (LoopLThread cnt LLoopNext) →
  loop_inv r e c
    (ListLoop (lp_out k) (lp_capture k) (lp_writer k) (lp_nframes k)
       (lp_current_frame k + 1) (lp_threads_number k)
       (lp_any_work k) (lp_finished k) (lp_single_count k)
       (<[w := LoopLThread cnt LLoopWork]> (lp_team k)) (lp_main k)
       (lp_log k)).
Proof.
  loop_open Epc. team_upd Epc (LoopLThread cnt (@LLoopWork Mat)). loop_split.
Qed.

Lemma loop_inv_work w r e c k cnt :
  loop_inv r e c k → lp_team k !! w = Some (LoopLThread cnt LLoopWork) →
  loop_inv r e c
    (lp_set w (LoopLThread cnt (if lp_any_work k then LLoopCapture
                                else LLoopHead)) k).
Proof.
  loop_open Epc.
  assert (lp_any_work k = true ∨ lp_any_work k = false) as [Eaw|Eaw]
    by (destruct (lp_any_work k); auto).
  all: rewrite Eaw.
  - team_upd Epc (LoopLThread cnt (@LLoopCapture Mat)).
    pose proof (flag_capture_bound
                  (<[w := LoopLThread cnt LLoopCapture]> (lp_team k))) as Hfc.
    rewrite length_insert, Hw in Hfc. specialize (Haw Eaw).
    loop_split.
  - team_upd Epc (LoopLThread cnt (@LLoopHead Mat)). loop_split.
Qed.

Lemma loop_inv_flag w r e c k cnt :
  loop_inv r e c k → lp_team k !! w = Some (LoopLThread cnt LLoopFlag) →
  loop_inv r e c
    (ListLoop (lp_out k) (lp_capture k) (lp_writer k) (lp_nframes k)
       (lp_current_frame k) (lp_threads_number k)
       false (lp_finished k) (lp_single_count k)
       (<[w := LoopLThread cnt LLoopHead]> (lp_team k)) (lp_main k)
       (lp_log k)).
Proof.
  loop_open Epc. team_upd Epc (LoopLThread cnt (@LLoopHead Mat)).
  assert (0 < c)%nat.
  { destruct (lp_any_work k) eqn:Eaw; [|by apply Hfl].
    specialize (Haw eq_refl). lia. }
  loop_split.
Qed.

Lemma NoDup_nats a n : NoDup (map Z.of_nat (seq a n)).
Proof. apply NoDup_fmap_2; [apply Nat2Z.inj'|apply NoDup_seq]. Qed.

Lemma elem_nats z a n :
  z ∈ map Z.of_nat (seq a n) → ∃ i, z = Z.of_nat i ∧ (a ≤ i < a + n)%nat.
Proof.
  intros (i & -> & Hi)%list_elem_of_fmap. exists i. split; [done|].
  by apply elem_of_seq in Hi.
Qed.

Lemma elem_omap_lookup {A B} (f : A → option B) (l : list A) i a b :
  l !! i = Some a → f a = Some b → b ∈ omap f l.
Proof.
  intros Hi Hf. apply list_elem_of_omap. exists a. split; [|done].
  by eapply list_elem_of_lookup_2.
Qed.

(** Where the frames and the end-of-stream nodes of the output queue lie. *)
Lemma out_frame_range r e c k i :
  loop_inv r e c k → loop_cooked i ∈ lp_out k → (e ≤ i < r)%nat.
Proof.
  intros Hi Hx. pose proof (li_frames _ _ _ _ _ _ _ Hi) as Hfr.
  pose proof (li_bounds _ _ _ _ _ _ _ Hi) as Hb.
  assert (Z.of_nat i ∈ map Z.of_nat (seq e (r - e))) as Hin.
  { rewrite <-Hfr. apply elem_of_app. right. apply list_elem_of_omap.
    by exists (loop_cooked i). }
  apply elem_nats in Hin as (i' & Hii & Hr). lia.
Qed.

Lemma out_last_range r e c k j :
  loop_inv r e c k → loop_last j ∈ lp_out k → (M ≤ j < M + c)%nat.
Proof.
  intros Hi Hx. pose proof (li_lasts _ _ _ _ _ _ _ Hi) as Hla.
  assert (Z.of_nat j ∈ map Z.of_nat (seq M c)) as Hin.
  { rewrite <-Hla. apply elem_of_app. right. apply elem_of_app. left.
    apply list_elem_of_omap. by exists (loop_last j). }
  apply elem_nats in Hin as (i' & Hii & Hr). lia.
Qed.

(** When the head of the output queue is the frame to display, no thread is
    between a removal and [current_frame++], and the head is the frame [e]
    or, when every frame is displayed, the first end-of-stream node. *)
Lemma loop_inv_head_item r e c k x q :
  loop_inv r e c k → lp_out k = x :: q → it_id x = lp_current_frame k →
  sum_list_with emitting (lp_team k) = 0%nat ∧
  ((x = loop_cooked e ∧ (e < r)%nat) ∨
   (x = loop_last M ∧ e = M ∧ lp_finished k = false)).
Proof.
  intros Hi Eo Hid. pose proof Hi as Hi0. revert Hi.
  intros [Ht Hw Hb Hn Hcap Hok Ho Hs Hfr Hla Hdi Hcur Hem Hfin Haw Hq Hfl Hcnt
          Hld Hwr Hd Hpr Hm Hdn Hjn].
  assert (x ∈ lp_out k) as Hx by (rewrite Eo; left).
  pose proof (proj1 (Forall_forall _ _) Ho x Hx) as Hxo.
  assert (Z.of_nat e ≤ it_id x) as Hge.
  { destruct Hxo as [(i & _ & ->)|(j & ->)]; simpl.
    - pose proof (out_frame_range _ _ _ _ i Hi0 Hx). lia.
    - pose proof (out_last_range _ _ _ _ j Hi0 Hx). lia. }
  pose proof (NoDup_nats e (r - e)) as Hnf. rewrite <-Hfr in Hnf.
  pose proof (NoDup_nats M c) as Hnl. rewrite <-Hla in Hnl.
  rewrite Eo in Hnf, Hnl. cbn [omap list_omap] in Hnf, Hnl.
  assert (sum_list_with emitting (lp_team k) = 0%nat) as Hz.
  { destruct (sum_list_with emitting (lp_team k)) as [|n] eqn:Es; [done|].
    exfalso. destruct (sum_pos_exists emitting (lp_team k)) as (i & th & Hth & Hp);
      [lia|].
    pose proof (sum_lookup_le stepping _ _ _ Hth) as Hst.
    pose proof (sum_lookup_le taking _ _ _ Hth) as Hta.
    pose proof (emitting_split (lp_team k)) as Hsp.
    pose proof (Forall_lookup_1 _ _ _ _ Hok Hth) as Hto.
    unfold emitting in Hp. unfold stepping at 1 in Hst.
    unfold taking at 1 in Hta.
    unfold thread_ok in Hto.
    destruct (ll_pc th) as [| | |y| | | | | | | |] eqn:Epc; try (simpl in Hp; lia).
    - assert (lp_current_frame k = Z.of_nat e) as Hc by lia.
      destruct Hto as [[-> Hlt]|[-> ->]].
      + assert (Z.of_nat e ∈ omap hand_frame (lp_team k)) as Hin.
        { eapply elem_omap_lookup; [done|]. unfold hand_frame. by rewrite Epc. }
        destruct Hxo as [(i' & _ & ->)|(j & ->)]; simpl in Hid.
        * apply NoDup_app in Hnf as (_ & Hnf & _). apply (Hnf _ Hin).
          cbn. rewrite Hid, Hc. left.
        * pose proof (out_last_range _ _ _ _ j Hi0 Hx). lia.
      + assert (Z.of_nat M ∈ omap hand_last (lp_team k)) as Hin.
        { eapply elem_omap_lookup; [done|]. unfold hand_last. by rewrite Epc. }
        destruct Hxo as [(i' & _ & ->)|(j & ->)]; simpl in Hid.
        * pose proof (out_frame_range _ _ _ _ i' Hi0 Hx). lia.
        * apply NoDup_app in Hnl as (_ & Hnl & _). apply (Hnl _ Hin).
          cbn. rewrite Hid, Hc. left. }
  split; [done|].
  pose proof (emitting_split (lp_team k)) as Hsp.
  assert (lp_current_frame k = Z.of_nat e) as Hc by lia.
  destruct Hxo as [(i & Hlt & ->)|(j & ->)]; simpl in Hid.
  - left. assert (i = e) as -> by lia. done.
  - right. pose proof (out_last_range _ _ _ _ j Hi0 Hx).
    assert (j = M ∧ e = M) as [-> ->] by lia. split; [done|]. split; [done|].
    destruct (lp_finished k); [|done]. exfalso.
    apply NoDup_app in Hnl as (_ & _ & Hnl). cbn in Hnl.
    apply NoDup_cons in Hnl as [Hnl _]. apply Hnl.
    apply elem_of_app. right. left.
Qed.

Lemma loop_inv_emit w r e c k cnt :
  loop_inv r e c k → lp_team k !! w = Some (LoopLThread cnt LLoopEmit) →
  loop_inv r e c (list_loop_emit w cnt k).
Proof.
  intros Hi. pose proof Hi as Hi0. revert Hi. loop_open Epc.
  unfold list_loop_emit.
  destruct (lp_out k) as [|x q] eqn:Eo.
  { team_upd Epc (LoopLThread cnt (@LLoopWork Mat)). loop_split;
      by rewrite ?Eo; team_rw. }
  destruct (Z.eqb_spec (it_id x) (lp_current_frame k)) as [Hid|Hid].
  2: { team_upd Epc (LoopLThread cnt (@LLoopWork Mat)). loop_split;
         by rewrite ?Eo; team_rw. }
  destruct (loop_inv_head_item _ _ _ _ _ _ Hi0 Eo Hid) as [Hz Hx].
  apply Forall_cons in Ho as [Hxo Ho].
  apply StronglySorted_inv in Hs as [Hs _].
  team_upd Epc (LoopLThread cnt (LLoopTake x)).
  destruct Hx as [[-> Hlt]|(-> & -> & Hnf)].
  - cbn in Pf, Pl. cbn [omap list_omap] in Hfr, Hla. cbn in Hfr, Hla.
    loop_split.
    + apply Forall_insert; [done|]. by left.
    + perm_with Pf Hfr.
  - cbn in Pf, Pl. cbn [omap list_omap] in Hfr, Hla. cbn in Hfr, Hla.
    loop_split.
    + apply Forall_insert; [done|]. by right.
    + perm_with Pl Hla.
Qed.

Lemma loop_inv_take w r e c k cnt x k' :
  loop_inv r e c k → lp_team k !! w = Some (LoopLThread cnt (LLoopTake x)) →
  list_loop_take w cnt x k = Next k' → ∃ e', loop_inv r e' c k'.
Proof.
  loop_open Epc. unfold list_loop_take.
  pose proof (Forall_lookup_1 _ _ _ _ Hok Epc) as Hx.
  pose proof (emitting_split (lp_team k)) as Hsp.
  destruct Hx as [[-> Hlt]|[-> ->]]; cbn [it_last loop_cooked loop_last it_frame].
  - destruct (lookup_lt_is_Some_2 video e) as [image Him]; [lia|].
    rewrite Him. cbn [fmap option_fmap option_map]. intros [= <-].
    team_upd Epc (LoopLThread cnt (@LLoopNext Mat)). cbn in Pf, Pl.
    exists (S e). loop_split.
    + assert (sum_list_with taking
                (<[w := LoopLThread cnt LLoopNext]> (lp_team k)) = 0%nat) as Hz
        by lia.
      apply sum_zero_Forall in Hz.
      assert (Forall (thread_ok r e (lp_finished k))
                (<[w := LoopLThread cnt LLoopNext]> (lp_team k))) as Hok'
        by by apply Forall_insert.
      pose proof (proj2 (Forall_and _ _) (conj Hz Hok')) as Hboth.
      eapply Forall_impl; [exact Hboth|]. simpl. intros th [? ?].
      by eapply thread_ok_shown.
    + apply (Permutation_cons_inv (a := Z.of_nat e)).
      rewrite seq_pop in Hfr by done. cbn [map] in Hfr.
      rewrite <-Hfr, <-Pf. solve_Permutation.
    + intros Hf. specialize (Hfin Hf). lia.
    + by rewrite (take_S_r _ _ _ Him), map_app, Hwr.
    + loop_log_simpl. by rewrite Hd, seq_S, map_app.
  - intros [= <-].
    team_upd Epc (LoopLThread cnt (@LLoopWork Mat)). cbn in Pf, Pl.
    exists M. loop_split.
    + apply Forall_insert; [|done].
      eapply Forall_impl; [exact Hok|]. intros th. apply thread_ok_finished.
    + destruct (lp_finished k) eqn:Efin.
      * exfalso. pose proof (NoDup_nats M c) as Hnl. rewrite <-Hla, <-Pl in Hnl.
        apply NoDup_app in Hnl as (_ & Hnl & _).
        apply (Hnl (Z.of_nat M)); [left|].
        apply elem_of_app. right. left.
      * perm_with Pl Hla.
Qed.

Lemma loop_inv_capture w r e c k cnt :
  loop_inv r e c k → lp_team k !! w = Some (LoopLThread cnt LLoopCapture) →
  ∃ r' c', loop_inv r' e c' (list_loop_capture w cnt k).
Proof.
  loop_open Epc. unfold list_loop_capture.
  destruct (lp_capture k) as [|image rest] eqn:Ec.
  - symmetry in Hcap. apply drop_nil_inv in Hcap.
    assert (r = M) as -> by lia.
    team_upd Epc (LoopLThread cnt (@LLoopLast Mat (lp_nframes k))).
    rewrite Hn in Pl. exists M, (S c). loop_split.
    + by rewrite drop_all.
    + rewrite seq_S, map_app. cbn [map]. rewrite Hn. perm_with Pl Hla.
    + intros Haw'. specialize (Haw Haw'). lia.
  - symmetry in Hcap. apply drop_cons_inv in Hcap as (Hx & -> & Hlt).
    assert (c = 0%nat) as -> by (destruct c; [done|]; lia).
    rewrite Nat.add_0_r in Hn.
    team_upd Epc (LoopLThread cnt (LLoopFrame (lp_nframes k) image)).
    rewrite Hn in Pf, Pp. exists (S r), 0%nat. loop_split.
    + apply Forall_insert.
      * eapply Forall_impl; [exact Hok|]. intros th. apply thread_ok_mono. lia.
      * exists r. rewrite Hn. split; [lia|done].
    + eapply Forall_impl; [exact Ho|]. intros y. apply item_ok_mono. lia.
    + rewrite seq_snoc, map_app by lia. cbn [map]. rewrite Hn.
      perm_with Pf Hfr.
    + rewrite seq_S, map_app. cbn [map]. rewrite Hn, <-Hpr, Pp.
      solve_Permutation.
Qed.

Lemma loop_inv_frame w r e c k cnt id image :
  loop_inv r e c k →
  lp_team k !! w = Some (LoopLThread cnt (LLoopFrame id image)) →
  loop_inv r e c
    (lp_set_out w
       (LoopLThread cnt (LLoopSend (Item (Some (process_image image)) id false)))
       (lp_out k) [EvProcess w id] k).
Proof.
  loop_open Epc.
  pose proof (Forall_lookup_1 _ _ _ _ Hok Epc) as (i & Hlt & -> & Him).
  assert (Item (Some (process_image image)) (Z.of_nat i) false = loop_cooked i)
    as Hck by (unfold loop_cooked; by rewrite Him).
  rewrite Hck.
  team_upd Epc (LoopLThread cnt (LLoopSend (loop_cooked i))). cbn in Pf, Pl.
  apply Permutation_cons_inv in Pf.
  loop_split.
  - apply Forall_insert; [done|]. by exists i.
  - loop_log_simpl. rewrite <-Hpr, <-Pp. solve_Permutation.
Qed.

Lemma loop_inv_send w r e c k cnt x :
  loop_inv r e c k → lp_team k !! w = Some (LoopLThread cnt (LLoopSend x)) →
  loop_inv r e c
    (lp_set_out w (LoopLThread cnt LLoopHead) (insert_item x (lp_out k))
       [EvInsert w (it_id x) false] k).
Proof.
  loop_open Epc.
  pose proof (Forall_lookup_1 _ _ _ _ Hok Epc) as (i & Hlt & ->).
  team_upd Epc (LoopLThread cnt (@LLoopHead Mat)). cbn in Pf, Pl.
  loop_split.
  - rewrite insert_item_perm. constructor; [|done]. left. by exists i.
  - by apply insert_item_sorted.
  - rewrite omap_frame_id_insert. cbn. perm_with Pf Hfr.
  - rewrite omap_last_id_insert. cbn. loop_log_simpl. by team_rw.
Qed.

Lemma loop_inv_last w r e c k cnt id :
  loop_inv r e c k → lp_team k !! w = Some (LoopLThread cnt (LLoopLast id)) →
  loop_inv r e c
    (lp_set_out w (LoopLThread cnt LLoopFlag)
       (insert_item (Item None id true) (lp_out k)) [EvInsert w id true] k).
Proof.
  loop_open Epc.
  assert (∃ j, id = Z.of_nat j) as [j ->].
  { assert (id ∈ map Z.of_nat (seq M c)) as Hin.
    { rewrite <-Hla. apply elem_of_app. left.
      by eapply elem_omap_lookup. }
    apply elem_nats in Hin as (j & -> & _). by exists j. }
  team_upd Epc (LoopLThread cnt (@LLoopFlag Mat)). cbn in Pf, Pl.
  loop_split.
  - rewrite insert_item_perm. constructor; [|done]. right. by exists j.
  - by apply insert_item_sorted.
  - rewrite omap_frame_id_insert. cbn. by team_rw.
  - rewrite omap_last_id_insert. cbn. perm_with Pl Hla.
  - intros Haw'. specialize (Haw Haw'). lia.
Qed.

Lemma loop_inv_thread w r e c k k' :
  loop_inv r e c k → list_loop_thread_step process_image w k = Next k' →
  ∃ r' e' c', loop_inv r' e' c' k'.
Proof.
  intros Hi. unfold list_loop_thread_step.
  destruct (lp_team k !! w) as [[cnt pc]|] eqn:Epc; [|done].
  destruct pc as [| | |x| | | |id image|x|id| |].
  - intros [= <-]. exists r, e, c. by apply loop_inv_head.
  - intros [= <-]. exists r, e, c. by apply loop_inv_single.
  - intros [= <-]. exists r, e, c. by apply loop_inv_emit.
  - intros Hs. destruct (loop_inv_take _ _ _ _ _ _ _ _ Hi Epc Hs) as [e' ?].
    by exists r, e', c.
  - intros [= <-]. exists r, e, c. by apply loop_inv_next.
  - intros [= <-]. exists r, e, c. by apply loop_inv_work.
  - intros [= <-].
    destruct (loop_inv_capture _ _ _ _ _ _ Hi Epc) as (r' & c' & ?).
    by exists r', e, c'.
  - intros [= <-]. exists r, e, c. by apply loop_inv_frame.
  - intros [= <-]. exists r, e, c. by apply loop_inv_send.
  - intros [= <-]. exists r, e, c. by apply loop_inv_last.
  - intros [= <-]. exists r, e, c. by apply loop_inv_flag.
  - done.
Qed.

(** When every thread has left the loop, every frame is displayed and the
    output queue holds end-of-stream nodes only. *)
Lemma loop_inv_ended r e c k :
  loop_inv r e c k → forallb (@loop_lexited Mat) (lp_team k) = true →
  lp_finished k = true ∧ e = M ∧ r = M ∧
  omap hand_frame (lp_team k) = [] ∧ omap frame_id (lp_out k) = [] ∧
  omap hand_last (lp_team k) = [] ∧ omap pending (lp_team k) = [].
Proof.
  intros [Ht Hw Hb Hn Hcap Hok Ho Hs Hfr Hla Hdi Hcur Hem Hfin Haw Hq Hfl Hcnt
          Hld Hwr Hd Hpr Hm Hdn Hjn] He.
  apply Is_true_true, forallb_True in He.
  assert (lp_finished k = true) as Efin.
  { destruct (lp_team k) as [|th l] eqn:Et.
    - pose proof (team_size_pos threads_number). simpl in Hw. lia.
    - apply Forall_cons in He as [He _]. apply Forall_cons in Hok as [Hok _].
      unfold loop_lexited in He. unfold thread_ok in Hok.
      by destruct (ll_pc th). }
  specialize (Hfin Efin). subst e. assert (r = M) as -> by lia.
  rewrite Nat.sub_diag in Hfr. apply Permutation_nil_r in Hfr.
  apply app_eq_nil in Hfr as [-> ->]. split_and!; try done.
  - clear -He. induction He as [|th l Hth _ IH]; [done|]. cbn.
    unfold hand_last at 1. unfold loop_lexited in Hth.
    by destruct (ll_pc th).
  - clear -He. induction He as [|th l Hth _ IH]; [done|]. cbn.
    unfold pending at 1. unfold loop_lexited in Hth.
    by destruct (ll_pc th).
Qed.

Lemma loop_inv_after r e c k k' :
  loop_inv r e c k → list_loop_after k = Next k' → loop_inv r e c k'.
Proof.
  intros Hi. pose proof Hi as Hi0. revert Hi.
  intros [Ht Hw Hb Hn Hcap Hok Ho Hs Hfr Hla Hdi Hcur Hem Hfin Haw Hq Hfl Hcnt
          Hld Hwr Hd Hpr Hm Hdn Hjn].
  unfold list_loop_after. destruct (lp_main k) eqn:Em; [| |done].
  - destruct (forallb loop_lexited (lp_team k)) eqn:Ee; [|done].
    intros [= <-]. loop_split. by right.
  - destruct Hm as [?|Hm]; [done|].
    destruct (loop_inv_ended _ _ _ _ Hi0 Hm) as (Efin & -> & -> & Hhf & Hof & _).
    destruct (lp_out k) as [|x q] eqn:Eo.
    + intros [= <-]. loop_split. by right.
    + intros [= <-]. apply Forall_cons in Ho as [Hx Ho].
      apply StronglySorted_inv in Hs as [Hs _].
      cbn [omap list_omap] in Hof, Hla.
      destruct Hx as [(i & _ & ->)|(j & ->)]; [done|]. cbn in Hof, Hla.
      loop_split.
      * loop_log_simpl. rewrite fmap_app. cbn. rewrite <-Hla.
        solve_Permutation.
      * loop_log_simpl. apply Forall_app. split; [done|]. by constructor.
      * by right.
Qed.

(** The invariant holds in every state of the loop. *)
Lemma loop_inv_reach k :
  list_loop_reach process_image (list_loop_init threads_number video) k →
  ∃ r e c, loop_inv r e c k.
Proof.
  induction 1 as [|k1 t k2 _ (r & e & c & Hi) Hs].
  - exists 0%nat, 0%nat, 0%nat. apply loop_inv_init.
  - destruct t as [|w| |]; simpl in Hs; [done| |done|].
    + by eapply loop_inv_thread.
    + pose proof (loop_inv_after _ _ _ _ _ Hi Hs). eauto.
Qed.

End LoopSteps.

(** ** The loop can run to its end *)

Section LoopSchedule.
Context {Mat : Type}.
Variable process_image : Mat → Mat.
Variable threads_number : Z.
Variable video : list Mat.

Local Abbreviation T := (team_size threads_number).
Local Abbreviation M := (length video).
Local Abbreviation inv := (loop_inv process_image threads_number video).
Local Abbreviation loop_cooked := (loop_cooked process_image video).

Implicit Types (k : list_loop Mat) (th : loop_lthread Mat).

Local Abbreviation run := (list_loop_run process_image).
Local Abbreviation step := (list_loop_step process_image).

Lemma list_loop_run_app sched1 sched2 k :
  run (sched1 ++ sched2) k =
  match run sched1 k with
  | Next k' => run sched2 k'
  | Blocked => Blocked
  | Undefined => Undefined
  end.
Proof.
  revert k. induction sched1 as [|t sched1 IH]; intros k; simpl; [done|].
  by destruct (step t k).
Qed.

Lemma list_loop_run_reach sched k k' :
  run sched k = Next k' → list_loop_reach process_image k k'.
Proof.
  revert k'. induction sched as [|t sched IH] using rev_ind; intros k'.
  - intros [= <-]. constructor.
  - rewrite list_loop_run_app.
    destruct (run sched k) as [k1| |] eqn:E; try done. simpl.
    destruct (step t k1) as [k2| |] eqn:E2; try done.
    intros [= <-]. econstructor; [by apply IH|done].
Qed.

Lemma list_loop_reach_trans k1 k2 k3 :
  list_loop_reach process_image k1 k2 → list_loop_reach process_image k2 k3 →
  list_loop_reach process_image k1 k3.
Proof. intros H12 H23. induction H23; [done|]. by econstructor. Qed.

(** No step of a state of the loop dereferences a null pointer. *)
Lemma loop_inv_defined r e c k : inv r e c k → ∀ t, step t k ≠ Undefined.
Proof.
  intros Hi t. destruct t as [|w| |]; simpl; [done| |done|].
  - unfold list_loop_thread_step.
    destruct (lp_team k !! w) as [[cnt pc]|] eqn:Epc; [|done].
    destruct pc; try done. unfold list_loop_take.
    pose proof (Forall_lookup_1 _ _ _ _ (li_ok _ _ _ _ _ _ _ Hi) Epc) as Hx.
    pose proof (li_bounds _ _ _ _ _ _ _ Hi) as Hb.
    destruct Hx as [[-> Hlt]|[-> _]]; [|done]. cbn.
    destruct (lookup_lt_is_Some_2 video e) as [image ->]; [lia|done].
  - unfold list_loop_after. by repeat case_match.
Qed.

(** *** What is left to do, and how far the idle threads are from it *)

(** A thread that may still read the end of the stream has that to do. *)
Definition loop_thread_fuel (aw : bool) th : nat :=
  let base := (if aw then 7 else 0)%nat in
  match ll_pc th with
  | LLoopExit => 0
  | LLoopHead | LLoopSingle | LLoopEmit | LLoopWork => 1 + base
  | LLoopTake _ => 3 + base
  | LLoopNext => 2 + base
  | LLoopCapture => 7
  | LLoopLast _ => 6
  | LLoopFlag => 2
  | LLoopFrame _ _ => 6 + base
  | LLoopSend _ => 5 + base
  end%nat.

Definition loop_fuel k : nat :=
  7 * length (lp_capture k) + 3 * length (lp_out k) +
  sum_list_with (loop_thread_fuel (lp_any_work k)) (lp_team k) +
  main_fuel (lp_main k).

(** Steps of an idle thread to the loop test, once [finished] is set; before
    that, steps of the thread that will run the next [single] region to the
    point where it has something to do. *)
Definition loop_thread_wait (fin aw : bool) (sc : nat) th : nat :=
  if fin then
    match ll_pc th with
    | LLoopSingle => 3 | LLoopEmit => 2 | LLoopWork => 1 | _ => 0
    end
  else if Nat.eqb (ll_single_count th) sc then
    match ll_pc th with
    | LLoopHead => 3 | LLoopSingle => 2 | LLoopEmit => 1
    | LLoopWork => if aw then 0 else 4
    | _ => 0
    end
  else 0.

Definition loop_wait k : nat :=
  sum_list_with
    (loop_thread_wait (lp_finished k) (lp_any_work k) (lp_single_count k))
    (lp_team k).

Definition loop_advances k k' : Prop :=
  (loop_fuel k' < loop_fuel k)%nat ∨
  (loop_fuel k' = loop_fuel k ∧ loop_wait k' < loop_wait k)%nat.

Definition busy th : bool :=
  match ll_pc th with
  | LLoopTake _ | LLoopNext | LLoopCapture | LLoopFrame _ _ | LLoopSend _
  | LLoopLast _ | LLoopFlag => true
  | _ => false
  end.

Lemma thread_fuel_flag aw (l : list (loop_lthread Mat)) :
  (sum_list_with (loop_thread_fuel false) l ≤
   sum_list_with (loop_thread_fuel aw) l)%nat.
Proof.
  induction l as [|th l IH]; simpl; [done|].
  unfold loop_thread_fuel at 1 3. destruct aw, (ll_pc th); lia.
Qed.

Ltac fuel_sums Epc th' aw :=
  let F1 := fresh "F" in
  pose proof (sum_list_with_insert (loop_thread_fuel aw) _ _ _ th' Epc) as F1;
  cbn [loop_thread_fuel ll_pc] in F1.

Ltac fuel_less :=
  left; unfold loop_fuel; cbn [lp_capture lp_out lp_team lp_any_work lp_main
    lp_set lp_set_out lp_main_set main_fuel length];
  rewrite ?insert_item_length; cbn [length]; lia.

(** A thread that is in the middle of something goes on with it. *)
Lemma busy_advances r e c k w th :
  inv r e c k → lp_team k !! w = Some th → busy th = true →
  ∃ k', list_loop_thread_step process_image w k = Next k' ∧
        loop_advances k k'.
Proof.
  intros Hi Epc Hbusy. unfold list_loop_thread_step. rewrite Epc.
  destruct th as [cnt pc]. unfold busy in Hbusy. simpl in Hbusy.
  destruct pc as [| | |x| | | |id image|x|id| |]; try done.
  - (* the removed node *)
    unfold list_loop_take.
    pose proof (Forall_lookup_1 _ _ _ _ (li_ok _ _ _ _ _ _ _ Hi) Epc) as Hx.
    pose proof (li_bounds _ _ _ _ _ _ _ Hi) as Hb.
    destruct Hx as [[-> Hlt]|[-> _]]; cbn.
    + destruct (lookup_lt_is_Some_2 video e) as [image ->]; [lia|].
      cbn [fmap option_fmap option_map]. eexists. split; [done|].
      fuel_sums Epc (LoopLThread cnt (@LLoopNext Mat)) (lp_any_work k).
      fuel_less.
    + eexists. split; [done|].
      fuel_sums Epc (LoopLThread cnt (@LLoopWork Mat)) (lp_any_work k).
      fuel_less.
  - eexists. split; [done|].
    fuel_sums Epc (LoopLThread cnt (@LLoopWork Mat)) (lp_any_work k).
    fuel_less.
  - eexists. split; [done|]. unfold list_loop_capture.
    destruct (lp_capture k) as [|image rest] eqn:Ec.
    + fuel_sums Epc (LoopLThread cnt (@LLoopLast Mat (lp_nframes k)))
        (lp_any_work k).
      fuel_less.
    + fuel_sums Epc (LoopLThread cnt (LLoopFrame (lp_nframes k) image))
        (lp_any_work k).
      left. unfold loop_fuel. cbn [lp_capture lp_out lp_team lp_any_work lp_main].
      rewrite Ec. cbn [length]. destruct (lp_any_work k); lia.
  - eexists. split; [done|].
    fuel_sums Epc
      (LoopLThread cnt (LLoopSend (Item (Some (process_image image)) id false)))
      (lp_any_work k).
    fuel_less.
  - eexists. split; [done|].
    fuel_sums Epc (LoopLThread cnt (@LLoopHead Mat)) (lp_any_work k).
    fuel_less.
  - eexists. split; [done|].
    fuel_sums Epc (LoopLThread cnt (@LLoopFlag Mat)) (lp_any_work k).
    fuel_less.
  - eexists. split; [done|].
    fuel_sums Epc (LoopLThread cnt (@LLoopHead Mat)) false.
    pose proof (thread_fuel_flag (lp_any_work k) (lp_team k)).
    left. unfold loop_fuel. cbn [lp_capture lp_out lp_team lp_any_work lp_main].
    lia.
Qed.

Lemma wait_finished aw sc (l : list (loop_lthread Mat)) :
  sum_list_with (loop_thread_wait true aw sc) l =
  sum_list_with (loop_thread_wait true false 0) l.
Proof. induction l as [|th l IH]; simpl; [done|]. by rewrite IH. Qed.

Lemma wait_behind aw sc (l : list (loop_lthread Mat)) :
  Forall (λ th, (ll_single_count th ≤ sc)%nat) l →
  sum_list_with (loop_thread_wait false aw (S sc)) l = 0%nat.
Proof.
  induction 1 as [|th l Hth _ IH]; simpl; [done|]. rewrite IH.
  unfold loop_thread_wait.
  destruct (Nat.eqb_spec (ll_single_count th) (S sc)); [lia|done].
Qed.

Ltac wait_sums Epc th' fin aw sc :=
  let F1 := fresh "W" in
  pose proof (sum_list_with_insert (loop_thread_wait fin aw sc) _ _ _ th' Epc)
    as F1;
  cbn [loop_thread_wait ll_pc ll_single_count] in F1.

Ltac same_fuel :=
  right; unfold loop_fuel, loop_wait;
  cbn [lp_capture lp_out lp_team lp_any_work lp_main lp_finished
       lp_single_count lp_set lp_set_out lp_main_set main_fuel length].

(** Once [finished] is set, an idle thread goes to the loop test and
    leaves. *)
Lemma idle_finished_advances r e c k w cnt pc :
  inv r e c k → lp_finished k = true →
  lp_team k !! w = Some (LoopLThread cnt pc) → busy (LoopLThread cnt pc) = false →
  pc ≠ LLoopExit →
  ∃ k', list_loop_thread_step process_image w k = Next k' ∧
        loop_advances k k'.
Proof.
  intros Hi Efin Epc Hbusy Hne. unfold list_loop_thread_step. rewrite Epc.
  unfold busy in Hbusy. simpl in Hbusy.
  destruct pc as [| | |x| | | |id image|x|id| |]; try done.
  - rewrite Efin. eexists. split; [done|].
    fuel_sums Epc (LoopLThread cnt (@LLoopExit Mat)) (lp_any_work k).
    fuel_less.
  - eexists. split; [done|]. unfold list_loop_single.
    destruct (Nat.eqb cnt (lp_single_count k)).
    + fuel_sums Epc (LoopLThread (S cnt) (@LLoopEmit Mat)) (lp_any_work k).
      wait_sums Epc (LoopLThread (S cnt) (@LLoopEmit Mat)) true false 0%nat.
      same_fuel. rewrite Efin, !(wait_finished (lp_any_work k)). lia.
    + fuel_sums Epc (LoopLThread (S cnt) (@LLoopWork Mat)) (lp_any_work k).
      wait_sums Epc (LoopLThread (S cnt) (@LLoopWork Mat)) true false 0%nat.
      same_fuel. rewrite Efin, !(wait_finished (lp_any_work k)). lia.
  - eexists. split; [done|]. unfold list_loop_emit.
    destruct (lp_out k) as [|x q] eqn:Eo.
    + fuel_sums Epc (LoopLThread cnt (@LLoopWork Mat)) (lp_any_work k).
      wait_sums Epc (LoopLThread cnt (@LLoopWork Mat)) true false 0%nat.
      same_fuel. rewrite Eo, Efin, !(wait_finished (lp_any_work k)). lia.
    + destruct (it_id x =? lp_current_frame k).
      * fuel_sums Epc (LoopLThread cnt (LLoopTake x)) (lp_any_work k).
        left. unfold loop_fuel.
        cbn [lp_capture lp_out lp_team lp_any_work lp_main lp_set_out].
        rewrite Eo. cbn [length]. lia.
      * fuel_sums Epc (LoopLThread cnt (@LLoopWork Mat)) (lp_any_work k).
        wait_sums Epc (LoopLThread cnt (@LLoopWork Mat)) true false 0%nat.
        same_fuel. rewrite Eo, Efin, !(wait_finished (lp_any_work k)). lia.
  - eexists. split; [done|].
    assert (lp_any_work k = true ∨ lp_any_work k = false) as [Eaw|Eaw]
      by (destruct (lp_any_work k); auto).
    all: rewrite Eaw.
    + fuel_sums Epc (LoopLThread cnt (@LLoopCapture Mat)) true.
      left. unfold loop_fuel.
      cbn [lp_capture lp_out lp_team lp_any_work lp_main lp_set].
      rewrite Eaw. lia.
    + fuel_sums Epc (LoopLThread cnt (@LLoopHead Mat)) (lp_any_work k).
      wait_sums Epc (LoopLThread cnt (@LLoopHead Mat)) true false 0%nat.
      same_fuel. rewrite Efin, !(wait_finished (lp_any_work k)). lia.
Qed.

Lemma idle_no_hands (l : list (loop_lthread Mat)) :
  Forall (λ th, busy th = false) l →
  omap hand_frame l = [] ∧ omap hand_last l = [] ∧
  sum_list_with stepping l = 0%nat.
Proof.
  induction 1 as [|th l Hth _ (IH1 & IH2 & IH3)]; [done|].
  cbn [omap list_omap sum_list_with]. rewrite IH1, IH2, IH3.
  unfold busy in Hth. unfold hand_frame, hand_last, stepping.
  by destruct (ll_pc th).
Qed.

Lemma last_id_elem (q : list (item Mat)) z :
  z ∈ omap last_id q → ∃ x, x ∈ q ∧ it_id x = z.
Proof.
  intros (x & Hx & Hz)%list_elem_of_omap. exists x. split; [done|].
  unfold last_id in Hz. destruct (it_last x); [|done]. by injection Hz.
Qed.

(** When every thread is idle and the end of the stream has been seen, the
    head of the output queue is the node to display. *)
Lemma idle_head_due r e c k :
  inv r e c k → lp_finished k = false → lp_any_work k = false →
  Forall (λ th, busy th = false) (lp_team k) → lp_main k = MainJoin →
  ∃ x q, lp_out k = x :: q ∧ it_id x = lp_current_frame k.
Proof.
  intros Hi Efin Eaw Hidle Hmj. pose proof Hi as Hi0. revert Hi.
  intros [Ht Hw Hb Hn Hcap Hok Ho Hs Hfr Hla Hdi Hcur Hem Hfin Haw Hq Hfl Hcnt
          Hld Hwr Hd Hpr Hm Hdn Hjn].
  destruct (idle_no_hands _ Hidle) as (Hhf & Hhl & Hst).
  rewrite Hhf in Hfr. rewrite Hhl, Efin, (Hjn Hmj) in Hla.
  cbn [app fmap list_fmap] in Hfr, Hla. rewrite app_nil_r in Hla.
  rewrite Hst in Hcur. specialize (Hfl Eaw).
  assert (r = M) as -> by (apply Hb; lia).
  assert (∃ y, y ∈ lp_out k ∧ it_id y = Z.of_nat e) as (y & Hy & Hye).
  { destruct (decide (e < M)%nat) as [Hlt|Hge].
    - assert (Z.of_nat e ∈ omap frame_id (lp_out k)) as Hin.
      { rewrite Hfr. apply list_elem_of_fmap. exists e. split; [done|].
        apply elem_of_seq. lia. }
      apply frame_id_elem in Hin as (y & ? & _ & ?). by exists y.
    - assert (e = M) as -> by lia.
      assert (Z.of_nat M ∈ omap last_id (lp_out k)) as Hin.
      { rewrite Hla. apply list_elem_of_fmap. exists M. split; [done|].
        apply elem_of_seq. lia. }
      apply last_id_elem in Hin as (y & ? & ?). by exists y. }
  destruct (lp_out k) as [|x q] eqn:Eo; [by apply elem_of_nil in Hy|].
  exists x, q. split; [done|].
  assert (Z.of_nat e ≤ it_id x) as Hge.
  { assert (x ∈ lp_out k) as Hx by (rewrite Eo; left).
    apply Forall_cons in Ho as [[(i & _ & ->)|(j & ->)] _]; simpl.
    - pose proof (out_frame_range _ _ _ _ _ _ _ i Hi0 Hx). lia.
    - pose proof (out_last_range _ _ _ _ _ _ _ j Hi0 Hx). lia. }
  assert (it_id x ≤ Z.of_nat e) as Hle.
  { apply elem_of_cons in Hy as [->|Hy]; [lia|].
    apply StronglySorted_inv in Hs as [_ Hs].
    rewrite Forall_forall in Hs. specialize (Hs _ Hy). unfold id_le in Hs. lia. }
  lia.
Qed.

(** Before [finished] is set and when every thread is idle, the thread that
    leads the count of [single] regions reaches the next thing to do. *)
Lemma leader_advances r e c k w pc :
  inv r e c k → lp_finished k = false →
  Forall (λ th, busy th = false) (lp_team k) → lp_main k = MainJoin →
  lp_team k !! w = Some (LoopLThread (lp_single_count k) pc) →
  ∃ k', list_loop_thread_step process_image w k = Next k' ∧
        loop_advances k k'.
Proof.
  intros Hi Efin Hidle Hmj Epc. unfold list_loop_thread_step. rewrite Epc.
  pose proof (Forall_lookup_1 _ _ _ _ Hidle Epc) as Hbusy.
  pose proof (Forall_lookup_1 _ _ _ _ (li_ok _ _ _ _ _ _ _ Hi) Epc) as Hok.
  pose proof (li_counts _ _ _ _ _ _ _ Hi) as Hcnt.
  unfold busy in Hbusy. simpl in Hbusy.
  destruct pc as [| | |x| | | |id image|x|id| |]; try done.
  - rewrite Efin. eexists. split; [done|].
    fuel_sums Epc (LoopLThread (lp_single_count k) (@LLoopSingle Mat))
      (lp_any_work k).
    wait_sums Epc (LoopLThread (lp_single_count k) (@LLoopSingle Mat))
      false (lp_any_work k) (lp_single_count k).
    rewrite Nat.eqb_refl in *. same_fuel. rewrite Efin. lia.
  - eexists. split; [done|]. unfold list_loop_single. rewrite Nat.eqb_refl.
    fuel_sums Epc (LoopLThread (S (lp_single_count k)) (@LLoopEmit Mat))
      (lp_any_work k).
    wait_sums Epc (LoopLThread (S (lp_single_count k)) (@LLoopEmit Mat))
      false (lp_any_work k) (S (lp_single_count k)).
    pose proof (wait_behind (lp_any_work k) _ _ Hcnt) as Hz.
    pose proof (sum_lookup_le
                  (loop_thread_wait false (lp_any_work k) (lp_single_count k))
                  _ _ _ Epc) as Hold.
    cbn [loop_thread_wait ll_pc ll_single_count] in Hold.
    rewrite Nat.eqb_refl in *.
    destruct (Nat.eqb_spec (lp_single_count k) (S (lp_single_count k)));
      [lia|].
    right. unfold loop_fuel, loop_wait.
    cbn [lp_capture lp_out lp_team lp_any_work lp_main lp_finished
         lp_single_count]. rewrite Efin. lia.
  - unfold list_loop_emit.
    assert (lp_any_work k = true ∨ lp_any_work k = false) as [Eaw|Eaw]
      by (destruct (lp_any_work k); auto).
    + eexists. split; [done|].
      destruct (lp_out k) as [|x q] eqn:Eo.
      * fuel_sums Epc (LoopLThread (lp_single_count k) (@LLoopWork Mat))
          (lp_any_work k).
        wait_sums Epc (LoopLThread (lp_single_count k) (@LLoopWork Mat))
          false (lp_any_work k) (lp_single_count k).
        rewrite Nat.eqb_refl, Eaw in *. same_fuel. rewrite Eo, Efin, Eaw. lia.
      * destruct (it_id x =? lp_current_frame k).
        -- fuel_sums Epc (LoopLThread (lp_single_count k) (LLoopTake x))
             (lp_any_work k).
           left. unfold loop_fuel.
           cbn [lp_capture lp_out lp_team lp_any_work lp_main lp_set_out].
           rewrite Eo. cbn [length]. lia.
        -- fuel_sums Epc (LoopLThread (lp_single_count k) (@LLoopWork Mat))
             (lp_any_work k).
           wait_sums Epc (LoopLThread (lp_single_count k) (@LLoopWork Mat))
             false (lp_any_work k) (lp_single_count k).
           rewrite Nat.eqb_refl, Eaw in *. same_fuel.
           rewrite Eo, Efin, Eaw. lia.
    + destruct (idle_head_due _ _ _ _ Hi Efin Eaw Hidle Hmj)
        as (x & q & Eo & Hid).
      rewrite Eo. apply Z.eqb_eq in Hid. rewrite Hid.
      eexists. split; [done|].
      fuel_sums Epc (LoopLThread (lp_single_count k) (LLoopTake x))
        (lp_any_work k).
      left. unfold loop_fuel.
      cbn [lp_capture lp_out lp_team lp_any_work lp_main lp_set_out].
      rewrite Eo. cbn [length]. lia.
  - eexists. split; [done|].
    assert (lp_any_work k = true ∨ lp_any_work k = false) as [Eaw|Eaw]
      by (destruct (lp_any_work k); auto).
    all: rewrite Eaw.
    + fuel_sums Epc (LoopLThread (lp_single_count k) (@LLoopCapture Mat)) true.
      left. unfold loop_fuel.
      cbn [lp_capture lp_out lp_team lp_any_work lp_main lp_set].
      rewrite Eaw. lia.
    + fuel_sums Epc (LoopLThread (lp_single_count k) (@LLoopHead Mat))
        (lp_any_work k).
      wait_sums Epc (LoopLThread (lp_single_count k) (@LLoopHead Mat))
        false (lp_any_work k) (lp_single_count k).
      rewrite Nat.eqb_refl, Eaw in *. same_fuel. rewrite Efin, Eaw. lia.
  - simpl in Hok. congruence.
Qed.

Lemma busy_or_idle (l : list (loop_lthread Mat)) :
  (∃ w th, l !! w = Some th ∧ busy th = true) ∨
  Forall (λ th, busy th = false) l.
Proof.
  induction l as [|th l [(w & th' & Hw & Hb)|IH]].
  - right. constructor.
  - left. by exists (S w), th'.
  - destruct (busy th) eqn:Eb.
    + left. by exists 0%nat, th.
    + right. by constructor.
Qed.

Lemma exited_or_not (l : list (loop_lthread Mat)) :
  forallb (@loop_lexited Mat) l = true ∨
  ∃ w th, l !! w = Some th ∧ loop_lexited th = false.
Proof.
  induction l as [|th l [IH|(w & th' & Hw & Hb)]].
  - by left.
  - destruct (loop_lexited th) eqn:Eb.
    + left. simpl. by rewrite Eb, IH.
    + right. by exists 0%nat, th.
  - right. by exists (S w), th'.
Qed.

(** Some thread can always take a step that brings the program closer to its
    end. *)
Lemma loop_progress r e c k :
  inv r e c k → lp_main k ≠ MainReturn →
  ∃ t k', step t k = Next k' ∧ loop_advances k k'.
Proof.
  intros Hi Hne. destruct (lp_main k) eqn:Em; [| |done].
  - destruct (exited_or_not (lp_team k)) as [He|(w0 & th0 & Hw0 & Hx0)].
    + exists Main. simpl. unfold list_loop_after. rewrite Em, He.
      eexists. split; [done|]. left. unfold loop_fuel.
      cbn [lp_capture lp_out lp_team lp_any_work lp_main lp_main_set
           main_fuel]. rewrite Em. cbn [main_fuel]. lia.
    + destruct (busy_or_idle (lp_team k)) as [(w & th & Hw & Hb)|Hidle].
      { exists (Worker w). simpl. by eapply busy_advances. }
      destruct (lp_finished k) eqn:Efin.
      * destruct th0 as [cnt pc]. exists (Worker w0). simpl.
        eapply idle_finished_advances; [done..| |].
        -- apply (Forall_lookup_1 _ _ _ _ Hidle Hw0).
        -- intros ->. done.
      * destruct (li_leader _ _ _ _ _ _ _ Hi) as (w & [cnt pc] & Hw & Hc).
        simpl in Hc. subst cnt. exists (Worker w). simpl.
        by eapply leader_advances.
  - exists Main. simpl. unfold list_loop_after. rewrite Em.
    destruct (lp_out k) as [|x q] eqn:Eo.
    + eexists. split; [done|]. left. unfold loop_fuel.
      cbn [lp_capture lp_out lp_team lp_any_work lp_main lp_main_set
           main_fuel]. rewrite Em, Eo. cbn [main_fuel length]. lia.
    + eexists. split; [done|]. left. unfold loop_fuel.
      cbn [lp_capture lp_out lp_team lp_any_work lp_main lp_main_set
           main_fuel]. rewrite Em, Eo. cbn [main_fuel length]. lia.
Qed.

(** From every state that the loop can be in, some schedule takes the program
    to its return. *)
Lemma list_loop_completes k :
  list_loop_reach process_image (list_loop_init threads_number video) k →
  ∃ sched k', run sched k = Next k' ∧ lp_main k' = MainReturn.
Proof.
  remember (loop_fuel k) as n eqn:En. revert k En.
  induction n as [n IHn] using lt_wf_ind. intros k En.
  remember (loop_wait k) as m eqn:Em. revert k En Em.
  induction m as [m IHm] using lt_wf_ind. intros k -> -> Hreach.
  assert (lp_main k = MainReturn ∨ lp_main k ≠ MainReturn) as [|Hne]
    by (destruct (lp_main k); auto); [by exists [], k|].
  destruct (loop_inv_reach process_image _ _ _ Hreach) as (r & e & c & Hi).
  destruct (loop_progress _ _ _ _ Hi Hne) as (t & k1 & Hstep & Hadv).
  assert (list_loop_reach process_image
            (list_loop_init threads_number video) k1)
    as Hreach1 by by econstructor.
  destruct Hadv as [Hlt|[Heq Hlt]].
  - destruct (IHn _ Hlt k1 eq_refl Hreach1) as (sched & k' & Hrun & Hk').
    exists (t :: sched), k'. simpl. by rewrite Hstep.
  - destruct (IHm _ Hlt k1 (eq_sym Heq) eq_refl Hreach1)
      as (sched & k' & Hrun & Hk').
    exists (t :: sched), k'. simpl. by rewrite Hstep.
Qed.

End LoopSchedule.

(** ** The loop on the heap *)

Lemma free_log_length (log : list event) :
  length (free_log log) =
    (length (display_ids log) + length (discard_log log))%nat.
Proof.
  induction log as [|ev log IH]; [done|].
  destruct ev; cbn [free_log display_ids discard_log omap list_omap length];
    fold (free_log log) (display_ids log) (discard_log log); lia.
Qed.

Section LoopProgram.
Context {Mat : Type}.
Variable process_image : Mat → Mat.
Variable threads_number : Z.
Variable video : list Mat.

Local Abbreviation M := (length video).

(** Every state of the loop is described by a state on lists that satisfies
    the invariant. *)
Lemma loop_reach_inv (s : loop_state Mat) :
  loop_reach process_image (loop_init threads_number video) s →
  ∃ k r e c,
    loop_rel s k ∧
    loop_inv process_image threads_number video r e c k.
Proof.
  intros (k & Hk & Hr)%loop_reach_rel.
  destruct (loop_inv_reach _ _ _ _ Hk) as (r & e & c & Hi).
  by exists k, r, e, c.
Qed.

Lemma loop_run_reach sched (s s' : loop_state Mat) :
  loop_run process_image sched s = Next s' → loop_reach process_image s s'.
Proof.
  revert s. induction sched as [|t sched IH]; intros s; simpl.
  - intros [= <-]. constructor.
  - destruct (loop_step process_image t s) as [s1| |] eqn:E; try done.
    intros H%IH. clear IH. induction H as [|s2 t' s3 _ IH H3].
    + econstructor; [constructor|done].
    + econstructor; [apply IH|done].
Qed.

(** No step of the loop dereferences a null or dangling pointer. *)
Lemma loop_step_defined (s : loop_state Mat) t :
  loop_reach process_image (loop_init threads_number video) s →
  loop_step process_image t s ≠ Undefined.
Proof.
  intros (k & r & e & c & Hr & Hi)%loop_reach_inv.
  pose proof (loop_step_rel process_image t _ _ Hr) as Hm.
  pose proof (loop_inv_defined _ _ _ _ _ _ _ Hi t) as Hd.
  destruct (list_loop_step process_image t k) as [k'| |]; simpl in Hm.
  - by destruct Hm as (s' & -> & _).
  - by rewrite Hm.
  - done.
Qed.

Lemma loop_run_defined sched (s : loop_state Mat) :
  loop_reach process_image (loop_init threads_number video) s →
  loop_run process_image sched s ≠ Undefined.
Proof.
  revert s. induction sched as [|t sched IH]; intros s Hr; simpl; [done|].
  pose proof (loop_step_defined s t Hr) as Hd.
  destruct (loop_step process_image t s) as [s'| |] eqn:E; [|done..].
  apply IH. by econstructor.
Qed.

(** Whatever the number of threads asked for, the loop, from wherever it
    is, can run until [parallel_processing] returns. *)
Lemma loop_ends (s : loop_state Mat) :
  loop_reach process_image (loop_init threads_number video) s →
  ∃ sched s',
    loop_run process_image sched s = Next s' ∧ lo_main s' = MainReturn.
Proof.
  intros (k & Hk & Hr)%loop_reach_rel.
  destruct (list_loop_completes process_image _ _ _ Hk)
    as (sched & k' & Hrun & Hk').
  pose proof (loop_run_rel process_image sched _ _ Hr) as Hm.
  rewrite Hrun in Hm. destruct Hm as (s' & Hs' & (held & lo & Hr')).
  exists sched, s'. split; [done|]. by rewrite (lr_main _ _ _ _ Hr').
Qed.

(** Threads that have taken an id for a node they have still to allocate. *)
Definition reading (th : loop_thread Mat) : nat :=
  match lt_pc th with LoopFrame _ _ | LoopLast _ => 1 | _ => 0 end.

(** Every id taken from [nframes] belongs to a node that is on the heap, or
    was freed, or is about to be allocated. *)
Definition counted (s : loop_state Mat) : Prop :=
  Z.of_nat (size (heap (lo_mem s)) + length (free_log (lo_log s)) +
            sum_list_with reading (lo_team s)) = lo_nframes s.

Lemma loop_step_counted t (s s' : loop_state Mat) :
  loop_step process_image t s = Next s' → counted s → counted s'.
Proof.
  unfold counted. destruct t as [|w| |]; simpl; [done| |done|].
  - unfold loop_thread_step.
    destruct (lo_team s !! w) as [[c pc]|] eqn:Epc; [|done].
    pose proof (λ th', sum_list_with_insert reading _ _ _ th' Epc) as Hr.
    cbn [reading lt_pc] in Hr.
    destruct pc as [| | |a| | | |id image|a|id| |].
    + intros [= <-]. simpl.
      specialize (Hr (LoopThread c (if lo_finished s then LoopExit
                                    else LoopSingle))).
      destruct (lo_finished s); simpl in Hr; lia.
    + intros [= <-]. unfold loop_single.
      destruct (Nat.eqb c (lo_single_count s)); simpl.
      * specialize (Hr (LoopThread (S c) LoopEmit)). simpl in Hr. lia.
      * specialize (Hr (LoopThread (S c) LoopWork)). simpl in Hr. lia.
    + unfold loop_emit.
      pose proof (Hr (LoopThread c LoopWork)) as Hw. simpl in Hw.
      case_match; [|intros [= <-]; simpl; lia].
      destruct (get_head_id_from_output_work_queue _); [|done]. simpl.
      case_match; [|intros [= <-]; simpl; lia].
      destruct (remove_from_output_work_queue _) as [[a g]|] eqn:E; [|done].
      simpl. destruct (heap g !! a); [|done]. intros [= <-]. simpl.
      count_simpl. apply remove_from_output_size in E.
      specialize (Hr (LoopThread c (LoopTake a))). simpl in Hr. lia.
    + unfold loop_take.
      destruct (heap (lo_mem s) !! a) as [n|]; [|done]. simpl.
      destruct (is_the_last_node n).
      * intros [= <-]. simpl.
        specialize (Hr (LoopThread c LoopWork)). simpl in Hr. lia.
      * destruct (send_frame_to_display _ _) as [[image g]|] eqn:E; [|done].
        intros [= <-]. simpl. count_simpl.
        apply send_frame_to_display_size in E.
        specialize (Hr (LoopThread c LoopNext)). simpl in Hr. lia.
    + intros [= <-]. simpl.
      specialize (Hr (LoopThread c LoopWork)). simpl in Hr. lia.
    + intros [= <-]. simpl.
      specialize (Hr (LoopThread c (if lo_is_there_any_work s
                                    then LoopCapture else LoopHead))).
      destruct (lo_is_there_any_work s); simpl in Hr; lia.
    + intros [= <-]. unfold loop_capture.
      destruct (lo_capture s) as [|image rest]; simpl.
      * specialize (Hr (LoopThread c (LoopLast (lo_nframes s)))).
        simpl in Hr. lia.
      * specialize (Hr (LoopThread c (LoopFrame (lo_nframes s) image))).
        simpl in Hr. lia.
    + destruct (new_node _ _) as [a g1] eqn:En.
      destruct (process_frame _ _ _) as [g'|] eqn:E; [|done].
      intros [= <-]. simpl. count_simpl.
      apply new_node_size in En. apply process_frame_size in E.
      specialize (Hr (LoopThread c (LoopSend a))). simpl in Hr. lia.
    + destruct (heap (lo_mem s) !! a) as [n|]; [|done]. simpl.
      destruct (add_to_output_work_queue _ _) as [g|] eqn:E; [|done].
      intros [= <-]. simpl. count_simpl. apply add_to_output_size in E.
      specialize (Hr (LoopThread c LoopHead)). simpl in Hr. lia.
    + destruct (new_node _ _) as [a g1] eqn:En.
      destruct (add_to_output_work_queue _ _) as [g'|] eqn:E; [|done].
      intros [= <-]. simpl. count_simpl.
      apply new_node_size in En. apply add_to_output_size in E.
      specialize (Hr (LoopThread c LoopFlag)). simpl in Hr. lia.
    + intros [= <-]. simpl.
      specialize (Hr (LoopThread c LoopHead)). simpl in Hr. lia.
    + done.
  - unfold loop_after. destruct (lo_main s); [| |done].
    + case_match; [|done]. intros [= <-]. simpl. by rewrite app_nil_r.
    + case_match; [|intros [= <-]; simpl; by rewrite app_nil_r].
      destruct (remove_from_output_work_queue _) as [[a g]|] eqn:E; [|done].
      simpl. destruct (heap g !! a) eqn:Ea; [|done]. intros [= <-].
      cbn [lo_mem lo_log lo_team lo_nframes loop_main_set]. count_simpl.
      apply remove_from_output_size in E.
      pose proof (free_node_size a g (mk_is_Some _ _ Ea)). lia.
Qed.

Lemma loop_reach_counted (s : loop_state Mat) :
  loop_reach process_image (loop_init threads_number video) s → counted s.
Proof.
  induction 1 as [|s1 t s2 _ IH Hs]; [|by eapply loop_step_counted].
  unfold counted. simpl. rewrite map_size_empty.
  generalize (team_size threads_number). intros n.
  assert (sum_list_with reading (replicate n (LoopThread 0 (@LoopHead Mat)))
          = 0%nat) as -> by (induction n; simpl; lia).
  done.
Qed.

(** Sums over the team, on the heap and on lists. *)
Lemma sum_list_with_pointwise {A B} (f : A → nat) (g : B → nat)
    (l1 : list A) (l2 : list B) :
  length l1 = length l2 →
  (∀ i a b, l1 !! i = Some a → l2 !! i = Some b → f a = g b) →
  sum_list_with f l1 = sum_list_with g l2.
Proof.
  revert l2. induction l1 as [|a l1 IH]; intros [|b l2] Hl Hfg; try done.
  simpl. f_equal.
  - by apply (Hfg 0%nat).
  - apply IH; [by injection Hl|]. intros i. apply (Hfg (S i)).
Qed.

(** Threads between [remove_from_output_work_queue] and the end of
    [current_frame++]. *)
Definition displaying (th : loop_thread Mat) : nat :=
  match lt_pc th with LoopTake _ | LoopNext => 1 | _ => 0 end.

Lemma loop_team_displaying held ths (lths : list (loop_lthread Mat)) :
  loop_team_rel held ths lths →
  sum_list_with displaying ths = sum_list_with emitting lths ∧
  sum_list_with reading ths =
    sum_list_with (λ lth, match ll_pc lth with
                          | LLoopFrame _ _ | LLoopLast _ => 1%nat
                          | _ => 0%nat
                          end) lths.
Proof.
  intros [Hl Ht]. split.
  - apply sum_list_with_pointwise; [done|]. intros w th lth H1 H2.
    destruct (Ht _ _ _ H1 H2) as [_ Hpc]. unfold displaying, emitting.
    by destruct (lt_pc th), (ll_pc lth).
  - apply sum_list_with_pointwise; [done|]. intros w th lth H1 H2.
    destruct (Ht _ _ _ H1 H2) as [_ Hpc]. unfold reading.
    by destruct (lt_pc th), (ll_pc lth).
Qed.

Lemma exited_no_reading (l : list (loop_lthread Mat)) :
  forallb (@loop_lexited Mat) l = true →
  sum_list_with (λ lth, match ll_pc lth with
                        | LLoopFrame _ _ | LLoopLast _ => 1%nat
                        | _ => 0%nat
                        end) l = 0%nat.
Proof.
  induction l as [|th l IH]; [done|]. simpl.
  intros [Hth Hl]%andb_true_iff. rewrite (IH Hl).
  unfold loop_lexited in Hth. by destruct (ll_pc th).
Qed.

End LoopProgram.

(** ** The loop at its end, and its output queue *)

Section LoopFinal.
Context {Mat : Type}.
Variable process_image : Mat → Mat.
Variable threads_number : Z.
Variable video : list Mat.

Local Abbreviation T := (team_size threads_number).
Local Abbreviation M := (length video).
Local Abbreviation inv := (loop_inv process_image threads_number video).

Implicit Types (k : list_loop Mat) (x : item Mat).

(** After the join every frame has been processed and displayed, the
    end-of-stream node with id [M] has set [finished], and the other
    end-of-stream nodes are in the output queue or have been freed by the
    final loop. *)
Lemma loop_inv_joined r e c k :
  inv r e c k → lp_main k ≠ MainJoin →
  lp_finished k = true ∧ e = M ∧ r = M ∧ (1 ≤ c ≤ T)%nat ∧
  omap pending (lp_team k) = [] ∧
  sum_list_with emitting (lp_team k) = 0%nat ∧
  omap last_id (lp_out k) ++ (discard_log (lp_log k)).*1
    ≡ₚ map Z.of_nat (seq (S M) (c - 1)).
Proof.
  intros Hi Hm. destruct (li_main _ _ _ _ _ _ _ Hi) as [?|He]; [done|].
  destruct (loop_inv_ended _ _ _ _ _ _ _ Hi He)
    as (Hfin & -> & -> & Hhf & Hof & Hhl & Hpe).
  pose proof (li_lasts _ _ _ _ _ _ _ Hi) as Hla.
  pose proof (li_quota _ _ _ _ _ _ _ Hi) as Hq.
  rewrite Hhl, Hfin in Hla. cbn [app] in Hla.
  assert (0 < c)%nat as Hc.
  { destruct c; [|lia]. simpl in Hla. symmetry in Hla.
    apply Permutation_nil in Hla. by destruct (omap last_id (lp_out k)). }
  split_and!; try done; try lia.
  - apply Is_true_true, forallb_True in He. clear -He.
    induction He as [|th l Hth _ IH]; [done|]. simpl. rewrite IH.
    unfold loop_lexited in Hth. unfold emitting. by destruct (ll_pc th).
  - replace c with (S (c - 1)) in Hla by lia. cbn [seq map] in Hla.
    apply (Permutation_cons_inv (a := Z.of_nat M)). rewrite <-Hla.
    by rewrite Permutation_middle.
Qed.

Lemma discard_all_last (dl : list (Z * bool)) :
  Forall (λ d, d.2 = true) dl → dl = map (λ z, (z, true)) dl.*1.
Proof.
  induction 1 as [|[z b] dl Hd _ IH]; [done|]. simpl in *. subst b.
  by f_equal.
Qed.

Lemma stepping_le_emitting (l : list (loop_lthread Mat)) :
  (sum_list_with stepping l ≤ sum_list_with emitting l)%nat.
Proof.
  induction l as [|th l IH]; simpl; [done|].
  unfold stepping at 1, emitting at 1. destruct (ll_pc th); lia.
Qed.

Lemma ids_frames_lasts (q : list (item Mat)) :
  map it_id q ≡ₚ omap frame_id q ++ omap last_id q.
Proof.
  induction q as [|x q IH]; [done|]. cbn [map omap list_omap].
  unfold frame_id at 1, last_id at 1. destruct (it_last x); simpl.
  - rewrite IH. apply Permutation_middle.
  - by rewrite IH.
Qed.

Lemma sorted_distinct_strict (q : list (item Mat)) :
  StronglySorted id_le q → NoDup (map it_id q) →
  StronglySorted (λ x y, it_id x < it_id y) q.
Proof.
  induction 1 as [|x q _ IH Hx]; intros Hnd; [constructor|].
  apply NoDup_cons in Hnd as [Hnx Hnd]. constructor; [by apply IH|].
  apply Forall_forall. intros y Hy.
  rewrite Forall_forall in Hx. specialize (Hx y Hy). unfold id_le in Hx.
  assert (it_id x ≠ it_id y); [|lia].
  intros Heq. apply Hnx. rewrite Heq. apply list_elem_of_fmap. by exists y.
Qed.

(** The ids of the output queue increase strictly from its head, and lie
    between the number of frames displayed and the ids given out. *)
Lemma loop_out_strict r e c k :
  inv r e c k →
  StronglySorted (λ x y, it_id x < it_id y) (lp_out k) ∧
  Forall (λ x, Z.of_nat e ≤ it_id x < Z.of_nat (r + c)) (lp_out k) ∧
  Forall (λ x,
            (∃ i image, video !! i = Some image ∧
               x = Item (Some (process_image image)) (Z.of_nat i) false) ∨
            (∃ j, (M ≤ j)%nat ∧ x = Item None (Z.of_nat j) true))
         (lp_out k).
Proof.
  intros Hi. pose proof (li_bounds _ _ _ _ _ _ _ Hi) as Hb.
  assert (∀ x, x ∈ lp_out k →
            (∃ i, x = loop_cooked process_image video i ∧ (e ≤ i < r)%nat) ∨
            (∃ j, x = loop_last j ∧ (M ≤ j < M + c)%nat)) as Hrange.
  { intros x Hx.
    pose proof (proj1 (Forall_forall _ _) (li_out _ _ _ _ _ _ _ Hi) x Hx)
      as [(i & _ & ->)|(j & ->)].
    - left. exists i. split; [done|]. by eapply out_frame_range.
    - right. exists j. split; [done|]. by eapply out_last_range. }
  split_and!.
  - apply sorted_distinct_strict; [apply (li_sorted _ _ _ _ _ _ _ Hi)|].
    rewrite ids_frames_lasts. apply NoDup_app. split_and!.
    + pose proof (NoDup_nats e (r - e)) as Hnd.
      rewrite <-(li_frames _ _ _ _ _ _ _ Hi) in Hnd.
      by apply NoDup_app in Hnd as (_ & _ & ?).
    + intros z (x & Hx & Hlx & Hzx)%frame_id_elem
        (y & Hy & Hzy)%list_elem_of_omap.
      unfold last_id in Hzy. destruct (it_last y) eqn:Ely; [|done].
      injection Hzy as Hzy.
      destruct (Hrange x Hx) as [(i & -> & Hir)|(j & -> & _)]; [|done].
      destruct (Hrange y Hy) as [(i' & -> & _)|(j & -> & Hjr)]; [done|].
      simpl in *. lia.
    + pose proof (NoDup_nats M c) as Hnd.
      rewrite <-(li_lasts _ _ _ _ _ _ _ Hi) in Hnd.
      apply NoDup_app in Hnd as (_ & _ & Hnd).
      by apply NoDup_app in Hnd as (? & _ & _).
  - apply Forall_forall. intros x Hx.
    destruct (Hrange x Hx) as [(i & -> & Hir)|(j & -> & Hjr)]; simpl; [lia|].
    assert (0 < c)%nat as Hc by lia. destruct Hb as [Hb1 Hb2].
    rewrite (Hb2 Hc). lia.
  - apply Forall_forall. intros x Hx.
    destruct (Hrange x Hx) as [(i & -> & Hir)|(j & -> & Hjr)].
    + left. destruct (lookup_lt_is_Some_2 video i) as [image Him]; [lia|].
      exists i, image. split; [done|]. unfold loop_cooked. by rewrite Him.
    + right. exists j. split; [lia|done].
Qed.

End LoopFinal.

(** ** What is written when [parallel_processing] has returned *)

Section Returned.
Context {Mat : Type}.
Variable process_image : Mat → Mat.
Variable threads_number : Z.
Variable video : list Mat.

Lemma sequential_loop_spec (capture writer : list Mat) (nframes : Z) :
  sequential_loop process_image capture writer nframes =
    (writer ++ map process_image capture, nframes + Z.of_nat (length capture)).
Proof.
  revert writer nframes. induction capture as [|image rest IH];
    intros writer nframes; simpl.
  - rewrite app_nil_r. f_equal. lia.
  - rewrite IH, <-app_assoc. simpl. f_equal. lia.
Qed.

Lemma stage_returned_writer (s : stage_state Mat) :
  stage_reach process_image (stage_init threads_number video) s →
  st_main s = MainReturn → st_writer s = map process_image video.
Proof.
  intros Hs Hm.
  destruct (stage_reach_inv _ _ _ _ Hs)
    as (k & r & p & e & sent & sp & (held & li & lo & Hr) & _ & Hi).
  rewrite (sr_writer _ _ _ _ _ Hr). rewrite (sr_main _ _ _ _ _ Hr) in Hm.
  destruct (stage_inv_final _ _ _ _ _ _ _ _ _ Hi) as (-> & _); [congruence|].
  by rewrite (si_writer _ _ _ _ _ _ _ _ _ Hi), firstn_all.
Qed.

Lemma v2_returned_writer (s : v2_state Mat) :
  v2_reach process_image (v2_init threads_number video) s →
  v2_main s = MainReturn → v2_writer s = map process_image video.
Proof.
  intros Hs Hm.
  destruct (v2_reach_inv _ _ _ _ Hs)
    as (k & r & p & e & sent & sp & (held & li & lo & Hr) & Hi).
  rewrite (vr_writer _ _ _ _ _ Hr). rewrite (vr_main _ _ _ _ _ Hr) in Hm.
  destruct (v2_inv_final _ _ _ _ _ _ _ _ _ Hi) as (-> & _); [congruence|].
  by rewrite (vi_writer _ _ _ _ _ _ _ _ _ Hi), firstn_all.
Qed.

Lemma loop_returned_writer (s : loop_state Mat) :
  loop_reach process_image (loop_init threads_number video) s →
  lo_main s = MainReturn → lo_writer s = map process_image video.
Proof.
  intros Hs Hm.
  destruct (loop_reach_inv _ _ _ _ Hs)
    as (k & r & e & c & (held & lo & Hr) & Hi).
  rewrite (lr_writer _ _ _ _ Hr). rewrite (lr_main _ _ _ _ Hr) in Hm.
  destruct (loop_inv_joined _ _ _ _ _ _ _ Hi) as (_ & -> & _); [congruence|].
  by rewrite (li_writer _ _ _ _ _ _ _ Hi), firstn_all.
Qed.

End Returned.

(** ** Payloads in the loop *)

Section LoopPayload.
Context {Mat : Type}.
Variable process_image : Mat → Mat.
Implicit Types (g : globals Mat).

(** A node is created and the heap is relinked. *)
Lemma new_node_then_kept it g a g1 g' :
  (it_frame it = None ↔ it_last it = true) →
  new_node it g = (a, g1) → shrinks (heap g1) (heap g') →
  kept (heap g) (heap g').
Proof.
  intros Hit [= <- <-] Hs b n' (n & Hb & Hk)%Hs.
  simpl in Hb. destruct (decide (malloc (heap g) = b)) as [<-|Hne].
  - rewrite lookup_insert_eq in Hb. injection Hb as <-.
    assert (heap g !! malloc (heap g) = None) as ->.
    { apply not_elem_of_dom. apply is_fresh. }
    eapply same_kind_ok; [done|]. done.
  - rewrite lookup_insert_ne in Hb by done. by rewrite Hb.
Qed.

(** Every step of the loop keeps the nodes well formed. *)
Lemma loop_step_kept t (s s' : loop_state Mat) :
  loop_step process_image t s = Next s' →
  kept (heap (lo_mem s)) (heap (lo_mem s')).
Proof.
  destruct t as [|w| |]; simpl; [done| |done|].
  - unfold loop_thread_step.
    destruct (lo_team s !! w) as [[c pc]|] eqn:Epc; [|done].
    destruct pc as [| | |a| | | |id image|a|id| |].
    + intros [= <-]. apply kept_refl.
    + intros [= <-]. unfold loop_single. case_match; apply kept_refl.
    + unfold loop_emit. case_match; [|intros [= <-]; apply kept_refl].
      destruct (get_head_id_from_output_work_queue _); [|done]. simpl.
      case_match; [|intros [= <-]; apply kept_refl].
      destruct (remove_from_output_work_queue _) as [[a g]|] eqn:E; [|done].
      simpl. destruct (heap g !! a); [|done]. intros [= <-]. simpl.
      apply shrinks_kept. by eapply remove_from_output_shrinks.
    + unfold loop_take.
      destruct (heap (lo_mem s) !! a) as [n|]; [|done]. simpl.
      destruct (is_the_last_node n); [intros [= <-]; apply kept_refl|].
      destruct (send_frame_to_display _ _) as [[image g]|] eqn:E; [|done].
      intros [= <-]. simpl.
      apply shrinks_kept. by eapply send_frame_to_display_shrinks.
    + intros [= <-]. apply kept_refl.
    + intros [= <-]. apply kept_refl.
    + intros [= <-]. unfold loop_capture. case_match; apply kept_refl.
    + destruct (new_node _ _) as [a g1] eqn:En.
      destruct (process_frame _ _ _) as [g'|] eqn:E; [|done].
      intros [= <-]. simpl. eapply new_node_then_kept; [|done|].
      * by split.
      * by eapply process_frame_shrinks.
    + destruct (heap (lo_mem s) !! a) as [n|]; [|done]. simpl.
      destruct (add_to_output_work_queue _ _) as [g|] eqn:E; [|done].
      intros [= <-]. simpl.
      apply shrinks_kept. by eapply add_to_output_shrinks.
    + destruct (new_node _ _) as [a g1] eqn:En.
      destruct (add_to_output_work_queue _ _) as [g'|] eqn:E; [|done].
      intros [= <-]. simpl. eapply new_node_then_kept; [|done|].
      * by split.
      * by eapply add_to_output_shrinks.
    + intros [= <-]. apply kept_refl.
    + done.
  - unfold loop_after. destruct (lo_main s); [| |done].
    + case_match; [|done]. intros [= <-]. apply kept_refl.
    + case_match; [|intros [= <-]; apply kept_refl].
      destruct (remove_from_output_work_queue _) as [[a g]|] eqn:E; [|done].
      simpl. destruct (heap g !! a); [|done]. intros [= <-]. simpl.
      apply shrinks_kept. by apply remove_free_shrinks.
Qed.

Lemma loop_reach_heap_ok threads_number video (s : loop_state Mat) :
  loop_reach process_image (loop_init threads_number video) s →
  heap_ok (heap (lo_mem s)).
Proof.
  induction 1 as [|s1 t s2 _ IH Hs]; [done|].
  eapply kept_ok; [|done]. by eapply loop_step_kept.
Qed.

End LoopPayload.

(** * Further properties of the two programs *)

Section ProgramProperties.
Context {Mat : Type}.
Variable process_image : Mat → Mat.

(** X1. Memory safety of the three stages: whatever the worker count, the
    stream and the order in which the threads take their steps, no step
    dereferences a null pointer or a freed node: a run stops at a thread that
    has to wait or goes through, it never has undefined behaviour. *)
Theorem stage_memory_safe (threads_number : Z) (video : list Mat)
    (sched : list thread) :
  stage_run process_image sched (stage_init threads_number video) = Blocked ∨
  ∃ s, stage_run process_image sched (stage_init threads_number video) = Next s ∧
       ∀ t, stage_step process_image t s ≠ Undefined.
Proof.
  pose proof (stage_run_defined process_image threads_number video sched _
                (stage_reach_refl _ _)) as Hd.
  destruct (stage_run _ _ _) as [s| |] eqn:E; [|by left|done].
  right. exists s. split; [done|]. intros t.
  apply (stage_step_defined process_image threads_number video).
  by apply stage_run_reach with sched.
Qed.

(** X2. Memory safety of version 2: whatever the worker count, the stream
    and the order in which the threads take their steps, no step dereferences
    a null pointer or a freed node. *)
Theorem v2_memory_safe (threads_number : Z) (video : list Mat)
    (sched : list thread) :
  v2_run process_image sched (v2_init threads_number video) = Blocked ∨
  ∃ s, v2_run process_image sched (v2_init threads_number video) = Next s ∧
       ∀ t, v2_step process_image t s ≠ Undefined.
Proof.
  pose proof (v2_run_defined process_image threads_number video sched _
                (v2_reach_refl _ _)) as Hd.
  destruct (v2_run _ _ _) as [s| |] eqn:E; [|by left|done].
  right. exists s. split; [done|]. intros t.
  apply (v2_step_defined process_image threads_number video).
  by apply v2_run_reach with sched.
Qed.

(** X3. Allocation in the three stages: at every moment the nodes on the
    heap and the nodes freed are together the nodes allocated; when
    [parallel_processing] has returned, the M frame nodes have been freed by
    [send_frame_to_display] in the order of their ids, the final loop has
    freed N - 1 sentinels and nothing else, and exactly one node, the
    sentinel that [stage_three] removed, is still allocated. *)
Theorem stage_nodes_freed (threads_number : Z) (video : list Mat)
    (s : stage_state Mat) :
  stage_reach process_image (stage_init threads_number video) s →
  (size (heap (st_mem s)) + length (free_log (st_log s)))%nat =
    length (push_log (st_log s)) ∧
  (st_main s = MainReturn →
     size (heap (st_mem s)) = 1%nat ∧
     display_ids (st_log s) = map id_of (seq 0 (length video)) ∧
     discard_log (st_log s) =
       replicate (Z.to_nat threads_number - 1)
                 (Z.of_nat (length video) + 1, true) ∧
     free_log (st_log s) =
       display_ids (st_log s) ++
       replicate (Z.to_nat threads_number - 1) (Z.of_nat (length video) + 1)).
Proof.
  intros Hr. pose proof (stage_reach_balanced process_image _ _ _ Hr) as Hb.
  split; [done|]. intros Hm.
  destruct (stage_reach_rel process_image _ _ _ Hr)
    as (k & Hk & (held & li & lo & Hrel)).
  destruct (stage_inv_reach _ _ _ _ Hk) as (r & p & e & sent & sp & Hi).
  destruct (stage_discards _ _ _ _ Hk) as (d & Hd & Hf & Hn).
  rewrite (sr_main _ _ _ _ _ Hrel) in Hm. rewrite (sr_log _ _ _ _ _ Hrel) in *.
  rewrite Hm, (si_done _ _ _ _ _ _ _ _ _ Hi Hm) in Hn. simpl in Hn.
  destruct (stage_inv_final _ _ _ _ _ _ _ _ _ Hi) as (-> & -> & -> & -> & _);
    [congruence|].
  replace (Z.to_nat threads_number - 1)%nat with d by lia.
  pose proof (si_display _ _ _ _ _ _ _ _ _ Hi) as Hdi.
  split_and!; [|done..]. unfold balanced in Hb.
  rewrite Hf, (si_push _ _ _ _ _ _ _ _ _ Hi), Hdi in Hb.
  rewrite !length_app, !length_map, !length_seq, !length_replicate in Hb. lia.
Qed.

(** X4. Allocation in version 2: at every moment the nodes on the heap and
    the nodes freed are together the nodes allocated, and the loop that ends
    [parallel_processing] never frees a node, because the output queue is
    empty when it is reached; when [parallel_processing] has returned, the M
    frame nodes have been freed by [send_frame_to_display] in the order of
    their ids and exactly one node, the sentinel that the master removed, is
    still allocated. *)
Theorem v2_nodes_freed (threads_number : Z) (video : list Mat)
    (s : v2_state Mat) :
  v2_reach process_image (v2_init threads_number video) s →
  (size (heap (v2_mem s)) + length (free_log (v2_log s)))%nat =
    length (push_log (v2_log s)) ∧
  discard_log (v2_log s) = [] ∧
  (v2_main s = MainReturn →
     size (heap (v2_mem s)) = 1%nat ∧
     free_log (v2_log s) = map id_of (seq 0 (length video))).
Proof.
  intros Hr. pose proof (v2_reach_balanced process_image _ _ _ Hr) as Hb.
  split; [done|].
  destruct (v2_reach_rel process_image _ _ _ Hr)
    as (k & Hk & (held & li & lo & Hrel)).
  destruct (v2_inv_reach _ _ _ _ Hk) as (r & p & e & sent & sp & Hi).
  destruct (v2_discards _ _ _ _ Hk) as [Hd Hf].
  rewrite (vr_main _ _ _ _ _ Hrel). rewrite (vr_log _ _ _ _ _ Hrel) in *.
  split; [done|]. intros Hm.
  destruct (v2_inv_final _ _ _ _ _ _ _ _ _ Hi) as (-> & -> & -> & -> & -> & _);
    [congruence|].
  pose proof (vi_display _ _ _ _ _ _ _ _ _ Hi) as Hdi.
  split; [|congruence]. unfold balanced in Hb.
  rewrite Hf, (vi_push _ _ _ _ _ _ _ _ _ Hi), Hdi in Hb.
  rewrite !length_app, !length_map, !length_seq, !length_replicate in Hb. lia.
Qed.

(** X5. The counter [correctness] of version 2, a 32-bit [int]: when e
    frames have been written it holds 1 + 2 + ... + e, the sum of their ids,
    modulo 2^32 as a signed number, and [current_frame] is e + 1. On a
    stream of at most 65535 frames no addition overflows: [correctness] is
    exactly e (e + 1) / 2 at every moment, and M (M + 1) / 2 when
    [parallel_processing] has returned. At the end of a longer stream the
    value that [main] prints is not the sum of the ids, which no longer fits
    an [int]. *)
Theorem v2_correctness_sum (threads_number : Z) (video : list Mat)
    (s : v2_state Mat) :
  v2_reach process_image (v2_init threads_number video) s →
  ∃ e, (e ≤ length video)%nat ∧
       v2_writer s = map process_image (take e video) ∧
       v2_current_frame s = Z.of_nat e + 1 ∧
       v2_correctness s = wrap_int (Z.of_nat e * (Z.of_nat e + 1) / 2) ∧
       -2147483648 ≤ v2_correctness s ≤ 2147483647 ∧
       (v2_main s = MainReturn → e = length video) ∧
       (Z.of_nat (length video) ≤ 65535 →
          2 * v2_correctness s = Z.of_nat e * (Z.of_nat e + 1)) ∧
       (v2_main s = MainReturn → 65536 ≤ Z.of_nat (length video) →
          v2_correctness s <
            Z.of_nat (length video) * (Z.of_nat (length video) + 1) / 2).
Proof.
  intros (k & r & p & e & sent & sp & (held & li & lo & Hrel) & Hi)%v2_reach_inv.
  pose proof (vi_bounds _ _ _ _ _ _ _ _ _ Hi) as Hb.
  pose proof (vi_correctness _ _ _ _ _ _ _ _ _ Hi) as Hc.
  rewrite (vr_writer _ _ _ _ _ Hrel), (vr_current _ _ _ _ _ Hrel),
    (vr_correctness _ _ _ _ _ Hrel), (vr_main _ _ _ _ _ Hrel).
  assert (lv_main k = MainReturn → e = length video) as He.
  { intros Hm. destruct (v2_inv_final _ _ _ _ _ _ _ _ _ Hi) as (-> & _);
      [congruence|done]. }
  pose proof (wrap_int_range (Z.of_nat e * (Z.of_nat e + 1) / 2)) as Hrg.
  assert (∃ t, Z.of_nat e * (Z.of_nat e + 1) = 2 * t) as [t Ht].
  { destruct (Z.Even_or_Odd (Z.of_nat e)) as [[h Hh]|[h Hh]].
    - exists (h * (Z.of_nat e + 1)). lia.
    - exists (Z.of_nat e * (h + 1)). lia. }
  assert (Z.of_nat e * (Z.of_nat e + 1) / 2 = t) as Ediv.
  { rewrite Ht, Z.mul_comm. by apply Z.div_mul. }
  exists e. split_and!; try done.
  - lia.
  - apply (vi_writer _ _ _ _ _ _ _ _ _ Hi).
  - apply (vi_current _ _ _ _ _ _ _ _ _ Hi).
  - rewrite Hc. lia.
  - rewrite Hc. lia.
  - intros Hl. assert (0 ≤ Z.of_nat e ≤ 65535) as Hle by lia.
    assert (Z.of_nat e * (Z.of_nat e + 1) ≤ 65535 * 65536) by nia.
    rewrite Hc, Ediv, wrap_int_small; lia.
  - intros Hm Hl. specialize (He Hm). subst e. rewrite Hc.
    assert (65536 * 65537 ≤
            Z.of_nat (length video) * (Z.of_nat (length video) + 1)) by nia.
    rewrite Ediv in *. lia.
Qed.

(** X6. Counters of the three stages: at every moment [nframes] and
    [current_frame] are between 0 and M + 1 and each size counter is between
    0 and M + N; when [parallel_processing] has returned, [nframes], from
    which [main] computes the frames per second, is M + 1, one more than the
    number of frames, and so is [current_frame]. *)
Theorem stage_counters (threads_number : Z) (video : list Mat)
    (s : stage_state Mat) :
  stage_reach process_image (stage_init threads_number video) s →
  let M := Z.of_nat (length video) in
  let N := Z.max 0 threads_number in
  0 ≤ st_nframes s ≤ M + 1 ∧
  0 ≤ st_current_frame s ≤ M + 1 ∧
  0 ≤ size_input_work_queue (st_mem s) ≤ M + N ∧
  0 ≤ size_output_work_queue (st_mem s) ≤ M + N ∧
  (st_main s = MainReturn →
     st_nframes s = M + 1 ∧ st_current_frame s = M + 1).
Proof.
  intros Hr M N.
  destruct (stage_reach_rel process_image _ _ _ Hr)
    as (k & Hk & (held & li & lo & Hrel)).
  destruct (stage_inv_reach _ _ _ _ Hk) as (r & p & e & sent & sp & Hi).
  destruct (stage_inv_bounds _ _ _ _ _ _ _ _ _ Hi) as (Hn & Hc & Hin & _).
  pose proof (stage_out_bound _ _ _ _ Hk) as Hout.
  rewrite (sr_nframes _ _ _ _ _ Hrel), (sr_current _ _ _ _ _ Hrel),
    (sr_main _ _ _ _ _ Hrel),
    (mv_size_in _ _ _ _ _ _ (sr_view _ _ _ _ _ Hrel)),
    (mv_size_out _ _ _ _ _ _ (sr_view _ _ _ _ _ Hrel)).
  split_and!; try lia. intros Hm.
  destruct (si_main _ _ _ _ _ _ _ _ _ Hi) as [?|He]; [congruence|].
  pose proof (si_one _ _ _ _ _ _ _ _ _ Hi) as H1.
  pose proof (si_three _ _ _ _ _ _ _ _ _ Hi) as H3.
  unfold list_threads_ended in He. destruct (ls_one k); try done.
  destruct (ls_three k); try done. subst M. lia.
Qed.

(** X7. Counters of version 2: at every moment [nframes] is between 1 and
    M + 2, [current_frame] between 1 and M + 1 and each size counter between
    0 and M + 1; when [parallel_processing] has returned, [nframes], from
    which [main] computes the frames per second, is M + 2, two more than the
    number of frames, and [current_frame] is M + 1. *)
Theorem v2_counters (threads_number : Z) (video : list Mat)
    (s : v2_state Mat) :
  v2_reach process_image (v2_init threads_number video) s →
  let M := Z.of_nat (length video) in
  1 ≤ v2_nframes s ≤ M + 2 ∧
  1 ≤ v2_current_frame s ≤ M + 1 ∧
  0 ≤ size_input_work_queue (v2_mem s) ≤ M + 1 ∧
  0 ≤ size_output_work_queue (v2_mem s) ≤ M + 1 ∧
  (v2_main s = MainReturn →
     v2_nframes s = M + 2 ∧ v2_current_frame s = M + 1).
Proof.
  intros (k & r & p & e & sent & sp & (held & li & lo & Hrel) & Hi)%v2_reach_inv M.
  destruct (v2_inv_bounds _ _ _ _ _ _ _ _ _ Hi) as (Hn & Hc & Hin & Hout).
  rewrite (vr_nframes _ _ _ _ _ Hrel), (vr_current _ _ _ _ _ Hrel),
    (vr_main _ _ _ _ _ Hrel),
    (mv_size_in _ _ _ _ _ _ (vr_view _ _ _ _ _ Hrel)),
    (mv_size_out _ _ _ _ _ _ (vr_view _ _ _ _ _ Hrel)).
  split_and!; try lia. intros Hm.
  destruct (v2_inv_final _ _ _ _ _ _ _ _ _ Hi)
    as (-> & _ & _ & Hs & _); [congruence|].
  pose proof (vi_frame _ _ _ _ _ _ _ _ _ Hi) as H1.
  pose proof (vi_current _ _ _ _ _ _ _ _ _ Hi) as H3.
  destruct (lv_any_frame k); subst M; lia.
Qed.

End ProgramProperties.

Section QueueProperties.
Context {Mat : Type}.

(** X8. The tail pointers: after every sequence of queue operations each
    queue that is not empty has its tail pointer on its last node, and the
    [next] field of that node is [NULL]; the two queues have no node in
    common. (The tail pointer of an empty queue is stale: the remove
    functions leave it on the node they return.) *)
Theorem tail_pointers_on_last_nodes (ops : list (queue_op Mat)) :
  ∃ c li lo,
    client_run ops client_init = Some c ∧
    chain (heap (cl_mem c)) (input_head (cl_mem c)) li ∧
    chain (heap (cl_mem c)) (output_head (cl_mem c)) lo ∧
    (∀ a, a ∈ li → a ∉ lo) ∧
    (li ≠ [] →
       ∃ a n, input_tail (cl_mem c) = Some a ∧ last li = Some a ∧
              heap (cl_mem c) !! a = Some n ∧ next n = None) ∧
    (lo ≠ [] →
       ∃ a n, output_tail (cl_mem c) = Some a ∧ last lo = Some a ∧
              heap (cl_mem c) !! a = Some n ∧ next n = None).
Proof.
  destruct (client_run_wf ops) as (c & li & lo & qi & qo & held & E & Hv & _).
  exists c, li, lo. destruct Hv as [[Hci _ Hti] [Hco _ Hto] _ _ Hap _].
  split_and!; try done.
  - intros Hne. specialize (Hti Hne).
    destruct (last li) as [a|] eqn:El; [|by apply last_None in El].
    apply last_Some in El as [l' ->].
    pose proof (chain_suffix _ _ _ _ _ Hci) as [_ (n & Hn & Hnx)].
    simpl in Hnx. by exists a, n.
  - intros Hne. specialize (Hto Hne).
    destruct (last lo) as [a|] eqn:El; [|by apply last_None in El].
    apply last_Some in El as [l' ->].
    pose proof (chain_suffix _ _ _ _ _ Hco) as [_ (n & Hn & Hnx)].
    simpl in Hnx. by exists a, n.
Qed.

(** X9. Removed nodes are detached: after every sequence of queue operations
    the nodes removed from the input queue and not yet forwarded are pairwise
    different, each is allocated with [next = NULL], and none of them is
    reachable from the head of a queue. *)
Theorem removed_nodes_detached (ops : list (queue_op Mat)) :
  ∃ c li lo,
    client_run ops client_init = Some c ∧
    chain (heap (cl_mem c)) (input_head (cl_mem c)) li ∧
    chain (heap (cl_mem c)) (output_head (cl_mem c)) lo ∧
    NoDup (cl_hand c) ∧
    Forall (λ a, (∃ n, heap (cl_mem c) !! a = Some n ∧ next n = None) ∧
                 (a ∉ li) ∧ (a ∉ lo)) (cl_hand c).
Proof.
  destruct (client_run_rel ops _ _ _ _ (@client_rel_init Mat))
    as (c & li & lo & E & held & [Hv Hh Hnd _ _ _]).
  exists c, li, lo. split_and!; try done.
  - apply (in_chain _ _ (mv_in _ _ _ _ _ _ Hv)).
  - apply (out_chain _ _ (mv_out _ _ _ _ _ _ Hv)).
  - apply Forall_forall. intros a Ha.
    destruct (hand_rel_held _ _ _ _ Hh Ha) as [x Hx].
    by destruct (mv_held _ _ _ _ _ _ Hv _ _ _ Hx) as (? & _ & ? & ?).
Qed.

(** X10. The head ids: after every sequence of queue operations
    [get_head_id_from_input_work_queue] returns the id of the oldest node
    pushed and not yet removed, and [get_head_id_from_output_work_queue] the
    id of the first node of the output queue; on an empty queue each of them
    dereferences [NULL]. *)
Theorem head_ids (ops : list (queue_op Mat)) :
  ∃ c li lo qi qo,
    client_run ops client_init = Some c ∧
    holds (heap (cl_mem c)) li qi ∧ holds (heap (cl_mem c)) lo qo ∧
    chain (heap (cl_mem c)) (input_head (cl_mem c)) li ∧
    chain (heap (cl_mem c)) (output_head (cl_mem c)) lo ∧
    cl_arrived c = cl_removed c ++ qi ∧
    get_head_id_from_input_work_queue (cl_mem c) = it_id <$> head qi ∧
    get_head_id_from_output_work_queue (cl_mem c) = it_id <$> head qo.
Proof.
  destruct (client_run_wf ops)
    as (c & li & lo & qi & qo & held & E & Hv & _ & Hf & _).
  exists c, li, lo, qi, qo.
  pose proof (in_chain _ _ (mv_in _ _ _ _ _ _ Hv)) as Hci.
  pose proof (out_chain _ _ (mv_out _ _ _ _ _ _ Hv)) as Hco.
  pose proof (mv_in_items _ _ _ _ _ _ Hv) as Hqi.
  pose proof (mv_out_items _ _ _ _ _ _ Hv) as Hqo.
  split_and!; try done.
  - unfold get_head_id_from_input_work_queue.
    destruct Hqi as [|a x li' qi' Hx _]; simpl in Hci; [by rewrite Hci|].
    destruct Hci as [-> (n & Hn & _)]. simpl. rewrite Hn. simpl.
    unfold item_at in Hx. rewrite Hn in Hx. by injection Hx as <-.
  - unfold get_head_id_from_output_work_queue.
    destruct Hqo as [|a x lo' qo' Hx _]; simpl in Hco; [by rewrite Hco|].
    destruct Hco as [-> (n & Hn & _)]. simpl. rewrite Hn. simpl.
    unfold item_at in Hx. rewrite Hn in Hx. by injection Hx as <-.
Qed.

End QueueProperties.

Section LoopProperties.
Context {Mat : Type}.
Variable process_image : Mat → Mat.

(** X11. The loop of [lane_detection_openmp.cpp] writes the frames in
    order, whatever the number of threads: at every moment the frames written
    are the transformed frames of a prefix of the stream and the ids of the
    nodes passed to [send_frame_to_display] are 0, 1, 2, ... in this order;
    once [finished] is set, and when [parallel_processing] has returned, the
    whole stream has been written. From every state it reaches the program
    can run until [parallel_processing] returns, also when the number of
    threads asked for is zero or negative. *)
Theorem loop_frames_written_in_order (threads_number : Z) (video : list Mat)
    (s : loop_state Mat) :
  loop_reach process_image (loop_init threads_number video) s →
  (∃ e, (e ≤ length video)%nat ∧
        lo_writer s = map process_image (take e video) ∧
        display_ids (lo_log s) = map Z.of_nat (seq 0 e)) ∧
  (lo_finished s = true → lo_writer s = map process_image video) ∧
  (lo_main s = MainReturn → lo_writer s = map process_image video) ∧
  (∃ sched s', loop_run process_image sched s = Next s' ∧
               lo_main s' = MainReturn).
Proof.
  intros Hs. pose proof (loop_ends process_image _ _ _ Hs) as He.
  pose proof (loop_returned_writer process_image _ _ _ Hs) as Hret.
  destruct (loop_reach_inv _ _ _ _ Hs)
    as (k & r & e & c & (held & lo & Hr) & Hi).
  pose proof (li_writer _ _ _ _ _ _ _ Hi) as Hw.
  pose proof (li_bounds _ _ _ _ _ _ _ Hi) as Hb.
  rewrite (lr_writer _ _ _ _ Hr), (lr_log _ _ _ _ Hr),
    (lr_finished _ _ _ _ Hr) in *.
  split_and!; try done.
  - exists e. split_and!; [lia|done|apply (li_display _ _ _ _ _ _ _ Hi)].
  - intros Hf. rewrite (li_finished _ _ _ _ _ _ _ Hi Hf) in Hw.
    by rewrite Hw, firstn_all.
Qed.

(** X12. Memory safety of the loop: whatever the number of threads, the
    stream and the order in which the threads take their steps, no step
    dereferences a null pointer or a freed node; in particular
    [get_head_id_from_output_work_queue] is never called on an empty queue
    and [send_frame_to_display] never on a node without a frame. *)
Theorem loop_memory_safe (threads_number : Z) (video : list Mat)
    (sched : list thread) :
  loop_run process_image sched (loop_init threads_number video) = Blocked ∨
  ∃ s, loop_run process_image sched (loop_init threads_number video) = Next s ∧
       ∀ t, loop_step process_image t s ≠ Undefined.
Proof.
  pose proof (loop_run_defined process_image threads_number video sched _
                (loop_reach_refl _ _)) as Hd.
  destruct (loop_run _ _ _) as [s| |] eqn:E; [|by left|done].
  right. exists s. split; [done|]. intros t.
  apply (loop_step_defined process_image threads_number video).
  by apply loop_run_reach with sched.
Qed.

(** X13. In the loop [process_frame] is called at most once on an id, only
    on ids of frames of the stream, and a frame is written only after
    [process_frame] has been called on it; when [parallel_processing] has
    returned it has been called exactly once on each of the ids
    0, ..., M - 1. *)
Theorem loop_frames_processed_once (threads_number : Z) (video : list Mat)
    (s : loop_state Mat) :
  loop_reach process_image (loop_init threads_number video) s →
  NoDup (process_ids (lo_log s)) ∧
  (∀ id, id ∈ process_ids (lo_log s) → 0 ≤ id < Z.of_nat (length video)) ∧
  display_ids (lo_log s) ⊆ process_ids (lo_log s) ∧
  (lo_main s = MainReturn →
     process_ids (lo_log s) ≡ₚ map Z.of_nat (seq 0 (length video))).
Proof.
  intros (k & r & e & c & (held & lo & Hr) & Hi)%loop_reach_inv.
  rewrite (lr_log _ _ _ _ Hr), (lr_main _ _ _ _ Hr).
  pose proof (li_process _ _ _ _ _ _ _ Hi) as Hp.
  pose proof (li_bounds _ _ _ _ _ _ _ Hi) as Hb.
  split_and!.
  - pose proof (NoDup_nats 0 r) as Hnd. rewrite <-Hp in Hnd.
    by apply NoDup_app in Hnd as (? & _ & _).
  - intros id Hid.
    assert (id ∈ map Z.of_nat (seq 0 r)) as Hin
      by (rewrite <-Hp; apply elem_of_app; by left).
    apply elem_nats in Hin as (i & -> & Hi'). lia.
  - intros z Hz. rewrite (li_display _ _ _ _ _ _ _ Hi) in Hz.
    apply elem_nats in Hz as (i & -> & Hie).
    assert (Z.of_nat i ∈ map Z.of_nat (seq 0 r)) as Hin.
    { apply list_elem_of_fmap. exists i. split; [done|].
      apply elem_of_seq. lia. }
    rewrite <-Hp in Hin. apply elem_of_app in Hin as [Hin|Hin]; [done|].
    exfalso. apply list_elem_of_omap in Hin as (th & Hth & Hpe).
    assert (Z.of_nat i ∈ map Z.of_nat (seq e (r - e))) as Hin.
    { rewrite <-(li_frames _ _ _ _ _ _ _ Hi). apply elem_of_app. left.
      apply list_elem_of_omap. exists th. split; [done|].
      unfold pending in Hpe. unfold hand_frame. by destruct (ll_pc th). }
    apply elem_nats in Hin as (i' & Hii & Hr'). lia.
  - intros Hm.
    destruct (loop_inv_joined _ _ _ _ _ _ _ Hi) as (_ & _ & -> & _ & Hpe & _);
      [congruence|].
    by rewrite Hpe, app_nil_r in Hp.
Qed.

(** X14. The end of the stream in the loop: every thread that finds
    [is_there_any_work] set and then reads an empty frame takes an id from
    [nframes] and allocates an end-of-stream node, so that [nframes], from
    which [main] computes the frames per second, is M + c at the return of
    [parallel_processing], where c, the number of these nodes, is at least 1
    and at most the number of threads.
    The loop that ends [parallel_processing] frees c - 1 of them, those with
    the ids M + 1, ..., M + c - 1, and exactly one node, the end-of-stream
    node with id M that set [finished], is still allocated at the return. At
    every moment the nodes on the heap and the nodes freed are at most
    [nframes]. *)
Theorem loop_end_of_stream_nodes (threads_number : Z) (video : list Mat)
    (s : loop_state Mat) :
  loop_reach process_image (loop_init threads_number video) s →
  Z.of_nat (size (heap (lo_mem s)) + length (free_log (lo_log s)))
    ≤ lo_nframes s ∧
  lo_nframes s ≤ Z.of_nat (length video + team_size threads_number) ∧
  (lo_main s = MainReturn →
     ∃ c, (1 ≤ c ≤ team_size threads_number)%nat ∧
          lo_nframes s = Z.of_nat (length video + c) ∧
          discard_log (lo_log s) ≡ₚ
            map (λ j, (Z.of_nat j, true)) (seq (S (length video)) (c - 1)) ∧
          length (free_log (lo_log s)) = (length video + c - 1)%nat ∧
          size (heap (lo_mem s)) = 1%nat).
Proof.
  intros Hs. pose proof (loop_reach_counted process_image _ _ _ Hs) as Hc.
  unfold counted in Hc.
  destruct (loop_reach_inv _ _ _ _ Hs)
    as (k & r & e & c & (held & lo & Hr) & Hi).
  pose proof (li_nframes _ _ _ _ _ _ _ Hi) as Hn.
  pose proof (li_bounds _ _ _ _ _ _ _ Hi) as Hb.
  pose proof (li_quota _ _ _ _ _ _ _ Hi) as Hq.
  rewrite (lr_nframes _ _ _ _ Hr) in *.
  split_and!; [lia|lia|]. intros Hm. rewrite (lr_main _ _ _ _ Hr) in Hm.
  destruct (loop_inv_joined _ _ _ _ _ _ _ Hi)
    as (_ & -> & -> & Hc1 & _ & _ & Hla); [congruence|].
  rewrite (li_done _ _ _ _ _ _ _ Hi Hm) in Hla. simpl in Hla.
  exists c. rewrite (lr_log _ _ _ _ Hr) in *.
  assert (length (free_log (lp_log k)) = (length video + c - 1)%nat) as Hfl.
  { rewrite free_log_length, (li_display _ _ _ _ _ _ _ Hi).
    rewrite <-(length_fmap fst (discard_log _)), Hla.
    rewrite !length_map, !length_seq. lia. }
  split_and!; try done; try lia.
  - rewrite (discard_all_last _ (li_discard _ _ _ _ _ _ _ Hi)), Hla.
    by rewrite <-list_fmap_compose.
  - destruct (li_main _ _ _ _ _ _ _ Hi) as [?|He]; [congruence|].
    destruct (loop_team_displaying _ _ _ (lr_team _ _ _ _ Hr)) as [_ Hrd].
    rewrite Hrd, (exited_no_reading _ He) in Hc. lia.
Qed.

(** X15. One thread at a time writes: the call of [oVideoWriter.write] in
    [send_frame_to_display] and the increment of [current_frame] are outside
    every lock, and the [single] construct lets a second thread into the
    block while the first is still there (see
    [loop_two_threads_in_single_block]); all the same at most one thread is
    at any moment between [remove_from_output_work_queue] and the end of
    [current_frame++]. [current_frame] is the number of frames written when
    no thread is there, one less at most when one is, and M when
    [parallel_processing] has returned. *)
Theorem loop_one_thread_displays (threads_number : Z) (video : list Mat)
    (s : loop_state Mat) :
  loop_reach process_image (loop_init threads_number video) s →
  (sum_list_with displaying (lo_team s) ≤ 1)%nat ∧
  lo_current_frame s ≤ Z.of_nat (length (lo_writer s))
    ≤ lo_current_frame s + 1 ∧
  (sum_list_with displaying (lo_team s) = 0%nat →
     lo_current_frame s = Z.of_nat (length (lo_writer s))) ∧
  (lo_main s = MainReturn → lo_current_frame s = Z.of_nat (length video)).
Proof.
  intros (k & r & e & c & (held & lo & Hr) & Hi)%loop_reach_inv.
  destruct (loop_team_displaying _ _ _ (lr_team _ _ _ _ Hr)) as [Hd _].
  pose proof (li_emitting _ _ _ _ _ _ _ Hi) as Hem.
  pose proof (li_current _ _ _ _ _ _ _ Hi) as Hcur.
  pose proof (li_bounds _ _ _ _ _ _ _ Hi) as Hb.
  pose proof (stepping_le_emitting (lp_team k)) as Hst.
  rewrite Hd, (lr_current _ _ _ _ Hr), (lr_writer _ _ _ _ Hr),
    (lr_main _ _ _ _ Hr), (li_writer _ _ _ _ _ _ _ Hi).
  rewrite length_map, length_take, Nat.min_l by lia.
  split_and!; try lia. intros Hm.
  destruct (loop_inv_joined _ _ _ _ _ _ _ Hi) as (_ & -> & _ & _ & _ & H0 & _);
    [congruence|].
  lia.
Qed.

(** X16. The output queue of the loop: at every moment the ids of the nodes
    linked from [output_head], end-of-stream nodes included, increase
    strictly from the head, so that [add_to_output_work_queue] never meets
    the id it inserts; each of them is at least [current_frame] and less than
    [nframes], and [size_output_work_queue] is their number. A node of the
    queue either carries the transformed frame of the stream whose index is
    its id, or is an end-of-stream node without a frame and with an id from M
    on. *)
Theorem loop_output_ids_increase (threads_number : Z) (video : list Mat)
    (s : loop_state Mat) :
  loop_reach process_image (loop_init threads_number video) s →
  ∃ lo qo,
    chain (heap (lo_mem s)) (output_head (lo_mem s)) lo ∧
    holds (heap (lo_mem s)) lo qo ∧
    size_output_work_queue (lo_mem s) = Z.of_nat (length qo) ∧
    StronglySorted (λ x y, it_id x < it_id y) qo ∧
    Forall (λ x, lo_current_frame s ≤ it_id x < lo_nframes s) qo ∧
    Forall (λ x,
              (∃ i image, video !! i = Some image ∧
                 x = Item (Some (process_image image)) (Z.of_nat i) false) ∨
              (∃ j, (length video ≤ j)%nat ∧
                 x = Item None (Z.of_nat j) true)) qo.
Proof.
  intros (k & r & e & c & (held & lo & Hr) & Hi)%loop_reach_inv.
  pose proof (lr_view _ _ _ _ Hr) as Hv.
  destruct (loop_out_strict _ _ _ _ _ _ _ Hi) as (Hs & Hrg & Hit).
  pose proof (li_current _ _ _ _ _ _ _ Hi) as Hcur.
  exists lo, (lp_out k). split_and!; try done.
  - apply (out_chain _ _ (mv_out _ _ _ _ _ _ Hv)).
  - apply (mv_out_items _ _ _ _ _ _ Hv).
  - by eapply mv_size_out.
  - rewrite (lr_current _ _ _ _ Hr), (lr_nframes _ _ _ _ Hr),
      (li_nframes _ _ _ _ _ _ _ Hi).
    eapply Forall_impl; [exact Hrg|]. intros x Hx. simpl in Hx. lia.
Qed.

(** X17. The parallel programs write what the sequential programs write:
    the loop of [lane_detection_seq.cpp] and [serial_LaneDetect.cpp] writes
    the transformed frames of the stream in order and leaves the number of
    frames in [nframes], and the frames written by the three stages, by
    version 2 and by the loop of [lane_detection_openmp.cpp], when
    [parallel_processing] has returned, are the same frames in the same
    order. *)
Theorem parallel_writes_as_sequential (threads_number : Z)
    (video : list Mat) :
  sequential_loop process_image video [] 0 =
    (map process_image video, Z.of_nat (length video)) ∧
  (∀ s, stage_reach process_image (stage_init threads_number video) s →
        st_main s = MainReturn →
        st_writer s = (sequential_loop process_image video [] 0).1) ∧
  (∀ s, v2_reach process_image (v2_init threads_number video) s →
        v2_main s = MainReturn →
        v2_writer s = (sequential_loop process_image video [] 0).1) ∧
  (∀ s, loop_reach process_image (loop_init threads_number video) s →
        lo_main s = MainReturn →
        lo_writer s = (sequential_loop process_image video [] 0).1).
Proof.
  rewrite sequential_loop_spec. simpl. split_and!; [done|..].
  - apply stage_returned_writer.
  - apply v2_returned_writer.
  - apply loop_returned_writer.
Qed.

(** X18. Version 2 needs a thread besides the master: when the worker count
    is zero or negative the team is the master alone, which skips block two;
    then nothing is ever written, [finished] is never set and
    [parallel_processing] does not return, while the master is never stopped
    and goes round its loop for ever. *)
Theorem v2_without_worker_spins (threads_number : Z) (video : list Mat)
    (s : v2_state Mat) :
  threads_number ≤ 0 →
  v2_reach process_image (v2_init threads_number video) s →
  finished s = false ∧ v2_main s = MainJoin ∧ v2_writer s = [] ∧
  ∃ s', v2_step process_image Ingest s = Next s'.
Proof.
  intros HN (k & Hk & Hrel)%v2_reach_rel.
  destruct (list_v2_no_worker process_image _ video HN k Hk)
    as (_ & _ & Hf & Hx & Ht & Hm & Hwr).
  pose proof (v2_step_rel process_image Ingest _ _ Hrel) as Hst.
  destruct Hrel as (held & li & lo & Hr).
  rewrite (vr_main _ _ _ _ _ Hr), (vr_writer _ _ _ _ _ Hr),
    (vr_finished _ _ _ _ _ Hr).
  split_and!; try done.
  simpl in Hst. unfold list_v2_master in Hst.
  destruct (lv_master k) as [| | |x|]; simpl in Hst.
  - destruct Hst as (s' & Hs' & _). by exists s'.
  - destruct Hst as (s' & Hs' & _). by exists s'.
  - destruct Hst as (s' & Hs' & _). by exists s'.
  - by destruct (Ht x).
  - done.
Qed.

(** X19. Payloads in the loop: in every state every node on the heap has
    [frame = NULL] exactly when [is_the_last_node] is true; a step that
    creates a node creates it so, and a step changes neither the id, nor the
    flag, nor the presence of the frame of a node that stays on the heap. *)
Theorem loop_payload_iff_not_terminal (threads_number : Z)
    (video : list Mat) (s : loop_state Mat) :
  loop_reach process_image (loop_init threads_number video) s →
  heap_ok (heap (lo_mem s)) ∧
  ∀ t s', loop_step process_image t s = Next s' →
          kept (heap (lo_mem s)) (heap (lo_mem s')).
Proof.
  intros Hs. split; [by eapply loop_reach_heap_ok|].
  intros t s' Hstep. by eapply loop_step_kept.
Qed.

End LoopProperties.

(** ** Runs on concrete streams *)

(** A run of the loop with one thread on a stream of two frames: the thread
    goes round the loop four times, reading and displaying the two frames and
    then the end of the stream, and leaves. *)
Definition loop_one_thread_schedule : list thread :=
  replicate 31 (Worker 0) ++ [Main; Main].

(** A run of the loop with two threads that take their steps in turn on the
    empty stream: both read the end of the stream before one of them has
    cleared [is_there_any_work]. *)
Definition loop_two_threads_schedule : list thread :=
  mjoin (replicate 11 [Worker 0; Worker 1]) ++ [Worker 1; Main; Main; Main].

(** A run of the loop with two threads on a stream of one frame, in which
    the second thread overtakes the first. *)
Definition loop_overtaking_schedule : list thread :=
  [Worker 0; Worker 0] ++ replicate 10 (Worker 1).

Lemma stage_nodes_freed_witness :
  ∃ s, stage_run Z.opp two_frames_schedule (stage_init 2 [3; 4]) = Next s ∧
       size (heap (st_mem s)) = 1%nat.
Proof.
  eexists. split; [vm_compute; reflexivity|].
  refine (proj1 (proj2 (stage_nodes_freed Z.opp 2 [3; 4] _ _) _)).
  - apply stage_run_reach with two_frames_schedule. vm_compute. reflexivity.
  - vm_compute. reflexivity.
Defined.

Lemma v2_nodes_freed_witness :
  ∃ s, v2_run Z.opp one_frame_schedule (v2_init 2 [7]) = Next s ∧
       discard_log (v2_log s) = [] ∧ size (heap (v2_mem s)) = 1%nat.
Proof.
  eexists. split; [vm_compute; reflexivity|].
  refine ((λ H, conj (proj1 (proj2 H)) (proj1 (proj2 (proj2 H) _)))
            (v2_nodes_freed Z.opp 2 [7] _ _)).
  - vm_compute. reflexivity.
  - apply v2_run_reach with one_frame_schedule. vm_compute. reflexivity.
Defined.

Lemma v2_correctness_sum_witness :
  ∃ s, v2_run Z.opp one_frame_schedule (v2_init 2 [7]) = Next s ∧
       ∃ e, (e ≤ 1)%nat ∧ v2_current_frame s = Z.of_nat e + 1 ∧
            v2_correctness s = wrap_int (Z.of_nat e * (Z.of_nat e + 1) / 2).
Proof.
  eexists. split; [vm_compute; reflexivity|].
  refine ((λ H, match H with
                | ex_intro _ e (conj H1 (conj _ (conj H2 (conj H3 _)))) =>
                    ex_intro _ e (conj H1 (conj H2 H3))
                end)
            (v2_correctness_sum Z.opp 2 [7] _ _)).
  apply v2_run_reach with one_frame_schedule. vm_compute. reflexivity.
Defined.

(** The sum of the ids of 65536 frames is 2147516416, which is not an
    [int]: the addition of the last id to 2147450880, the sum of the others,
    gives a negative [correctness]. *)
Lemma correctness_overflows :
  wrap_int (65535 * 65536 / 2) = 2147450880 ∧
  wrap_int (2147450880 + 65536) = -2147450880 ∧
  wrap_int (65536 * 65537 / 2) = -2147450880.
Proof. by vm_compute. Qed.

Lemma stage_counters_witness :
  ∃ s, stage_run Z.opp two_frames_schedule (stage_init 2 [3; 4]) = Next s ∧
       st_nframes s = 3 ∧ st_current_frame s = 3.
Proof.
  eexists. split; [vm_compute; reflexivity|].
  refine (proj2 (proj2 (proj2 (proj2 (stage_counters Z.opp 2 [3; 4] _ _)))) _).
  - apply stage_run_reach with two_frames_schedule. vm_compute. reflexivity.
  - vm_compute. reflexivity.
Defined.

Lemma v2_counters_witness :
  ∃ s, v2_run Z.opp one_frame_schedule (v2_init 2 [7]) = Next s ∧
       v2_nframes s = 3 ∧ v2_current_frame s = 2.
Proof.
  eexists. split; [vm_compute; reflexivity|].
  refine (proj2 (proj2 (proj2 (proj2 (v2_counters Z.opp 2 [7] _ _)))) _).
  - apply v2_run_reach with one_frame_schedule. vm_compute. reflexivity.
  - vm_compute. reflexivity.
Defined.

Lemma loop_frames_written_in_order_witness :
  ∃ s, loop_run Z.opp loop_one_thread_schedule (loop_init 0 [3; 4]) = Next s ∧
       lo_main s = MainReturn ∧
       lo_writer s = map Z.opp [3; 4].
Proof.
  eexists. split; [vm_compute; reflexivity|]. split; [vm_compute; reflexivity|].
  refine (proj1 (proj2 (proj2 (loop_frames_written_in_order Z.opp 0 [3; 4] _ _)))
            _).
  - apply loop_run_reach with loop_one_thread_schedule. vm_compute. reflexivity.
  - vm_compute. reflexivity.
Defined.

Lemma loop_frames_processed_once_witness :
  ∃ s, loop_run Z.opp loop_one_thread_schedule (loop_init 1 [3; 4]) = Next s ∧
       NoDup (process_ids (lo_log s)) ∧
       display_ids (lo_log s) ⊆ process_ids (lo_log s).
Proof.
  eexists. split; [vm_compute; reflexivity|].
  refine ((λ H, conj (proj1 H) (proj1 (proj2 (proj2 H))))
            (loop_frames_processed_once Z.opp 1 [3; 4] _ _)).
  apply loop_run_reach with loop_one_thread_schedule. vm_compute. reflexivity.
Defined.

Lemma loop_end_of_stream_nodes_witness :
  ∃ s, loop_run Z.opp loop_two_threads_schedule (loop_init 2 []) = Next s ∧
       ∃ c, (1 ≤ c ≤ 2)%nat ∧ lo_nframes s = Z.of_nat (0 + c) ∧
            size (heap (lo_mem s)) = 1%nat.
Proof.
  eexists. split; [vm_compute; reflexivity|].
  refine ((λ H, match H with
                | ex_intro _ c (conj H1 (conj H2 (conj _ (conj _ H3)))) =>
                    ex_intro _ c (conj H1 (conj H2 H3))
                end)
            (proj2 (proj2 (loop_end_of_stream_nodes Z.opp 2 [] _ _)) _)).
  - apply loop_run_reach with loop_two_threads_schedule. vm_compute.
    reflexivity.
  - vm_compute. reflexivity.
Defined.

(** Two threads in the [single] block at once: the first thread enters the
    block and stops before the lock; the second skips the block, reads,
    processes and sends the frame, comes round to the [single] construct
    again, enters the block, removes the node and writes the frame. *)
Lemma loop_two_threads_in_single_block :
  ∃ s, loop_run Z.opp loop_overtaking_schedule (loop_init 2 [5]) = Next s ∧
       lo_team s = [LoopThread 1 LoopEmit; LoopThread 2 LoopNext] ∧
       lo_writer s = [-5] ∧ lo_current_frame s = 0.
Proof. eexists. split; vm_compute; [reflexivity|done]. Qed.

Lemma loop_one_thread_displays_witness :
  ∃ s, loop_run Z.opp loop_overtaking_schedule (loop_init 2 [5]) = Next s ∧
       (sum_list_with displaying (lo_team s) ≤ 1)%nat ∧
       lo_current_frame s ≤ Z.of_nat (length (lo_writer s))
         ≤ lo_current_frame s + 1.
Proof.
  eexists. split; [vm_compute; reflexivity|].
  refine ((λ H, conj (proj1 H) (proj1 (proj2 H)))
            (loop_one_thread_displays Z.opp 2 [5] _ _)).
  apply loop_run_reach with loop_overtaking_schedule. vm_compute. reflexivity.
Defined.

Lemma loop_output_ids_increase_witness :
  ∃ s, loop_run Z.opp (replicate 22 (Worker 0)) (loop_init 2 [3; 4]) = Next s ∧
       ∃ lo qo,
         chain (heap (lo_mem s)) (output_head (lo_mem s)) lo ∧
         holds (heap (lo_mem s)) lo qo ∧
         size_output_work_queue (lo_mem s) = Z.of_nat (length qo) ∧
         StronglySorted (λ x y, it_id x < it_id y) qo.
Proof.
  eexists. split; [vm_compute; reflexivity|].
  refine (match loop_output_ids_increase Z.opp 2 [3; 4] _ _ with
          | ex_intro _ lo (ex_intro _ qo
              (conj H1 (conj H2 (conj H3 (conj H4 _))))) =>
              ex_intro _ lo (ex_intro _ qo (conj H1 (conj H2 (conj H3 H4))))
          end).
  apply loop_run_reach with (replicate 22 (Worker 0)). vm_compute. reflexivity.
Defined.

Lemma v2_without_worker_spins_witness :
  ∃ s, v2_run Z.opp [Ingest; Ingest; Ingest] (v2_init 0 [5]) = Next s ∧
       finished s = false ∧ v2_main s = MainJoin ∧ v2_writer s = [].
Proof.
  eexists. split; [vm_compute; reflexivity|].
  refine ((λ H, conj (proj1 H) (conj (proj1 (proj2 H))
                                     (proj1 (proj2 (proj2 H)))))
            (v2_without_worker_spins Z.opp 0 [5] _ _ _)).
  - lia.
  - apply v2_run_reach with [Ingest; Ingest; Ingest]. vm_compute. reflexivity.
Defined.

Lemma loop_payload_iff_not_terminal_witness :
  ∃ s, loop_run Z.opp (replicate 22 (Worker 0)) (loop_init 2 [3; 4]) = Next s ∧
       heap_ok (heap (lo_mem s)).
Proof.
  eexists. split; [vm_compute; reflexivity|].
  refine (proj1 (loop_payload_iff_not_terminal Z.opp 2 [3; 4] _ _)).
  apply loop_run_reach with (replicate 22 (Worker 0)). vm_compute. reflexivity.
Defined.
